(** * Antigravity-Link: a bridge between clients and the Antigravity IDE

    A shallow embedding of the bridge: [cdp-controller.js] (class
    [CDPController]), [input-injector.js] (class [InputInjector]),
    [bridge-injector.js] (the functions around the page layer and the
    page layer itself), [link-server.js] (class [LinkServer]) and
    [index.js] (the entry point).

    - Module [CDP]: the controller object, its sockets, promises and timers
      as an explicit store; every method and every socket or timer callback
      is a function on that store, and an execution is a list of actions.
      The constructor of the socket library and the HTTP endpoint answer
      from outside.
    - Module [Injector]: the asynchronous methods of the injector in an
      error and state monad over a clock and a transcript; the page and
      the connection below answer through an oracle.
    - Module [Bridge]: the functions of the page layer, over the elements
      they query.
    - Module [Server]: the HTTP and the WebSocket handler of the server,
      over any controller and injector.
    - Module [Main]: the command line and the connection loop of the entry
      point.
    - Modules [CDPFacts], [InjectorFacts], [BridgeFacts], [ServerFacts] and
      [MainFacts]: what is proved of them. *)

From stdpp Require Import gmap strings list fin_maps pretty.
From Stdlib Require Import ZArith Lia.
From Stdlib Require QArith.

(* ===================================================================== *)
(** ** The CDP connection manager                                         *)
(* ===================================================================== *)

Module CDP.

Local Open Scope Z_scope.

(** *** Data *)

(** [WebSocket.readyState]. *)
Inductive ReadyState := CONNECTING | OPEN | CLOSING | CLOSED.

#[global] Instance ReadyState_eq_dec : EqDecision ReadyState.
Proof. solve_decision. Defined.

(** An entry of [/json/list]; every field may be missing. *)
Record Page := {
  webSocketDebuggerUrl : option string;
  title : option string;
  url : option string
}.

(** A [WebSocket] object made by [connect].  The four handlers that
    [connect] registers on it close over [page] and over the [resolve] and
    [reject] of the promise [connect] returns. *)
Record Socket := {
  sk_url : string;
  readyState : ReadyState;
  sk_page : Page;
  sk_promise : nat
}.

(** The value stored in [this.pending]: the two closures of [send], which
    capture the timer and the promise of that call. *)
Record PendingCall := { pc_timer : nat; pc_promise : nat }.

(** The callback given to [setTimeout] in [send] captures [id], [method],
    [timeout] and the promise's [reject]. *)
Record Timer := {
  tm_id : Z;
  tm_method : string;
  tm_timeout : Z;
  tm_promise : nat
}.

(** State of a promise; a settled promise ignores later settlements. *)
Inductive Settled :=
| Unsettled
| Fulfilled (result : string)
| Rejected (message : string).

(** The request frame [{ id, method, params }]. *)
Record Frame := { f_id : Z; f_method : string; f_params : string }.

(** What a [message] event carries once [JSON.parse] has run.  [msg_id] is
    [None] when [msg.id] is missing or is a value no key of the map equals;
    [msg_error] is [msg.error.message] when [msg.error] is truthy. *)
Record Msg := {
  msg_id : option Z;
  msg_error : option string;
  msg_result : string
}.

Inductive Raw :=
| Unparseable          (* JSON.parse, or reading [msg.id], throws *)
| Parsed (msg : Msg).

(** Calls that leave the controller, in the order they happen. *)
Inductive Effect :=
| EffResolve (p : nat) (result : string)
| EffReject (p : nat) (message : string)
| EffWsSend (s : nat) (frame : Frame)
| EffWsClose (s : nat)
| EffLog (line : string).

(** The fields of [this]. *)
Record CDPController := {
  port : Z;
  ws : option nat;
  messageId : Z;
  pending : list (Z * PendingCall);   (* a JS Map: insertion order *)
  _connected : bool;
  _page : option Page
}.

Record World := {
  ctl : CDPController;
  sockets : list Socket;        (* handle = position *)
  promises : list Settled;      (* handle = position *)
  timers : gmap nat Timer;      (* the armed timers *)
  next_timer : nat;
  trace : list Effect
}.

(** [new CDPController(port)]. *)
Definition constructor (port : Z) : CDPController :=
  {| port := port; ws := None; messageId := 1; pending := [];
     _connected := false; _page := None |}.

Definition fresh (port : Z) : World :=
  {| ctl := constructor port; sockets := []; promises := [];
     timers := ∅; next_timer := 0%nat; trace := [] |}.

(** *** Field updates *)

Definition set_ctl (f : CDPController → CDPController) (w : World) : World :=
  {| ctl := f (ctl w); sockets := sockets w; promises := promises w;
     timers := timers w; next_timer := next_timer w; trace := trace w |}.

Definition with_ws (v : option nat) (c : CDPController) : CDPController :=
  {| port := port c; ws := v; messageId := messageId c;
     pending := pending c; _connected := _connected c; _page := _page c |}.

Definition with_messageId (v : Z) (c : CDPController) : CDPController :=
  {| port := port c; ws := ws c; messageId := v;
     pending := pending c; _connected := _connected c; _page := _page c |}.

Definition with_pending (v : list (Z * PendingCall)) (c : CDPController)
  : CDPController :=
  {| port := port c; ws := ws c; messageId := messageId c;
     pending := v; _connected := _connected c; _page := _page c |}.

Definition with_connected (v : bool) (c : CDPController) : CDPController :=
  {| port := port c; ws := ws c; messageId := messageId c;
     pending := pending c; _connected := v; _page := _page c |}.

Definition with_page (v : option Page) (c : CDPController) : CDPController :=
  {| port := port c; ws := ws c; messageId := messageId c;
     pending := pending c; _connected := _connected c; _page := v |}.

Definition emit (e : Effect) (w : World) : World :=
  {| ctl := ctl w; sockets := sockets w; promises := promises w;
     timers := timers w; next_timer := next_timer w;
     trace := trace w ++ [e] |}.

Definition set_promises (ps : list Settled) (w : World) : World :=
  {| ctl := ctl w; sockets := sockets w; promises := ps;
     timers := timers w; next_timer := next_timer w; trace := trace w |}.

Definition set_sockets (ss : list Socket) (w : World) : World :=
  {| ctl := ctl w; sockets := ss; promises := promises w;
     timers := timers w; next_timer := next_timer w; trace := trace w |}.

Definition set_timers (ts : gmap nat Timer) (n : nat) (w : World) : World :=
  {| ctl := ctl w; sockets := sockets w; promises := promises w;
     timers := ts; next_timer := n; trace := trace w |}.

Definition with_readyState (r : ReadyState) (sk : Socket) : Socket :=
  {| sk_url := sk_url sk; readyState := r; sk_page := sk_page sk;
     sk_promise := sk_promise sk |}.

(** *** The JS [Map] held in [this.pending] *)

Definition map_has (k : Z) (m : list (Z * PendingCall)) : bool :=
  existsb (λ kv, kv.1 =? k) m.

Definition map_get (k : Z) (m : list (Z * PendingCall)) : option PendingCall :=
  snd <$> List.find (λ kv, kv.1 =? k) m.

(** [set] keeps the position of a key that is already there. *)
Fixpoint map_set (k : Z) (v : PendingCall) (m : list (Z * PendingCall))
  : list (Z * PendingCall) :=
  match m with
  | [] => [(k, v)]
  | (k', v') :: m' =>
      if k' =? k then (k, v) :: m' else (k', v') :: map_set k v m'
  end.

Definition map_delete (k : Z) (m : list (Z * PendingCall))
  : list (Z * PendingCall) :=
  List.filter (λ kv, negb (kv.1 =? k)) m.

(** *** Numbers *)

(** [x++] on a JS number holding the integer [x]: doubles count exactly up
    to [2^53]; there [x + 1] rounds back to [x]. *)
Definition js_incr (x : Z) : Z := if x <? 2 ^ 53 then x + 1 else x.

(** *** Promises and timers *)

Definition new_promise (w : World) : nat * World :=
  (length (promises w), set_promises (promises w ++ [Unsettled]) w).

Definition settle (p : nat) (o : Settled) (w : World) : World :=
  match promises w !! p with
  | Some Unsettled => set_promises (<[p := o]> (promises w)) w
  | _ => w
  end.

Definition do_resolve (p : nat) (result : string) (w : World) : World :=
  emit (EffResolve p result) (settle p (Fulfilled result) w).

Definition do_reject (p : nat) (message : string) (w : World) : World :=
  emit (EffReject p message) (settle p (Rejected message) w).

Definition setTimeout (tm : Timer) (w : World) : nat * World :=
  (next_timer w, set_timers (<[next_timer w := tm]> (timers w)) (S (next_timer w)) w).

Definition clearTimeout (t : nat) (w : World) : World :=
  set_timers (delete t (timers w)) (next_timer w) w.

(** The closures stored by [send]:
    [(result) => { clearTimeout(timer); resolve(result); }] and
    [(err) => { clearTimeout(timer); reject(err); }]. *)
Definition entry_resolve (e : PendingCall) (result : string) (w : World) : World :=
  do_resolve (pc_promise e) result (clearTimeout (pc_timer e) w).

Definition entry_reject (e : PendingCall) (message : string) (w : World) : World :=
  do_reject (pc_promise e) message (clearTimeout (pc_timer e) w).

(** *** The methods of [CDPController] *)

(** [get connected()]. *)
Definition connected (w : World) : bool :=
  _connected (ctl w) &&
  match ws (ctl w) with
  | Some s =>
      match sockets w !! s with
      | Some sk => bool_decide (readyState sk = OPEN)
      | None => false
      end
  | None => false
  end.

(** [ws.close()] as the library does it: a socket that is connecting or
    open starts closing; the [close] event comes later. *)
Definition ws_close (s : nat) (w : World) : World :=
  let closing sk :=
    match readyState sk with
    | CONNECTING | OPEN => with_readyState CLOSING sk
    | _ => sk
    end in
  emit (EffWsClose s) (set_sockets (alter closing s (sockets w)) w).

Definition disconnect (w : World) : World :=
  let w :=
    match ws (ctl w) with
    | Some s => set_ctl (with_ws None) (ws_close s w)
    | None => w
    end in
  let w := set_ctl (with_connected false) w in
  let w := set_ctl (with_page None) w in
  set_ctl (with_pending []) w.

(** [page?.webSocketDebuggerUrl], when truthy. *)
Definition page_ws_url (page : option Page) : option (Page * string) :=
  match page with
  | Some pg =>
      match webSocketDebuggerUrl pg with
      | Some u => if bool_decide (u = "") then None else Some (pg, u)
      | None => None
      end
  | None => None
  end.

(** The constructor [WebSocket] of the [ws] library, which is no code of
    this repository.  [connect] calls it with the address of the page:
    [WebSocket_new wsUrl] is [None] when it makes a socket, which is then
    connecting, and [Some message] when it throws instead (an address
    that is no URL, or one with a scheme it does not take), [message]
    being the message of what it throws. *)
Class WebSocketLib := WebSocket_new : string → option string.

Section Methods.

Context {lib : WebSocketLib}.

(** [connect(page)]: the promise it returns, and the store after the
    synchronous part has run.  An exception of [new WebSocket(wsUrl)]
    is thrown inside the executor of the promise, before [this.ws] is
    assigned: the promise is rejected with it and no handler is
    registered. *)
Definition connect (page : option Page) (w : World) : nat * World :=
  match page_ws_url page with
  | None =>
      let '(p, w) := new_promise w in
      (p, do_reject p "无效的页面对象，缺少 webSocketDebuggerUrl" w)
  | Some (pg, wsUrl) =>
      let w := match ws (ctl w) with Some _ => disconnect w | None => w end in
      let '(p, w) := new_promise w in
      match WebSocket_new wsUrl with
      | Some message => (p, do_reject p message w)
      | None =>
          let s := length (sockets w) in
          let sk := {| sk_url := wsUrl; readyState := CONNECTING;
                       sk_page := pg; sk_promise := p |} in
          (p, set_ctl (with_ws (Some s)) (set_sockets (sockets w ++ [sk]) w))
      end
  end.

(** [page.title || page.url] inside the template string. *)
Definition page_label (pg : Page) : string :=
  match title pg with
  | Some t => if bool_decide (t = "") then default "undefined" (url pg) else t
  | None => default "undefined" (url pg)
  end.

(** The [open] handler of socket [s]. *)
Definition on_open (sk : Socket) (w : World) : World :=
  let w := set_ctl (with_connected true) w in
  let w := set_ctl (with_page (Some (sk_page sk))) w in
  let w := emit (EffLog ("[CDP] 已连接 -> " +:+ page_label (sk_page sk))) w in
  do_resolve (sk_promise sk) "" w.

(** The [message] handler. *)
Definition on_message (raw : Raw) (w : World) : World :=
  match raw with
  | Unparseable => w
  | Parsed msg =>
      match msg_id msg with
      | Some id =>
          if negb (id =? 0) && map_has id (pending (ctl w)) then
            match map_get id (pending (ctl w)) with
            | Some e =>
                let w := set_ctl (with_pending (map_delete id (pending (ctl w)))) w in
                match msg_error msg with
                | Some m => entry_reject e m w
                | None => entry_resolve e (msg_result msg) w
                end
            | None => w
            end
          else w
      | None => w
      end
  end.

(** [for (const [, { reject }] of entries) reject(new Error(message))]. *)
Definition reject_each (message : string) (entries : list (Z * PendingCall))
    (w : World) : World :=
  fold_left (λ w kv, entry_reject kv.2 message w) entries w.

(** The [close] handler. *)
Definition on_close (w : World) : World :=
  let w := set_ctl (with_connected false) w in
  let w := reject_each "连接已断开" (pending (ctl w)) w in
  set_ctl (with_pending []) w.

(** The [error] handler of socket [s]. *)
Definition on_error (sk : Socket) (err : string) (w : World) : World :=
  do_reject (sk_promise sk) err (set_ctl (with_connected false) w).

(** [this.ws.send(JSON.stringify({ id, method, params }))]. *)
Definition ws_send (f : Frame) (w : World) : World :=
  match ws (ctl w) with
  | Some s => emit (EffWsSend s f) w
  | None => w
  end.

(** [send(method, params, timeout)]: the promise it returns and the store
    after it. *)
Definition send (method params : string) (timeout : Z) (w : World)
  : nat * World :=
  if negb (connected w) then
    let '(p, w) := new_promise w in
    (p, do_reject p "CDP 未连接" w)
  else
    let '(p, w) := new_promise w in
    let id := messageId (ctl w) in
    let w := set_ctl (with_messageId (js_incr id)) w in
    let '(t, w) :=
      setTimeout {| tm_id := id; tm_method := method;
                    tm_timeout := timeout; tm_promise := p |} w in
    let e := {| pc_timer := t; pc_promise := p |} in
    let w := set_ctl (with_pending (map_set id e (pending (ctl w)))) w in
    (p, ws_send {| f_id := id; f_method := method; f_params := params |} w).

(** [evaluate(expression, timeout)]; [params] stands for the object
    [{ expression, returnByValue: true, awaitPromise: true }]. *)
Definition evaluate (params : string) (timeout : Z) (w : World) : nat * World :=
  send "Runtime.evaluate" params timeout w.

(** [`${method} 超时 (${timeout}ms)`], with the method and the timeout the
    timer's callback has captured. *)
Definition timeout_message (tm : Timer) : string :=
  tm_method tm +:+ " 超时 (" +:+ pretty (tm_timeout tm) +:+ "ms)".

(** The callback of the timer armed by [send]. *)
Definition on_timeout (tm : Timer) (w : World) : World :=
  if map_has (tm_id tm) (pending (ctl w)) then
    let w := set_ctl (with_pending (map_delete (tm_id tm) (pending (ctl w)))) w in
    do_reject (tm_promise tm) (timeout_message tm) w
  else w.

(** *** Executions *)

(** What can happen to a controller: a method call, an event of one of
    its sockets, or a timer that runs out. *)
Inductive Action :=
| Connect (page : option Page)
| Send (method params : string) (timeout : Z)
| Disconnect
| WsOpen (s : nat)
| WsMessage (s : nat) (raw : Raw)
| WsError (s : nat) (err : string)
| WsClose (s : nat)
| TimerFires (t : nat).

Definition set_readyState (s : nat) (r : ReadyState) (w : World) : World :=
  set_sockets (alter (with_readyState r) s (sockets w)) w.

(** The socket library emits [open] once, from CONNECTING; [message] while
    the socket is open or closing; [error] and [close] on a socket that
    is not closed yet.  An event that cannot occur leaves the store as it
    is. *)
Definition step (a : Action) (w : World) : World :=
  match a with
  | Connect page => (connect page w).2
  | Send method params timeout => (send method params timeout w).2
  | Disconnect => disconnect w
  | WsOpen s =>
      match sockets w !! s with
      | Some sk =>
          match readyState sk with
          | CONNECTING => on_open sk (set_readyState s OPEN w)
          | _ => w
          end
      | None => w
      end
  | WsMessage s raw =>
      match sockets w !! s with
      | Some sk =>
          match readyState sk with
          | OPEN | CLOSING => on_message raw w
          | _ => w
          end
      | None => w
      end
  | WsError s err =>
      match sockets w !! s with
      | Some sk =>
          match readyState sk with
          | CLOSED => w
          | _ => on_error sk err (set_readyState s CLOSING w)
          end
      | None => w
      end
  | WsClose s =>
      match sockets w !! s with
      | Some sk =>
          match readyState sk with
          | CLOSED => w
          | _ => on_close (set_readyState s CLOSED w)
          end
      | None => w
      end
  | TimerFires t =>
      match timers w !! t with
      | Some tm => on_timeout tm (clearTimeout t w)
      | None => w
      end
  end.

Definition run (acts : list Action) (w : World) : World :=
  fold_left (λ w a, step a w) acts w.

End Methods.

(** The ids of the frames written to a socket, oldest first. *)
Definition issued (tr : list Effect) : list Z :=
  omap (λ e, match e with EffWsSend _ f => Some (f_id f) | _ => None end) tr.

(** How often [reject] was called on promise [p]. *)
Definition rejections (p : nat) (tr : list Effect) : nat :=
  length (List.filter
            (λ e, match e with EffReject q _ => Nat.eqb q p | _ => false end) tr).

(** *** What the statements below are about *)

(** The counter and the ids sent so far. *)
Definition ids_of (w : World) : Z * list Z :=
  (messageId (ctl w), issued (trace w)).

(** The ids [1 .. n]. *)
Definition first_ids (n : nat) : list Z := Z.of_nat <$> seq 1 n.

(** While fewer than [2^53] ids are out, the counter is one past the last
    id sent; from then on it stays at [2^53]. *)
Definition ids_inv (w : World) : Prop :=
  let n := length (issued (trace w)) in
  messageId (ctl w) = Z.min (1 + Z.of_nat n) (2 ^ 53) ∧
  (Z.of_nat n ≤ 2 ^ 53 → issued (trace w) = first_ids n).

(** Every key of the pending map is the id of a frame that was sent. *)
Definition keys_issued (w : World) : Prop :=
  ∀ k, map_has k (pending (ctl w)) = true → k ∈ issued (trace w).

(** The promises the entries of a map settle. *)
Definition waiters (m : list (Z * PendingCall)) : list nat :=
  (λ kv, pc_promise kv.2) <$> m.

(** The calls in flight are well kept: the promise of every entry of
    the pending map is unsettled and its timer is armed, carrying the
    entry's id and promise; no two entries share a promise; armed timers
    are known, carry ids that were sent, and no two of them carry the
    same id; the promise of a socket is never the promise of a call. *)
Record well_kept (w : World) : Prop := {
  wk_entry : ∀ k e, (k, e) ∈ pending (ctl w) →
    promises w !! pc_promise e = Some Unsettled ∧
    ∃ tm, timers w !! pc_timer e = Some tm ∧
          tm_id tm = k ∧ tm_promise tm = pc_promise e;
  wk_waiters : NoDup (waiters (pending (ctl w)));
  wk_timer : ∀ t tm, timers w !! t = Some tm →
    (t < next_timer w)%nat ∧ tm_id tm ∈ issued (trace w);
  wk_timer_ids : ∀ t t' tm tm',
    timers w !! t = Some tm → timers w !! t' = Some tm' →
    tm_id tm = tm_id tm' → t = t';
  wk_socket : ∀ s sk, sockets w !! s = Some sk →
    (sk_promise sk < length (promises w))%nat ∧
    sk_promise sk ∉ waiters (pending (ctl w))
}.

(** *** Sample executions *)

Definition page_a : Page :=
  {| webSocketDebuggerUrl := Some "ws://localhost:9000/devtools/page/A";
     title := Some "Antigravity"; url := Some "vscode-file://a" |}.

Definition page_b : Page :=
  {| webSocketDebuggerUrl := Some "ws://localhost:9000/devtools/page/B";
     title := None; url := Some "vscode-file://b" |}.

(** A page whose address has no scheme. *)
Definition page_c : Page :=
  {| webSocketDebuggerUrl := Some "localhost:9000/devtools/page/C";
     title := Some "C"; url := None |}.

(** A library that makes a socket for every address that starts with
    [ws://] and refuses every other one. *)
Definition ws_scheme : WebSocketLib := λ u,
  if String.prefix "ws://" u then None else Some ("Invalid URL: " +:+ u).

(** A connected controller with two calls out. *)
Definition two_calls_out : World :=
  run (lib := ws_scheme) [Connect (Some page_a); WsOpen 0%nat;
       Send "Runtime.evaluate" "{}" 10000;
       Send "Input.insertText" "{}" 10000] (fresh 9000).

(** One call with a deadline of 100 ms against a peer that stays silent. *)
Definition ping_sent : list Action :=
  [Connect (Some page_a); WsOpen 0%nat; Send "ping" "{}" 100].

Definition ping_timer : Timer :=
  {| tm_id := 1; tm_method := "ping"; tm_timeout := 100; tm_promise := 1%nat |}.

(** Calls that end in every possible way, across a reconnect. *)
Definition busy_session : list Action :=
  [Connect (Some page_a); WsOpen 0%nat;
   Send "a" "{}" 100; Send "b" "{}" 100; Send "c" "{}" 100;
   WsMessage 0%nat (Parsed {| msg_id := Some 1; msg_error := None; msg_result := "1" |});
   WsMessage 0%nat (Parsed {| msg_id := Some 2; msg_error := Some "boom"; msg_result := "" |});
   TimerFires 2%nat;
   Send "d" "{}" 100;
   Disconnect; Send "lost" "{}" 100; WsClose 0%nat;
   Connect (Some page_b); WsOpen 1%nat;
   Send "e" "{}" 100; WsClose 1%nat].

(** *** The rest of the controller *)

(** [get currentPage()]. *)
Definition currentPage (w : World) : option Page := _page (ctl w).

(** How often [resolve] or [reject] was called on promise [p]. *)
Definition settles (p : nat) (e : Effect) : bool :=
  match e with
  | EffResolve q _ | EffReject q _ => Nat.eqb q p
  | _ => false
  end.

Definition settlements (p : nat) (tr : list Effect) : nat :=
  length (List.filter (settles p) tr).

(** [p] is the promise of no [connect]. *)
Definition no_socket_promise (p : nat) (w : World) : Prop :=
  ∀ s sk, sockets w !! s = Some sk → sk_promise sk ≠ p.

(** A promise that was never made or is still unsettled. *)
Definition waiting (p : nat) (w : World) : Prop :=
  promises w !! p = Some Unsettled ∨ promises w !! p = None.

(** The connection is well kept: a socket that is still connecting is the
    one the controller holds, and while [_connected] is set the controller
    holds a socket and [_page] is the page that socket was made for. *)
Record page_kept (w : World) : Prop := {
  pk_connecting : ∀ s sk, sockets w !! s = Some sk →
    readyState sk = CONNECTING → ws (ctl w) = Some s;
  pk_page : _connected (ctl w) = true →
    ∃ s sk, ws (ctl w) = Some s ∧ sockets w !! s = Some sk ∧
            _page (ctl w) = Some (sk_page sk)
}.

(** The actions behind [two_calls_out]. *)
Definition two_calls : list Action :=
  [Connect (Some page_a); WsOpen 0%nat;
   Send "Runtime.evaluate" "{}" 10000;
   Send "Input.insertText" "{}" 10000].

(** A reconnect: page A is replaced by page B while a call is out on
    neither; then a call is made on the new socket. *)
Definition reconnected : list Action :=
  [Connect (Some page_a); WsOpen 0%nat;
   Connect (Some page_b); WsOpen 1%nat;
   Send "Runtime.evaluate" "{}" 10000].

(** Nothing would settle promise [p] any more: it is unsettled, and no
    entry of the pending map, no armed timer and no socket holds it. *)
Record forgotten (p : nat) (w : World) : Prop := {
  fg_unsettled : promises w !! p = Some Unsettled;
  fg_entry : ∀ k e, (k, e) ∈ pending (ctl w) → pc_promise e ≠ p;
  fg_timer : ∀ t tm, timers w !! t = Some tm → tm_promise tm ≠ p;
  fg_socket : ∀ s sk, sockets w !! s = Some sk → sk_promise sk ≠ p
}.

(** The timer [send] arms for a call made in [w]. *)
Definition deadline_of (method : string) (timeout : Z) (w : World) : Timer :=
  {| tm_id := messageId (ctl w); tm_method := method;
     tm_timeout := timeout; tm_promise := length (promises w) |}.

(** What follows the deadline of [ping_sent] after a [disconnect()]: the
    [close] event of the socket, a late response, the timer once more,
    and a reconnect. *)
Definition after_the_deadline : list Action :=
  [WsClose 0%nat;
   WsMessage 0%nat
     (Parsed {| msg_id := Some 1; msg_error := None; msg_result := "pong" |});
   TimerFires 0%nat;
   Connect (Some page_b); WsOpen 1%nat;
   Send "next" "{}" 100; TimerFires 1%nat].

(** *** The list of pages and [autoConnect] *)

(** A JS string, as its UTF-16 code units. *)
Definition JsString := list N.

(** A string literal of the source that is all ASCII. *)
Definition js (s : string) : JsString :=
  (λ a, N.of_nat (Ascii.nat_of_ascii a)) <$> String.list_ascii_of_string s.

(** What [JSON.parse] can give.  A number is the value of the double, or
    an infinity where the literal is out of range; an object is the list
    of its own properties, the first entry under a key being its
    value. *)
#[warnings="-register-all"] Inductive Json :=
| JNull
| JBool (b : bool)
| JNumber (x : QArith_base.Q)
| JInfinity (negative : bool)
| JString (s : JsString)
| JArray (items : list Json)
| JObject (props : list (JsString * Json)).

(** [o[key]] on an object made by [JSON.parse]; [None] is [undefined]. *)
Definition own (key : JsString) (props : list (JsString * Json)) : option Json :=
  snd <$> List.find (λ kv, bool_decide (kv.1 = key)) props.

(** Whether a value is truthy. *)
Definition truthy (v : Json) : bool :=
  match v with
  | JNull => false
  | JBool b => b
  | JNumber x => negb (QArith_base.Qnum x =? 0)
  | JInfinity _ => true
  | JString s => match s with [] => false | _ => true end
  | JArray _ | JObject _ => true
  end.

(** What the request made by [getPages] comes to. *)
Inductive ListAnswer :=
| GetThrows (message : string)  (* [http.get] throws, inside the executor *)
| RequestError                  (* the request emits [error] *)
| NoAnswer                      (* neither [error] nor [end] is emitted *)
| BadBody                       (* [JSON.parse] throws on the body *)
| Body (v : Json).              (* [JSON.parse] gives [v] *)

(** How the promise of [getPages] ends. *)
Inductive Pages :=
| PagesPending
| PagesRejected (message : string)
| PagesResolved (pages : Json).

(** [getPages()].  [http p] is what a request to
    [http://localhost:p/json/list] comes to. *)
Definition getPages (http : Z → ListAnswer) (w : World) : Pages :=
  match http (port (ctl w)) with
  | GetThrows message => PagesRejected message
  | RequestError | BadBody => PagesResolved (JArray [])
  | NoAnswer => PagesPending
  | Body v => PagesResolved v
  end.

(** What [autoConnect] throws: an error with a message, or the
    [TypeError] of the engine. *)
Inductive Failure :=
| Message (message : string)
| TypeError.

(** The argument of [autoConnect]: nothing or a falsy value, a truthy
    value that is no function, or a function, which answers for an
    element and its index with a value that is truthy or not, or
    throws; it has no other effect. *)
Inductive Filter :=
| NoFilter
| NotCallable
| Predicate (f : Json → nat → string + bool).

(** [pages.length === 0]; [None] where reading the property throws. *)
Definition length_is_zero (pages : Json) : option bool :=
  match pages with
  | JNull => None
  | JBool _ | JNumber _ | JInfinity _ => Some false
  | JString s => Some match s with [] => true | _ => false end
  | JArray items => Some match items with [] => true | _ => false end
  | JObject props =>
      Some match own (js "length") props with
           | Some (JNumber x) => QArith_base.Qnum x =? 0
           | _ => false
           end
  end.

(** [pages[0]]; [None] is [undefined]. *)
Definition element0 (pages : Json) : option Json :=
  match pages with
  | JString (u :: _) => Some (JString [u])
  | JArray (x :: _) => Some x
  | JObject props => own (js "0") props
  | _ => None
  end.

(** [Array.prototype.find], from index [i] on. *)
Fixpoint find_from (f : Json → nat → string + bool) (i : nat)
    (items : list Json) : Failure + option Json :=
  match items with
  | [] => inr None
  | x :: rest =>
      match f x i with
      | inl e => inl (Message e)
      | inr true => inr (Some x)
      | inr false => find_from f (S i) rest
      end
  end.

(** [filter ? pages.find(filter) : pages[0]]. *)
Definition pick (filter : Filter) (pages : Json) : Failure + option Json :=
  match filter with
  | NoFilter => inr (element0 pages)
  | NotCallable => inl TypeError
  | Predicate f =>
      match pages with
      | JArray items => find_from f 0 items
      | _ => inl TypeError
      end
  end.

(** How [autoConnect] goes: it never gets the list, it throws, or it
    goes on with [await this.connect(target); return target]. *)
Inductive AutoConnect :=
| AutoPending
| AutoThrows (e : Failure)
| AutoConnects (target : Json).

(** [autoConnect(filter)], up to its call of [connect]. *)
Definition autoConnect (http : Z → ListAnswer) (filter : Filter) (w : World)
  : AutoConnect :=
  match getPages http w with
  | PagesPending => AutoPending
  | PagesRejected message => AutoThrows (Message message)
  | PagesResolved pages =>
      match length_is_zero pages with
      | None => AutoThrows TypeError
      | Some true => AutoThrows (Message "没有找到可用页面")
      | Some false =>
          match pick filter pages with
          | inl e => AutoThrows e
          | inr target =>
              match target with
              | Some t =>
                  if truthy t then AutoConnects t
                  else AutoThrows (Message "没有匹配的页面")
              | None => AutoThrows (Message "没有匹配的页面")
              end
          end
      end
  end.

(** A filter on the title of a page object. *)
Definition titled (t : string) : Filter :=
  Predicate (λ v _,
    inr match v with
        | JObject props =>
            match own (js "title") props with
            | Some (JString s) => bool_decide (s = js t)
            | _ => false
            end
        | _ => false
        end).

(** Entries of [/json/list]. *)
Definition entry (title address : string) : Json :=
  JObject [(js "title", JString (js title));
           (js "webSocketDebuggerUrl", JString (js address))].

(** An endpoint that lists page B before page A on port 9000, and to
    which no request can be made on a port that is none. *)
Definition lists_b_then_a (p : Z) : ListAnswer :=
  if bool_decide (p = 9000)
  then Body (JArray [entry "B" "ws://localhost:9000/devtools/page/B";
                     entry "Antigravity" "ws://localhost:9000/devtools/page/A"])
  else if bool_decide (0 ≤ p < 65536) then RequestError
  else GetThrows "Invalid URL".

End CDP.

(* ===================================================================== *)
(** ** The input injector                                                 *)
(* ===================================================================== *)

Module Injector.

Local Open Scope Z_scope.

(** *** Data *)

(** How an awaited promise ends. *)
Inductive Outcome (A : Type) :=
| Returns (a : A)
| Throws (e : string).
Arguments Returns {A} a.
Arguments Throws {A} e.

(** The answers of the page layer have the shapes its script
    ([BRIDGE_SCRIPT]) gives them; [callBridge] may also return [null].

    [{ success, text?, error? }]: what [focusInput] and [clickSend] of the
    page layer answer, and what [setText], [clickSend], [sendText] and
    [waitForIdle] return. *)
Record OpResult := {
  success : bool;
  text : option string;
  error : option string
}.

(** [{ text, count }] of [getLastBotText]. *)
Record BotText := { bt_text : string; bt_count : Z }.

(** [{ hasError, errorText? }] of [checkError]. *)
Record ErrData := { hasError : bool; errorText : option string }.

(** What [waitForReply] returns. *)
Inductive ReplyOutcome :=
| Completed (reply : string) (elapsed : Z)
    (* { success: true, reply: afterBot.text, elapsed } *)
| Failed (error : option string) (elapsed : Z)
    (* { success: false, error: errData.errorText, elapsed } *)
| TimedOut (error : string) (reply : option string).
    (* { success: false, error: `等待超时 (${timeout}ms)`, reply: text || null } *)

(** The transcript: every round trip to the page with the answer that came
    back, every sleep, every console line.  [callBridge] answers [None]
    where it returns [null]. *)
Inductive Eff :=
| EAlive (a : Outcome bool)
| EInject (a : Outcome bool)
| EFocusInput (a : Outcome (option OpResult))
| EGetInputText (a : Outcome (option string))
| EIsSendVisible (a : Outcome (option bool))
| EClickSend (a : Outcome (option OpResult))
| EGetLastBotText (a : Outcome (option BotText))
| ECheckError (a : Outcome (option ErrData))
| EKeyEvent (type key code : string) (modifiers : option Z) (a : Outcome unit)
| EInsertText (txt : string) (a : Outcome unit)
| ESleep (ms : Z)
| EConsole (line : string).

(** The page and the connection under the injector: the answer to the
    round trip made at position [i] of the transcript, and the time that
    passes at that suspension point beyond what was asked for. *)
Record Env := {
  lag : nat → Z;
  alive_at : nat → Outcome bool;
  inject_at : nat → Outcome bool;
  focus_at : nat → Outcome (option OpResult);
  inputText_at : nat → Outcome (option string);
  visible_at : nat → Outcome (option bool);
  click_at : nat → Outcome (option OpResult);
  botText_at : nat → Outcome (option BotText);
  error_at : nat → Outcome (option ErrData);
  input_at : nat → Outcome unit
}.

Record World := { now : Z; log : list Eff }.

(** *** The monad of the asynchronous methods

    [None] is a loop that ran out of fuel; an exception ends the method
    it is thrown in. *)
Definition M (A : Type) : Type := World → option (Outcome A * World).

#[global] Instance M_ret : MRet M := λ A a w, Some (Returns a, w).

#[global] Instance M_bind : MBind M := λ A B k m w,
  match m w with
  | Some (Returns a, w') => k a w'
  | Some (Throws e, w') => Some (Throws e, w')
  | None => None
  end.

Definition out_of_fuel {A} : M A := λ _, None.

(** [try { m } catch { h }]. *)
Definition try_catch {A} (m : M A) (h : M A) : M A := λ w,
  match m w with
  | Some (Throws _, w') => h w'
  | r => r
  end.

(** The delay [setTimeout] really arms: out of [1 .. 2^31 - 1] it is 1. *)
Definition timer_delay (ms : Z) : Z :=
  if (1 <=? ms) && (ms <=? 2147483647) then ms else 1.

Section WithEnv.

Variable env : Env.

(** One awaited round trip: the answer is the oracle's, the transcript
    grows by one entry, the clock moves by the lag. *)
Definition round_trip {A} (oracle : Env → nat → Outcome A)
    (entry : Outcome A → Eff) : M A := λ w,
  let i := length (log w) in
  Some (oracle env i,
        {| now := now w + lag env i; log := log w ++ [entry (oracle env i)] |}).

Definition _sleep (ms : Z) : M unit := λ w,
  let i := length (log w) in
  Some (Returns tt,
        {| now := now w + timer_delay ms + lag env i;
           log := log w ++ [ESleep ms] |}).

Definition Date_now : M Z := λ w, Some (Returns (now w), w).

Definition console_log (line : string) : M unit := λ w,
  Some (Returns tt, {| now := now w; log := log w ++ [EConsole line] |}).

(** *** bridge-injector.js, as the injector uses it *)

Definition isBridgeAlive : M bool :=
  try_catch (round_trip alive_at EAlive) (mret false).

Definition injectBridge : M bool :=
  injected ← round_trip inject_at EInject;
  (if injected : bool
   then console_log "[Bridge] 控制层注入成功 (v2)"
   else console_log "[Bridge] 控制层已存在，跳过注入");;
  mret injected.

(** *** input-injector.js *)

Definition ensureBridge : M unit :=
  alive ← isBridgeAlive;
  if alive : bool then mret tt else injectBridge;; mret tt.

Definition focusInput : M (option OpResult) :=
  ensureBridge;;
  round_trip focus_at EFocusInput.

Definition dispatchKeyEvent (type key code : string) (modifiers : option Z)
  : M unit :=
  round_trip input_at (EKeyEvent type key code modifiers).

Definition clearInput : M unit :=
  focusInput;;
  dispatchKeyEvent "keyDown" "a" "KeyA" (Some 2);;
  dispatchKeyEvent "keyUp" "a" "KeyA" (Some 2);;
  dispatchKeyEvent "keyDown" "Backspace" "Backspace" None;;
  dispatchKeyEvent "keyUp" "Backspace" "Backspace" None.

(** [r?.success]. *)
Definition succeeded (r : option OpResult) : bool :=
  match r with Some r => success r | None => false end.

(** [s || d] on an optional string. *)
Definition or_else (s : option string) (d : string) : string :=
  match s with
  | Some s => if bool_decide (s = "") then d else s
  | None => d
  end.

Definition setText (txt : string) : M OpResult :=
  ensureBridge;;
  clearInput;;
  _sleep 50;;
  focusResult ← focusInput;
  if negb (succeeded focusResult) then
    mret {| success := false; text := None;
            error := Some (or_else (focusResult ≫= error) "聚焦失败") |}
  else
    round_trip input_at (EInsertText txt);;
    _sleep 100;;
    actual ← round_trip inputText_at EGetInputText;
    mret {| success := true; text := actual; error := None |}.

(** The [for] loop of [clickSend]; [fuel] counts the iterations left,
    [retries - attempt] of them. *)
Fixpoint clickSend_loop (fuel : nat) (attempt retries : Z) : M OpResult :=
  match fuel with
  | O => mret {| success := false; text := None;
                 error := Some "多次重试后未找到 Send 按钮" |}
  | S fuel' =>
      if attempt <? retries then
        result ← round_trip click_at EClickSend;
        match result with
        | Some r =>
            if success r then mret r
            else
              (if attempt <? retries - 1 then _sleep 1000 else mret tt);;
              clickSend_loop fuel' (attempt + 1) retries
        | None =>
            (if attempt <? retries - 1 then _sleep 1000 else mret tt);;
            clickSend_loop fuel' (attempt + 1) retries
        end
      else
        mret {| success := false; text := None;
                error := Some "多次重试后未找到 Send 按钮" |}
  end.

Definition clickSend (retries : Z) : M OpResult :=
  ensureBridge;;
  clickSend_loop (Z.to_nat retries) 0 retries.

Definition pressEnter : M OpResult := clickSend 10.

Definition isSendVisible : M (option bool) :=
  ensureBridge;;
  round_trip visible_at EIsSendVisible.

(** Truthiness of what [isSendVisible] answers. *)
Definition truthy (v : option bool) : bool :=
  match v with Some b => b | None => false end.

Fixpoint waitForIdle_loop (fuel : nat) (start timeout : Z) : M OpResult :=
  match fuel with
  | O => out_of_fuel
  | S fuel' =>
      t ← Date_now;
      if t - start <? timeout then
        v ← isSendVisible;
        if truthy v then mret {| success := true; text := None; error := None |}
        else _sleep 1000;; waitForIdle_loop fuel' start timeout
      else
        mret {| success := false; text := None;
                error := Some ("waitForIdle 超时 (" +:+ pretty timeout +:+ "ms)") |}
  end.

Definition waitForIdle (fuel : nat) (timeout : Z) : M OpResult :=
  start ← Date_now;
  waitForIdle_loop fuel start timeout.

Definition sendText (fuel : nat) (txt : string) (delay : Z) : M OpResult :=
  waitForIdle fuel 120000;;
  setResult ← setText txt;
  if negb (success setResult) then mret setResult
  else
    _sleep delay;;
    sendResult ← clickSend 10;
    mret {| success := success sendResult; text := Some txt;
            error := error sendResult |}.

(** Phase 1 of [waitForReply]: wait for the Send button to go away. *)
Fixpoint phase1 (fuel : nat) (start : Z) : M unit :=
  match fuel with
  | O => out_of_fuel
  | S fuel' =>
      t ← Date_now;
      if t - start <? 5000 then
        v ← isSendVisible;
        if negb (truthy v) then mret tt
        else _sleep 500;; phase1 fuel' start
      else mret tt
  end.

(** [Math.round(ms / 1000)] for an integer [ms]. *)
Definition round_seconds (ms : Z) : Z := (ms + 500) `div` 1000.

(** One iteration of the second loop of [waitForReply]: [Some] is a
    [return], [None] the end of the iteration or a [continue]. *)
Definition phase2_body (start pollInterval beforeCount : Z)
  : M (option ReplyOutcome) :=
  _sleep pollInterval;;
  t ← Date_now;
  let elapsed := round_seconds (t - start) in
  v ← isSendVisible;
  if truthy v then
    _sleep 1500;;
    v' ← isSendVisible;
    if negb (truthy v') then mret None
    else
      errData ← round_trip error_at ECheckError;
      if match errData with Some d => hasError d | None => false end then
        mret (Some (Failed (errData ≫= errorText) elapsed))
      else
        afterBot ← round_trip botText_at EGetLastBotText;
        match afterBot with
        | Some b =>
            if ((beforeCount <? bt_count b) && negb (bool_decide (bt_text b = "")))
               || negb (bool_decide (bt_text b = ""))
            then mret (Some (Completed (bt_text b) elapsed))
            else mret None
        | None => mret None
        end
  else mret None.

Fixpoint phase2 (fuel : nat) (start timeout pollInterval beforeCount : Z)
  : M (option ReplyOutcome) :=
  match fuel with
  | O => out_of_fuel
  | S fuel' =>
      t ← Date_now;
      if t - start <? timeout then
        r ← phase2_body start pollInterval beforeCount;
        match r with
        | Some o => mret (Some o)
        | None => phase2 fuel' start timeout pollInterval beforeCount
        end
      else mret None
  end.

(** The two lines after the second loop. *)
Definition timed_out (timeout : Z) : M ReplyOutcome :=
  last ← round_trip botText_at EGetLastBotText;
  let reply :=
    match last with
    | Some b => if bool_decide (bt_text b = "") then None else Some (bt_text b)
    | None => None
    end in
  mret (TimedOut ("等待超时 (" +:+ pretty timeout +:+ "ms)") reply).

Definition waitForReply (fuel : nat) (timeout pollInterval : Z)
  : M ReplyOutcome :=
  ensureBridge;;
  start ← Date_now;
  beforeBot ← round_trip botText_at EGetLastBotText;
  let beforeCount := match beforeBot with Some b => bt_count b | None => 0 end in
  phase1 fuel start;;
  r ← phase2 fuel start timeout pollInterval beforeCount;
  match r with
  | Some o => mret o
  | None => timed_out timeout
  end.

End WithEnv.

(** *** What the statements below are about *)

(** The round trips that keep the page layer in place, and console
    lines. *)
Definition is_upkeep (e : Eff) : bool :=
  match e with
  | EAlive _ | EInject _ | EConsole _ => true
  | _ => false
  end.

(** A transcript without them. *)
Definition strip (tr : list Eff) : list Eff :=
  List.filter (λ e, negb (is_upkeep e)) tr.

(** No suspension point resumes early. *)
Definition lag_ok (env : Env) : Prop := ∀ i, 0 ≤ lag env i.

(** The object [clickSend] returns after its last attempt. *)
Definition click_failure : OpResult :=
  {| success := false; text := None;
     error := Some "多次重试后未找到 Send 按钮" |}.

(** The transcript of a run of attempts: one round trip each, and a sleep
    of 1000 ms between two of them. *)
Fixpoint attempts_log (answers : list (Outcome (option OpResult))) : list Eff :=
  match answers with
  | [] => []
  | a :: rest =>
      EClickSend a ::
      match rest with
      | [] => []
      | _ => ESleep 1000 :: attempts_log rest
      end
  end.

(** An attempt that neither succeeded nor threw. *)
Definition failed (a : Outcome (option OpResult)) : Prop :=
  ∃ r, a = Returns r ∧ succeeded r = false.

(** How a run of at most [retries] attempts ends: with the failure object
    once all of them have failed, with the answer of the first attempt
    that succeeds, or with the exception of the first that throws. *)
Inductive attempts_end (retries : nat)
  : list (Outcome (option OpResult)) → Outcome OpResult → Prop :=
| attempts_exhausted answers :
    length answers = retries →
    Forall failed answers →
    attempts_end retries answers (Returns click_failure)
| attempts_succeeded fails r :
    (length fails < retries)%nat →
    Forall failed fails →
    success r = true →
    attempts_end retries (fails ++ [Returns (Some r)]) (Returns r)
| attempts_thrown fails e :
    (length fails < retries)%nat →
    Forall failed fails →
    attempts_end retries (fails ++ [Throws e]) (Throws e).

(** [s || null] on the text of what [getLastBotText] answered. *)
Definition text_or_null (b : option BotText) : option string :=
  match b with
  | Some b => if bool_decide (bt_text b = "") then None else Some (bt_text b)
  | None => None
  end.

(** [errData?.hasError]. *)
Definition has_error (d : option ErrData) : bool :=
  match d with Some d => hasError d | None => false end.

(** What [waitForReply] takes for a reply that is there. *)
Definition reply_ready (beforeCount : Z) (b : BotText) : Prop :=
  (beforeCount < bt_count b ∧ bt_text b ≠ "") ∨ bt_text b ≠ "".

(** One iteration of the second loop of [waitForReply], read off its
    stripped transcript: what was observed, and how the iteration ended
    ([Returns None]: the loop goes on; [Throws]: a round trip failed,
    while the page layer was ensured or on the call itself). *)
Inductive tick (pollInterval beforeCount elapsed : Z)
  : list Eff → Outcome (option ReplyOutcome) → Prop :=
| tick_busy v :
    truthy v = false →
    tick pollInterval beforeCount elapsed
      [ESleep pollInterval; EIsSendVisible (Returns v)]
      (Returns None)
| tick_flicker v v' :
    truthy v = true → truthy v' = false →
    tick pollInterval beforeCount elapsed
      [ESleep pollInterval; EIsSendVisible (Returns v);
       ESleep 1500; EIsSendVisible (Returns v')]
      (Returns None)
| tick_failed v v' d :
    truthy v = true → truthy v' = true → has_error d = true →
    tick pollInterval beforeCount elapsed
      [ESleep pollInterval; EIsSendVisible (Returns v);
       ESleep 1500; EIsSendVisible (Returns v');
       ECheckError (Returns d)]
      (Returns (Some (Failed (d ≫= errorText) elapsed)))
| tick_completed v v' d b :
    truthy v = true → truthy v' = true → has_error d = false →
    reply_ready beforeCount b →
    tick pollInterval beforeCount elapsed
      [ESleep pollInterval; EIsSendVisible (Returns v);
       ESleep 1500; EIsSendVisible (Returns v');
       ECheckError (Returns d); EGetLastBotText (Returns (Some b))]
      (Returns (Some (Completed (bt_text b) elapsed)))
| tick_no_reply v v' d b :
    truthy v = true → truthy v' = true → has_error d = false →
    (∀ b', b = Some b' → ¬ reply_ready beforeCount b') →
    tick pollInterval beforeCount elapsed
      [ESleep pollInterval; EIsSendVisible (Returns v);
       ESleep 1500; EIsSendVisible (Returns v');
       ECheckError (Returns d); EGetLastBotText (Returns b)]
      (Returns None)
| tick_thrown_ensure e :
    tick pollInterval beforeCount elapsed
      [ESleep pollInterval]
      (Throws e)
| tick_thrown_look e :
    tick pollInterval beforeCount elapsed
      [ESleep pollInterval; EIsSendVisible (Throws e)]
      (Throws e)
| tick_thrown_ensure_again v e :
    truthy v = true →
    tick pollInterval beforeCount elapsed
      [ESleep pollInterval; EIsSendVisible (Returns v); ESleep 1500]
      (Throws e)
| tick_thrown_recheck v e :
    truthy v = true →
    tick pollInterval beforeCount elapsed
      [ESleep pollInterval; EIsSendVisible (Returns v);
       ESleep 1500; EIsSendVisible (Throws e)]
      (Throws e)
| tick_thrown_check v v' e :
    truthy v = true → truthy v' = true →
    tick pollInterval beforeCount elapsed
      [ESleep pollInterval; EIsSendVisible (Returns v);
       ESleep 1500; EIsSendVisible (Returns v');
       ECheckError (Throws e)]
      (Throws e)
| tick_thrown_read v v' d e :
    truthy v = true → truthy v' = true → has_error d = false →
    tick pollInterval beforeCount elapsed
      [ESleep pollInterval; EIsSendVisible (Returns v);
       ESleep 1500; EIsSendVisible (Returns v');
       ECheckError (Returns d); EGetLastBotText (Throws e)]
      (Throws e).

(** [m], run from [w], ends with [out] in [w'], having added [tr] to the
    transcript. *)
Definition ends {A} (m : M A) (w : World) (out : Outcome A) (w' : World)
    (tr : list Eff) : Prop :=
  m w = Some (out, w') ∧ log w' = log w ++ tr.

(** [m], run from [w], ends, and [P] holds of how it ends. *)
Definition run_to {A} (m : M A) (w : World)
    (P : Outcome A → World → list Eff → Prop) : Prop :=
  ∃ out w' tr, ends m w out w' tr ∧ P out w' tr.

(** Instantiates the hypothesis on lags wherever a lag occurs. *)
Ltac use_lags Hl :=
  repeat match goal with
  | |- context [lag ?e ?i] =>
      lazymatch goal with
      | _ : 0 ≤ lag e i |- _ => fail
      | _ => pose proof (Hl i)
      end
  | _ : context [lag ?e ?i] |- _ =>
      lazymatch goal with
      | _ : 0 ≤ lag e i |- _ => fail
      | _ => pose proof (Hl i)
      end
  end.

(** The stripped transcript of [clearInput]: focus, select all, delete. *)
Definition clears (f : option OpResult) : list Eff :=
  [EFocusInput (Returns f);
   EKeyEvent "keyDown" "a" "KeyA" (Some 2) (Returns tt);
   EKeyEvent "keyUp" "a" "KeyA" (Some 2) (Returns tt);
   EKeyEvent "keyDown" "Backspace" "Backspace" None (Returns tt);
   EKeyEvent "keyUp" "Backspace" "Backspace" None (Returns tt)].

(** The stripped transcript of a [setText] that inserts its text. *)
Definition types (txt : string) (f1 f2 : option OpResult)
    (actual : option string) : list Eff :=
  clears f1 ++
  [ESleep 50; EFocusInput (Returns f2); EInsertText txt (Returns tt);
   ESleep 100; EGetInputText (Returns actual)].

(** *** Sample pages *)

Definition found : OpResult := {| success := true; text := None; error := None |}.

Definition not_found : OpResult :=
  {| success := false; text := None; error := Some "未找到 Send 按钮" |}.

(** A page that answers at once: the page layer is in place, the editor
    takes the focus, the Send button is there and no error is shown. *)
Definition calm : Env :=
  {| lag := λ _, 0;
     alive_at := λ _, Returns true;
     inject_at := λ _, Returns false;
     focus_at := λ _, Returns (Some found);
     inputText_at := λ _, Returns (Some "hello");
     visible_at := λ _, Returns (Some true);
     click_at := λ _, Returns (Some found);
     botText_at := λ _, Returns (Some {| bt_text := "old"; bt_count := 2 |});
     error_at := λ _, Returns (Some {| hasError := false; errorText := None |});
     input_at := λ _, Returns tt |}.

(** [calm], with other answers about the Send button. *)
Definition with_visible (f : nat → Outcome (option bool)) (e : Env) : Env :=
  {| lag := lag e; alive_at := alive_at e; inject_at := inject_at e;
     focus_at := focus_at e; inputText_at := inputText_at e;
     visible_at := f; click_at := click_at e; botText_at := botText_at e;
     error_at := error_at e; input_at := input_at e |}.

Definition with_click (f : nat → Outcome (option OpResult)) (e : Env) : Env :=
  {| lag := lag e; alive_at := alive_at e; inject_at := inject_at e;
     focus_at := focus_at e; inputText_at := inputText_at e;
     visible_at := visible_at e; click_at := f; botText_at := botText_at e;
     error_at := error_at e; input_at := input_at e |}.

Definition with_botText (f : nat → Outcome (option BotText)) (e : Env) : Env :=
  {| lag := lag e; alive_at := alive_at e; inject_at := inject_at e;
     focus_at := focus_at e; inputText_at := inputText_at e;
     visible_at := visible_at e; click_at := click_at e; botText_at := f;
     error_at := error_at e; input_at := input_at e |}.

Definition with_error (f : nat → Outcome (option ErrData)) (e : Env) : Env :=
  {| lag := lag e; alive_at := alive_at e; inject_at := inject_at e;
     focus_at := focus_at e; inputText_at := inputText_at e;
     visible_at := visible_at e; click_at := click_at e;
     botText_at := botText_at e; error_at := f; input_at := input_at e |}.

(** The agent is busy at the first two looks and idle from then on; the
    second read finds a third message, "hi". *)
Definition replies_hi : Env :=
  with_visible (λ i, Returns (Some (9 <=? i)%nat))
    (with_botText
       (λ i, Returns (Some (if (i <? 14)%nat
                            then {| bt_text := "old"; bt_count := 2 |}
                            else {| bt_text := "hi"; bt_count := 3 |})))
       calm).

(** The button shows up once and is gone at the recheck; when it is back
    for good an error banner is up. *)
Definition flickers_then_fails : Env :=
  with_visible
    (λ i, Returns (Some (bool_decide (i ∈ [6; 12; 15]%nat))))
    (with_error
       (λ _, Returns (Some {| hasError := true;
                              errorText := Some "Error: please try again" |}))
       calm).

(** The agent never becomes idle; its last message says "thinking". *)
Definition never_idle : Env :=
  with_visible (λ _, Returns (Some false))
    (with_click (λ _, Returns (Some not_found))
       (with_botText
          (λ _, Returns (Some {| bt_text := "thinking"; bt_count := 3 |}))
          calm)).

(** The Send button is never found. *)
Definition no_button : Env := with_click (λ _, Returns (Some not_found)) calm.

Definition dawn : World := {| now := 0; log := [] |}.

(** The world a run ends in. *)
Definition final_world {A} (r : option (Outcome A * World)) : World :=
  match r with Some (_, w) => w | None => dawn end.

(** *** The rest of the injector *)

Section MoreWithEnv.

Variable env : Env.

(** [getLastBotReply()]: [data?.text || null]. *)
Definition getLastBotReply : M (option string) :=
  ensureBridge env;;
  data ← round_trip env botText_at EGetLastBotText;
  mret (text_or_null data).

End MoreWithEnv.

(** The stripped transcript of looks that found the agent busy: each is
    followed by a sleep of 1000 ms. *)
Definition idle_polls (vs : list (option bool)) : list Eff :=
  vs ≫= λ v, [EIsSendVisible (Returns v); ESleep 1000].

(** What [waitForIdle] returns. *)
Definition idle : OpResult := {| success := true; text := None; error := None |}.

Definition idle_timeout (timeout : Z) : OpResult :=
  {| success := false; text := None;
     error := Some ("waitForIdle 超时 (" +:+ pretty timeout +:+ "ms)") |}.

(** The stripped transcript of a [setText] that stops at the second
    focus. *)
Definition gives_up (f1 f2 : option OpResult) : list Eff :=
  clears f1 ++ [ESleep 50; EFocusInput (Returns f2)].

(** The lines [injectBridge] writes to the console. *)
Definition inject_line (injected : bool) : string :=
  if injected then "[Bridge] 控制层注入成功 (v2)"
  else "[Bridge] 控制层已存在，跳过注入".

Definition with_focus (f : nat → Outcome (option OpResult)) (e : Env) : Env :=
  {| lag := lag e; alive_at := alive_at e; inject_at := inject_at e;
     focus_at := f; inputText_at := inputText_at e;
     visible_at := visible_at e; click_at := click_at e;
     botText_at := botText_at e; error_at := error_at e; input_at := input_at e |}.

(** The agent is busy at the first three looks. *)
Definition busy_thrice : Env :=
  with_visible (λ i, Returns (Some (8 <=? i)%nat)) calm.

(** What the page layer answers when there is no editor; [setText]
    returns an object with the same fields. *)
Definition no_lexical : OpResult :=
  {| success := false; text := None; error := Some "未找到 Lexical 编辑器" |}.

(** A page without an editor. *)
Definition no_editor : Env := with_focus (λ _, Returns (Some no_lexical)) calm.

(** *** Pages that differ in their message counts only *)

(** Two answers of [getLastBotText] with the same text. *)
Definition same_text (a b : Outcome (option BotText)) : Prop :=
  match a, b with
  | Returns x, Returns y => bt_text <$> x = bt_text <$> y
  | Throws e, Throws e' => e = e'
  | _, _ => False
  end.

(** Two pages that answer [waitForReply] alike, but for the [count]
    field of what [getLastBotText] reports. *)
Record same_but_counts (e1 e2 : Env) : Prop := {
  sc_lag : ∀ i, lag e1 i = lag e2 i;
  sc_alive : ∀ i, alive_at e1 i = alive_at e2 i;
  sc_inject : ∀ i, inject_at e1 i = inject_at e2 i;
  sc_visible : ∀ i, visible_at e1 i = visible_at e2 i;
  sc_error : ∀ i, error_at e1 i = error_at e2 i;
  sc_botText : ∀ i, same_text (botText_at e1 i) (botText_at e2 i)
}.

(** Two worlds at the same time and the same position of the
    transcript. *)
Definition alike (w1 w2 : World) : Prop :=
  now w1 = now w2 ∧ length (log w1) = length (log w2).

(** Run from worlds that are alike, [m1] and [m2] end alike, with
    results related by [R] or with the same exception. *)
Definition sim {A} (R : A → A → Prop) (m1 m2 : M A) : Prop :=
  ∀ w1 w2, alike w1 w2 →
    match m1 w1, m2 w2 with
    | Some (Returns a1, w1'), Some (Returns a2, w2') => R a1 a2 ∧ alike w1' w2'
    | Some (Throws x1, w1'), Some (Throws x2, w2') => x1 = x2 ∧ alike w1' w2'
    | None, None => True
    | _, _ => False
    end.

(** The page [env] with every count set to [n]. *)
Definition with_counts (n : Z) (env : Env) : Env :=
  with_botText
    (λ i, match botText_at env i with
          | Returns (Some b) => Returns (Some {| bt_text := bt_text b; bt_count := n |})
          | r => r
          end)
    env.


(** *** The transcript and the page *)

(** An entry of the transcript at position [i] is what the page answered
    there; a sleep or a console line answers nothing. *)
Definition told (env : Env) (i : nat) (x : Eff) : Prop :=
  match x with
  | EAlive a => a = alive_at env i
  | EInject a => a = inject_at env i
  | EFocusInput a => a = focus_at env i
  | EGetInputText a => a = inputText_at env i
  | EIsSendVisible a => a = visible_at env i
  | EClickSend a => a = click_at env i
  | EGetLastBotText a => a = botText_at env i
  | ECheckError a => a = error_at env i
  | EKeyEvent _ _ _ _ a => a = input_at env i
  | EInsertText _ a => a = input_at env i
  | ESleep _ | EConsole _ => True
  end.

(** The entries [tr], added from position [n] on, are what the page
    answered. *)
Definition honest (env : Env) (n : nat) (tr : list Eff) : Prop :=
  ∀ j x, tr !! j = Some x → told env (n + j) x.

(** The exception of a round trip that failed.  A failure of the
    question whether the page layer is alive is caught by
    [isBridgeAlive] and never leaves it. *)
Definition thrown (x : Eff) : option string :=
  match x with
  | EInject (Throws e) | EFocusInput (Throws e) | EGetInputText (Throws e)
  | EIsSendVisible (Throws e) | EClickSend (Throws e)
  | EGetLastBotText (Throws e) | ECheckError (Throws e)
  | EKeyEvent _ _ _ _ (Throws e) | EInsertText _ (Throws e) => Some e
  | _ => None
  end.

(** [tr] ends with a round trip that failed with [e]. *)
Definition ends_thrown (e : string) (tr : list Eff) : Prop :=
  ∃ tr0 x, tr = tr0 ++ [x] ∧ thrown x = Some e.

(** A method that only adds to the transcript what the page answered,
    and that throws only what its last round trip threw. *)
Definition sound {A} (env : Env) (m : M A) : Prop :=
  ∀ w out w', m w = Some (out, w') →
    ∃ tr, log w' = log w ++ tr ∧ honest env (length (log w)) tr ∧
          ∀ e, out = Throws e → ends_thrown e tr.

Section Loops.

Variable env : Env.

(** [waitForReply] up to the end of its second loop: what that loop
    gives, [None] when it ends because the timeout has elapsed. *)
Definition waitForReply_loops (fuel : nat) (timeout pollInterval : Z)
  : M (option ReplyOutcome) :=
  ensureBridge env;;
  start ← Date_now;
  beforeBot ← round_trip env botText_at EGetLastBotText;
  let beforeCount := match beforeBot with Some b => bt_count b | None => 0 end in
  phase1 env fuel start;;
  phase2 env fuel start timeout pollInterval beforeCount.

End Loops.

(** What [waitForReply] returns once its timeout has elapsed. *)
Definition timeout_result (timeout : Z) (last : option BotText) : ReplyOutcome :=
  TimedOut ("等待超时 (" +:+ pretty timeout +:+ "ms)") (text_or_null last).

(** The agent is never idle, and from position [n] of the transcript on
    the connection is gone. *)
Definition gone_from (n : nat) : Env :=
  with_botText
    (λ i, if (i <? n)%nat
          then Returns (Some {| bt_text := "thinking"; bt_count := 3 |})
          else Throws "CDP 未连接")
    never_idle.

(** The agent is never idle, but the Send button can be clicked. *)
Definition busy_but_clickable : Env :=
  with_visible (λ _, Returns (Some false)) calm.
End Injector.

(* ===================================================================== *)
(** ** The page layer                                                     *)
(* ===================================================================== *)

(** The functions of [window.__remoteBridge] ([BRIDGE_SCRIPT] in
    [bridge-injector.js]) that the injector relies on, over the part of
    the document they read: the results of their queries, in document
    order, with the text and the box of every element. *)
Module Bridge.

Import Injector.

Local Open Scope Z_scope.

(** *** Strings of the page *)

(** A JS string: its UTF-16 code units. *)
Definition jsstring := list N.

(** A literal of the script; all of them are ASCII. *)
Definition lit (s : string) : jsstring :=
  (λ a, Ascii.N_of_ascii a) <$> String.list_ascii_of_string s.

(** WhiteSpace and LineTerminator, the code units [trim] removes. *)
Definition is_white (c : N) : bool :=
  bool_decide (c ∈ [9; 10; 11; 12; 13; 32; 160; 5760; 8232; 8233; 8239;
                    8287; 12288; 65279]%N)
  || ((8192 <=? c)%N && (c <=? 8202)%N).

Fixpoint trimStart (s : jsstring) : jsstring :=
  match s with
  | c :: s' => if is_white c then trimStart s' else s
  | [] => []
  end.

(** [s.trim()]. *)
Definition trim (s : jsstring) : jsstring :=
  rev (trimStart (rev (trimStart s))).

Fixpoint starts_with (pat s : jsstring) : bool :=
  match pat, s with
  | [], _ => true
  | p :: pat', c :: s' => (p =? c)%N && starts_with pat' s'
  | _ :: _, [] => false
  end.

Fixpoint index_from (pat s : jsstring) (i : Z) : Z :=
  if starts_with pat s then i
  else match s with
       | [] => -1
       | _ :: s' => index_from pat s' (i + 1)
       end.

(** [s.indexOf(pat)]. *)
Definition indexOf (pat s : jsstring) : Z := index_from pat s 0.

(** *** Elements *)

(** What [getBoundingClientRect()] gives, as far as the script reads
    it. *)
Record Rect := { width : QArith_base.Q; height : QArith_base.Q }.

(** [x > k] on a number of the page. *)
Definition exceeds (x : QArith_base.Q) (k : Z) : bool :=
  negb (QArith_base.Qle_bool x (QArith_base.Qmake k 1)).

(** A node of the document: a text node, or an element with its local
    name, its box and its children. *)
#[warnings="-register-all"] Inductive Node :=
| TextNode (data : jsstring)
| Element (tag : string) (rect : Rect) (children : list Node).

Definition rect_of (n : Node) : Rect :=
  match n with
  | Element _ r _ => r
  | TextNode _ => {| width := QArith_base.Qmake 0 1; height := QArith_base.Qmake 0 1 |}
  end.

(** [node.textContent]. *)
Fixpoint textContent (n : Node) : jsstring :=
  match n with
  | TextNode d => d
  | Element _ _ cs =>
      (fix go (l : list Node) : jsstring :=
         match l with
         | [] => []
         | c :: l' => textContent c ++ go l'
         end) cs
  end.

Definition is_style (n : Node) : bool :=
  match n with
  | Element t _ _ => bool_decide (t = "style")
  | TextNode _ => false
  end.

(** [clone = el.cloneNode(true)] with every element of
    [clone.querySelectorAll('style')] removed. *)
Fixpoint without_styles (n : Node) : Node :=
  match n with
  | TextNode d => TextNode d
  | Element t r cs =>
      Element t r
        ((fix go (l : list Node) : list Node :=
            match l with
            | [] => []
            | c :: l' => if is_style c then go l' else without_styles c :: go l'
            end) cs)
  end.

(** The text of a bot message as the script reads it. *)
Definition bot_text (el : Node) : jsstring :=
  trim (textContent (without_styles el)).

(** *** The Send button *)

(** A [button] of the side panel. *)
Record Button := { btn_textContent : jsstring; btn_rect : Rect }.

(** [t === 'Send' || t.indexOf('Send') !== -1] for the trimmed text. *)
Definition says_send (b : Button) : bool :=
  let t := trim (btn_textContent b) in
  bool_decide (t = lit "Send") || negb (indexOf (lit "Send") t =? -1).

(** [rect.width > 0 && rect.height > 0]. *)
Definition has_box (b : Button) : bool :=
  exceeds (width (btn_rect b)) 0 && exceeds (height (btn_rect b)) 0.

(** The loop of [isSendVisible] over [panel.querySelectorAll('button')]. *)
Fixpoint isSendVisible_loop (btns : list Button) : bool :=
  match btns with
  | [] => false
  | b :: rest =>
      if says_send b then
        if has_box b then true else isSendVisible_loop rest
      else isSendVisible_loop rest
  end.

(** [isSendVisible()]; [panel] is [None] when there is no side panel. *)
Definition isSendVisible (panel : option (list Button)) : bool :=
  match panel with
  | None => false
  | Some btns => isSendVisible_loop btns
  end.

(** The loop of [clickSend], from index [i] on: the index of the button
    it clicks, if it clicks one. *)
Fixpoint clickSend_loop (btns : list Button) (i : nat) : option nat :=
  match btns with
  | [] => None
  | b :: rest =>
      if says_send b then
        if has_box b then Some i else clickSend_loop rest (S i)
      else clickSend_loop rest (S i)
  end.

(** [clickSend()]: what it returns, and the button it clicked. *)
Definition clickSend (panel : option (list Button)) : OpResult * option nat :=
  match panel with
  | None => ({| success := false; text := None; error := Some "未找到面板" |}, None)
  | Some btns =>
      match clickSend_loop btns 0 with
      | Some i => ({| success := true; text := None; error := None |}, Some i)
      | None =>
          ({| success := false; text := None; error := Some "未找到 Send 按钮" |},
           None)
      end
  end.

(** *** Messages *)

Inductive Author := user | bot.

(** [{ type, text }]. *)
Record Message := { m_type : Author; m_text : jsstring }.

(** [getLastBotText()] over the elements of its query:
    [{ text: lastBot, count }]. *)
Definition getLastBotText (botEls : list Node) : jsstring * Z :=
  fold_left
    (λ '(lastBot, count) el,
       if exceeds (height (rect_of el)) 10
       then (bot_text el, CDP.js_incr count)
       else (lastBot, count))
    botEls ([], 0).

(** [getMessages()] over the elements of its two queries. *)
Definition getMessages (userEls botEls : list Node) : list Message :=
  let results := [] in
  let results :=
    fold_left
      (λ results el,
         if exceeds (height (rect_of el)) 5
         then results ++ [{| m_type := user; m_text := textContent el |}]
         else results)
      userEls results in
  fold_left
    (λ results el,
       if exceeds (height (rect_of el)) 10
       then results ++ [{| m_type := bot; m_text := bot_text el |}]
       else results)
    botEls results.

Definition is_bot (m : Message) : bool :=
  match m_type m with bot => true | user => false end.

(** *** The error banner *)

(** [checkError()] over the [div]s of [#conversation], [None] when there
    is no such element: [{ hasError, errorText? }]. *)
Fixpoint checkError_loop (divs : list Node) : bool * option jsstring :=
  match divs with
  | [] => (false, None)
  | d :: rest =>
      let t := trim (textContent d) in
      if (Z.of_nat (length t) <? 200)
         && negb (indexOf (lit "Error") t =? -1)
         && negb (indexOf (lit "try again") t =? -1)
      then (true, Some t)
      else checkError_loop rest
  end.

Definition checkError (conv : option (list Node)) : bool * option jsstring :=
  match conv with
  | None => (false, None)
  | Some divs => checkError_loop divs
  end.

(** *** What the statements below are about *)

(** [pat] occurs in [s]. *)
Definition occurs_in (pat s : jsstring) : Prop :=
  ∃ before after, s = before ++ pat ++ after.

(** A text [checkError] takes for an error banner. *)
Definition banner (t : jsstring) : Prop :=
  (length t < 200)%nat ∧ occurs_in (lit "Error") t ∧ occurs_in (lit "try again") t.

(** The bot elements the script takes for messages. *)
Definition tall (el : Node) : bool := exceeds (height (rect_of el)) 10.

(** The button a user would call a visible Send button. *)
Definition send_shown (b : Button) : bool := says_send b && has_box b.

(** *** A sample document *)

Definition box (w h : Z) : Rect :=
  {| width := QArith_base.Qmake w 1; height := QArith_base.Qmake h 1 |}.

(** A hidden "Send" button, a "Cancel" button, and the visible
    " Send now " button. *)
Definition sample_panel : list Button :=
  [{| btn_textContent := lit "Send"; btn_rect := box 0 0 |};
   {| btn_textContent := lit "Cancel"; btn_rect := box 60 24 |};
   {| btn_textContent := lit " Send now "; btn_rect := box 80 24 |}].

(** Two replies, the second with a style sheet inside, and a collapsed
    third element. *)
Definition sample_bots : list Node :=
  [Element "div" (box 400 40) [TextNode (lit "first")];
   Element "div" (box 400 60)
     [Element "style" (box 0 0) [TextNode (lit ".a{}")];
      TextNode (lit " second ")];
   Element "div" (box 400 0) [TextNode (lit "hidden")]].

(** A conversation whose second [div] is a banner. *)
Definition sample_divs : list Node :=
  [Element "div" (box 400 40) [TextNode (lit "An Error is a mistake")];
   Element "div" (box 400 40) [TextNode (lit " Error: please try again ")]].

Definition sample_users : list Node :=
  [Element "div" (box 400 20) [TextNode (lit "question")]].

End Bridge.

(* ===================================================================== *)
(** ** The server                                                         *)
(* ===================================================================== *)

(** The two handlers of [LinkServer] ([link-server.js]): [_handleHttp]
    and [_handleWsMessage], with [_readBody], [_json] and [_wsReply].
    The server is made with a controller and an injector
    and only calls their methods; the handlers are written over any such
    pair.  Bodies and frames are read as far as the handlers read them:
    the fields [text] and [expression] hold strings, [delay] and
    [timeout] integers, and each may be missing. *)
Module Server.

Import Injector.

Local Open Scope Z_scope.

(** *** Requests *)

(** The fields a handler reads of a body or of a frame. *)
Record Fields := {
  f_text : option string;
  f_delay : option Z;
  f_timeout : option Z;
  f_expression : option string
}.

Definition no_fields : Fields :=
  {| f_text := None; f_delay := None; f_timeout := None; f_expression := None |}.

(** What [JSON.parse] makes of a text: it throws, or gives [null], or a
    value whose properties can be read (for a value that is no object
    every one of them is missing). *)
Inductive Parsed :=
| NotJson
| JsonNull
| JsonValue (fields : Fields).

(** An HTTP request: method, url, and the body once it has arrived
    ([None] for an empty one). *)
Record Request := {
  req_method : string;
  req_url : string;
  req_body : option Parsed
}.

(** A frame of a client: [NotJson], [JsonNull], or a value with its
    [action], its [id] and the other fields. *)
Record Frame := {
  fr_action : option string;
  fr_id : option string;
  fr_fields : Fields
}.

Inductive ParsedFrame :=
| FrameNotJson
| FrameNull
| FrameValue (frame : Frame).

(** *** Answers *)

Section Handlers.

(** The values that pass through the server untouched. *)
Variables Messages Diagnosis Evaluation : Type.

(** [data] of an answer. *)
Inductive Data :=
| DStatus (cdpConnected : bool) (page : option (option string * option string))
    (wsClients : nat)                       (* /api/status *)
| DConnected (cdpConnected : bool)          (* the action [status] *)
| DMessages (messages : Messages)
| DLastReply (reply : option string)        (* { reply } *)
| DDiagnose (diag : Diagnosis)
| DResult (result : OpResult)
| DWait (result : ReplyOutcome)
| DEvaluate (result : Evaluation).

(** The object given to [JSON.stringify]. *)
Inductive Payload :=
| POk (data : Data)                  (* { success: true, data } *)
| PError (error : option string)     (* { success: false, error } *)
| PWait (result : ReplyOutcome).     (* what [waitForReply] returned *)

(** What was written to [res]. *)
Record Response := {
  statusCode : Z;
  headers : list (string * string);
  body : option Payload
}.

(** What was sent to a client: the payload, with [id] where the handler
    adds it. *)
Record Reply := { rp_payload : Payload; rp_id : option (option string) }.

(** The controller and the injector the server was made with. *)
Record Backend := {
  cdp_evaluate : option string → Z → M Evaluation;
  inj_getMessages : M Messages;
  inj_getLastBotReply : M (option string);
  inj_diagnose : M Diagnosis;
  inj_sendText : option string → Z → M OpResult;
  inj_waitForReply : Z → M ReplyOutcome;
  inj_setText : option string → M OpResult;
  inj_pressEnter : M OpResult
}.

Variable env : Env.
Variable backend : Backend.

(** [try { m } catch (err) { h(err.message) }]. *)
Definition try_catch_with {A} (m : M A) (h : string → M A) : M A := λ w,
  match m w with
  | Some (Throws e, w') => h e w'
  | r => r
  end.

Definition throw {A} (message : string) : M A := λ w, Some (Throws message, w).

(** [v || d] on a number that may be missing. *)
Definition number_or (v : option Z) (d : Z) : Z :=
  match v with
  | Some x => if x =? 0 then d else x
  | None => d
  end.

(** Truthiness of a string that may be missing. *)
Definition given (v : option string) : bool :=
  match v with
  | Some s => negb (bool_decide (s = ""))
  | None => false
  end.

(** What [_readBody] resolves with. *)
Inductive Body :=
| BodyNull
| BodyValue (fields : Fields).

(** Reading a property of the body; on [null] the engine throws a
    TypeError with this message. *)
Definition null_read (name : string) : string :=
  "Cannot read properties of null (reading '" +:+ name +:+ "')".

Definition read {A} (body : Body) (name : string) (get : Fields → option A)
  : M (option A) :=
  match body with
  | BodyNull => throw (null_read name)
  | BodyValue f => mret (get f)
  end.

(** [req.url.split('?')[0]]. *)
Fixpoint before_query (s : string) : string :=
  match s with
  | EmptyString => EmptyString
  | String c s' =>
      if bool_decide (String c "" = "?") then EmptyString else String c (before_query s')
  end.

(** The three headers set on every response. *)
Definition cors : list (string * string) :=
  [("Access-Control-Allow-Origin", "*");
   ("Access-Control-Allow-Methods", "GET, POST, OPTIONS");
   ("Access-Control-Allow-Headers", "Content-Type")].

(** [_json(res, data, statusCode)]. *)
Definition _json (data : Payload) (statusCode : Z) : Response :=
  {| statusCode := statusCode;
     headers := cors ++ [("Content-Type", "application/json; charset=utf-8")];
     body := Some data |}.

(** [_readBody(req)]: [JSON.parse(body || '{}')], and [{}] where that
    throws. *)
Definition _readBody (req : Request) : Body :=
  match req_body req with
  | None | Some NotJson => BodyValue no_fields
  | Some JsonNull => BodyNull
  | Some (JsonValue f) => BodyValue f
  end.

(** The status object, from the controller as it is when the handler
    runs. *)
Definition page_summary (cdp : CDP.World)
  : option (option string * option string) :=
  match CDP.currentPage cdp with
  | Some pg => Some (CDP.title pg, CDP.url pg)
  | None => None
  end.

(** The routes of the [POST] block; [None] where none of them is the
    request's. *)
Definition post_routes (url : string) (req : Request) : M (option Response) :=
  let body := _readBody req in
  if bool_decide (url = "/api/send") then
    text ← read body "text" f_text;
    if negb (given text) then mret (Some (_json (PError (Some "缺少 text 参数")) 400))
    else
      delay ← read body "delay" f_delay;
      sendResult ← inj_sendText backend text (number_or delay 300);
      if negb (success sendResult) then
        mret (Some (_json (PError (error sendResult)) 200))
      else
        _sleep env 500;;
        timeout ← read body "timeout" f_timeout;
        waitResult ← inj_waitForReply backend (number_or timeout 120000);
        mret (Some (_json (PWait waitResult) 200))
  else if bool_decide (url = "/api/setText") then
    text ← read body "text" f_text;
    if negb (given text) && negb (bool_decide (text = Some "")) then
      mret (Some (_json (PError (Some "缺少 text 参数")) 400))
    else
      result ← inj_setText backend text;
      mret (Some (_json (POk (DResult result)) 200))
  else if bool_decide (url = "/api/pressEnter") then
    result ← inj_pressEnter backend;
    mret (Some (_json (POk (DResult result)) 200))
  else if bool_decide (url = "/api/evaluate") then
    expression ← read body "expression" f_expression;
    if negb (given expression) then
      mret (Some (_json (PError (Some "缺少 expression 参数")) 400))
    else
      timeout ← read body "timeout" f_timeout;
      result ← cdp_evaluate backend expression (number_or timeout 10000);
      mret (Some (_json (POk (DEvaluate result)) 200))
  else if bool_decide (url = "/api/waitForReply") then
    timeout ← read body "timeout" f_timeout;
    result ← inj_waitForReply backend (number_or timeout 120000);
    mret (Some (_json (PWait result) 200))
  else mret None.

(** The body of the [try] of [_handleHttp]. *)
Definition routes (cdp : CDP.World) (wsClients : nat) (url : string)
    (req : Request) : M Response :=
  let get := bool_decide (req_method req = "GET") in
  if bool_decide (url = "/api/status") && get then
    mret (_json (POk (DStatus (CDP.connected cdp) (page_summary cdp) wsClients)) 200)
  else if bool_decide (url = "/api/messages") && get then
    messages ← inj_getMessages backend;
    mret (_json (POk (DMessages messages)) 200)
  else if bool_decide (url = "/api/lastReply") && get then
    reply ← inj_getLastBotReply backend;
    mret (_json (POk (DLastReply reply)) 200)
  else if bool_decide (url = "/api/diagnose") && get then
    diag ← inj_diagnose backend;
    mret (_json (POk (DDiagnose diag)) 200)
  else
    answered ←
      (if bool_decide (req_method req = "POST") then post_routes url req
       else mret None);
    match answered with
    | Some response => mret response
    | None =>
        mret (_json (PError (Some ("未知路由: " +:+ req_method req +:+ " " +:+ url)))
                404)
    end.

(** [_handleHttp(req, res)]: what it writes to [res]. *)
Definition _handleHttp (cdp : CDP.World) (wsClients : nat) (req : Request)
  : M Response :=
  if bool_decide (req_method req = "OPTIONS") then
    mret {| statusCode := 204; headers := cors; body := None |}
  else
    let url := before_query (req_url req) in
    try_catch_with (routes cdp wsClients url req)
      (λ message,
         console_log ("[Server] HTTP 错误 (" +:+ url +:+ "): " +:+ message);;
         mret (_json (PError (Some message)) 500)).

(** *** Frames of a client *)

(** [const { action, id } = msg] on [null]. *)
Definition null_destructure : string :=
  "Cannot destructure property 'action' of 'msg' as it is null.".

(** The [switch] of [_handleWsMessage]: [inl] is a reply made inside a
    case, followed by [return]; [inr] is [result]. *)
Definition dispatch (cdp : CDP.World) (frame : Frame) : M (Payload + Data) :=
  let f := fr_fields frame in
  let action := fr_action frame in
  if bool_decide (action = Some "status") then
    mret (inr (DConnected (CDP.connected cdp)))
  else if bool_decide (action = Some "setText") then
    result ← inj_setText backend (f_text f); mret (inr (DResult result))
  else if bool_decide (action = Some "pressEnter") then
    result ← inj_pressEnter backend; mret (inr (DResult result))
  else if bool_decide (action = Some "send") then
    sendR ← inj_sendText backend (f_text f) (number_or (f_delay f) 300);
    if negb (success sendR) then mret (inl (PError (error sendR)))
    else
      _sleep env 500;;
      result ← inj_waitForReply backend (number_or (f_timeout f) 120000);
      mret (inr (DWait result))
  else if bool_decide (action = Some "evaluate") then
    result ← cdp_evaluate backend (f_expression f) (number_or (f_timeout f) 10000);
    mret (inr (DEvaluate result))
  else if bool_decide (action = Some "waitForReply") then
    result ← inj_waitForReply backend (number_or (f_timeout f) 120000);
    mret (inr (DWait result))
  else if bool_decide (action = Some "messages") then
    result ← inj_getMessages backend; mret (inr (DMessages result))
  else if bool_decide (action = Some "lastReply") then
    reply ← inj_getLastBotReply backend; mret (inr (DLastReply reply))
  else if bool_decide (action = Some "diagnose") then
    result ← inj_diagnose backend; mret (inr (DDiagnose result))
  else
    mret (inl (PError (Some ("未知指令: " +:+ default "undefined" action)))).

(** [_wsReply(ws, data)]: the frame sent, if the client's socket is open
    at that moment. *)
Definition _wsReply (open : bool) (data : Reply) : option Reply :=
  if open then Some data else None.

(** [_handleWsMessage(ws, raw)]: what is sent to the client.  [open_at]
    tells whether the client's socket is open, by the position of the
    transcript at which it is asked. *)
Definition _handleWsMessage (cdp : CDP.World) (open_at : nat → bool)
    (raw : ParsedFrame) : M (option Reply) :=
  let reply (data : Reply) : M (option Reply) :=
    λ w, Some (Returns (_wsReply (open_at (length (log w))) data), w) in
  match raw with
  | FrameNotJson =>
      reply {| rp_payload := PError (Some "无效的 JSON"); rp_id := None |}
  | FrameNull => throw null_destructure
  | FrameValue frame =>
      let id := fr_id frame in
      try_catch_with
        (r ← dispatch cdp frame;
         match r with
         | inl p => reply {| rp_payload := p; rp_id := Some id |}
         | inr result => reply {| rp_payload := POk result; rp_id := Some id |}
         end)
        (λ message,
           reply {| rp_payload := PError (Some message); rp_id := Some id |})
  end.

End Handlers.

Arguments DStatus {Messages Diagnosis Evaluation}.
Arguments DConnected {Messages Diagnosis Evaluation}.
Arguments DMessages {Messages Diagnosis Evaluation}.
Arguments DLastReply {Messages Diagnosis Evaluation}.
Arguments DDiagnose {Messages Diagnosis Evaluation}.
Arguments DResult {Messages Diagnosis Evaluation}.
Arguments DWait {Messages Diagnosis Evaluation}.
Arguments DEvaluate {Messages Diagnosis Evaluation}.
Arguments POk {Messages Diagnosis Evaluation}.
Arguments PError {Messages Diagnosis Evaluation}.
Arguments PWait {Messages Diagnosis Evaluation}.
Arguments statusCode {Messages Diagnosis Evaluation}.
Arguments headers {Messages Diagnosis Evaluation}.
Arguments body {Messages Diagnosis Evaluation}.
Arguments rp_payload {Messages Diagnosis Evaluation}.
Arguments rp_id {Messages Diagnosis Evaluation}.
Arguments cdp_evaluate {Messages Diagnosis Evaluation}.
Arguments inj_getMessages {Messages Diagnosis Evaluation}.
Arguments inj_getLastBotReply {Messages Diagnosis Evaluation}.
Arguments inj_diagnose {Messages Diagnosis Evaluation}.
Arguments inj_sendText {Messages Diagnosis Evaluation}.
Arguments inj_waitForReply {Messages Diagnosis Evaluation}.
Arguments inj_setText {Messages Diagnosis Evaluation}.
Arguments inj_pressEnter {Messages Diagnosis Evaluation}.
Arguments _json {Messages Diagnosis Evaluation}.
Arguments post_routes {Messages Diagnosis Evaluation}.
Arguments routes {Messages Diagnosis Evaluation}.
Arguments _handleHttp {Messages Diagnosis Evaluation}.
Arguments dispatch {Messages Diagnosis Evaluation}.
Arguments _wsReply {Messages Diagnosis Evaluation}.
Arguments _handleWsMessage {Messages Diagnosis Evaluation}.

(** *** What the statements below are about *)

(** When [m] returns, what it returns satisfies [Q]. *)
Definition returns_only {A} (m : M A) (Q : A → Prop) : Prop :=
  ∀ w a w', m w = Some (Returns a, w') → Q a.

(** A response made by [_json] with one of the codes of the routes. *)
Definition routed {Ms Dg Ev} (r : Response Ms Dg Ev) : Prop :=
  ∃ data code, r = _json data code ∧ code ∈ [200; 400; 404].

(** Two backends that differ at most in what their [sendText] does
    without a text or with an empty one, in what their [evaluate] does
    without an expression or with an empty one, and in what their
    [setText] does without a text. *)
Record same_on_valid_input {Ms Dg Ev} (b1 b2 : Backend Ms Dg Ev) : Prop := {
  sv_sendText : ∀ s d w, s ≠ "" →
    inj_sendText b1 (Some s) d w = inj_sendText b2 (Some s) d w;
  sv_evaluate : ∀ s t w, s ≠ "" →
    cdp_evaluate b1 (Some s) t w = cdp_evaluate b2 (Some s) t w;
  sv_setText : ∀ s w, inj_setText b1 (Some s) w = inj_setText b2 (Some s) w;
  sv_waitForReply : ∀ t w, inj_waitForReply b1 t w = inj_waitForReply b2 t w;
  sv_pressEnter : ∀ w, inj_pressEnter b1 w = inj_pressEnter b2 w;
  sv_getMessages : ∀ w, inj_getMessages b1 w = inj_getMessages b2 w;
  sv_getLastBotReply : ∀ w, inj_getLastBotReply b1 w = inj_getLastBotReply b2 w;
  sv_diagnose : ∀ w, inj_diagnose b1 w = inj_diagnose b2 w
}.

(** *** A sample backend *)

(** The injector of the module above on a page [env], behind a
    controller that is not connected; a missing text is refused. *)
Definition sample_backend (env : Env) : Backend (list string) (list string) string :=
  {| cdp_evaluate := λ _ _, throw "CDP 未连接";
     inj_getMessages := ensureBridge env;; mret [];
     inj_getLastBotReply := getLastBotReply env;
     inj_diagnose := ensureBridge env;; mret [];
     inj_sendText := λ text delay,
       match text with
       | Some s => sendText env 121 s delay
       | None => throw "text is missing"
       end;
     inj_waitForReply := λ timeout, waitForReply env 61 timeout 2000;
     inj_setText := λ text,
       match text with
       | Some s => setText env s
       | None => throw "text is missing"
       end;
     inj_pressEnter := pressEnter env |}.

(** A backend that throws where [b] is given no text or an empty
    one. *)
Definition strict {Ms Dg Ev} (b : Backend Ms Dg Ev) : Backend Ms Dg Ev :=
  {| cdp_evaluate := λ expression timeout,
       match expression with
       | Some s => if bool_decide (s = "") then throw "empty expression"
                   else cdp_evaluate b (Some s) timeout
       | None => throw "no expression"
       end;
     inj_getMessages := inj_getMessages b;
     inj_getLastBotReply := inj_getLastBotReply b;
     inj_diagnose := inj_diagnose b;
     inj_sendText := λ text delay,
       match text with
       | Some s => if bool_decide (s = "") then throw "empty text"
                   else inj_sendText b (Some s) delay
       | None => throw "no text"
       end;
     inj_waitForReply := inj_waitForReply b;
     inj_setText := λ text,
       match text with
       | Some s => inj_setText b (Some s)
       | None => throw "no text"
       end;
     inj_pressEnter := inj_pressEnter b |}.

Definition post (url : string) (fields : Fields) : Request :=
  {| req_method := "POST"; req_url := url; req_body := Some (JsonValue fields) |}.

Definition says (s : string) : Fields :=
  {| f_text := Some s; f_delay := None; f_timeout := None; f_expression := None |}.

End Server.

(* ===================================================================== *)
(** ** The entry point                                                    *)
(* ===================================================================== *)

(** [parseArgs] and the connection loop of [main] ([index.js]). *)
Module Main.

Import Bridge.

Local Open Scope Z_scope.

(** *** Numbers read from the command line *)

(** What [parseInt] gives: [NaN], an integer where numbers are exact, or
    a number beyond that range. *)
Inductive JsNumber :=
| NaN
| Int (z : Z)
| Huge.

Definition digit (c : N) : option Z :=
  if (48 <=? c)%N && (c <=? 57)%N then Some (Z.of_N c - 48) else None.

(** The value of the longest prefix of [s] made of digits, from [acc];
    [None] while no digit was read. *)
Fixpoint digits (s : jsstring) (acc : option Z) : option Z :=
  match s with
  | c :: s' =>
      match digit c with
      | Some d => digits s' (Some (10 * default 0 acc + d))
      | None => acc
      end
  | [] => acc
  end.

Definition to_number (z : Z) : JsNumber :=
  if Z.abs z <=? 2 ^ 53 then Int z else Huge.

(** [parseInt(s, 10)]; [None] is [undefined]. *)
Definition parseInt (s : option jsstring) : JsNumber :=
  match s with
  | None => NaN
  | Some s =>
      let s := trimStart s in
      let '(sign, s) :=
        match s with
        | c :: r =>
            if (c =? 45)%N then (-1, r)
            else if (c =? 43)%N then (1, r)
            else (1, s)
        | [] => (1, s)
        end in
      match digits s None with
      | Some v => to_number (sign * v)
      | None => NaN
      end
  end.

(** [arg.split('=')[1]]. *)
Fixpoint until_eq (s : jsstring) : jsstring :=
  match s with
  | c :: s' => if (c =? 61)%N then [] else c :: until_eq s'
  | [] => []
  end.

Fixpoint after_eq (s : jsstring) : option jsstring :=
  match s with
  | c :: s' => if (c =? 61)%N then Some s' else after_eq s'
  | [] => None
  end.

Definition split_eq_1 (arg : jsstring) : option jsstring :=
  until_eq <$> after_eq arg.

(** *** [parseArgs] *)

Record Config := { cdpPort : JsNumber; serverPort : JsNumber }.

(** [parseArgs] returns the configuration, or prints the help text and
    leaves with [process.exit(0)]. *)
Inductive Parsed :=
| Configured (config : Config)
| HelpThenExit (code : Z).

Definition is_cdp_port (arg : jsstring) : bool :=
  starts_with (lit "--cdp-port=") arg.

Definition is_server_port (arg : jsstring) : bool :=
  starts_with (lit "--server-port=") arg.

Definition is_help (arg : jsstring) : bool :=
  bool_decide (arg = lit "--help") || bool_decide (arg = lit "-h").

Fixpoint parseArgs_loop (args : list jsstring) (config : Config) : Parsed :=
  match args with
  | [] => Configured config
  | arg :: rest =>
      if is_cdp_port arg then
        parseArgs_loop rest
          {| cdpPort := parseInt (split_eq_1 arg); serverPort := serverPort config |}
      else if is_server_port arg then
        parseArgs_loop rest
          {| cdpPort := cdpPort config; serverPort := parseInt (split_eq_1 arg) |}
      else if is_help arg then HelpThenExit 0
      else parseArgs_loop rest config
  end.

(** [parseArgs()] on [process.argv]. *)
Definition parseArgs (argv : list jsstring) : Parsed :=
  parseArgs_loop (drop 2 argv) {| cdpPort := Int 9000; serverPort := Int 9999 |}.

(** *** The connection loop of [main] *)

(** What [main] does while it connects, in order. *)
Inductive Step :=
| Log (line : string)
| Error (line : string)
| Wait (ms : Z)
| AutoConnect (thrown : option string)   (* [None]: the promise is fulfilled *)
| Exit (code : Z).

(** One pass of the loop body for [i]: the steps, and whether
    [connected] was set. *)
Definition attempt (i : Z) (thrown : option string) : list Step * bool :=
  let retry :=
    if 0 <? i then [Log ("[Main] 第 " +:+ pretty i +:+ " 次重试..."); Wait 2000]
    else [] in
  match thrown with
  | None => (retry ++ [AutoConnect None], true)
  | Some message =>
      (retry ++ [AutoConnect (Some message);
                 Error ("[Main] 连接失败: " +:+ message)], false)
  end.

(** [for (let i = 0; i < 5 && !connected; i++) { ... }]; [fuel] bounds
    the passes, [answer_at i] is how [autoConnect] ends in pass [i]. *)
Fixpoint connect_loop (fuel : nat) (i : Z) (connected : bool)
    (answer_at : Z → option string) : option (bool * list Step) :=
  if (i <? 5) && negb connected then
    match fuel with
    | O => None
    | S fuel' =>
        let '(steps, set) := attempt i (answer_at i) in
        match connect_loop fuel' (i + 1) (connected || set) answer_at with
        | Some (c, rest) => Some (c, steps ++ rest)
        | None => None
        end
    end
  else Some (connected, []).

(** [main] up to the point where the controller is connected: the steps,
    ending in [Exit 1] when it gives up. *)
Definition connect_phase (fuel : nat) (answer_at : Z → option string)
  : option (list Step) :=
  match connect_loop fuel 0 false answer_at with
  | Some (connected, steps) =>
      if negb connected then
        Some (steps ++ [Error "[Main] 无法连接到 Antigravity"; Exit 1])
      else Some steps
  | None => None
  end.

(** *** What the statements below are about *)

(** The value a port flag sets. *)
Definition flag_value (arg : jsstring) : JsNumber := parseInt (split_eq_1 arg).

(** The steps of [n] passes from pass [i] on, all of which failed. *)
Fixpoint failed_passes (i : Z) (n : nat) (answer_at : Z → option string)
  : list Step :=
  match n with
  | O => []
  | S n' =>
      (attempt i (Some (default "" (answer_at i)))).1
      ++ failed_passes (i + 1) n' answer_at
  end.

(** *** Samples *)

Definition argv (flags : list string) : list jsstring :=
  lit "node" :: lit "src/index.js" :: (lit <$> flags).

(** The page answers at the third attempt. *)
Definition third_time (i : Z) : option string :=
  if i <? 2 then Some "没有找到可用页面" else None.

End Main.


(* ===================================================================== *)
(** ** Properties of the connection manager                               *)
(* ===================================================================== *)

Module CDPFacts.

Import CDP.
Local Open Scope Z_scope.

Section Facts.

Context {lib : WebSocketLib}.

(** *** The store through the primitives *)

Lemma ctl_settle p o w : ctl (settle p o w) = ctl w.
Proof. unfold settle. by destruct (promises w !! p) as [[]|]. Qed.

Lemma trace_settle p o w : trace (settle p o w) = trace w.
Proof. unfold settle. by destruct (promises w !! p) as [[]|]. Qed.

Lemma timers_settle p o w : timers (settle p o w) = timers w.
Proof. unfold settle. by destruct (promises w !! p) as [[]|]. Qed.

Lemma sockets_settle p o w : sockets (settle p o w) = sockets w.
Proof. unfold settle. by destruct (promises w !! p) as [[]|]. Qed.

Lemma promises_settle_unsettled p o w :
  promises w !! p = Some Unsettled →
  promises (settle p o w) !! p = Some o.
Proof.
  intros H. unfold settle. rewrite H. simpl.
  apply list_lookup_insert_eq. by eapply lookup_lt_Some.
Qed.

Lemma promises_settle_settled p q o o' w :
  promises w !! p = Some o → o ≠ Unsettled →
  promises (settle q o' w) !! p = Some o.
Proof.
  intros H Ho. unfold settle.
  destruct (promises w !! q) as [[]|] eqn:Hq; try done. simpl.
  rewrite list_lookup_insert_ne; [done|]. intros ->. congruence.
Qed.

Lemma ctl_do_reject p m w : ctl (do_reject p m w) = ctl w.
Proof. unfold do_reject. simpl. apply ctl_settle. Qed.

Lemma ctl_do_resolve p r w : ctl (do_resolve p r w) = ctl w.
Proof. unfold do_resolve. simpl. apply ctl_settle. Qed.

Lemma trace_do_reject p m w :
  trace (do_reject p m w) = trace w ++ [EffReject p m].
Proof. unfold do_reject. simpl. by rewrite trace_settle. Qed.

Lemma trace_do_resolve p r w :
  trace (do_resolve p r w) = trace w ++ [EffResolve p r].
Proof. unfold do_resolve. simpl. by rewrite trace_settle. Qed.

Lemma ctl_entry_reject e m w : ctl (entry_reject e m w) = ctl w.
Proof. unfold entry_reject. by rewrite ctl_do_reject. Qed.

Lemma ctl_entry_resolve e r w : ctl (entry_resolve e r w) = ctl w.
Proof. unfold entry_resolve. by rewrite ctl_do_resolve. Qed.

Lemma trace_entry_reject e m w :
  trace (entry_reject e m w) = trace w ++ [EffReject (pc_promise e) m].
Proof. unfold entry_reject. by rewrite trace_do_reject. Qed.

Lemma trace_entry_resolve e r w :
  trace (entry_resolve e r w) = trace w ++ [EffResolve (pc_promise e) r].
Proof. unfold entry_resolve. by rewrite trace_do_resolve. Qed.

Lemma ctl_reject_each m l w : ctl (reject_each m l w) = ctl w.
Proof.
  revert w. induction l as [|kv l IH]; intros w; [done|].
  unfold reject_each in *. simpl. by rewrite IH, ctl_entry_reject.
Qed.

Lemma trace_reject_each m l w :
  trace (reject_each m l w) =
  trace w ++ ((λ p, EffReject p m) <$> waiters l).
Proof.
  revert w. induction l as [|kv l IH]; intros w.
  - simpl. by rewrite app_nil_r.
  - unfold reject_each in *. simpl.
    by rewrite IH, trace_entry_reject, <- app_assoc.
Qed.

Lemma sockets_reject_each m l w : sockets (reject_each m l w) = sockets w.
Proof.
  revert w. induction l as [|kv l IH]; intros w; [done|].
  unfold reject_each in *. simpl. rewrite IH.
  unfold entry_reject, do_reject. simpl. by rewrite sockets_settle.
Qed.

Lemma ctl_on_close w :
  ctl (on_close w) = with_pending [] (with_connected false (ctl w)).
Proof. unfold on_close. simpl. by rewrite ctl_reject_each. Qed.

Lemma trace_on_close w :
  trace (on_close w) =
  trace w ++ ((λ p, EffReject p "连接已断开") <$> waiters (pending (ctl w))).
Proof. unfold on_close. simpl. by rewrite trace_reject_each. Qed.

Lemma ctl_disconnect w :
  ctl (disconnect w) =
  with_pending [] (with_page None (with_connected false (with_ws None (ctl w)))).
Proof.
  unfold disconnect. destruct (ws (ctl w)) eqn:H; simpl; [done|].
  unfold with_pending, with_page, with_connected, with_ws. simpl. by rewrite H.
Qed.

Lemma trace_disconnect w :
  trace (disconnect w) =
  trace w ++ match ws (ctl w) with Some s => [EffWsClose s] | None => [] end.
Proof.
  unfold disconnect. destruct (ws (ctl w)); simpl; [done|].
  by rewrite app_nil_r.
Qed.

Lemma promises_disconnect w : promises (disconnect w) = promises w.
Proof. unfold disconnect. by destruct (ws (ctl w)). Qed.

Lemma timers_disconnect w : timers (disconnect w) = timers w.
Proof. unfold disconnect. by destruct (ws (ctl w)). Qed.

Lemma sockets_disconnect_length w :
  length (sockets (disconnect w)) = length (sockets w).
Proof.
  unfold disconnect. destruct (ws (ctl w)); simpl; [|done].
  by rewrite length_alter.
Qed.

Lemma next_timer_settle p o w : next_timer (settle p o w) = next_timer w.
Proof. unfold settle. by destruct (promises w !! p) as [[]|]. Qed.

(** A promise made and rejected at once. *)
Lemma reject_at_once m w :
  let p := length (promises w) in
  let w' := do_reject p m (new_promise w).2 in
  promises w' = promises w ++ [Rejected m] ∧
  ctl w' = ctl w ∧ timers w' = timers w ∧ next_timer w' = next_timer w ∧
  sockets w' = sockets w ∧ trace w' = trace w ++ [EffReject p m].
Proof.
  intros p w'. unfold w', do_reject, new_promise. simpl.
  rewrite ctl_settle, timers_settle, next_timer_settle, sockets_settle,
    trace_settle. simpl.
  repeat split; try done.
  unfold settle. simpl. rewrite lookup_app_r, Nat.sub_diag by done. simpl.
  by rewrite insert_app_r_alt, Nat.sub_diag.
Qed.

(** The store [connect] leaves when the page has a socket url and the
    library makes a socket for it. *)
Lemma connect_valid page pg u w :
  page_ws_url page = Some (pg, u) →
  WebSocket_new u = None →
  let w0 := match ws (ctl w) with Some _ => disconnect w | None => w end in
  let p := length (promises w) in
  let s := length (sockets w) in
  (connect page w).1 = p ∧
  ctl (connect page w).2 = with_ws (Some s) (ctl w0) ∧
  trace (connect page w).2 = trace w0 ∧
  promises (connect page w).2 = promises w ++ [Unsettled] ∧
  timers (connect page w).2 = timers w ∧
  sockets (connect page w).2 =
    sockets w0 ++ [{| sk_url := u; readyState := CONNECTING;
                      sk_page := pg; sk_promise := p |}].
Proof.
  intros Hp Hn. unfold connect. rewrite Hp.
  destruct (ws (ctl w)) eqn:Hws; cbn zeta.
  - unfold new_promise. rewrite Hn.
    rewrite promises_disconnect. cbn -[disconnect].
    by rewrite sockets_disconnect_length, timers_disconnect.
  - unfold new_promise. by rewrite Hn.
Qed.

(** The store [connect] leaves when the page has a socket url and the
    library refuses it: the socket held is torn down, and the promise is
    rejected at once. *)
Lemma connect_refused page pg u m w :
  page_ws_url page = Some (pg, u) →
  WebSocket_new u = Some m →
  let w0 := match ws (ctl w) with Some _ => disconnect w | None => w end in
  let p := length (promises w) in
  (connect page w).1 = p ∧
  ctl (connect page w).2 = ctl w0 ∧
  trace (connect page w).2 = trace w0 ++ [EffReject p m] ∧
  promises (connect page w).2 = promises w ++ [Rejected m] ∧
  timers (connect page w).2 = timers w ∧
  next_timer (connect page w).2 = next_timer w ∧
  sockets (connect page w).2 = sockets w0.
Proof.
  intros Hp Hn w0 p. unfold connect. rewrite Hp. fold w0.
  assert (Hpr : promises w0 = promises w).
  { unfold w0. destruct (ws (ctl w)); [apply promises_disconnect|done]. }
  assert (Htm : timers w0 = timers w).
  { unfold w0. destruct (ws (ctl w)); [apply timers_disconnect|done]. }
  assert (Hnt : next_timer w0 = next_timer w).
  { unfold w0, disconnect. by destruct (ws (ctl w)). }
  destruct (reject_at_once m w0) as (Hps & Hc & Hts & Hnx & Hs & Ht).
  unfold new_promise in *. cbn zeta. rewrite Hn. cbn [fst snd] in *.
  rewrite Hpr in *. by rewrite Hc, Ht, Hps, Hts, Hnx, Hs, Htm, Hnt.
Qed.

(** [connect] goes one of three ways. *)
Lemma connect_cases page :
  page_ws_url page = None ∨
  (∃ pg u, page_ws_url page = Some (pg, u) ∧ WebSocket_new u = None) ∨
  (∃ pg u m, page_ws_url page = Some (pg, u) ∧ WebSocket_new u = Some m).
Proof.
  destruct (page_ws_url page) as [[pg u]|]; [|by left].
  right. destruct (WebSocket_new u) as [m|] eqn:Hn; [right|left]; eauto.
Qed.

(** The store [connect] leaves when the page has no socket url. *)
Lemma connect_invalid page w :
  page_ws_url page = None →
  let p := length (promises w) in
  let message := "无效的页面对象，缺少 webSocketDebuggerUrl" in
  (connect page w).1 = p ∧
  ctl (connect page w).2 = ctl w ∧
  trace (connect page w).2 = trace w ++ [EffReject p message] ∧
  promises (connect page w).2 = promises w ++ [Rejected message] ∧
  timers (connect page w).2 = timers w ∧
  sockets (connect page w).2 = sockets w.
Proof.
  intros Hp. unfold connect. rewrite Hp. cbn zeta. unfold new_promise. simpl.
  rewrite ctl_settle, trace_settle, timers_settle, sockets_settle. simpl.
  repeat split; try done.
  unfold settle. simpl. rewrite lookup_app_r, Nat.sub_diag by done. simpl.
  rewrite insert_app_r_alt, Nat.sub_diag by done. done.
Qed.

(** *** The pending map *)

Lemma map_has_delete_same k m : map_has k (map_delete k m) = false.
Proof.
  unfold map_has, map_delete. induction m as [|[k' v] m IH]; [done|].
  simpl. destruct (Z.eqb_spec k' k); simpl; [done|].
  rewrite IH. by destruct (Z.eqb_spec k' k).
Qed.

Lemma map_has_delete k k' m :
  map_has k (map_delete k' m) = true → map_has k m = true.
Proof.
  unfold map_has, map_delete. induction m as [|[k0 v] m IH]; [done|].
  simpl. destruct (negb (k0 =? k')); simpl.
  - destruct (k0 =? k); [done|]. apply IH.
  - intros H. rewrite (IH H). apply orb_true_r.
Qed.

Lemma map_has_set k k' v m :
  map_has k (map_set k' v m) = true → k = k' ∨ map_has k m = true.
Proof.
  unfold map_has. induction m as [|[k0 v0] m IH]; simpl.
  - rewrite orb_false_r. intros H%Z.eqb_eq. auto.
  - destruct (Z.eqb_spec k0 k'); simpl.
    + subst k0. destruct (Z.eqb_spec k' k); auto.
    + destruct (k0 =? k); simpl; auto.
Qed.

Lemma map_get_has k m e : map_get k m = Some e → map_has k m = true.
Proof.
  unfold map_get, map_has. induction m as [|[k0 v0] m IH]; [done|].
  simpl. destruct (k0 =? k); simpl; [done|]. apply IH.
Qed.

(** *** Correlation ids *)

Lemma issued_snoc tr e :
  issued (tr ++ [e]) =
  issued tr ++ match e with EffWsSend _ f => [f_id f] | _ => [] end.
Proof. unfold issued. rewrite omap_app. by destruct e. Qed.

Lemma issued_rejects tr m ps :
  issued (tr ++ ((λ p, EffReject p m) <$> ps)) = issued tr.
Proof.
  unfold issued. rewrite omap_app.
  replace (omap _ ((λ p, EffReject p m) <$> ps)) with (@nil Z).
  - by rewrite app_nil_r.
  - induction ps; [done|]. by simpl.
Qed.

Lemma connected_ws w : connected w = true → ∃ s, ws (ctl w) = Some s.
Proof.
  unfold connected. destruct (ws (ctl w)) as [s|]; [eauto|].
  by rewrite andb_false_r.
Qed.

(** What a step does to the controller's fields and to the ids sent: a
    [send] on a connected controller registers the next id and writes its
    frame; every other step leaves the counter alone, writes no frame and
    adds no key to the map. *)
Lemma step_ids_and_keys a w :
  (ids_of (step a w) = ids_of w ∧
   ∀ k, map_has k (pending (ctl (step a w))) = true →
        map_has k (pending (ctl w)) = true) ∨
  (ids_of (step a w) =
     (js_incr (messageId (ctl w)), issued (trace w) ++ [messageId (ctl w)]) ∧
   ∀ k, map_has k (pending (ctl (step a w))) = true →
        k = messageId (ctl w) ∨ map_has k (pending (ctl w)) = true).
Proof.
  unfold ids_of.
  destruct a as [page|method params timeout| |s|s raw|s err|s|t]; cbn [step].
  - left.
    destruct (connect_cases page) as [Hp|[(pg & u & Hp & Hn)|(pg & u & m & Hp & Hn)]].
    + destruct (connect_invalid page w Hp) as (_ & -> & -> & _).
      by rewrite issued_snoc, app_nil_r.
    + destruct (connect_valid page pg u w Hp Hn) as (_ & -> & -> & _).
      destruct (ws (ctl w)) eqn:Hws; [|done].
      rewrite ctl_disconnect, trace_disconnect, Hws. simpl.
      by rewrite issued_snoc, app_nil_r.
    + destruct (connect_refused page pg u m w Hp Hn) as (_ & -> & -> & _).
      rewrite issued_snoc, app_nil_r.
      destruct (ws (ctl w)) eqn:Hws; [|done].
      rewrite ctl_disconnect, trace_disconnect, Hws. simpl.
      by rewrite issued_snoc, app_nil_r.
  - unfold send. destruct (connected w) eqn:Hc; simpl.
    + right. destruct (connected_ws w Hc) as [s Hs].
      unfold ws_send. simpl. rewrite Hs. simpl. rewrite issued_snoc. simpl.
      split; [done|]. intros k. apply map_has_set.
    + left. by rewrite ctl_settle, trace_settle, issued_snoc, app_nil_r.
  - left. rewrite ctl_disconnect, trace_disconnect. simpl.
    destruct (ws (ctl w)); [by rewrite issued_snoc, app_nil_r|by rewrite app_nil_r].
  - left. destruct (sockets w !! s) as [sk|]; [|done].
    destruct (readyState sk); try done.
    unfold on_open. rewrite ctl_do_resolve, trace_do_resolve. simpl.
    by rewrite !issued_snoc, !app_nil_r.
  - left. destruct (sockets w !! s) as [sk|]; [|done].
    assert (H :
      messageId (ctl (on_message raw w)) = messageId (ctl w) ∧
      issued (trace (on_message raw w)) = issued (trace w) ∧
      ∀ k, map_has k (pending (ctl (on_message raw w))) = true →
           map_has k (pending (ctl w)) = true).
    { unfold on_message. destruct raw as [|msg]; [done|].
      destruct (msg_id msg) as [id|]; [|done].
      destruct (negb (id =? 0) && map_has id (pending (ctl w))); [|done].
      destruct (map_get id (pending (ctl w))) as [e|]; [|done].
      destruct (msg_error msg).
      - rewrite ctl_entry_reject, trace_entry_reject, issued_snoc. simpl.
        rewrite app_nil_r. repeat split. intros k. apply map_has_delete.
      - rewrite ctl_entry_resolve, trace_entry_resolve, issued_snoc. simpl.
        rewrite app_nil_r. repeat split. intros k. apply map_has_delete. }
    destruct H as (Hm & Hi & H). by destruct (readyState sk); rewrite ?Hm, ?Hi.
  - left. destruct (sockets w !! s) as [sk|]; [|done].
    destruct (readyState sk); try done; unfold on_error;
      by rewrite ctl_do_reject, trace_do_reject, issued_snoc, app_nil_r.
  - left. destruct (sockets w !! s) as [sk|]; [|done].
    destruct (readyState sk); try done;
      by rewrite ctl_on_close, trace_on_close, issued_rejects.
  - left. destruct (timers w !! t) as [tm|]; [|done].
    unfold on_timeout. simpl. destruct (map_has _ _); [|done].
    rewrite ctl_do_reject, trace_do_reject, issued_snoc, app_nil_r. simpl.
    split; [done|]. intros k. apply map_has_delete.
Qed.

Lemma first_ids_S n : first_ids (S n) = first_ids n ++ [Z.of_nat (S n)].
Proof. unfold first_ids. by rewrite seq_S, fmap_app. Qed.

Lemma first_ids_lookup n i x : first_ids n !! i = Some x → x = Z.of_nat (S i).
Proof.
  unfold first_ids. rewrite list_lookup_fmap. intros H.
  destruct (seq 1 n !! i) as [y|] eqn:Hy; [|done].
  apply lookup_seq in Hy as [-> _]. simpl in H. by injection H as <-.
Qed.

Lemma first_ids_bound n x : x ∈ first_ids n → 1 ≤ x ≤ Z.of_nat n.
Proof.
  intros [i Hi]%list_elem_of_lookup.
  pose proof (lookup_lt_Some _ _ _ Hi) as Hlt.
  unfold first_ids in Hlt. rewrite length_fmap, length_seq in Hlt.
  apply first_ids_lookup in Hi. lia.
Qed.

Lemma ids_inv_fresh port : ids_inv (fresh port).
Proof. split; [reflexivity|done]. Qed.

Lemma ids_inv_step a w : ids_inv w → ids_inv (step a w).
Proof.
  intros [Hm Hi]. unfold ids_inv.
  destruct (step_ids_and_keys a w) as [[H _]|[H _]]; unfold ids_of in H;
    injection H as -> ->; [by split|].
  rewrite length_app. simpl length. rewrite Nat.add_1_r.
  set (n := length (issued (trace w))) in *.
  split.
  - rewrite Hm. unfold js_incr.
    destruct (Z.ltb_spec (Z.min (1 + Z.of_nat n) (2 ^ 53)) (2 ^ 53)); lia.
  - intros Hn. rewrite first_ids_S, Hi, Hm by lia. f_equal. f_equal. lia.
Qed.

Lemma ids_inv_run acts w : ids_inv w → ids_inv (run acts w).
Proof.
  revert w. induction acts as [|a acts IH]; intros w Hw; [done|].
  simpl. apply IH. by apply ids_inv_step.
Qed.

Lemma keys_issued_fresh port : keys_issued (fresh port).
Proof. intros k H. done. Qed.

Lemma keys_issued_step a w : keys_issued w → keys_issued (step a w).
Proof.
  intros Hw k Hk.
  destruct (step_ids_and_keys a w) as [[H Hkeys]|[H Hkeys]]; unfold ids_of in H;
    injection H as _ ->.
  - auto.
  - apply elem_of_app. destruct (Hkeys k Hk) as [->|H']; [right; set_solver|left; auto].
Qed.

Lemma keys_issued_run acts w : keys_issued w → keys_issued (run acts w).
Proof.
  revert w. induction acts as [|a acts IH]; intros w Hw; [done|].
  simpl. apply IH. by apply keys_issued_step.
Qed.

Lemma issued_step_length a w :
  (length (issued (trace w)) ≤ length (issued (trace (step a w))))%nat.
Proof.
  destruct (step_ids_and_keys a w) as [[H _]|[H _]]; unfold ids_of in H;
    injection H as _ ->; [done|]. rewrite length_app. lia.
Qed.

Lemma issued_run_length acts w :
  (length (issued (trace w)) ≤ length (issued (trace (run acts w))))%nat.
Proof.
  revert w. induction acts as [|a acts IH]; intros w; [done|].
  simpl. etrans; [apply (issued_step_length a)|apply IH].
Qed.

(** An id that was sent and has left the map never enters it again. *)
Lemma stays_absent acts w id :
  ids_inv w →
  id ∈ issued (trace w) →
  map_has id (pending (ctl w)) = false →
  Z.of_nat (length (issued (trace (run acts w)))) ≤ 2 ^ 53 →
  map_has id (pending (ctl (run acts w))) = false.
Proof.
  revert w. induction acts as [|a acts IH]; intros w Hinv Hid Habs Hn; [done|].
  simpl in *.
  pose proof (issued_run_length acts (step a w)) as Hlen.
  pose proof (issued_step_length a w) as Hlen'.
  destruct Hinv as [Hm Hi].
  rewrite Hi in Hid by lia. apply first_ids_bound in Hid.
  apply IH; [by apply ids_inv_step| | |done].
  - destruct (step_ids_and_keys a w) as [[H _]|[H _]]; unfold ids_of in H;
      injection H as _ ->; rewrite Hi by lia.
    + unfold first_ids. apply list_elem_of_fmap. exists (Z.to_nat id).
      split; [lia|]. apply elem_of_seq. lia.
    + apply elem_of_app. left.
      unfold first_ids. apply list_elem_of_fmap. exists (Z.to_nat id).
      split; [lia|]. apply elem_of_seq. lia.
  - destruct (map_has id (pending (ctl (step a w)))) eqn:Hhas; [|done].
    destruct (step_ids_and_keys a w) as [[H Hkeys]|[H Hkeys]].
    + rewrite (Hkeys id Hhas) in Habs. done.
    + destruct (Hkeys id Hhas) as [->|H']; [|congruence].
      unfold ids_of in H. injection H as _ H.
      rewrite H, length_app in Hlen. simpl in Hlen. lia.
Qed.

(** A frame whose id is not in the map changes nothing. *)
Lemma message_for_absent_id s msg id w :
  msg_id msg = Some id →
  map_has id (pending (ctl w)) = false →
  step (WsMessage s (Parsed msg)) w = w.
Proof.
  intros Hid Habs. simpl. unfold on_message. rewrite Hid, Habs, andb_false_r.
  destruct (sockets w !! s) as [sk|]; [|done]. by destruct (readyState sk).
Qed.

(** *** Rejecting every entry *)

Lemma promises_settle_ne p q o w :
  p ≠ q → promises (settle q o w) !! p = promises w !! p.
Proof.
  intros Hne. unfold settle. destruct (promises w !! q) as [[]|]; try done.
  simpl. by rewrite list_lookup_insert_ne.
Qed.

Lemma promises_entry_reject e m w p :
  promises (entry_reject e m w) !! p =
  promises (settle (pc_promise e) (Rejected m) w) !! p.
Proof. unfold entry_reject, do_reject, settle. simpl. by destruct (_ !! pc_promise e) as [[]|]. Qed.

Lemma promises_reject_each_settled m l w p :
  promises w !! p = Some (Rejected m) →
  promises (reject_each m l w) !! p = Some (Rejected m).
Proof.
  revert w. induction l as [|kv l IH]; intros w H; [done|].
  unfold reject_each in *. simpl. apply IH.
  rewrite promises_entry_reject. by apply promises_settle_settled.
Qed.

Lemma promises_reject_each m l w p :
  p ∈ waiters l →
  promises w !! p = Some Unsettled →
  promises (reject_each m l w) !! p = Some (Rejected m).
Proof.
  revert w. induction l as [|kv l IH]; intros w Hin Hp.
  - by apply elem_of_nil in Hin.
  - unfold reject_each in *. simpl.
    destruct (decide (p = pc_promise kv.2)) as [->|Hne].
    + apply promises_reject_each_settled.
      rewrite promises_entry_reject. by apply promises_settle_unsettled.
    + apply IH.
      * unfold waiters in Hin. rewrite fmap_cons in Hin.
        apply elem_of_cons in Hin as [?|?]; [done|done].
      * rewrite promises_entry_reject. by rewrite promises_settle_ne.
Qed.

Lemma rejections_rejects m ps p :
  NoDup ps → p ∈ ps →
  rejections p ((λ q, EffReject q m) <$> ps) = 1%nat.
Proof.
  unfold rejections. induction 1 as [|q ps Hq Hnd IH]; intros Hin.
  - by apply elem_of_nil in Hin.
  - simpl. apply elem_of_cons in Hin as [->|Hin].
    + rewrite Nat.eqb_refl. simpl. f_equal.
      clear IH Hnd. induction ps as [|r ps IH]; [done|]. simpl.
      apply not_elem_of_cons in Hq as [Hne Hq].
      destruct (Nat.eqb_spec r q); [congruence|]. by apply IH.
    + destruct (Nat.eqb_spec q p); [subst; done|]. by apply IH.
Qed.

(** *** The calls in flight *)

Lemma map_get_elem k m e : map_get k m = Some e → (k, e) ∈ m.
Proof.
  unfold map_get. induction m as [|[k0 e0] m IH]; [done|]. simpl.
  destruct (Z.eqb_spec k0 k) as [->|Hne]; simpl.
  - intros [= ->]. apply elem_of_cons. by left.
  - intros H. apply elem_of_cons. right. by apply IH.
Qed.

Lemma map_has_elem k m : map_has k m = true ↔ ∃ e, (k, e) ∈ m.
Proof.
  unfold map_has. induction m as [|[k0 e0] m IH]; simpl.
  - split; [done|]. intros [e He]. by apply elem_of_nil in He.
  - rewrite orb_true_iff, IH. split.
    + intros [->%Z.eqb_eq|[e He]]; [exists e0; apply elem_of_cons; by left|].
      exists e. apply elem_of_cons. by right.
    + intros [e [[= -> ->]|He]%elem_of_cons]; [left; apply Z.eqb_refl|right; eauto].
Qed.

Lemma map_get_of_has k m : map_has k m = true → ∃ e, map_get k m = Some e.
Proof.
  unfold map_has, map_get. induction m as [|[k0 e0] m IH]; [done|]. simpl.
  destruct (k0 =? k); simpl; eauto.
Qed.

Lemma elem_of_map_delete k k' e m :
  (k', e) ∈ map_delete k m ↔ (k', e) ∈ m ∧ k' ≠ k.
Proof.
  unfold map_delete. rewrite !list_elem_of_In, List.filter_In. simpl.
  rewrite negb_true_iff, Z.eqb_neq. done.
Qed.

Lemma map_set_fresh k e m : map_has k m = false → map_set k e m = m ++ [(k, e)].
Proof.
  unfold map_has. induction m as [|[k0 e0] m IH]; [done|]. simpl.
  intros [H1 H2]%orb_false_iff. rewrite H1. by rewrite IH.
Qed.

Lemma elem_of_waiters p m :
  p ∈ waiters m ↔ ∃ k e, (k, e) ∈ m ∧ pc_promise e = p.
Proof.
  unfold waiters. rewrite list_elem_of_fmap. split.
  - intros ([k e] & -> & H). eauto.
  - intros (k & e & H & <-). by exists (k, e).
Qed.

Lemma waiters_map_delete_NoDup k m :
  NoDup (waiters m) → NoDup (waiters (map_delete k m)).
Proof.
  unfold waiters, map_delete. induction m as [|[k0 e0] m IH]; [done|].
  simpl. intros [Hn Hnd]%NoDup_cons. destruct (negb (k0 =? k)); simpl; [|auto].
  apply NoDup_cons. split; [|auto].
  intros ([k1 e1] & Heq & Hin)%list_elem_of_fmap. apply Hn.
  apply list_elem_of_fmap. exists (k1, e1). split; [done|].
  apply list_elem_of_In, List.filter_In in Hin as [Hin _]. by apply list_elem_of_In.
Qed.

(** Two entries with one promise are one entry. *)
Lemma waiters_inj m k e k' e' :
  NoDup (waiters m) → (k, e) ∈ m → (k', e') ∈ m →
  pc_promise e = pc_promise e' → (k, e) = (k', e').
Proof.
  unfold waiters. induction m as [|[k0 e0] m IH]; intros Hnd H1 H2 Hp.
  - by apply elem_of_nil in H1.
  - simpl in Hnd. apply NoDup_cons in Hnd as [Hn Hnd].
    apply elem_of_cons in H1 as [H1|H1], H2 as [H2|H2].
    + congruence.
    + injection H1 as -> ->. destruct Hn. apply list_elem_of_fmap.
      by exists (k', e').
    + injection H2 as -> ->. destruct Hn. apply list_elem_of_fmap.
      by exists (k, e).
    + by apply IH.
Qed.

Lemma settle_length p o w : length (promises (settle p o w)) = length (promises w).
Proof.
  unfold settle. destruct (promises w !! p) as [[]|]; try done.
  simpl. by rewrite length_insert.
Qed.

(** A step that leaves the map alone and arms no timer. *)
Lemma well_kept_frame w w' :
  well_kept w →
  pending (ctl w') = pending (ctl w) →
  (∀ p, p ∈ waiters (pending (ctl w)) → promises w' !! p = promises w !! p) →
  (∀ t tm, timers w' !! t = Some tm → timers w !! t = Some tm) →
  (∀ k e, (k, e) ∈ pending (ctl w) →
     timers w' !! pc_timer e = timers w !! pc_timer e) →
  (next_timer w ≤ next_timer w')%nat →
  (∀ x, x ∈ issued (trace w) → x ∈ issued (trace w')) →
  (∀ s sk, sockets w' !! s = Some sk →
     (sk_promise sk < length (promises w'))%nat ∧
     sk_promise sk ∉ waiters (pending (ctl w))) →
  well_kept w'.
Proof.
  intros [He Hw Ht Hi Hs] Hp Hpr Htm Htm' Hn Hiss Hsk. split.
  - intros k e Hin. rewrite Hp in Hin. destruct (He k e Hin) as [H1 H2].
    rewrite (Htm' k e Hin). split; [|done]. rewrite Hpr; [done|].
    apply elem_of_waiters. eauto.
  - by rewrite Hp.
  - intros t tm H. apply Htm in H. destruct (Ht t tm H). split; [lia|auto].
  - intros t t' tm tm' H H'. apply Htm in H, H'. by apply Hi.
  - intros s sk H. rewrite Hp. exact (Hsk s sk H).
Qed.

(** A step that empties the map. *)
Lemma well_kept_cleared w w' :
  well_kept w →
  pending (ctl w') = [] →
  (∀ t tm, timers w' !! t = Some tm → timers w !! t = Some tm) →
  (next_timer w ≤ next_timer w')%nat →
  (∀ x, x ∈ issued (trace w) → x ∈ issued (trace w')) →
  (∀ s sk, sockets w' !! s = Some sk →
     (sk_promise sk < length (promises w'))%nat) →
  well_kept w'.
Proof.
  intros [He Hw Ht Hi Hs] Hp Htm Hn Hiss Hsk. split.
  - intros k e Hin. rewrite Hp in Hin. by apply elem_of_nil in Hin.
  - rewrite Hp. constructor.
  - intros t tm H. apply Htm in H. destruct (Ht t tm H). split; [lia|auto].
  - intros t t' tm tm' H H'. apply Htm in H, H'. by apply Hi.
  - intros s sk H. rewrite Hp. split; [exact (Hsk s sk H)|]. apply not_elem_of_nil.
Qed.

Lemma well_kept_fresh port : well_kept (fresh port).
Proof.
  split; try done.
  - intros k e H. by apply elem_of_nil in H.
  - constructor.
Qed.

Lemma sockets_alter_promise (f : Socket → Socket) s' (l : list Socket) s sk :
  (∀ x, sk_promise (f x) = sk_promise x) →
  alter f s' l !! s = Some sk →
  ∃ sk0, l !! s = Some sk0 ∧ sk_promise sk0 = sk_promise sk.
Proof.
  intros Hf H. destruct (decide (s = s')) as [->|Hne].
  - rewrite list_lookup_alter_eq in H.
    destruct (l !! s') as [sk0|]; [|done]. injection H as <-. eauto.
  - rewrite list_lookup_alter_ne in H by done. eauto.
Qed.

Lemma sockets_disconnect w s sk :
  sockets (disconnect w) !! s = Some sk →
  ∃ sk0, sockets w !! s = Some sk0 ∧ sk_promise sk0 = sk_promise sk.
Proof.
  unfold disconnect. destruct (ws (ctl w)); simpl; [|eauto].
  apply sockets_alter_promise. intros x. by destruct (readyState x).
Qed.

Lemma well_kept_disconnect w : well_kept w → well_kept (disconnect w).
Proof.
  intros H. apply (well_kept_cleared w); [done|by rewrite ctl_disconnect| | | |].
  - by rewrite timers_disconnect.
  - unfold disconnect. by destruct (ws (ctl w)).
  - intros x. rewrite trace_disconnect. unfold issued. rewrite omap_app.
    intros. apply elem_of_app. by left.
  - intros s sk (sk0 & H0 & <-)%sockets_disconnect. rewrite promises_disconnect.
    by apply (wk_socket w H) in H0 as [? _].
Qed.

Lemma issued_mono_snoc tr e x : x ∈ issued tr → x ∈ issued (tr ++ [e]).
Proof. rewrite issued_snoc. intros. apply elem_of_app. by left. Qed.

Lemma well_kept_connect page w : well_kept w → well_kept (connect page w).2.
Proof.
  intros H.
  destruct (connect_cases page) as [Hp|[(pg & u & Hp & Hn)|(pg & u & m & Hp & Hn)]];
    cycle 1.
  - destruct (connect_valid page pg u w Hp Hn) as (_ & Hc & Ht & Hpr & Htm & Hs).
    set (w0 := match ws (ctl w) with Some _ => disconnect w | None => w end) in *.
    assert (H0 : well_kept w0).
    { unfold w0. destruct (ws (ctl w)); [by apply well_kept_disconnect|done]. }
    assert (Hpr0 : promises w0 = promises w).
    { unfold w0. destruct (ws (ctl w)); [apply promises_disconnect|done]. }
    assert (Htm0 : timers w0 = timers w).
    { unfold w0. destruct (ws (ctl w)); [apply timers_disconnect|done]. }
    assert (Hn0 : next_timer (connect page w).2 = next_timer w0).
    { unfold connect. rewrite Hp. unfold w0, new_promise.
      destruct (ws (ctl w)); by rewrite Hn. }
    apply (well_kept_frame w0); [done|by rewrite Hc| | | | | |].
    + intros p Hin. rewrite Hpr, Hpr0. apply lookup_app_l.
      apply elem_of_waiters in Hin as (k & e & Hin & <-).
      apply (wk_entry w0 H0) in Hin as [Hin _]. rewrite Hpr0 in Hin.
      by eapply lookup_lt_Some.
    + by rewrite Htm, Htm0.
    + by rewrite Htm, Htm0.
    + by rewrite Hn0.
    + by rewrite Ht.
    + intros s sk Hsk. rewrite Hs in Hsk. rewrite Hpr, length_app. simpl.
      apply lookup_app_Some in Hsk as [Hsk|[_ Hsk]].
      * apply (wk_socket w0 H0) in Hsk as [? ?]. rewrite Hpr0 in *. split; [lia|done].
      * destruct (s - length (sockets w0))%nat; [|done]. injection Hsk as <-.
        simpl. split; [lia|]. intros (k & e & Hin & Heq)%elem_of_waiters.
        apply (wk_entry w0 H0) in Hin as [Hin _]. rewrite Hpr0 in Hin.
        apply lookup_lt_Some in Hin. lia.
  - destruct (connect_refused page pg u m w Hp Hn)
      as (_ & Hc & Ht & Hpr & Htm & Hnt & Hs).
    set (w0 := match ws (ctl w) with Some _ => disconnect w | None => w end) in *.
    assert (H0 : well_kept w0).
    { unfold w0. destruct (ws (ctl w)); [by apply well_kept_disconnect|done]. }
    assert (Hpr0 : promises w0 = promises w).
    { unfold w0. destruct (ws (ctl w)); [apply promises_disconnect|done]. }
    assert (Htm0 : timers w0 = timers w).
    { unfold w0. destruct (ws (ctl w)); [apply timers_disconnect|done]. }
    assert (Hn0 : next_timer w0 = next_timer w).
    { unfold w0, disconnect. by destruct (ws (ctl w)). }
    apply (well_kept_frame w0); [done|by rewrite Hc| | | | | |].
    + intros p Hin. rewrite Hpr, Hpr0. apply lookup_app_l.
      apply elem_of_waiters in Hin as (k & e & Hin & <-).
      apply (wk_entry w0 H0) in Hin as [Hin _]. rewrite Hpr0 in Hin.
      by eapply lookup_lt_Some.
    + by rewrite Htm, Htm0.
    + by rewrite Htm, Htm0.
    + by rewrite Hnt, Hn0.
    + rewrite Ht. intros x. apply issued_mono_snoc.
    + intros s sk Hsk. rewrite Hs in Hsk. rewrite Hpr, length_app. simpl.
      apply (wk_socket w0 H0) in Hsk as [? ?]. rewrite Hpr0 in *.
      split; [lia|done].
  - destruct (connect_invalid page w Hp) as (_ & Hc & Ht & Hpr & Htm & Hs).
    apply (well_kept_frame w); [done|by rewrite Hc| | | | | |].
    + intros p Hin. rewrite Hpr. apply lookup_app_l.
      apply elem_of_waiters in Hin as (k & e & Hin & <-).
      apply (wk_entry w H) in Hin as [Hin _]. by eapply lookup_lt_Some.
    + by rewrite Htm.
    + by rewrite Htm.
    + unfold connect. rewrite Hp. simpl. by rewrite next_timer_settle.
    + rewrite Ht. intros x. apply issued_mono_snoc.
    + intros s sk Hsk. rewrite Hs in Hsk. rewrite Hpr, length_app. simpl.
      apply (wk_socket w H) in Hsk as [? ?]. split; [lia|done].
Qed.

(** A step that takes one entry out of the map, disarms its timer and
    settles its promise. *)
Lemma well_kept_remove w w' id e :
  well_kept w →
  (id, e) ∈ pending (ctl w) →
  pending (ctl w') = map_delete id (pending (ctl w)) →
  (∀ p, p ≠ pc_promise e → promises w' !! p = promises w !! p) →
  length (promises w') = length (promises w) →
  timers w' = delete (pc_timer e) (timers w) →
  (next_timer w ≤ next_timer w')%nat →
  (∀ x, x ∈ issued (trace w) → x ∈ issued (trace w')) →
  (∀ s sk, sockets w' !! s = Some sk →
     ∃ sk0, sockets w !! s = Some sk0 ∧ sk_promise sk0 = sk_promise sk) →
  well_kept w'.
Proof.
  intros [He Hw Ht Hi Hs] Hin Hp Hpr Hlen Htm Hn Hiss Hsk.
  assert (Hsub : ∀ p, p ∈ waiters (map_delete id (pending (ctl w))) →
                      p ∈ waiters (pending (ctl w))).
  { intros p (k' & e' & [H' _]%elem_of_map_delete & <-)%elem_of_waiters.
    apply elem_of_waiters. eauto. }
  split.
  - intros k' e' Hin'. rewrite Hp in Hin'.
    apply elem_of_map_delete in Hin' as [Hin' Hne].
    destruct (He k' e' Hin') as (H1 & tm' & H2 & H3 & H4).
    destruct (He id e Hin) as (_ & tm & H5 & H6 & _).
    split.
    + rewrite Hpr; [done|]. intros Heq.
      pose proof (waiters_inj _ _ _ _ _ Hw Hin' Hin Heq). congruence.
    + exists tm'. rewrite Htm, lookup_delete_ne; [done|].
      intros Heq. rewrite Heq in H5. congruence.
  - rewrite Hp. by apply waiters_map_delete_NoDup.
  - intros t tm H. rewrite Htm in H. apply lookup_delete_Some in H as [_ H].
    destruct (Ht t tm H). split; [lia|auto].
  - intros t t' tm tm' H H'. rewrite Htm in H, H'.
    apply lookup_delete_Some in H as [_ H], H' as [_ H']. by apply Hi.
  - intros s sk (sk0 & H0 & <-)%Hsk. destruct (Hs s sk0 H0) as [? Hnot].
    rewrite Hlen, Hp. split; [done|]. intros H'%Hsub. done.
Qed.

Lemma promises_do_reject_ne p q m w :
  p ≠ q → promises (do_reject q m w) !! p = promises w !! p.
Proof. intros. unfold do_reject. simpl. by apply promises_settle_ne. Qed.

Lemma promises_do_resolve_ne p q r w :
  p ≠ q → promises (do_resolve q r w) !! p = promises w !! p.
Proof. intros. unfold do_resolve. simpl. by apply promises_settle_ne. Qed.

Lemma well_kept_on_message raw w : well_kept w → well_kept (on_message raw w).
Proof.
  intros H. unfold on_message. destruct raw as [|msg]; [done|].
  destruct (msg_id msg) as [id|]; [|done].
  destruct (negb (id =? 0) && map_has id (pending (ctl w))); [|done].
  destruct (map_get id (pending (ctl w))) as [e|] eqn:Hg; [|done].
  apply map_get_elem in Hg.
  destruct (msg_error msg) as [m|].
  - apply (well_kept_remove w _ id e); try done.
    + by rewrite ctl_entry_reject.
    + intros p Hne. unfold entry_reject. by rewrite promises_do_reject_ne.
    + unfold entry_reject, do_reject. simpl. by rewrite settle_length.
    + unfold entry_reject, do_reject. simpl. by rewrite timers_settle.
    + unfold entry_reject, do_reject. simpl. by rewrite next_timer_settle.
    + intros x. rewrite trace_entry_reject. apply issued_mono_snoc.
    + intros s sk Hs. unfold entry_reject, do_reject in Hs. simpl in Hs.
      rewrite sockets_settle in Hs. eauto.
  - apply (well_kept_remove w _ id e); try done.
    + by rewrite ctl_entry_resolve.
    + intros p Hne. unfold entry_resolve. by rewrite promises_do_resolve_ne.
    + unfold entry_resolve, do_resolve. simpl. by rewrite settle_length.
    + unfold entry_resolve, do_resolve. simpl. by rewrite timers_settle.
    + unfold entry_resolve, do_resolve. simpl. by rewrite next_timer_settle.
    + intros x. rewrite trace_entry_resolve. apply issued_mono_snoc.
    + intros s sk Hs. unfold entry_resolve, do_resolve in Hs. simpl in Hs.
      rewrite sockets_settle in Hs. eauto.
Qed.

Lemma well_kept_timer t w : well_kept w → well_kept (step (TimerFires t) w).
Proof.
  intros H. cbn [step]. destruct (timers w !! t) as [tm|] eqn:Ht; [|done].
  unfold on_timeout. change (ctl (clearTimeout t w)) with (ctl w).
  destruct (map_has (tm_id tm) (pending (ctl w))) eqn:Hhas.
  - apply map_get_of_has in Hhas as [e Hg]. apply map_get_elem in Hg.
    destruct (wk_entry w H _ _ Hg) as (_ & tm' & Ht' & Hid & Hpr).
    assert (pc_timer e = t) as Het by (by eapply (wk_timer_ids w H)).
    subst t. assert (tm' = tm) as -> by congruence.
    apply (well_kept_remove w _ (tm_id tm) e); try done.
    + by rewrite ctl_do_reject.
    + intros p Hne. rewrite promises_do_reject_ne; [done|congruence].
    + unfold do_reject. simpl. by rewrite settle_length.
    + unfold do_reject. simpl. by rewrite timers_settle.
    + unfold do_reject. simpl. by rewrite next_timer_settle.
    + intros x. rewrite trace_do_reject. apply issued_mono_snoc.
    + intros s sk Hs. unfold do_reject in Hs. simpl in Hs.
      rewrite sockets_settle in Hs. eauto.
  - apply (well_kept_frame w); try done.
    + intros t' tm' H'. simpl in H'. by apply lookup_delete_Some in H' as [_ H'].
    + intros k e Hin. simpl. apply lookup_delete_ne. intros Heq.
      destruct (wk_entry w H _ _ Hin) as (_ & tm' & Ht' & Hid & _).
      rewrite <- Heq in Ht'.
      assert (tm' = tm) as -> by congruence.
      assert (map_has (tm_id tm) (pending (ctl w)) = true); [|congruence].
      apply map_has_elem. exists e. by rewrite Hid.
    + intros s sk Hs. by apply (wk_socket w H s).
Qed.

(** Settling the promise of a socket. *)
Lemma well_kept_socket_settled w w' sk :
  well_kept w →
  (∃ s, sockets w !! s = Some sk) →
  pending (ctl w') = pending (ctl w) →
  (∀ p, p ≠ sk_promise sk → promises w' !! p = promises w !! p) →
  length (promises w') = length (promises w) →
  timers w' = timers w →
  next_timer w' = next_timer w →
  (∀ x, x ∈ issued (trace w) → x ∈ issued (trace w')) →
  (∀ s sk', sockets w' !! s = Some sk' →
     ∃ sk0, sockets w !! s = Some sk0 ∧ sk_promise sk0 = sk_promise sk') →
  well_kept w'.
Proof.
  intros H [s0 Hs0] Hp Hpr Hlen Htm Hn Hiss Hsk.
  apply (well_kept_frame w); try done.
  - intros p Hin. apply Hpr. intros ->.
    by destruct (wk_socket w H _ _ Hs0) as [_ []].
  - by rewrite Htm.
  - by rewrite Htm.
  - lia.
  - intros s sk' (sk0 & H0 & <-)%Hsk. rewrite Hlen. by apply (wk_socket w H s).
Qed.

Lemma sockets_set_readyState s r w s' sk :
  sockets (set_readyState s r w) !! s' = Some sk →
  ∃ sk0, sockets w !! s' = Some sk0 ∧ sk_promise sk0 = sk_promise sk.
Proof. unfold set_readyState. simpl. by apply sockets_alter_promise. Qed.

Lemma well_kept_open s w : well_kept w → well_kept (step (WsOpen s) w).
Proof.
  intros H. cbn [step]. destruct (sockets w !! s) as [sk|] eqn:Hs; [|done].
  destruct (readyState sk); try done.
  apply (well_kept_socket_settled w _ sk); [done|by exists s| | | | | | |].
  - unfold on_open. by rewrite ctl_do_resolve.
  - intros p Hne. unfold on_open. by rewrite promises_do_resolve_ne.
  - unfold on_open, do_resolve. simpl. by rewrite settle_length.
  - unfold on_open, do_resolve. simpl. by rewrite timers_settle.
  - unfold on_open, do_resolve. simpl. by rewrite next_timer_settle.
  - intros x Hx. unfold on_open. rewrite trace_do_resolve. simpl.
    by apply issued_mono_snoc, issued_mono_snoc.
  - intros s' sk' Hs'. unfold on_open, do_resolve in Hs'. simpl in Hs'.
    rewrite sockets_settle in Hs'. simpl in Hs'.
    by apply (sockets_set_readyState s OPEN w).
Qed.

Lemma well_kept_error s err w : well_kept w → well_kept (step (WsError s err) w).
Proof.
  intros H. cbn [step]. destruct (sockets w !! s) as [sk|] eqn:Hs; [|done].
  assert (well_kept (on_error sk err (set_readyState s CLOSING w))).
  { apply (well_kept_socket_settled w _ sk); [done|by exists s| | | | | | |].
    - unfold on_error. by rewrite ctl_do_reject.
    - intros p Hne. unfold on_error. by rewrite promises_do_reject_ne.
    - unfold on_error, do_reject. simpl. by rewrite settle_length.
    - unfold on_error, do_reject. simpl. by rewrite timers_settle.
    - unfold on_error, do_reject. simpl. by rewrite next_timer_settle.
    - intros x Hx. unfold on_error. rewrite trace_do_reject. simpl.
      by apply issued_mono_snoc.
    - intros s' sk' Hs'. unfold on_error, do_reject in Hs'. simpl in Hs'.
      rewrite sockets_settle in Hs'. simpl in Hs'.
      by apply (sockets_set_readyState s CLOSING w). }
  by destruct (readyState sk).
Qed.

Lemma timers_reject_each m l w t tm :
  timers (reject_each m l w) !! t = Some tm → timers w !! t = Some tm.
Proof.
  revert w. induction l as [|kv l IH]; intros w; [done|].
  unfold reject_each in *. simpl. intros H%IH.
  unfold entry_reject, do_reject in H. simpl in H. rewrite timers_settle in H.
  simpl in H. by apply lookup_delete_Some in H as [_ H].
Qed.

Lemma next_timer_reject_each m l w :
  next_timer (reject_each m l w) = next_timer w.
Proof.
  revert w. induction l as [|kv l IH]; intros w; [done|].
  unfold reject_each in *. simpl. rewrite IH.
  unfold entry_reject, do_reject. simpl. by rewrite next_timer_settle.
Qed.

Lemma promises_reject_each_length m l w :
  length (promises (reject_each m l w)) = length (promises w).
Proof.
  revert w. induction l as [|kv l IH]; intros w; [done|].
  unfold reject_each in *. simpl. rewrite IH.
  unfold entry_reject, do_reject. simpl. by rewrite settle_length.
Qed.

Lemma well_kept_close s w : well_kept w → well_kept (step (WsClose s) w).
Proof.
  intros H. cbn [step]. destruct (sockets w !! s) as [sk|] eqn:Hs; [|done].
  assert (well_kept (on_close (set_readyState s CLOSED w))).
  { apply (well_kept_cleared w); [done|by rewrite ctl_on_close| | | |].
    - unfold on_close. simpl. intros t tm H'%timers_reject_each. done.
    - unfold on_close. simpl. by rewrite next_timer_reject_each.
    - intros x Hx. rewrite trace_on_close, issued_rejects. done.
    - intros s' sk' Hs'. unfold on_close in Hs'. simpl in Hs'.
      rewrite sockets_reject_each in Hs'. simpl in Hs'.
      apply (sockets_set_readyState s CLOSED w) in Hs' as (sk0 & H0 & <-).
      unfold on_close. simpl. rewrite promises_reject_each_length. simpl.
      by apply (wk_socket w H s'). }
  by destruct (readyState sk).
Qed.

(** The store a [send] leaves on a connected controller. *)
Lemma send_connected method params timeout w :
  connected w = true →
  let id := messageId (ctl w) in
  let p := length (promises w) in
  let t := next_timer w in
  let w' := (send method params timeout w).2 in
  (send method params timeout w).1 = p ∧
  ctl w' = with_pending (map_set id {| pc_timer := t; pc_promise := p |}
                           (pending (ctl w)))
             (with_messageId (js_incr id) (ctl w)) ∧
  promises w' = promises w ++ [Unsettled] ∧
  timers w' = <[t := {| tm_id := id; tm_method := method;
                        tm_timeout := timeout; tm_promise := p |}]> (timers w) ∧
  next_timer w' = S t ∧
  sockets w' = sockets w ∧
  ∃ s, ws (ctl w) = Some s ∧
       trace w' = trace w ++ [EffWsSend s {| f_id := id; f_method := method;
                                             f_params := params |}].
Proof.
  intros Hc. destruct (connected_ws w Hc) as [s Hs].
  unfold send. rewrite Hc. simpl. unfold ws_send. simpl. rewrite Hs. simpl.
  repeat split; try done. by exists s.
Qed.

Lemma well_kept_send method params timeout w :
  well_kept w →
  (connected w = true →
   map_has (messageId (ctl w)) (pending (ctl w)) = false ∧
   messageId (ctl w) ∉ issued (trace w)) →
  well_kept (send method params timeout w).2.
Proof.
  intros H Hid. destruct (connected w) eqn:Hc.
  - destruct (Hid eq_refl) as [Hhas Hiss].
    destruct (send_connected method params timeout w Hc)
      as (_ & Hctl & Hpr & Htm & Hn & Hsk & s & _ & Htr).
    assert (Hlt : ∀ k e, (k, e) ∈ pending (ctl w) →
              (pc_promise e < length (promises w))%nat ∧
              (pc_timer e < next_timer w)%nat).
    { intros k e Hin. destruct (wk_entry w H _ _ Hin) as (H1 & tm & H2 & _).
      split; [by eapply lookup_lt_Some|]. by apply (wk_timer w H) in H2 as [? _]. }
    assert (Hnew : length (promises w) ∉ waiters (pending (ctl w))).
    { intros (k & e & Hin & Heq)%elem_of_waiters.
      apply Hlt in Hin as [? _]. lia. }
    split.
    + intros k e. rewrite Hctl. simpl. rewrite (map_set_fresh _ _ _ Hhas).
      rewrite Hpr, Htm.
      intros [Hin|Hin%list_elem_of_singleton]%elem_of_app;
        [|injection Hin as Hk He; subst k e].
      * destruct (wk_entry w H _ _ Hin) as (H1 & tm & H2 & H3).
        destruct (Hlt _ _ Hin). split.
        -- by rewrite lookup_app_l.
        -- exists tm. rewrite lookup_insert_ne by lia. done.
      * simpl. split.
        -- by rewrite lookup_app_r, Nat.sub_diag.
        -- eexists. rewrite lookup_insert_eq. done.
    + rewrite Hctl. simpl. rewrite (map_set_fresh _ _ _ Hhas).
      unfold waiters. rewrite fmap_app. simpl. apply NoDup_app.
      split; [apply (wk_waiters w H)|]. split; [|apply NoDup_singleton].
      intros p Hp ->%list_elem_of_singleton. by apply Hnew.
    + intros t tm. rewrite Htm, Hn, Htr, issued_snoc. simpl.
      intros [[<- <-]|[_ H']]%lookup_insert_Some.
      * simpl. split; [lia|]. apply elem_of_app. right. by apply list_elem_of_singleton.
      * apply (wk_timer w H) in H' as [? ?]. split; [lia|].
        apply elem_of_app. by left.
    + intros t t' tm tm'. rewrite Htm.
      intros [[<- <-]|[_ H1]]%lookup_insert_Some
             [[<- <-]|[_ H2]]%lookup_insert_Some; simpl; try done.
      * intros Heq. apply (wk_timer w H) in H2 as [_ H2]. by rewrite <- Heq in H2.
      * intros Heq. apply (wk_timer w H) in H1 as [_ H1]. by rewrite Heq in H1.
      * by apply (wk_timer_ids w H).
    + intros s' sk. rewrite Hsk, Hpr, Hctl, length_app. simpl.
      rewrite (map_set_fresh _ _ _ Hhas). intros Hs'.
      destruct (wk_socket w H _ _ Hs') as [? Hnot]. split; [lia|].
      unfold waiters. rewrite fmap_app. simpl.
      intros [?|Heq%list_elem_of_singleton]%elem_of_app; [done|lia].
  - assert (Hsend : (send method params timeout w).2
                 = do_reject (length (promises w)) "CDP 未连接" (new_promise w).2)
      by (unfold send; by rewrite Hc).
    rewrite Hsend.
    destruct (reject_at_once "CDP 未连接" w) as (Hpr & Hctl & Htm & Hn & Hsk & Htr).
    apply (well_kept_frame w); [done|by rewrite Hctl| | | | | |].
    + intros p Hin. rewrite Hpr. apply lookup_app_l.
      apply elem_of_waiters in Hin as (k & e & Hin & <-).
      apply (wk_entry w H) in Hin as [Hin _]. by eapply lookup_lt_Some.
    + by rewrite Htm.
    + by rewrite Htm.
    + by rewrite Hn.
    + rewrite Htr. intros x. apply issued_mono_snoc.
    + intros s sk. rewrite Hsk, Hpr, length_app. simpl. intros Hs.
      destruct (wk_socket w H _ _ Hs). split; [lia|done].
Qed.

(** The invariant holds along every execution that stays in the range
    where ids are exact. *)
Lemma well_kept_step a w :
  well_kept w → ids_inv w → keys_issued w →
  Z.of_nat (length (issued (trace (step a w)))) ≤ 2 ^ 53 →
  well_kept (step a w).
Proof.
  intros H [Hm Hi] Hk Hn.
  destruct a as [page|method params timeout| |s|s raw|s err|s|t].
  - by apply well_kept_connect.
  - cbn [step] in *. apply well_kept_send; [done|]. intros Hc.
    destruct (send_connected method params timeout w Hc)
      as (_ & _ & _ & _ & _ & _ & s & _ & Htr).
    rewrite Htr, issued_snoc, length_app in Hn. simpl in Hn.
    assert (Hnot : messageId (ctl w) ∉ issued (trace w)).
    { rewrite Hi, Hm by lia. intros H'%first_ids_bound. lia. }
    split; [|done].
    destruct (map_has _ _) eqn:Hhas; [|done]. by apply Hk in Hhas.
  - by apply well_kept_disconnect.
  - by apply well_kept_open.
  - cbn [step]. destruct (sockets w !! s) as [sk|]; [|done].
    destruct (readyState sk); try done; by apply well_kept_on_message.
  - by apply well_kept_error.
  - by apply well_kept_close.
  - by apply well_kept_timer.
Qed.

Lemma well_kept_run acts : ∀ w,
  well_kept w → ids_inv w → keys_issued w →
  Z.of_nat (length (issued (trace (run acts w)))) ≤ 2 ^ 53 →
  well_kept (run acts w).
Proof.
  induction acts as [|a acts IH]; intros w H Hi Hk Hn; [done|].
  simpl in *. pose proof (issued_run_length acts (step a w)).
  apply IH; [apply well_kept_step; [done..|lia]| | |done].
  - by apply ids_inv_step.
  - by apply keys_issued_step.
Qed.

Lemma well_kept_reachable port acts :
  Z.of_nat (length (issued (trace (run acts (fresh port))))) ≤ 2 ^ 53 →
  well_kept (run acts (fresh port)).
Proof.
  apply well_kept_run;
    [apply well_kept_fresh|apply ids_inv_fresh|apply keys_issued_fresh].
Qed.

(** *** A settled promise stays as it is *)

Lemma promises_reject_each_stable m l w p o :
  promises w !! p = Some o → o ≠ Unsettled →
  promises (reject_each m l w) !! p = Some o.
Proof.
  revert w. induction l as [|kv l IH]; intros w H Ho; [done|].
  unfold reject_each in *. simpl. apply IH; [|done].
  rewrite promises_entry_reject. by apply promises_settle_settled.
Qed.

Lemma settled_step a w p o :
  promises w !! p = Some o → o ≠ Unsettled →
  promises (step a w) !! p = Some o.
Proof.
  intros H Ho.
  destruct a as [page|method params timeout| |s|s raw|s err|s|t]; cbn [step].
  - destruct (connect_cases page) as [Hp|[(pg & u & Hp & Hn)|(pg & u & m & Hp & Hn)]].
    + destruct (connect_invalid page w Hp) as (_ & _ & _ & -> & _).
      by apply lookup_app_l_Some.
    + destruct (connect_valid page pg u w Hp Hn) as (_ & _ & _ & -> & _).
      by apply lookup_app_l_Some.
    + destruct (connect_refused page pg u m w Hp Hn) as (_ & _ & _ & -> & _).
      by apply lookup_app_l_Some.
  - destruct (connected w) eqn:Hc.
    + destruct (send_connected method params timeout w Hc) as (_ & _ & -> & _).
      by apply lookup_app_l_Some.
    + unfold send. rewrite Hc. cbn [negb].
      destruct (reject_at_once "CDP 未连接" w) as (Hpr & _).
      change (promises (do_reject (length (promises w)) "CDP 未连接"
                          (new_promise w).2) !! p = Some o).
      rewrite Hpr. by apply lookup_app_l_Some.
  - by rewrite promises_disconnect.
  - destruct (sockets w !! s) as [sk|]; [|done].
    destruct (readyState sk); try done.
    unfold on_open, do_resolve. cbn [promises emit].
    by apply promises_settle_settled.
  - destruct (sockets w !! s) as [sk|]; [|done].
    assert (promises (on_message raw w) !! p = Some o).
    { unfold on_message. destruct raw as [|msg]; [done|].
      destruct (msg_id msg) as [id|]; [|done].
      destruct (negb (id =? 0) && map_has id (pending (ctl w))); [|done].
      destruct (map_get id (pending (ctl w))) as [e|]; [|done].
      destruct (msg_error msg); unfold entry_reject, entry_resolve, do_reject,
        do_resolve; cbn [promises emit]; by apply promises_settle_settled. }
    by destruct (readyState sk).
  - destruct (sockets w !! s) as [sk|]; [|done].
    destruct (readyState sk); try done;
      unfold on_error, do_reject; cbn [promises emit];
      by apply promises_settle_settled.
  - destruct (sockets w !! s) as [sk|]; [|done].
    destruct (readyState sk); try done;
      unfold on_close; cbn [promises set_ctl];
      by apply promises_reject_each_stable.
  - destruct (timers w !! t) as [tm|]; [|done].
    unfold on_timeout. destruct (map_has _ _); [|done].
    unfold do_reject. cbn [promises emit]. by apply promises_settle_settled.
Qed.

Lemma settled_run acts : ∀ w p o,
  promises w !! p = Some o → o ≠ Unsettled →
  promises (run acts w) !! p = Some o.
Proof.
  induction acts as [|a acts IH]; intros w p o H Ho; [done|].
  simpl. apply IH; [|done]. by apply settled_step.
Qed.

(** *** Calls made while not connected *)

(** C9.  A [send] on a controller whose [connected] getter is false
    returns a promise that is already rejected with the "not connected"
    error; the controller's fields (the pending map and the id counter
    among them), the timers and the sockets are as before, and the only
    effect is that rejection: no frame is written. *)
Theorem send_while_not_connected method params timeout w :
  connected w = false →
  let p := length (promises w) in
  let w' := (send method params timeout w).2 in
  (send method params timeout w).1 = p ∧
  promises w' !! p = Some (Rejected "CDP 未连接") ∧
  ctl w' = ctl w ∧
  timers w' = timers w ∧
  sockets w' = sockets w ∧
  trace w' = trace w ++ [EffReject p "CDP 未连接"].
Proof.
  intros Hc. unfold send. rewrite Hc. simpl.
  rewrite ctl_settle, timers_settle, sockets_settle, trace_settle. simpl.
  repeat split; try done.
  apply promises_settle_unsettled. simpl.
  by rewrite lookup_app_r, Nat.sub_diag.
Qed.

(** *** Correlation ids *)

(** C8.  Whatever is done to a controller from its construction on
    (calls, responses, timeouts, closures, reconnects), the ids of the
    frames it has written are [1, 2, ..., n] in that order: they start at
    1, increase strictly and never repeat.  The bound is the range in
    which a JS number counts exactly. *)
Theorem correlation_ids_unique_increasing port acts :
  let ids := issued (trace (run acts (fresh port))) in
  Z.of_nat (length ids) ≤ 2 ^ 53 →
  ids = first_ids (length ids) ∧
  (∀ i j x y, ids !! i = Some x → ids !! j = Some y → (i < j)%nat → x < y) ∧
  NoDup ids ∧
  (∀ x, head ids = Some x → x = 1).
Proof.
  intros ids Hn.
  destruct (ids_inv_run acts (fresh port) (ids_inv_fresh port)) as [_ Hi].
  specialize (Hi Hn). fold ids in Hi.
  assert (Hlt : ∀ i j x y,
             ids !! i = Some x → ids !! j = Some y → (i < j)%nat → x < y).
  { intros i j x y Hx Hy Hij. rewrite Hi in Hx, Hy.
    apply first_ids_lookup in Hx, Hy. lia. }
  split; [done|]. split; [done|]. split.
  - apply NoDup_alt. intros i j x Hx Hy.
    destruct (Nat.lt_trichotomy i j) as [H|[H|H]]; [|done|].
    + specialize (Hlt _ _ _ _ Hx Hy H). lia.
    + specialize (Hlt _ _ _ _ Hy Hx H). lia.
  - intros x Hx. rewrite Hi in Hx. rewrite head_lookup in Hx.
    by apply first_ids_lookup in Hx.
Qed.

(** *** Deadlines *)

(** The part of C2 the code keeps.  In any execution, when the timer of
    a call runs out while the
    call's id is still in the pending map, the entry under that id is
    the call's own, its promise is still unsettled, and the timer's
    callback removes the entry and rejects the promise with the timeout
    error.  From then on the promise stays rejected with that error and
    the id is never in the map again, so a response frame carrying it,
    whenever it arrives, leaves the whole store (controller, promises,
    timers, effects) exactly as it was. *)
Theorem deadline_then_late_response port acts t tm later s msg :
  let w := run acts (fresh port) in
  timers w !! t = Some tm →
  map_has (tm_id tm) (pending (ctl w)) = true →
  let w1 := step (TimerFires t) w in
  let w2 := run later w1 in
  Z.of_nat (length (issued (trace w2))) ≤ 2 ^ 53 →
  msg_id msg = Some (tm_id tm) →
  map_get (tm_id tm) (pending (ctl w))
    = Some {| pc_timer := t; pc_promise := tm_promise tm |} ∧
  promises w !! tm_promise tm = Some Unsettled ∧
  promises w1 !! tm_promise tm = Some (Rejected (timeout_message tm)) ∧
  trace w1 = trace w ++ [EffReject (tm_promise tm) (timeout_message tm)] ∧
  pending (ctl w1) = map_delete (tm_id tm) (pending (ctl w)) ∧
  promises w2 !! tm_promise tm = Some (Rejected (timeout_message tm)) ∧
  map_has (tm_id tm) (pending (ctl w2)) = false ∧
  step (WsMessage s (Parsed msg)) w2 = w2.
Proof.
  intros w Ht Hhas w1 w2 Hn Hid.
  pose proof (issued_run_length later w1) as Hlen1.
  pose proof (issued_step_length (TimerFires t) w) as Hlen.
  fold w1 in Hlen. fold w2 in Hlen1.
  assert (Hwk : well_kept w) by (apply well_kept_reachable; fold w; lia).
  destruct (map_get_of_has _ _ Hhas) as [e Hg].
  pose proof (map_get_elem _ _ _ Hg) as Hin.
  destruct (wk_entry w Hwk _ _ Hin) as (Hun & tm' & Ht' & Hid' & Hpr').
  assert (pc_timer e = t) as He by (by eapply (wk_timer_ids w Hwk)).
  assert (tm' = tm) as -> by congruence.
  assert (e = {| pc_timer := t; pc_promise := tm_promise tm |}) as ->
    by (destruct e; simpl in *; congruence).
  simpl in Hun.
  assert (Hw1 : w1 = do_reject (tm_promise tm) (timeout_message tm)
                  (set_ctl (with_pending (map_delete (tm_id tm) (pending (ctl w))))
                     (clearTimeout t w))).
  { unfold w1. cbn [step]. rewrite Ht. unfold on_timeout.
    change (ctl (clearTimeout t w)) with (ctl w). by rewrite Hhas. }
  assert (Hrej : promises w1 !! tm_promise tm
                 = Some (Rejected (timeout_message tm))).
  { rewrite Hw1. unfold do_reject. cbn [promises emit].
    by apply promises_settle_unsettled. }
  assert (Habs : map_has (tm_id tm) (pending (ctl w2)) = false).
  { apply stays_absent.
    - apply ids_inv_step, ids_inv_run, ids_inv_fresh.
    - rewrite Hw1, trace_do_reject, issued_snoc, app_nil_r.
      by apply (keys_issued_run acts (fresh port) (keys_issued_fresh port)).
    - rewrite Hw1, ctl_do_reject. apply map_has_delete_same.
    - done. }
  split; [done|]. split; [done|]. split; [done|].
  split; [by rewrite Hw1, trace_do_reject|].
  split; [by rewrite Hw1, ctl_do_reject|].
  split; [by apply settled_run|].
  split; [done|]. by eapply message_for_absent_id.
Qed.

(** *** Closure *)

(** The part of C1 the code keeps: in any execution, when a socket's
    [close] event is delivered, every promise of the pending map, until
    then unsettled, is rejected with the "connection closed" error by
    exactly one call of [reject]; the map is emptied and the controller
    is no longer connected. *)
Lemma close_event_rejects_every_pending_call port acts s sk :
  let w := run acts (fresh port) in
  Z.of_nat (length (issued (trace w))) ≤ 2 ^ 53 →
  sockets w !! s = Some sk →
  readyState sk ≠ CLOSED →
  let w' := step (WsClose s) w in
  let ps := waiters (pending (ctl w)) in
  trace w' = trace w ++ ((λ p, EffReject p "连接已断开") <$> ps) ∧
  length ps = length (pending (ctl w)) ∧
  pending (ctl w') = [] ∧
  connected w' = false ∧
  ∀ p, p ∈ ps →
    promises w !! p = Some Unsettled ∧
    promises w' !! p = Some (Rejected "连接已断开") ∧
    rejections p (drop (length (trace w)) (trace w')) = 1%nat.
Proof.
  intros w Hn Hs Hr w' ps.
  assert (Hwk : well_kept w) by by apply well_kept_reachable.
  assert (Hw' : w' = on_close (set_readyState s CLOSED w)).
  { unfold w'. cbn [step]. rewrite Hs. by destruct (readyState sk). }
  assert (Htr : trace w' = trace w ++ ((λ p, EffReject p "连接已断开") <$> ps)).
  { by rewrite Hw', trace_on_close. }
  split; [done|]. split; [unfold ps, waiters; by rewrite length_fmap|].
  split; [by rewrite Hw', ctl_on_close|].
  split; [unfold connected; by rewrite Hw', ctl_on_close|].
  intros p Hin.
  assert (Hun : promises w !! p = Some Unsettled).
  { apply elem_of_waiters in Hin as (k & e & Hin & <-).
    by apply (wk_entry w Hwk) in Hin as [? _]. }
  split; [done|]. split.
  - rewrite Hw'. unfold on_close. cbn [promises set_ctl].
    by apply promises_reject_each.
  - rewrite Htr, drop_app_length. apply rejections_rejects; [|done].
    apply (wk_waiters w Hwk).
Qed.

(** [disconnect()] never calls [reject]: whatever the store, it settles
    no promise and its only effect is the socket's [close()]. *)
Lemma disconnect_rejects_nothing w :
  promises (disconnect w) = promises w ∧
  timers (disconnect w) = timers w ∧
  pending (ctl (disconnect w)) = [] ∧
  trace (disconnect w) =
    trace w ++ match ws (ctl w) with Some s => [EffWsClose s] | None => [] end.
Proof.
  by rewrite promises_disconnect, timers_disconnect, ctl_disconnect,
    trace_disconnect.
Qed.

(** *** Failed connection attempts *)

(** C6, amended.  A page without a socket url is refused at once and
    nothing is touched.  Otherwise the socket the controller holds, if it
    holds one and only then, is torn down first (closed, [_connected] and
    the page cleared, the pending map emptied).  When the library then
    refuses the address, the error is surfaced at once through the
    promise of [connect], and the controller holds no socket and is not
    connected.  When it makes a socket, that socket takes the place of
    the old one before the outcome is known; when it then fails, the
    error is surfaced through the promise of [connect], [_connected] is
    false, and the new socket stays.  In both failures the teardown
    stays. *)
Theorem connect_failure page err w :
  let p := (connect page w).1 in
  let w1 := (connect page w).2 in
  let s := length (sockets w) in
  p = length (promises w) ∧
  match page_ws_url page with
  | None =>
      promises w1 !! p
        = Some (Rejected "无效的页面对象，缺少 webSocketDebuggerUrl") ∧
      ctl w1 = ctl w ∧ sockets w1 = sockets w ∧ timers w1 = timers w ∧
      trace w1 = trace w
                 ++ [EffReject p "无效的页面对象，缺少 webSocketDebuggerUrl"]
  | Some (_, u) =>
      match WebSocket_new u with
      | Some message =>
          promises w1 !! p = Some (Rejected message) ∧
          ctl w1 =
            match ws (ctl w) with
            | Some _ =>
                {| port := port (ctl w); ws := None;
                   messageId := messageId (ctl w); pending := [];
                   _connected := false; _page := None |}
            | None => ctl w
            end ∧
          ws (ctl w1) = None ∧
          connected w1 = false ∧
          length (sockets w1) = length (sockets w) ∧
          timers w1 = timers w ∧
          trace w1 =
            trace w
            ++ match ws (ctl w) with Some old => [EffWsClose old] | None => [] end
            ++ [EffReject p message]
      | None =>
          let w2 := step (WsError s err) w1 in
          promises w2 !! p = Some (Rejected err) ∧
          ctl w2 =
            match ws (ctl w) with
            | Some _ =>
                {| port := port (ctl w); ws := Some s;
                   messageId := messageId (ctl w); pending := [];
                   _connected := false; _page := None |}
            | None => with_connected false (with_ws (Some s) (ctl w))
            end ∧
          trace w2 =
            trace w
            ++ match ws (ctl w) with Some old => [EffWsClose old] | None => [] end
            ++ [EffReject p err]
      end
  end.
Proof.
  intros p w1 s.
  destruct (connect_cases page) as [Hp|[(pg & u & Hp & Hn)|(pg & u & m & Hp & Hn)]];
    rewrite Hp; rewrite ?Hn.
  - destruct (connect_invalid page w Hp) as (Hp1 & Hc & Ht & Hpr & Htm & Hs).
    fold p in Hp1, Ht. fold w1 in Hc, Ht, Hpr, Htm, Hs.
    repeat split; try done.
    + by rewrite Hpr, Hp1, lookup_app_r, Nat.sub_diag.
    + by rewrite Ht, Hp1.
  - destruct (connect_valid page pg u w Hp Hn) as (Hp1 & Hc & Ht & Hpr & _ & Hs).
    fold p in Hp1, Hs. fold w1 in Hc, Ht, Hpr, Hs. fold s in Hc.
    split; [done|]. intros w2.
    assert (Hlen : length (sockets (match ws (ctl w) with
                   | Some _ => disconnect w | None => w end)) = s).
    { destruct (ws (ctl w)); [apply sockets_disconnect_length|done]. }
    assert (Hw2 : w2 = on_error
              {| sk_url := u; readyState := CONNECTING; sk_page := pg; sk_promise := p |}
              err (set_readyState s CLOSING w1)).
    { unfold w2. cbn [step]. rewrite Hs.
      rewrite lookup_app_r by (rewrite Hlen; lia).
      rewrite Hlen, Nat.sub_diag. cbn [lookup list_lookup readyState].
      by rewrite <- Hp1. }
    rewrite Hw2. unfold on_error. rewrite ctl_do_reject, trace_do_reject.
    cbn [ctl trace set_ctl set_readyState set_sockets sk_promise].
    rewrite Hc, Ht. split; [|split].
    + unfold do_reject. cbn [promises emit]. apply promises_settle_unsettled.
      cbn [promises set_ctl set_readyState set_sockets]. rewrite Hpr, Hp1.
      by rewrite lookup_app_r, Nat.sub_diag.
    + destruct (ws (ctl w)) eqn:Hws; [by rewrite ctl_disconnect|done].
    + destruct (ws (ctl w)) eqn:Hws.
      * by rewrite trace_disconnect, Hws, <- app_assoc.
      * done.
  - destruct (connect_refused page pg u m w Hp Hn)
      as (Hp1 & Hc & Ht & Hpr & Htm & _ & Hs).
    fold p in Hp1, Ht. fold w1 in Hc, Ht, Hpr, Htm, Hs.
    assert (Hws : ws (ctl w1) = None).
    { rewrite Hc. destruct (ws (ctl w)) eqn:Hws; [by rewrite ctl_disconnect|done]. }
    split; [done|]. split; [by rewrite Hpr, Hp1, lookup_app_r, Nat.sub_diag|].
    split; [rewrite Hc; destruct (ws (ctl w)) eqn:Hw; [by rewrite ctl_disconnect|done]|].
    split; [done|].
    split; [unfold connected; by rewrite Hws, andb_false_r|].
    split; [rewrite Hs; destruct (ws (ctl w)); [apply sockets_disconnect_length|done]|].
    split; [done|].
    rewrite Ht, Hp1. destruct (ws (ctl w)) eqn:Hw.
    + by rewrite trace_disconnect, Hw, <- app_assoc.
    + done.
Qed.

(** *** Timers are never armed again *)

Lemma send_not_connected method params timeout w :
  connected w = false →
  (send method params timeout w).2
  = do_reject (length (promises w)) "CDP 未连接" (new_promise w).2.
Proof. intros Hc. unfold send. by rewrite Hc. Qed.

Lemma next_timer_disconnect w : next_timer (disconnect w) = next_timer w.
Proof. unfold disconnect. by destruct (ws (ctl w)). Qed.

Lemma next_timer_connect page w : next_timer (connect page w).2 = next_timer w.
Proof.
  destruct (connect_cases page) as [Hp|[(pg & u & Hp & Hn)|(pg & u & m & Hp & Hn)]].
  - unfold connect. rewrite Hp.
    cbn [new_promise snd]. unfold do_reject. cbn [next_timer emit].
    by rewrite next_timer_settle.
  - unfold connect. rewrite Hp. unfold new_promise.
    destruct (ws (ctl w)); rewrite Hn;
      cbn [next_timer new_promise set_ctl set_sockets set_promises fst snd];
      by rewrite ?next_timer_disconnect.
  - by destruct (connect_refused page pg u m w Hp Hn) as (_ & _ & _ & _ & _ & -> & _).
Qed.

Lemma timers_on_message raw w t tm :
  timers (on_message raw w) !! t = Some tm → timers w !! t = Some tm.
Proof.
  unfold on_message. destruct raw as [|msg]; [done|].
  destruct (msg_id msg) as [id|]; [|done].
  destruct (negb (id =? 0) && map_has id (pending (ctl w))); [|done].
  destruct (map_get id (pending (ctl w))) as [e|]; [|done].
  destruct (msg_error msg);
    unfold entry_reject, entry_resolve, do_reject, do_resolve;
    cbn [timers emit]; rewrite timers_settle; cbn [timers clearTimeout set_timers set_ctl];
    by intros [_ ?]%lookup_delete_Some.
Qed.

Lemma next_timer_on_message raw w : next_timer (on_message raw w) = next_timer w.
Proof.
  unfold on_message. destruct raw as [|msg]; [done|].
  destruct (msg_id msg) as [id|]; [|done].
  destruct (negb (id =? 0) && map_has id (pending (ctl w))); [|done].
  destruct (map_get id (pending (ctl w))) as [e|]; [|done].
  destruct (msg_error msg);
    unfold entry_reject, entry_resolve, do_reject, do_resolve;
    cbn [next_timer emit]; by rewrite next_timer_settle.
Qed.

Lemma timers_step a w :
  (next_timer w ≤ next_timer (step a w))%nat ∧
  ∀ t tm, timers (step a w) !! t = Some tm →
          timers w !! t = Some tm ∨ (next_timer w ≤ t)%nat.
Proof.
  destruct a as [page|method params timeout| |s|s raw|s err|s|t0]; cbn [step].
  - rewrite next_timer_connect. split; [done|].
    destruct (connect_cases page) as [Hp|[(pg & u & Hp & Hn)|(pg & u & m & Hp & Hn)]].
    + destruct (connect_invalid page w Hp) as (_ & _ & _ & _ & -> & _). auto.
    + destruct (connect_valid page pg u w Hp Hn) as (_ & _ & _ & _ & -> & _). auto.
    + destruct (connect_refused page pg u m w Hp Hn) as (_ & _ & _ & _ & -> & _). auto.
  - destruct (connected w) eqn:Hc.
    + destruct (send_connected method params timeout w Hc)
        as (_ & _ & _ & -> & -> & _).
      split; [lia|]. intros t tm [[<- _]|[_ ?]]%lookup_insert_Some; auto.
    + rewrite (send_not_connected _ _ _ _ Hc).
      destruct (reject_at_once "CDP 未连接" w) as (_ & _ & -> & -> & _). auto.
  - rewrite timers_disconnect. split; [|auto].
    unfold disconnect. by destruct (ws (ctl w)).
  - destruct (sockets w !! s) as [sk|]; [|auto].
    destruct (readyState sk); auto.
    unfold on_open, do_resolve. cbn [next_timer timers emit].
    rewrite next_timer_settle, timers_settle. auto.
  - destruct (sockets w !! s) as [sk|]; [|auto].
    destruct (readyState sk); auto;
      (split; [by rewrite next_timer_on_message|];
       intros t tm ?%timers_on_message; auto).
  - destruct (sockets w !! s) as [sk|]; [|auto].
    destruct (readyState sk); auto;
      unfold on_error, do_reject; cbn [next_timer timers emit];
      rewrite next_timer_settle, timers_settle; auto.
  - destruct (sockets w !! s) as [sk|]; [|auto].
    destruct (readyState sk); auto;
      unfold on_close; cbn [next_timer timers set_ctl];
      rewrite next_timer_reject_each;
      (split; [done|]; intros t tm ?%timers_reject_each; auto).
  - destruct (timers w !! t0) as [tm0|]; [|auto].
    unfold on_timeout. change (ctl (clearTimeout t0 w)) with (ctl w).
    destruct (map_has _ _).
    + unfold do_reject. cbn [next_timer timers emit].
      rewrite next_timer_settle, timers_settle.
      split; [done|]. cbn. intros t tm [_ ?]%lookup_delete_Some. auto.
    + split; [done|]. cbn. intros t tm [_ ?]%lookup_delete_Some. auto.
Qed.

Lemma timer_stays_cleared acts : ∀ w t,
  timers w !! t = None → (t < next_timer w)%nat →
  timers (run acts w) !! t = None.
Proof.
  induction acts as [|a acts IH]; intros w t Hn Hlt; [done|].
  simpl. destruct (timers_step a w) as [Hle Hin]. apply IH; [|lia].
  destruct (timers (step a w) !! t) as [tm|] eqn:Ht; [|done].
  apply Hin in Ht as [Ht|Ht]; [congruence|lia].
Qed.

(** *** Responses *)

(** A frame whose id has a pending call: the entry leaves the map, its
    timer is disarmed and its promise is settled by the frame. *)
Lemma on_message_matched msg id e w :
  msg_id msg = Some id → id ≠ 0 →
  map_get id (pending (ctl w)) = Some e →
  on_message (Parsed msg) w =
    match msg_error msg with
    | Some m => entry_reject e m
        (set_ctl (with_pending (map_delete id (pending (ctl w)))) w)
    | None => entry_resolve e (msg_result msg)
        (set_ctl (with_pending (map_delete id (pending (ctl w)))) w)
    end.
Proof.
  intros Hid Hne Hg. unfold on_message. rewrite Hid.
  rewrite (map_get_has _ _ _ Hg), Hg.
  by destruct (Z.eqb_spec id 0).
Qed.

(** X1.  A response is routed to the call that carries its id, and to
    that call only: on a socket that is open or closing, a frame whose id
    has a pending entry settles the promise of that entry (rejected with
    [msg.error.message] when the frame has an error, fulfilled with
    [msg.result] otherwise), removes the entry and disarms its timer;
    every other pending call keeps waiting.  From then on neither a
    second frame with that id nor the timer of the call changes
    anything. *)
Theorem response_settles_its_call port acts s sk msg id e later :
  let w := run acts (fresh port) in
  let w1 := step (WsMessage s (Parsed msg)) w in
  let w2 := run later w1 in
  let p := pc_promise e in
  let outcome :=
    match msg_error msg with
    | Some m => Rejected m
    | None => Fulfilled (msg_result msg)
    end in
  sockets w !! s = Some sk →
  readyState sk = OPEN ∨ readyState sk = CLOSING →
  msg_id msg = Some id →
  map_get id (pending (ctl w)) = Some e →
  Z.of_nat (length (issued (trace w2))) ≤ 2 ^ 53 →
  promises w !! p = Some Unsettled ∧
  promises w1 !! p = Some outcome ∧
  trace w1 =
    trace w ++ [match msg_error msg with
                | Some m => EffReject p m
                | None => EffResolve p (msg_result msg)
                end] ∧
  pending (ctl w1) = map_delete id (pending (ctl w)) ∧
  timers w1 = delete (pc_timer e) (timers w) ∧
  (∀ k e', (k, e') ∈ pending (ctl w1) →
     (k, e') ∈ pending (ctl w) ∧ k ≠ id ∧
     promises w1 !! pc_promise e' = Some Unsettled) ∧
  promises w2 !! p = Some outcome ∧
  (∀ s' msg', msg_id msg' = Some id →
     step (WsMessage s' (Parsed msg')) w2 = w2) ∧
  step (TimerFires (pc_timer e)) w2 = w2.
Proof.
  intros w w1 w2 p outcome Hs Hr Hid Hg Hn.
  pose proof (issued_run_length later w1) as Hl2.
  pose proof (issued_step_length (WsMessage s (Parsed msg)) w) as Hl1.
  fold w1 w2 in Hl1, Hl2.
  assert (Hwk : well_kept w) by (apply well_kept_reachable; fold w; lia).
  destruct (ids_inv_run acts _ (ids_inv_fresh port)) as [Hm Hi]. fold w in Hm, Hi.
  pose proof (keys_issued_run acts _ (keys_issued_fresh port)) as Hk. fold w in Hk.
  pose proof (map_get_elem _ _ _ Hg) as Hin.
  destruct (wk_entry w Hwk _ _ Hin) as (Hu & tm & Ht & Htid & Htp).
  assert (Hiss : id ∈ issued (trace w)) by (apply Hk; by eapply map_get_has).
  assert (Hne : id ≠ 0).
  { rewrite Hi in Hiss by lia. apply first_ids_bound in Hiss. lia. }
  assert (Hw1 : w1 = match msg_error msg with
                     | Some m => entry_reject e m
                         (set_ctl (with_pending (map_delete id (pending (ctl w)))) w)
                     | None => entry_resolve e (msg_result msg)
                         (set_ctl (with_pending (map_delete id (pending (ctl w)))) w)
                     end).
  { unfold w1. cbn [step]. rewrite Hs.
    rewrite <- (on_message_matched msg id e w Hid Hne Hg).
    by destruct Hr as [-> | ->]. }
  assert (Hp1 : promises w1 !! p = Some outcome).
  { rewrite Hw1. unfold outcome.
    destruct (msg_error msg) as [m|];
      unfold entry_reject, entry_resolve, do_reject, do_resolve;
      cbn [promises emit]; by apply promises_settle_unsettled. }
  assert (Hpd : pending (ctl w1) = map_delete id (pending (ctl w))).
  { rewrite Hw1. destruct (msg_error msg);
      by rewrite ?ctl_entry_reject, ?ctl_entry_resolve. }
  assert (Htm1 : timers w1 = delete (pc_timer e) (timers w)).
  { rewrite Hw1. destruct (msg_error msg);
      unfold entry_reject, entry_resolve, do_reject, do_resolve;
      cbn [timers emit]; by rewrite timers_settle. }
  assert (Hso : outcome ≠ Unsettled) by (unfold outcome; by destruct (msg_error msg)).
  assert (Hwk1 : well_kept w1).
  { apply well_kept_step; [done|by split|done|]. fold w1. lia. }
  assert (Htr1 : trace w1 =
    trace w ++ [match msg_error msg with
                | Some m => EffReject p m
                | None => EffResolve p (msg_result msg)
                end]).
  { rewrite Hw1. destruct (msg_error msg);
      by rewrite ?trace_entry_reject, ?trace_entry_resolve. }
  split; [done|]. split; [done|]. split; [done|].
  split; [done|]. split; [done|]. split.
  { intros k e'. rewrite Hpd. intros [Hin' Hk']%elem_of_map_delete.
    split; [done|]. split; [done|].
    destruct (wk_entry w1 Hwk1 k e') as [? _]; [|done].
    rewrite Hpd. by apply elem_of_map_delete. }
  split; [by apply settled_run|].
  assert (Habs : map_has id (pending (ctl w2)) = false).
  { apply stays_absent; [apply ids_inv_step; by split| | |done].
    - rewrite Htr1. by apply issued_mono_snoc.
    - rewrite Hpd. apply map_has_delete_same. }
  split.
  - intros s' msg' Hid'. by apply (message_for_absent_id s' msg' id).
  - assert (Hgone : timers w2 !! pc_timer e = None); [|cbn [step]; by rewrite Hgone].
    apply timer_stays_cleared.
    + rewrite Htm1. apply lookup_delete_eq.
    + destruct (timers_step (WsMessage s (Parsed msg)) w) as [Hle _]. fold w1 in Hle.
      apply (wk_timer w Hwk) in Ht as [? _]. lia.
Qed.

(** *** Settled once *)

Lemma settlements_app p tr1 tr2 :
  settlements p (tr1 ++ tr2) = (settlements p tr1 + settlements p tr2)%nat.
Proof. unfold settlements. by rewrite List.filter_app, length_app. Qed.

Lemma settlements_rejects m ps p :
  NoDup ps →
  settlements p ((λ q, EffReject q m) <$> ps) = if decide (p ∈ ps) then 1%nat else 0%nat.
Proof.
  induction 1 as [|q ps Hq Hnd IH]; [done|].
  rewrite fmap_cons. change (?x :: ?l) with ([x] ++ l) at 1.
  rewrite settlements_app, IH. unfold settlements. cbn.
  destruct (Nat.eqb_spec q p) as [->|Hne];
    destruct (decide (p ∈ ps)) as [Hin|Hin];
    destruct (decide (p ∈ _ :: ps)) as [Hin'|Hin'];
    simpl; try done; exfalso; rewrite elem_of_cons in Hin';
    intuition congruence.
Qed.

Lemma promises_reject_each_ne m l w p :
  p ∉ waiters l → promises (reject_each m l w) !! p = promises w !! p.
Proof.
  revert w. induction l as [|kv l IH]; intros w Hp; [done|].
  unfold reject_each in *. simpl.
  rewrite IH by (intros ?; apply Hp; by right).
  rewrite promises_entry_reject. apply promises_settle_ne.
  intros ->. apply Hp. by left.
Qed.

Lemma lookup_snoc_ne {A} (l : list A) x i :
  i ≠ length l → (l ++ [x]) !! i = l !! i.
Proof.
  intros Hne. destruct (decide (i < length l)%nat).
  - by apply lookup_app_l.
  - rewrite !lookup_ge_None_2; [done|lia|rewrite length_app; simpl; lia].
Qed.

(** What one step does to a promise that is no socket's: nothing, or it
    settles it, once, and the promise was waiting. *)
Lemma step_settles a w p :
  well_kept w → no_socket_promise p (step a w) →
  (settlements p (trace (step a w)) = settlements p (trace w) ∧
   (promises (step a w) !! p = promises w !! p ∨
    promises w !! p = None ∧ promises (step a w) !! p = Some Unsettled)) ∨
  (waiting p w ∧
   settlements p (trace (step a w)) = S (settlements p (trace w)) ∧
   ∃ o, promises (step a w) !! p = Some o ∧ o ≠ Unsettled).
Proof.
  intros Hwk Hns.
  assert (Hfresh : ∀ m w1,
    promises w1 = promises w ++ [Rejected m] →
    trace w1 = trace w ++ [EffReject (length (promises w)) m] →
    (settlements p (trace w1) = settlements p (trace w) ∧
     (promises w1 !! p = promises w !! p ∨
      promises w !! p = None ∧ promises w1 !! p = Some Unsettled)) ∨
    (waiting p w ∧
     settlements p (trace w1) = S (settlements p (trace w)) ∧
     ∃ o, promises w1 !! p = Some o ∧ o ≠ Unsettled)).
  { intros m w1 Hpr Htr. rewrite Hpr, Htr, settlements_app.
    unfold settlements at 2 5. cbn.
    destruct (Nat.eqb_spec (length (promises w)) p) as [<-|Hne].
    - right. split; [right; by apply lookup_ge_None_2|]. split; [simpl; lia|].
      exists (Rejected m). by rewrite lookup_app_r, Nat.sub_diag.
    - left. split; [simpl; lia|]. left. by apply lookup_snoc_ne. }
  assert (Hborn : ∀ w1,
    promises w1 = promises w ++ [Unsettled] →
    settlements p (trace w1) = settlements p (trace w) →
    settlements p (trace w1) = settlements p (trace w) ∧
    (promises w1 !! p = promises w !! p ∨
     promises w !! p = None ∧ promises w1 !! p = Some Unsettled)).
  { intros w1 Hpr Htr. split; [done|]. rewrite Hpr.
    destruct (decide (p = length (promises w))) as [->|Hne].
    - right. split; [by apply lookup_ge_None_2|].
      by rewrite lookup_app_r, Nat.sub_diag.
    - left. by apply lookup_snoc_ne. }
  assert (Hentry : ∀ k e w0 w1 o eff,
    (k, e) ∈ pending (ctl w) →
    promises w0 = promises w →
    promises w1 = promises (settle (pc_promise e) o w0) →
    o ≠ Unsettled →
    trace w1 = trace w ++ [eff] →
    settles p eff = Nat.eqb (pc_promise e) p →
    (settlements p (trace w1) = settlements p (trace w) ∧
     (promises w1 !! p = promises w !! p ∨
      promises w !! p = None ∧ promises w1 !! p = Some Unsettled)) ∨
    (waiting p w ∧
     settlements p (trace w1) = S (settlements p (trace w)) ∧
     ∃ o, promises w1 !! p = Some o ∧ o ≠ Unsettled)).
  { intros k e w0 w1 o eff Hin Hw0 Hpr Ho Htr Heff.
    destruct (wk_entry w Hwk _ _ Hin) as [Hu _].
    rewrite Htr, settlements_app, Hpr. unfold settlements at 2 5. cbn.
    rewrite Heff. destruct (Nat.eqb_spec (pc_promise e) p) as [<-|Hne].
    - right. split; [by left|]. split; [simpl; lia|]. exists o. split; [|done].
      apply promises_settle_unsettled. by rewrite Hw0.
    - left. split; [simpl; lia|]. left.
      rewrite promises_settle_ne by done. by rewrite Hw0. }
  destruct a as [page|method params timeout| |s|s raw|s err|s|t]; cbn [step] in *.
  - destruct (connect_cases page) as [Hp|[(pg & u & Hp & Hn)|(pg & u & m & Hp & Hn)]].
    + destruct (connect_invalid page w Hp) as (_ & _ & Htr & Hpr & _).
      by apply (Hfresh "无效的页面对象，缺少 webSocketDebuggerUrl").
    + destruct (connect_valid page pg u w Hp Hn) as (_ & _ & Htr & Hpr & _).
      left. apply Hborn; [done|]. rewrite Htr.
      destruct (ws (ctl w)); [|done].
      rewrite trace_disconnect, settlements_app.
      destruct (ws (ctl w)); unfold settlements; simpl; lia.
    + destruct (connect_refused page pg u m w Hp Hn) as (_ & _ & Htr & Hpr & _).
      assert (Hst : settlements p (trace (connect page w).2)
                    = (settlements p (trace w)
                       + if Nat.eqb (length (promises w)) p then 1 else 0)%nat).
      { rewrite Htr, settlements_app.
        assert (settlements p
                  (trace match ws (ctl w) with
                         | Some _ => disconnect w | None => w end)
                = settlements p (trace w)) as ->.
        { destruct (ws (ctl w)) eqn:Hw; [|done].
          rewrite trace_disconnect, Hw, settlements_app.
          unfold settlements. simpl. lia. }
        unfold settlements at 2. cbn.
        by destruct (Nat.eqb (length (promises w)) p). }
      rewrite Hst, Hpr.
      destruct (Nat.eqb_spec (length (promises w)) p) as [<-|Hne].
      * right. split; [right; by apply lookup_ge_None_2|]. split; [lia|].
        exists (Rejected m). by rewrite lookup_app_r, Nat.sub_diag.
      * left. split; [lia|]. left. by apply lookup_snoc_ne.
  - destruct (connected w) eqn:Hc.
    + destruct (send_connected method params timeout w Hc)
        as (_ & _ & Hpr & _ & _ & _ & s & _ & Htr).
      left. apply Hborn; [done|]. rewrite Htr, settlements_app.
      unfold settlements. simpl. lia.
    + rewrite (send_not_connected _ _ _ _ Hc) in *.
      destruct (reject_at_once "CDP 未连接" w) as (Hpr & _ & _ & _ & _ & Htr).
      by apply (Hfresh "CDP 未连接").
  - left. rewrite promises_disconnect, trace_disconnect, settlements_app.
    split; [|by left]. destruct (ws (ctl w)); unfold settlements; simpl; lia.
  - destruct (sockets w !! s) as [sk|] eqn:Hs; [|left; by split; [|left]].
    destruct (readyState sk) eqn:Hr; try (left; by split; [|left]).
    assert (Hne : sk_promise sk ≠ p).
    { apply (Hns s (with_readyState OPEN sk)).
      unfold on_open, do_resolve. cbn [sockets emit]. rewrite sockets_settle.
      cbn. rewrite list_lookup_alter_eq, Hs. done. }
    left. unfold on_open. rewrite trace_do_resolve, promises_do_resolve_ne by done.
    cbn [trace emit set_ctl set_readyState set_sockets promises].
    rewrite !settlements_app. split; [|by left].
    unfold settlements at 2 3. cbn.
    destruct (Nat.eqb_spec (sk_promise sk) p); [done|simpl; lia].
  - destruct (sockets w !! s) as [sk|] eqn:Hs; [|left; by split; [|left]].
    assert (Hm :
      (settlements p (trace (on_message raw w)) = settlements p (trace w) ∧
       (promises (on_message raw w) !! p = promises w !! p ∨
        promises w !! p = None ∧ promises (on_message raw w) !! p = Some Unsettled)) ∨
      (waiting p w ∧
       settlements p (trace (on_message raw w)) = S (settlements p (trace w)) ∧
       ∃ o, promises (on_message raw w) !! p = Some o ∧ o ≠ Unsettled)).
    { unfold on_message. destruct raw as [|msg]; [left; by split; [|left]|].
      destruct (msg_id msg) as [id|]; [|left; by split; [|left]].
      destruct (negb (id =? 0) && map_has id (pending (ctl w)));
        [|left; by split; [|left]].
      destruct (map_get id (pending (ctl w))) as [e|] eqn:Hg;
        [|left; by split; [|left]].
      apply map_get_elem in Hg.
      destruct (msg_error msg) as [m|].
      - eapply (Hentry id e (clearTimeout (pc_timer e)
            (set_ctl (with_pending (map_delete id (pending (ctl w)))) w)) _
            (Rejected m)); [done| | |done| |].
        + reflexivity.
        + unfold entry_reject, do_reject. cbn [promises emit]. reflexivity.
        + by rewrite trace_entry_reject.
        + done.
      - eapply (Hentry id e (clearTimeout (pc_timer e)
            (set_ctl (with_pending (map_delete id (pending (ctl w)))) w)) _
            (Fulfilled (msg_result msg))); [done| | |done| |].
        + reflexivity.
        + unfold entry_resolve, do_resolve. cbn [promises emit]. reflexivity.
        + by rewrite trace_entry_resolve.
        + done. }
    destruct (readyState sk); try done; left; by split; [|left].
  - destruct (sockets w !! s) as [sk|] eqn:Hs; [|left; by split; [|left]].
    destruct (decide (readyState sk = CLOSED)) as [Hr|Hr].
    { rewrite Hr. left. by split; [|left]. }
    assert (Hne : sk_promise sk ≠ p).
    { apply (Hns s (with_readyState CLOSING sk)).
      destruct (readyState sk); try done;
        unfold on_error, do_reject; cbn [sockets emit]; rewrite sockets_settle;
        cbn; by rewrite list_lookup_alter_eq, Hs. }
    assert (Hm :
      settlements p (trace (on_error sk err (set_readyState s CLOSING w)))
        = settlements p (trace w) ∧
      promises (on_error sk err (set_readyState s CLOSING w)) !! p = promises w !! p).
    { unfold on_error. rewrite trace_do_reject, promises_do_reject_ne by done.
      cbn [trace set_ctl set_readyState set_sockets promises].
      rewrite settlements_app. split; [|done]. unfold settlements at 2. cbn.
      destruct (Nat.eqb_spec (sk_promise sk) p); [done|simpl; lia]. }
    left. destruct (readyState sk); try done; by destruct Hm; split; [|left].
  - destruct (sockets w !! s) as [sk|] eqn:Hs; [|left; by split; [|left]].
    destruct (decide (readyState sk = CLOSED)) as [Hr|Hr].
    { rewrite Hr. left. by split; [|left]. }
    assert (Hm :
      (settlements p (trace (on_close (set_readyState s CLOSED w)))
         = settlements p (trace w) ∧
       (promises (on_close (set_readyState s CLOSED w)) !! p = promises w !! p ∨
        promises w !! p = None ∧
        promises (on_close (set_readyState s CLOSED w)) !! p = Some Unsettled)) ∨
      (waiting p w ∧
       settlements p (trace (on_close (set_readyState s CLOSED w)))
         = S (settlements p (trace w)) ∧
       ∃ o, promises (on_close (set_readyState s CLOSED w)) !! p = Some o ∧
            o ≠ Unsettled)).
    { rewrite trace_on_close, settlements_app.
      cbn [trace ctl set_readyState set_sockets].
      rewrite (settlements_rejects _ _ _ (wk_waiters w Hwk)).
      unfold on_close. cbn [promises set_ctl].
      destruct (decide (p ∈ waiters (pending (ctl w)))) as [Hin|Hnin].
      - right. pose proof Hin as (k & e & Hke & Hpe)%elem_of_waiters.
        destruct (wk_entry w Hwk _ _ Hke) as [Hu _]. rewrite Hpe in Hu.
        split; [by left|]. split; [lia|].
        exists (Rejected "连接已断开"). split; [|done].
        by apply promises_reject_each.
      - left. split; [lia|]. left. by rewrite promises_reject_each_ne. }
    destruct (readyState sk); done.
  - destruct (timers w !! t) as [tm|] eqn:Ht; [|left; by split; [|left]].
    unfold on_timeout. change (ctl (clearTimeout t w)) with (ctl w).
    destruct (map_has (tm_id tm) (pending (ctl w))) eqn:Hhas;
      [|left; by split; [|left]].
    apply map_get_of_has in Hhas as [e Hg]. apply map_get_elem in Hg.
    destruct (wk_entry w Hwk _ _ Hg) as (_ & tm' & Ht' & Hid & Hpr).
    assert (pc_timer e = t) as Het by (by eapply (wk_timer_ids w Hwk)).
    subst t. assert (tm' = tm) as -> by congruence.
    eapply (Hentry _ e
              (set_ctl (with_pending (map_delete (tm_id tm) (pending (ctl w))))
                 (clearTimeout (pc_timer e) w)) _
              (Rejected (timeout_message tm))); [done| | |done| |].
    + reflexivity.
    + unfold do_reject. cbn [promises emit]. by rewrite Hpr.
    + by rewrite trace_do_reject.
    + cbn. by rewrite Hpr.
Qed.

(** Sockets are never dropped, and keep their promise and their page. *)
Lemma lookup_alter_socket (f : Socket → Socket) i (l : list Socket) s sk :
  (∀ x, sk_promise (f x) = sk_promise x ∧ sk_page (f x) = sk_page x) →
  l !! s = Some sk →
  ∃ sk', alter f i l !! s = Some sk' ∧
         sk_promise sk' = sk_promise sk ∧ sk_page sk' = sk_page sk.
Proof.
  intros Hf Hs. destruct (decide (s = i)) as [->|Hne].
  - exists (f sk). rewrite list_lookup_alter_eq, Hs. split; [done|]. apply Hf.
  - exists sk. by rewrite list_lookup_alter_ne.
Qed.

Lemma with_readyState_keeps r x :
  sk_promise (with_readyState r x) = sk_promise x ∧
  sk_page (with_readyState r x) = sk_page x.
Proof. done. Qed.

Lemma sockets_disconnect_forward w s sk :
  sockets w !! s = Some sk →
  ∃ sk', sockets (disconnect w) !! s = Some sk' ∧
         sk_promise sk' = sk_promise sk ∧ sk_page sk' = sk_page sk.
Proof.
  intros Hs. unfold disconnect. destruct (ws (ctl w)) as [s0|]; cbn; [|eauto].
  apply lookup_alter_socket; [|done]. intros x. by destruct (readyState x).
Qed.

Lemma sockets_on_message raw w : sockets (on_message raw w) = sockets w.
Proof.
  unfold on_message. destruct raw as [|msg]; [done|].
  destruct (msg_id msg) as [id|]; [|done].
  destruct (negb (id =? 0) && map_has id (pending (ctl w))); [|done].
  destruct (map_get id (pending (ctl w))) as [e|]; [|done].
  destruct (msg_error msg);
    unfold entry_reject, entry_resolve, do_reject, do_resolve;
    cbn [sockets emit]; by rewrite sockets_settle.
Qed.

Lemma sockets_step a w s sk :
  sockets w !! s = Some sk →
  ∃ sk', sockets (step a w) !! s = Some sk' ∧
         sk_promise sk' = sk_promise sk ∧ sk_page sk' = sk_page sk.
Proof.
  intros Hs.
  destruct a as [page|method params timeout| |s0|s0 raw|s0 err|s0|t]; cbn [step].
  - destruct (connect_cases page) as [Hp|[(pg & u & Hp & Hn)|(pg & u & m & Hp & Hn)]].
    + destruct (connect_invalid page w Hp) as (_ & _ & _ & _ & _ & ->). eauto.
    + destruct (connect_valid page pg u w Hp Hn) as (_ & _ & _ & _ & _ & ->).
      destruct (ws (ctl w)).
      * destruct (sockets_disconnect_forward w s sk Hs) as (sk' & Hs' & ?).
        exists sk'. split; [|done]. by apply lookup_app_l_Some.
      * exists sk. split; [|done]. by apply lookup_app_l_Some.
    + destruct (connect_refused page pg u m w Hp Hn) as (_ & _ & _ & _ & _ & _ & ->).
      destruct (ws (ctl w)); [|eauto].
      by apply sockets_disconnect_forward.
  - destruct (connected w) eqn:Hc.
    + destruct (send_connected method params timeout w Hc)
        as (_ & _ & _ & _ & _ & -> & _). eauto.
    + rewrite (send_not_connected _ _ _ _ Hc).
      destruct (reject_at_once "CDP 未连接" w) as (_ & _ & _ & _ & -> & _). eauto.
  - by apply sockets_disconnect_forward.
  - destruct (sockets w !! s0) as [sk0|]; [|eauto].
    destruct (readyState sk0); eauto.
    unfold on_open, do_resolve. cbn [sockets emit]. rewrite sockets_settle. cbn.
    apply lookup_alter_socket; [|done]. apply with_readyState_keeps.
  - destruct (sockets w !! s0) as [sk0|]; [|eauto].
    destruct (readyState sk0); rewrite ?sockets_on_message; eauto.
  - destruct (sockets w !! s0) as [sk0|]; [|eauto].
    destruct (readyState sk0); eauto;
      unfold on_error, do_reject; cbn [sockets emit]; rewrite sockets_settle; cbn;
      (apply lookup_alter_socket; [|done]); apply with_readyState_keeps.
  - destruct (sockets w !! s0) as [sk0|]; [|eauto].
    destruct (readyState sk0); eauto;
      unfold on_close; cbn [sockets set_ctl]; rewrite sockets_reject_each; cbn;
      (apply lookup_alter_socket; [|done]); apply with_readyState_keeps.
  - destruct (timers w !! t) as [tm|]; [|eauto].
    unfold on_timeout. destruct (map_has _ _); [|eauto].
    unfold do_reject. cbn [sockets emit]. rewrite sockets_settle. eauto.
Qed.

Lemma no_socket_promise_back a w p :
  no_socket_promise p (step a w) → no_socket_promise p w.
Proof.
  intros H s sk Hs. destruct (sockets_step a w s sk Hs) as (sk' & Hs' & <- & _).
  by apply (H s sk').
Qed.

Lemma run_snoc acts a w : run (acts ++ [a]) w = step a (run acts w).
Proof. unfold run. by rewrite fold_left_app. Qed.

(** Along every execution, [resolve] and [reject] are called at most
    once, taken together, on a promise that is not the promise of a
    socket; they were not called yet exactly while it is waiting. *)
Lemma settled_once port acts : ∀ p,
  let w := run acts (fresh port) in
  Z.of_nat (length (issued (trace w))) ≤ 2 ^ 53 →
  no_socket_promise p w →
  (settlements p (trace w) ≤ 1)%nat ∧
  (settlements p (trace w) = 0%nat ↔ waiting p w).
Proof.
  induction acts as [|a acts IH] using rev_ind; intros p w Hn Hns.
  - subst w. cbn. split; [lia|]. split; [by right|done].
  - unfold w in *. rewrite run_snoc in *. set (w0 := run acts (fresh port)) in *.
    pose proof (issued_step_length a w0).
    destruct (IH p) as [Hle Hiff]; [lia|by eapply no_socket_promise_back|].
    fold w0 in Hle, Hiff.
    destruct (step_settles a w0 p) as [[Heq Hpr]|(Hw & Heq & o & Ho & Hso)];
      [apply well_kept_reachable; fold w0; lia|done| |].
    + rewrite Heq. split; [done|]. rewrite Hiff. unfold waiting.
      destruct Hpr as [->|[-> ->]]; [done|]. tauto.
    + apply Hiff in Hw. rewrite Heq, Hw. split; [lia|]. split; [done|].
      intros [H'|H']; congruence.
Qed.

Lemma promises_length_on_message raw w :
  length (promises (on_message raw w)) = length (promises w).
Proof.
  unfold on_message. destruct raw as [|msg]; [done|].
  destruct (msg_id msg) as [id|]; [|done].
  destruct (negb (id =? 0) && map_has id (pending (ctl w))); [|done].
  destruct (map_get id (pending (ctl w))) as [e|]; [|done].
  destruct (msg_error msg);
    unfold entry_reject, entry_resolve, do_reject, do_resolve;
    cbn [promises emit]; by rewrite settle_length.
Qed.

Lemma promises_length_step a w :
  (length (promises w) ≤ length (promises (step a w)))%nat.
Proof.
  destruct a as [page|method params timeout| |s0|s0 raw|s0 err|s0|t]; cbn [step].
  - destruct (connect_cases page) as [Hp|[(pg & u & Hp & Hn)|(pg & u & m & Hp & Hn)]].
    + destruct (connect_invalid page w Hp) as (_ & _ & _ & -> & _).
      rewrite length_app. lia.
    + destruct (connect_valid page pg u w Hp Hn) as (_ & _ & _ & -> & _).
      rewrite length_app. lia.
    + destruct (connect_refused page pg u m w Hp Hn) as (_ & _ & _ & -> & _).
      rewrite length_app. lia.
  - destruct (connected w) eqn:Hc.
    + destruct (send_connected method params timeout w Hc) as (_ & _ & -> & _).
      rewrite length_app. lia.
    + rewrite (send_not_connected _ _ _ _ Hc).
      destruct (reject_at_once "CDP 未连接" w) as (-> & _).
      rewrite length_app. lia.
  - by rewrite promises_disconnect.
  - destruct (sockets w !! s0) as [sk0|]; [|done].
    destruct (readyState sk0); try done.
    unfold on_open, do_resolve. cbn [promises emit]. by rewrite settle_length.
  - destruct (sockets w !! s0) as [sk0|]; [|done].
    destruct (readyState sk0); by rewrite ?promises_length_on_message.
  - destruct (sockets w !! s0) as [sk0|]; [|done].
    destruct (readyState sk0); try done;
      unfold on_error, do_reject; cbn [promises emit]; by rewrite settle_length.
  - destruct (sockets w !! s0) as [sk0|]; [|done].
    destruct (readyState sk0); try done;
      unfold on_close; cbn [promises set_ctl];
      by rewrite promises_reject_each_length.
  - destruct (timers w !! t) as [tm|]; [|done].
    unfold on_timeout. destruct (map_has _ _); [|done].
    unfold do_reject. cbn [promises emit]. by rewrite settle_length.
Qed.

(** A socket of the next store was there before, or was just made, with
    a promise that is new. *)
Lemma socket_promise_step a w s sk :
  sockets (step a w) !! s = Some sk →
  (∃ sk0, sockets w !! s = Some sk0 ∧ sk_promise sk0 = sk_promise sk) ∨
  sk_promise sk = length (promises w).
Proof.
  destruct a as [page|method params timeout| |s0|s0 raw|s0 err|s0|t]; cbn [step].
  - destruct (connect_cases page) as [Hp|[(pg & u & Hp & Hn)|(pg & u & m & Hp & Hn)]].
    + destruct (connect_invalid page w Hp) as (_ & _ & _ & _ & _ & ->). eauto.
    + destruct (connect_valid page pg u w Hp Hn) as (_ & _ & _ & _ & _ & ->).
      intros [Hs|[_ Hs]]%lookup_app_Some.
      * left. destruct (ws (ctl w)); [by apply sockets_disconnect|eauto].
      * right. apply list_lookup_singleton_Some in Hs as [_ <-]. done.
    + destruct (connect_refused page pg u m w Hp Hn) as (_ & _ & _ & _ & _ & _ & ->).
      intros Hs. left. destruct (ws (ctl w)); [by apply sockets_disconnect|eauto].
  - destruct (connected w) eqn:Hc.
    + destruct (send_connected method params timeout w Hc)
        as (_ & _ & _ & _ & _ & -> & _). eauto.
    + rewrite (send_not_connected _ _ _ _ Hc).
      destruct (reject_at_once "CDP 未连接" w) as (_ & _ & _ & _ & -> & _). eauto.
  - intros Hs. left. by apply sockets_disconnect.
  - destruct (sockets w !! s0) as [sk0|]; [|eauto].
    destruct (readyState sk0); eauto.
    unfold on_open, do_resolve. cbn [sockets emit]. rewrite sockets_settle.
    intros Hs. left. by apply (sockets_set_readyState s0 OPEN w).
  - destruct (sockets w !! s0) as [sk0|]; [|eauto].
    destruct (readyState sk0); rewrite ?sockets_on_message; eauto.
  - destruct (sockets w !! s0) as [sk0|]; [|eauto].
    destruct (readyState sk0); eauto;
      unfold on_error, do_reject; cbn [sockets emit]; rewrite sockets_settle;
      intros Hs; left; by apply (sockets_set_readyState s0 CLOSING w).
  - destruct (sockets w !! s0) as [sk0|]; [|eauto].
    destruct (readyState sk0); eauto;
      unfold on_close; cbn [sockets set_ctl]; rewrite sockets_reject_each;
      intros Hs; left; by apply (sockets_set_readyState s0 CLOSED w).
  - destruct (timers w !! t) as [tm|]; [|eauto].
    unfold on_timeout. destruct (map_has _ _); [|eauto].
    unfold do_reject. cbn [sockets emit]. rewrite sockets_settle. eauto.
Qed.

Lemma born_no_socket acts : ∀ w p,
  (p < length (promises w))%nat → no_socket_promise p w →
  (p < length (promises (run acts w)))%nat ∧ no_socket_promise p (run acts w).
Proof.
  induction acts as [|a acts IH]; intros w p Hlt Hns; [done|].
  simpl. pose proof (promises_length_step a w). apply IH; [lia|].
  intros s sk [(sk0 & Hs0 & <-)|Heq]%socket_promise_step; [by eapply Hns|lia].
Qed.

Lemma send_promise method params timeout w :
  (send method params timeout w).1 = length (promises w) ∧
  length (promises (send method params timeout w).2) = S (length (promises w)) ∧
  sockets (send method params timeout w).2 = sockets w.
Proof.
  destruct (connected w) eqn:Hc.
  - destruct (send_connected method params timeout w Hc)
      as (-> & _ & -> & _ & _ & -> & _).
    rewrite length_app. simpl. split; [done|]. split; [lia|done].
  - rewrite (send_not_connected _ _ _ _ Hc).
    destruct (reject_at_once "CDP 未连接" w) as (-> & _ & _ & _ & -> & _).
    rewrite length_app. simpl. split; [|split; [lia|done]].
    unfold send. by rewrite Hc.
Qed.

(** X2.  Whatever happens after a call is made (its response, a second
    response, its timer, the end of the connection, a reconnect, other
    calls), [resolve] and [reject] are called at most once, taken
    together, on the promise [send] returned for it; and they were not
    called yet exactly as long as that promise is unsettled. *)
Theorem call_settled_at_most_once port acts method params timeout later :
  let w := run acts (fresh port) in
  let p := (send method params timeout w).1 in
  let w' := run later (send method params timeout w).2 in
  Z.of_nat (length (issued (trace w'))) ≤ 2 ^ 53 →
  (settlements p (trace w') ≤ 1)%nat ∧
  (settlements p (trace w') = 0%nat ↔ promises w' !! p = Some Unsettled).
Proof.
  intros w p w' Hn.
  assert (Hw' : w' = run (acts ++ [Send method params timeout] ++ later) (fresh port)).
  { unfold w', w, run. by rewrite !fold_left_app. }
  destruct (send_promise method params timeout w) as (Hp & Hlen & Hsk). fold p in Hp.
  pose proof (issued_run_length later (send method params timeout w).2) as Hl2.
  pose proof (issued_step_length (Send method params timeout) w) as Hl1.
  cbn [step] in Hl1. fold w' in Hl2.
  assert (Hwk : well_kept w) by (apply well_kept_reachable; fold w; lia).
  destruct (born_no_socket later (send method params timeout w).2 p) as [Hlt Hns].
  { lia. }
  { intros s sk. rewrite Hsk. intros Hs%(wk_socket w Hwk). lia. }
  fold w' in Hlt, Hns.
  destruct (settled_once port (acts ++ [Send method params timeout] ++ later) p)
    as [Hle Hiff]; rewrite <- ?Hw'; [done..|].
  rewrite <- Hw' in Hle, Hiff.
  split; [done|]. rewrite Hiff. unfold waiting. split; [|by left].
  intros [?|Hnone]; [done|]. apply lookup_ge_None in Hnone. lia.
Qed.

(** *** Events of a socket that was replaced *)

(** X3.  The [close] handler does not ask which socket closed.  When the
    socket that closes is not the one the controller holds (it was
    replaced by a reconnect and its [close] event comes late), the
    handler still clears [_connected] and rejects every pending call,
    which are calls of the new connection: the controller keeps its
    socket, untouched, but reports not connected, and the next [send]
    fails at once. *)
Theorem close_of_superseded_socket port acts s sk cur method params timeout :
  let w := run acts (fresh port) in
  let w' := step (WsClose s) w in
  Z.of_nat (length (issued (trace w))) ≤ 2 ^ 53 →
  ws (ctl w) = Some cur → s ≠ cur →
  sockets w !! s = Some sk → readyState sk ≠ CLOSED →
  ws (ctl w') = Some cur ∧
  sockets w' !! cur = sockets w !! cur ∧
  connected w' = false ∧
  pending (ctl w') = [] ∧
  (∀ p, p ∈ waiters (pending (ctl w)) →
     promises w' !! p = Some (Rejected "连接已断开")) ∧
  promises (send method params timeout w').2 !! (send method params timeout w').1
    = Some (Rejected "CDP 未连接").
Proof.
  intros w w' Hn Hcur Hne Hs Hr.
  destruct (close_event_rejects_every_pending_call port acts s sk Hn Hs Hr)
    as (_ & _ & Hpd & Hc & Hp). fold w w' in Hpd, Hc, Hp.
  assert (Hw' : w' = on_close (set_readyState s CLOSED w)).
  { unfold w'. cbn [step]. rewrite Hs. by destruct (readyState sk). }
  split; [by rewrite Hw', ctl_on_close|]. split.
  { rewrite Hw'. unfold on_close. cbn [sockets set_ctl].
    rewrite sockets_reject_each. cbn. by rewrite list_lookup_alter_ne. }
  split; [done|]. split; [done|]. split; [intros p Hin; by apply Hp|].
  destruct (send_promise method params timeout w') as (-> & _).
  rewrite (send_not_connected _ _ _ _ Hc).
  destruct (reject_at_once "CDP 未连接" w') as (-> & _).
  by rewrite lookup_app_r, Nat.sub_diag.
Qed.

(** *** The page of the connection *)

Lemma conn_on_message raw w :
  ws (ctl (on_message raw w)) = ws (ctl w) ∧
  _connected (ctl (on_message raw w)) = _connected (ctl w) ∧
  _page (ctl (on_message raw w)) = _page (ctl w).
Proof.
  unfold on_message. destruct raw as [|msg]; [done|].
  destruct (msg_id msg) as [id|]; [|done].
  destruct (negb (id =? 0) && map_has id (pending (ctl w))); [|done].
  destruct (map_get id (pending (ctl w))) as [e|]; [|done].
  destruct (msg_error msg); by rewrite ?ctl_entry_reject, ?ctl_entry_resolve.
Qed.

Lemma page_kept_frame w w' :
  page_kept w →
  sockets w' = sockets w →
  ws (ctl w') = ws (ctl w) →
  _connected (ctl w') = _connected (ctl w) →
  _page (ctl w') = _page (ctl w) →
  page_kept w'.
Proof.
  intros [H1 H2] Hs Hw Hc Hp. split.
  - rewrite Hs, Hw. apply H1.
  - rewrite Hs, Hw, Hc, Hp. apply H2.
Qed.

(** After [ws.close()] no socket is connecting. *)
Lemma none_connecting_disconnect w s sk :
  page_kept w →
  sockets (disconnect w) !! s = Some sk → readyState sk ≠ CONNECTING.
Proof.
  intros [H1 _]. unfold disconnect.
  destruct (ws (ctl w)) as [s0|] eqn:Hw; cbn.
  - destruct (decide (s = s0)) as [->|Hne].
    + rewrite list_lookup_alter_eq.
      destruct (sockets w !! s0) as [sk0|]; [|done]. cbn.
      intros [= <-]. destruct (readyState sk0) eqn:E; cbn; congruence.
    + rewrite list_lookup_alter_ne by done. intros Hs Hr.
      specialize (H1 _ _ Hs Hr). congruence.
  - intros Hs Hr. specialize (H1 _ _ Hs Hr). congruence.
Qed.

(** A socket other than [s] whose state is left alone. *)
Lemma page_kept_closing s r w w' :
  page_kept w →
  r ≠ CONNECTING →
  sockets w' = sockets (set_readyState s r w) →
  ws (ctl w') = ws (ctl w) →
  _connected (ctl w') = false →
  page_kept w'.
Proof.
  intros [H1 _] Hr Hs Hw Hc. split; [|by rewrite Hc].
  intros s' sk'. rewrite Hs, Hw. cbn.
  destruct (decide (s' = s)) as [->|Hne].
  - rewrite list_lookup_alter_eq. destruct (sockets w !! s); [|done].
    cbn. by intros [= <-].
  - rewrite list_lookup_alter_ne by done. apply H1.
Qed.

Lemma page_kept_fresh port : page_kept (fresh port).
Proof. by split. Qed.

Lemma page_kept_step a w : page_kept w → page_kept (step a w).
Proof.
  intros H. pose proof H as [H1 H2].
  destruct a as [page|method params timeout| |s|s raw|s err|s|t]; cbn [step].
  - destruct (connect_cases page) as [Hp|[(pg & u & Hp & Hn)|(pg & u & m & Hp & Hn)]];
      cycle 1.
    + destruct (connect_valid page pg u w Hp Hn) as (_ & Hctl & _ & _ & _ & Hsk).
      split.
      * intros s sk. rewrite Hsk, Hctl. cbn.
        intros [Hs|[Hlen Hs]]%lookup_app_Some Hr.
        -- exfalso. destruct (ws (ctl w)) eqn:Hw.
           ++ by apply (none_connecting_disconnect w s sk).
           ++ specialize (H1 _ _ Hs Hr). congruence.
        -- apply list_lookup_singleton_Some in Hs as [Hs _].
           f_equal. destruct (ws (ctl w)); rewrite ?sockets_disconnect_length in *; lia.
      * rewrite Hctl. cbn. intros Hc. exfalso.
        destruct (ws (ctl w)) eqn:Hw.
        -- by rewrite ctl_disconnect in Hc.
        -- destruct (H2 Hc) as (? & ? & ? & _). congruence.
    + destruct (connect_refused page pg u m w Hp Hn)
        as (_ & Hctl & _ & _ & _ & _ & Hsk).
      destruct (ws (ctl w)) eqn:Hw.
      * apply (page_kept_frame (disconnect w)); [|by rewrite ?Hctl..].
        split.
        -- intros s sk Hs Hr. by destruct (none_connecting_disconnect w s sk).
        -- by rewrite ctl_disconnect.
      * apply (page_kept_frame w); by rewrite ?Hctl.
    + destruct (connect_invalid page w Hp) as (_ & Hctl & _ & _ & _ & Hsk).
      apply (page_kept_frame w); by rewrite ?Hctl.
  - destruct (connected w) eqn:Hc.
    + destruct (send_connected method params timeout w Hc)
        as (_ & Hctl & _ & _ & _ & Hsk & _).
      apply (page_kept_frame w); by rewrite ?Hctl.
    + rewrite (send_not_connected _ _ _ _ Hc).
      destruct (reject_at_once "CDP 未连接" w) as (_ & Hctl & _ & _ & Hsk & _).
      apply (page_kept_frame w); by rewrite ?Hctl.
  - split.
    + intros s sk Hs Hr. by destruct (none_connecting_disconnect w s sk).
    + by rewrite ctl_disconnect.
  - destruct (sockets w !! s) as [sk|] eqn:Hs; [|done].
    destruct (readyState sk) eqn:Hr; try done.
    pose proof (H1 _ _ Hs Hr) as Hw.
    unfold on_open, do_resolve. split.
    + intros s' sk'. cbn [sockets emit ctl]. rewrite sockets_settle, ctl_settle. cbn.
      destruct (decide (s' = s)) as [->|Hne]; [done|].
      rewrite list_lookup_alter_ne by done. apply H1.
    + intros _. exists s, (with_readyState OPEN sk).
      cbn [sockets emit ctl]. rewrite sockets_settle, ctl_settle. cbn.
      by rewrite list_lookup_alter_eq, Hs.
  - destruct (sockets w !! s) as [sk|]; [|done].
    destruct (conn_on_message raw w) as (? & ? & ?).
    destruct (readyState sk); try done;
      apply (page_kept_frame w); try done; apply sockets_on_message.
  - destruct (sockets w !! s) as [sk|]; [|done].
    destruct (readyState sk); try done;
      apply (page_kept_closing s CLOSING w); try done;
      unfold on_error, do_reject; cbn [sockets emit ctl];
      by rewrite ?sockets_settle, ?ctl_settle.
  - destruct (sockets w !! s) as [sk|]; [|done].
    destruct (readyState sk); try done;
      apply (page_kept_closing s CLOSED w); try done;
      rewrite ?ctl_on_close; try done;
      unfold on_close; cbn [sockets set_ctl]; by rewrite sockets_reject_each.
  - destruct (timers w !! t) as [tm|]; [|done].
    unfold on_timeout. change (ctl (clearTimeout t w)) with (ctl w).
    destruct (map_has _ _); [|by apply (page_kept_frame w)].
    apply (page_kept_frame w); try done;
      unfold do_reject; cbn [sockets emit ctl];
      by rewrite ?sockets_settle, ?ctl_settle.
Qed.

Lemma page_kept_run acts : ∀ w, page_kept w → page_kept (run acts w).
Proof.
  induction acts as [|a acts IH]; intros w H; [done|].
  simpl. by apply IH, page_kept_step.
Qed.

(** X4.  Along every execution, whenever the [connected] getter is true
    the controller holds an open socket and [currentPage] is the page
    that socket was made for by [connect]: the page reported never
    belongs to an earlier connection. *)
Theorem connected_page_is_current port acts :
  let w := run acts (fresh port) in
  connected w = true →
  ∃ s sk, ws (ctl w) = Some s ∧ sockets w !! s = Some sk ∧
          readyState sk = OPEN ∧ currentPage w = Some (sk_page sk).
Proof.
  intros w Hc.
  destruct (page_kept_run acts _ (page_kept_fresh port)) as [_ H2]. fold w in H2.
  unfold connected in Hc. apply andb_prop in Hc as [Hc Ho].
  destruct (H2 Hc) as (s & sk & Hw & Hs & Hp).
  rewrite Hw, Hs in Ho. apply bool_decide_eq_true in Ho.
  by exists s, sk.
Qed.

(** *** Choosing a page *)

(** *** After [disconnect()] *)

Lemma ws_step a w :
  (∀ page, a ≠ Connect page) → ws (ctl (step a w)) =
    match a with Disconnect => None | _ => ws (ctl w) end.
Proof.
  intros Ha.
  destruct a as [page|method params timeout| |s|s raw|s err|s|t]; cbn [step].
  - by destruct (Ha page).
  - destruct (connected w) eqn:Hc.
    + by destruct (send_connected method params timeout w Hc) as (_ & -> & _).
    + rewrite (send_not_connected _ _ _ _ Hc).
      by destruct (reject_at_once "CDP 未连接" w) as (_ & -> & _).
  - by rewrite ctl_disconnect.
  - destruct (sockets w !! s) as [sk|]; [|done].
    destruct (readyState sk); try done.
    unfold on_open. by rewrite ctl_do_resolve.
  - destruct (sockets w !! s) as [sk|]; [|done].
    destruct (conn_on_message raw w) as (? & _).
    by destruct (readyState sk).
  - destruct (sockets w !! s) as [sk|]; [|done].
    destruct (readyState sk); try done; unfold on_error; by rewrite ctl_do_reject.
  - destruct (sockets w !! s) as [sk|]; [|done].
    destruct (readyState sk); try done; by rewrite ctl_on_close.
  - destruct (timers w !! t) as [tm|]; [|done].
    unfold on_timeout. change (ctl (clearTimeout t w)) with (ctl w).
    destruct (map_has _ _); [|done]. by rewrite ctl_do_reject.
Qed.

Lemma ws_none_run acts : ∀ w,
  Forall (λ a, ∀ page, a ≠ Connect page) acts →
  ws (ctl w) = None → ws (ctl (run acts w)) = None.
Proof.
  induction acts as [|a acts IH]; intros w Hall Hw; [done|].
  apply Forall_cons in Hall as [Ha Hall]. simpl. apply IH; [done|].
  rewrite (ws_step a w Ha). by destruct a.
Qed.

(** X7.  After [disconnect()] only [connect] brings the controller
    back.  Whatever else happens, late events of any socket included
    (an [open] that was under way, messages, errors, the [close]), the
    controller holds no socket, [connected] is false, and every [send]
    fails at once with the "not connected" error. *)
Theorem stays_disconnected w acts method params timeout :
  Forall (λ a, ∀ page, a ≠ Connect page) acts →
  let w' := run acts (disconnect w) in
  ws (ctl w') = None ∧
  connected w' = false ∧
  promises (send method params timeout w').2 !! (send method params timeout w').1
    = Some (Rejected "CDP 未连接") ∧
  issued (trace (send method params timeout w').2) = issued (trace w').
Proof.
  intros Hall w'.
  assert (Hw : ws (ctl w') = None).
  { apply ws_none_run; [done|]. by rewrite ctl_disconnect. }
  assert (Hc : connected w' = false).
  { unfold connected. rewrite Hw. apply andb_false_r. }
  split; [done|]. split; [done|].
  destruct (send_promise method params timeout w') as (-> & _).
  rewrite (send_not_connected _ _ _ _ Hc).
  destruct (reject_at_once "CDP 未连接" w') as (-> & _ & _ & _ & _ & ->).
  split; [by rewrite lookup_app_r, Nat.sub_diag|].
  by rewrite issued_snoc, app_nil_r.
Qed.

(** *** A deadline that runs out after [disconnect()] *)

Lemma settlements_rejects_absent m ps p :
  p ∉ ps → settlements p ((λ q, EffReject q m) <$> ps) = 0%nat.
Proof.
  induction ps as [|q ps IH]; [done|].
  intros [Hne Hin]%not_elem_of_cons. specialize (IH Hin).
  unfold settlements in *. cbn.
  destruct (Nat.eqb_spec q p) as [->|_]; [done|exact IH].
Qed.

Lemma settlements_snoc p tr e :
  settlements p (tr ++ [e])
  = (settlements p tr + if settles p e then 1 else 0)%nat.
Proof.
  rewrite settlements_app. unfold settlements at 2. cbn.
  by destruct (settles p e).
Qed.

Lemma elem_of_map_set k e m k' e' :
  (k', e') ∈ map_set k e m → (k', e') = (k, e) ∨ (k', e') ∈ m.
Proof.
  induction m as [|[k0 e0] m IH]; cbn.
  - intros ->%list_elem_of_singleton. by left.
  - destruct (k0 =? k).
    + intros [->|H]%elem_of_cons; [by left|]. right. by apply elem_of_cons; right.
    + intros [->|H]%elem_of_cons; [right; by apply elem_of_cons; left|].
      destruct (IH H) as [->|H']; [by left|]. right. by apply elem_of_cons; right.
Qed.

Lemma forgotten_lt p w : forgotten p w → (p < length (promises w))%nat.
Proof. intros [H _ _ _]. by eapply lookup_lt_Some. Qed.

(** What is enough for a step to leave alone a promise that nothing
    holds. *)
Lemma forgotten_frame p w w' :
  forgotten p w →
  promises w' !! p = promises w !! p →
  (∀ k e, (k, e) ∈ pending (ctl w') →
     (k, e) ∈ pending (ctl w) ∨ pc_promise e = length (promises w)) →
  (∀ t tm, timers w' !! t = Some tm →
     timers w !! t = Some tm ∨ tm_promise tm = length (promises w)) →
  (∀ s sk, sockets w' !! s = Some sk →
     (∃ sk0, sockets w !! s = Some sk0 ∧ sk_promise sk0 = sk_promise sk) ∨
     sk_promise sk = length (promises w)) →
  forgotten p w'.
Proof.
  intros H Hp He Ht Hs. pose proof (forgotten_lt p w H) as Hlt.
  destruct H as [H1 H2 H3 H4]. split.
  - by rewrite Hp.
  - intros k e [Hin|Heq]%He; [by apply (H2 k)|lia].
  - intros t tm [Hin|Heq]%Ht; [by apply (H3 t)|lia].
  - intros s sk [(sk0 & H0 & <-)|Heq]%Hs; [by apply (H4 s)|lia].
Qed.

Lemma forgotten_rejected_at_once p m w :
  forgotten p w →
  let w' := do_reject (length (promises w)) m (new_promise w).2 in
  forgotten p w' ∧ settlements p (trace w') = settlements p (trace w).
Proof.
  intros H w'. pose proof (forgotten_lt p w H) as Hlt.
  destruct (reject_at_once m w) as (Hpr & Hc & Htm & _ & Hsk & Htr).
  fold w' in Hpr, Hc, Htm, Hsk, Htr. split.
  - apply (forgotten_frame p w); [done| | | |].
    + rewrite Hpr. apply lookup_snoc_ne. lia.
    + rewrite Hc. auto.
    + rewrite Htm. auto.
    + rewrite Hsk. eauto.
  - rewrite Htr, settlements_snoc. cbn [settles].
    destruct (Nat.eqb_spec (length (promises w)) p); lia.
Qed.

Lemma forgotten_disconnect p w :
  forgotten p w →
  forgotten p (disconnect w) ∧
  settlements p (trace (disconnect w)) = settlements p (trace w).
Proof.
  intros H. split.
  - apply (forgotten_frame p w); [done| | | |].
    + by rewrite promises_disconnect.
    + rewrite ctl_disconnect. cbn. by intros k e ?%elem_of_nil.
    + rewrite timers_disconnect. auto.
    + intros s sk Hs. left. by apply sockets_disconnect.
  - rewrite trace_disconnect. destruct (ws (ctl w)); [|by rewrite app_nil_r].
    rewrite settlements_snoc. cbn [settles]. lia.
Qed.

Lemma forgotten_on_message p raw w :
  forgotten p w →
  promises (on_message raw w) !! p = promises w !! p ∧
  (∀ k e, (k, e) ∈ pending (ctl (on_message raw w)) → (k, e) ∈ pending (ctl w)) ∧
  settlements p (trace (on_message raw w)) = settlements p (trace w).
Proof.
  intros [H1 H2 H3 H4]. unfold on_message.
  destruct raw as [|msg]; [done|].
  destruct (msg_id msg) as [id|]; [|done].
  destruct (negb (id =? 0) && map_has id (pending (ctl w))); [|done].
  destruct (map_get id (pending (ctl w))) as [e|] eqn:Hg; [|done].
  pose proof (H2 _ _ (map_get_elem _ _ _ Hg)) as Hne.
  destruct (msg_error msg) as [m|].
  - unfold entry_reject. rewrite promises_do_reject_ne by done.
    rewrite ctl_do_reject, trace_do_reject, settlements_snoc.
    cbn [settles ctl set_ctl with_pending pending trace clearTimeout set_timers].
    split; [done|]. split; [by intros k e' [? _]%elem_of_map_delete|].
    destruct (Nat.eqb_spec (pc_promise e) p); [done|lia].
  - unfold entry_resolve. rewrite promises_do_resolve_ne by done.
    rewrite ctl_do_resolve, trace_do_resolve, settlements_snoc.
    cbn [settles ctl set_ctl with_pending pending trace clearTimeout set_timers].
    split; [done|]. split; [by intros k e' [? _]%elem_of_map_delete|].
    destruct (Nat.eqb_spec (pc_promise e) p); [done|lia].
Qed.

(** A promise that nothing holds is left alone by every step. *)
Lemma forgotten_step a w p :
  forgotten p w →
  forgotten p (step a w) ∧
  settlements p (trace (step a w)) = settlements p (trace w).
Proof.
  intros H. pose proof (forgotten_lt p w H) as Hlt.
  pose proof H as [H1 H2 H3 H4].
  assert (Hfr :
    promises (step a w) !! p = promises w !! p →
    (∀ k e, (k, e) ∈ pending (ctl (step a w)) →
       (k, e) ∈ pending (ctl w) ∨ pc_promise e = length (promises w)) →
    (∀ t tm, timers (step a w) !! t = Some tm →
       timers w !! t = Some tm ∨ tm_promise tm = length (promises w)) →
    forgotten p (step a w)).
  { intros. apply (forgotten_frame p w); try done.
    intros s sk Hs. by apply (socket_promise_step a). }
  destruct a as [page|method params timeout| |s|s raw|s err|s|t]; cbn [step] in *.
  - set (w0 := match ws (ctl w) with Some _ => disconnect w | None => w end).
    assert (F0 : forgotten p w0 ∧
                 settlements p (trace w0) = settlements p (trace w)).
    { unfold w0. destruct (ws (ctl w)); [by apply forgotten_disconnect|done]. }
    assert (L0 : promises w0 = promises w).
    { unfold w0. destruct (ws (ctl w)); [apply promises_disconnect|done]. }
    destruct (connect_cases page)
      as [Hp|[(pg & u & Hp & Hn)|(pg & u & m & Hp & Hn)]].
    + unfold connect. rewrite Hp.
      exact (forgotten_rejected_at_once p _ w H).
    + destruct (connect_valid page pg u w Hp Hn) as (_ & Hc & Htr & Hpr & Htm & _).
      fold w0 in Hc, Htr. destruct F0 as [[_ E0 T0 _] S0]. split.
      * apply Hfr.
        -- rewrite Hpr. apply lookup_snoc_ne. lia.
        -- rewrite Hc. cbn. rewrite ?ctl_disconnect. intros k e Hin.
           unfold w0 in Hin. destruct (ws (ctl w)); [|by left].
           rewrite ctl_disconnect in Hin. cbn in Hin. by apply elem_of_nil in Hin.
        -- rewrite Htm. auto.
      * by rewrite Htr.
    + destruct F0 as [F0 S0].
      destruct (forgotten_rejected_at_once p m w0 F0) as [F1 S1].
      assert (connect page w
              = (length (promises w0),
                 do_reject (length (promises w0)) m (new_promise w0).2)) as ->.
      { unfold connect. rewrite Hp. fold w0. unfold new_promise. by rewrite Hn. }
      split; [exact F1|]. cbn [snd]. by rewrite S1.
  - destruct (connected w) eqn:Hc.
    + destruct (send_connected method params timeout w Hc)
        as (_ & Hctl & Hpr & Htm & _ & _ & s & _ & Htr).
      split.
      * apply Hfr.
        -- rewrite Hpr. apply lookup_snoc_ne. lia.
        -- rewrite Hctl. cbn. intros k e [[= -> ->]|Hin]%elem_of_map_set;
             [by right|by left].
        -- rewrite Htm. intros t0 tm [[_ <-]|[_ Hin]]%lookup_insert_Some;
             [by right|by left].
      * rewrite Htr, settlements_snoc. cbn [settles]. lia.
    + rewrite (send_not_connected _ _ _ _ Hc) in *.
      exact (forgotten_rejected_at_once p _ w H).
  - by apply forgotten_disconnect.
  - destruct (sockets w !! s) as [sk|] eqn:Hs; [|done].
    destruct (readyState sk); try done.
    pose proof (H4 _ _ Hs) as Hne.
    unfold on_open in *. split.
    + apply Hfr.
      * by rewrite promises_do_resolve_ne.
      * rewrite ctl_do_resolve. auto.
      * unfold do_resolve. cbn [timers emit]. rewrite timers_settle. auto.
    + rewrite trace_do_resolve, !settlements_snoc.
      cbn [settles trace emit set_ctl set_readyState set_sockets].
      rewrite settlements_snoc. cbn [settles].
      destruct (Nat.eqb_spec (sk_promise sk) p); [done|lia].
  - destruct (sockets w !! s) as [sk|] eqn:Hs; [|done].
    destruct (forgotten_on_message p raw w H) as (P & E & S).
    destruct (readyState sk); try done.
    + split; [|done]. apply Hfr; [done|auto|].
      intros t tm ?%timers_on_message. by left.
    + split; [|done]. apply Hfr; [done|auto|].
      intros t tm ?%timers_on_message. by left.
  - destruct (sockets w !! s) as [sk|] eqn:Hs; [|done].
    pose proof (H4 _ _ Hs) as Hne.
    destruct (readyState sk); [| | |by split];
      (split;
       [apply Hfr;
        [unfold on_error; by rewrite promises_do_reject_ne
        |unfold on_error; rewrite ctl_do_reject; auto
        |unfold on_error, do_reject; cbn [timers emit]; rewrite timers_settle; auto]
       |unfold on_error; rewrite trace_do_reject, settlements_snoc;
        cbn [settles trace set_ctl set_readyState set_sockets];
        destruct (Nat.eqb_spec (sk_promise sk) p); [done|lia]]).
  - destruct (sockets w !! s) as [sk|] eqn:Hs; [|done].
    assert (Hnot : p ∉ waiters (pending (ctl w))).
    { intros (k & e & Hin & Heq)%elem_of_waiters. by apply (H2 k e). }
    destruct (readyState sk); [| | |by split];
      (split;
       [apply Hfr;
        [unfold on_close; cbn [promises set_ctl set_readyState set_sockets ctl];
         by rewrite promises_reject_each_ne
        |rewrite ctl_on_close; cbn; by intros k e ?%elem_of_nil
        |unfold on_close; cbn [timers set_ctl];
         intros t tm ?%timers_reject_each; by left]
       |rewrite trace_on_close, settlements_app;
        cbn [ctl set_readyState set_sockets trace];
        rewrite settlements_rejects_absent by done; lia]).
  - destruct (timers w !! t) as [tm|] eqn:Ht; [|done].
    pose proof (H3 _ _ Ht) as Hne.
    unfold on_timeout in *. cbn [ctl clearTimeout set_timers] in *.
    destruct (map_has (tm_id tm) (pending (ctl w))).
    + split.
      * apply Hfr.
        -- by rewrite promises_do_reject_ne.
        -- rewrite ctl_do_reject. cbn. intros k e [? _]%elem_of_map_delete. by left.
        -- unfold do_reject. cbn [timers emit]. rewrite timers_settle. cbn.
           intros t0 tm0 [_ ?]%lookup_delete_Some. by left.
      * rewrite trace_do_reject, settlements_snoc.
        cbn [settles trace set_ctl clearTimeout set_timers].
        destruct (Nat.eqb_spec (tm_promise tm) p); [done|lia].
    + split; [|done]. apply Hfr; [done|auto|].
      cbn. intros t0 tm0 [_ ?]%lookup_delete_Some. by left.
Qed.

Lemma forgotten_run acts : ∀ w p,
  forgotten p w →
  forgotten p (run acts w) ∧
  settlements p (trace (run acts w)) = settlements p (trace w).
Proof.
  induction acts as [|a acts IH]; intros w p H; [done|].
  destruct (forgotten_step a w p H) as [F S].
  destruct (IH _ _ F) as [F' S'].
  change (run (a :: acts) w) with (run acts (step a w)).
  split; [done|]. by rewrite S'.
Qed.

(** An armed timer of the next store was armed before, or was just armed
    by [send] for a promise that is new. *)
Lemma timers_back a w t tm :
  timers (step a w) !! t = Some tm →
  timers w !! t = Some tm ∨
  (tm_promise tm = length (promises w) ∧
   (length (promises w) < length (promises (step a w)))%nat).
Proof.
  destruct a as [page|method params timeout| |s|s raw|s err|s|t0]; cbn [step].
  - destruct (connect_cases page) as [Hp|[(pg & u & Hp & Hn)|(pg & u & m & Hp & Hn)]].
    + destruct (connect_invalid page w Hp) as (_ & _ & _ & _ & -> & _). auto.
    + destruct (connect_valid page pg u w Hp Hn) as (_ & _ & _ & _ & -> & _). auto.
    + destruct (connect_refused page pg u m w Hp Hn) as (_ & _ & _ & _ & -> & _). auto.
  - destruct (connected w) eqn:Hc.
    + destruct (send_connected method params timeout w Hc)
        as (_ & _ & -> & -> & _).
      intros [[_ <-]|[_ ?]]%lookup_insert_Some; [right|by left].
      cbn. rewrite length_app. cbn. lia.
    + rewrite (send_not_connected _ _ _ _ Hc).
      destruct (reject_at_once "CDP 未连接" w) as (_ & _ & -> & _). auto.
  - rewrite timers_disconnect. auto.
  - destruct (sockets w !! s) as [sk|]; [|auto].
    destruct (readyState sk); auto.
    unfold on_open, do_resolve. cbn [timers emit].
    rewrite timers_settle. auto.
  - destruct (sockets w !! s) as [sk|]; [|auto].
    destruct (readyState sk); auto; intros ?%timers_on_message; auto.
  - destruct (sockets w !! s) as [sk|]; [|auto].
    destruct (readyState sk); auto;
      unfold on_error, do_reject; cbn [timers emit];
      rewrite timers_settle; auto.
  - destruct (sockets w !! s) as [sk|]; [|auto].
    destruct (readyState sk); auto;
      unfold on_close; cbn [timers set_ctl];
      intros ?%timers_reject_each; auto.
  - destruct (timers w !! t0) as [tm0|]; [|auto].
    unfold on_timeout. change (ctl (clearTimeout t0 w)) with (ctl w).
    destruct (map_has _ _).
    + unfold do_reject. cbn [timers emit]. rewrite timers_settle. cbn.
      intros [_ ?]%lookup_delete_Some. auto.
    + cbn. intros [_ ?]%lookup_delete_Some. auto.
Qed.

(** Along every execution, the promise of an armed timer is known. *)
Lemma timers_known port acts t tm :
  timers (run acts (fresh port)) !! t = Some tm →
  (tm_promise tm < length (promises (run acts (fresh port))))%nat.
Proof.
  revert t tm. induction acts as [|a acts IH] using rev_ind; intros t tm; [done|].
  rewrite run_snoc.
  pose proof (promises_length_step a (run acts (fresh port))).
  intros [H0|[-> ?]]%timers_back; [|done].
  specialize (IH _ _ H0). lia.
Qed.

Lemma map_get_set k v m : map_get k (map_set k v m) = Some v.
Proof.
  unfold map_get. induction m as [|[k0 v0] m IH]; cbn.
  - by rewrite Z.eqb_refl.
  - destruct (k0 =? k) eqn:E; cbn; [by rewrite Z.eqb_refl|by rewrite E].
Qed.

(** C2, where the code breaks it.  A call is out on a connected
    controller when [disconnect()] is called.  The pending map is
    cleared, but the promise of the call is not rejected and its timer
    stays armed.  When the deadline then runs out, the callback of the
    timer finds no entry under the id of the call and rejects nothing:
    the call has not failed with the timeout error, and whatever happens
    afterwards it neither fails nor succeeds, for neither [resolve] nor
    [reject] is ever called on its promise. *)
Theorem deadline_after_disconnect port acts method params timeout later :
  let w := run acts (fresh port) in
  let p := (send method params timeout w).1 in
  let w1 := (send method params timeout w).2 in
  let t := next_timer w in
  let w2 := disconnect w1 in
  let w3 := step (TimerFires t) w2 in
  connected w = true →
  Z.of_nat (length (issued (trace w))) ≤ 2 ^ 53 →
  map_get (messageId (ctl w)) (pending (ctl w1))
    = Some {| pc_timer := t; pc_promise := p |} ∧
  timers w1 !! t = Some (deadline_of method timeout w) ∧
  tm_promise (deadline_of method timeout w) = p ∧
  promises w1 !! p = Some Unsettled ∧
  pending (ctl w2) = [] ∧
  timers w2 !! t = Some (deadline_of method timeout w) ∧
  promises w2 !! p = Some Unsettled ∧
  settlements p (trace w2) = 0%nat ∧
  w3 = clearTimeout t w2 ∧
  trace w3 = trace w2 ∧
  promises w3 !! p = Some Unsettled ∧
  promises (run later w3) !! p = Some Unsettled ∧
  settlements p (trace (run later w3)) = 0%nat.
Proof.
  intros w p w1 t w2 w3 Hc Hn.
  assert (Hwk : well_kept w) by (by apply well_kept_reachable).
  destruct (send_connected method params timeout w Hc)
    as (Hp & Hctl & Hpr & Htm & _ & Hsk & s & Hws & Htr).
  fold p in Hp. fold w1 in Hctl, Hpr, Htm, Hsk, Htr. fold t in Hctl, Htm.
  assert (Hw1 : ws (ctl w1) = Some s) by (by rewrite Hctl).
  assert (Ht1 : timers w1 !! t = Some (deadline_of method timeout w)).
  { rewrite Htm. by rewrite lookup_insert_eq. }
  assert (Hp1 : promises w1 !! p = Some Unsettled).
  { by rewrite Hpr, Hp, lookup_app_r, Nat.sub_diag. }
  assert (Ht2 : timers w2 !! t = Some (deadline_of method timeout w)).
  { unfold w2. by rewrite timers_disconnect. }
  assert (Hp2 : promises w2 !! p = Some Unsettled).
  { unfold w2. by rewrite promises_disconnect. }
  assert (Hw3 : w3 = clearTimeout t w2).
  { unfold w3. cbn [step]. rewrite Ht2. unfold on_timeout.
    change (ctl (clearTimeout t w2)) with (ctl w2).
    unfold w2. by rewrite ctl_disconnect. }
  assert (Hns : no_socket_promise p w).
  { intros s0 sk Hs0. apply (wk_socket w Hwk) in Hs0 as [? _]. lia. }
  assert (Hst : settlements p (trace w) = 0%nat).
  { apply (settled_once port acts p); [done|done|].
    right. apply lookup_ge_None_2. fold w. lia. }
  assert (Hst2 : settlements p (trace w2) = 0%nat).
  { unfold w2. rewrite trace_disconnect, Hw1, Htr, !settlements_snoc.
    cbn [settles]. lia. }
  assert (Hfg : forgotten p w3).
  { rewrite Hw3. split.
    - done.
    - change (ctl (clearTimeout t w2)) with (ctl w2). unfold w2.
      rewrite ctl_disconnect. cbn [pending with_pending].
      by intros k e ?%elem_of_nil.
    - change (timers (clearTimeout t w2)) with (delete t (timers w2)). unfold w2.
      rewrite timers_disconnect, Htm.
      intros t0 tm [Hne [[? _]|[_ Hin]]%lookup_insert_Some]%lookup_delete_Some;
        [done|].
      apply (timers_known port acts) in Hin. fold w in Hin. lia.
    - change (sockets (clearTimeout t w2)) with (sockets w2). unfold w2.
      intros s0 sk (sk0 & Hs0 & <-)%sockets_disconnect.
      rewrite Hsk in Hs0. by apply (Hns s0). }
  destruct (forgotten_run later w3 p Hfg) as [[Hun _ _ _] Hsett].
  split; [rewrite Hctl; cbn [pending with_pending]; by rewrite map_get_set, Hp|].
  split; [done|]. split; [by rewrite Hp|]. split; [done|].
  split; [unfold w2; by rewrite ctl_disconnect|].
  split; [done|]. split; [done|]. split; [done|]. split; [done|].
  split; [by rewrite Hw3|]. split; [by rewrite Hw3|]. split; [done|].
  rewrite Hsett. by rewrite Hw3.
Qed.

(** *** From [connect] to the [open] event *)

(** X6.  [connect] on a page whose address the library takes: the socket
    the controller held, if any, is torn down, the controller holds a new
    socket and is not connected until this socket opens; the promise of
    [connect] is unsettled until then.  From the [open] event of the new
    socket on, [connected] is true, [currentPage] is the page given and
    the promise is fulfilled.  On a page without an address, or with one
    the library refuses, the promise is rejected at once, no socket is
    made and an [open] event for the handle the socket would have had
    changes nothing; after a refusal the controller holds no socket at
    all. *)
Theorem connect_then_open page w :
  let p := (connect page w).1 in
  let w1 := (connect page w).2 in
  let s := length (sockets w) in
  let w2 := step (WsOpen s) w1 in
  p = length (promises w) ∧
  match page_ws_url page with
  | None =>
      promises w1 !! p
        = Some (Rejected "无效的页面对象，缺少 webSocketDebuggerUrl") ∧
      ctl w1 = ctl w ∧ sockets w1 = sockets w ∧ w2 = w1
  | Some (pg, u) =>
      match WebSocket_new u with
      | Some message =>
          promises w1 !! p = Some (Rejected message) ∧
          ws (ctl w1) = None ∧ connected w1 = false ∧
          length (sockets w1) = length (sockets w) ∧ w2 = w1
      | None =>
          ws (ctl w1) = Some s ∧
          sockets w1 !! s = Some {| sk_url := u; readyState := CONNECTING;
                                    sk_page := pg; sk_promise := p |} ∧
          promises w1 !! p = Some Unsettled ∧
          connected w1 = false ∧
          connected w2 = true ∧
          currentPage w2 = Some pg ∧
          promises w2 !! p = Some (Fulfilled "")
      end
  end.
Proof.
  intros p w1 s w2.
  assert (Hnone : length (sockets w1) = length (sockets w) → w2 = w1).
  { intros Hlen. unfold w2. cbn [step].
    by rewrite (lookup_ge_None_2 (sockets w1) s) by (fold s in Hlen; lia). }
  destruct (connect_cases page) as [Hp|[(pg & u & Hp & Hn)|(pg & u & m & Hp & Hn)]];
    rewrite Hp; rewrite ?Hn.
  - destruct (connect_invalid page w Hp) as (Hp' & Hctl & _ & Hpr & _ & Hsk).
    fold p in Hp'. fold w1 in Hctl, Hpr, Hsk.
    split; [done|]. split; [by rewrite Hpr, Hp', lookup_app_r, Nat.sub_diag|].
    split; [done|]. split; [done|]. apply Hnone. by rewrite Hsk.
  - destruct (connect_valid page pg u w Hp Hn) as (Hp' & Hctl & _ & Hpr & _ & Hsk).
    fold p in Hp', Hsk. fold w1 in Hctl, Hpr, Hsk. fold s in Hctl.
    assert (Hlen : length (sockets match ws (ctl w) with
                                   | Some _ => disconnect w | None => w end) = s).
    { destruct (ws (ctl w)); by rewrite ?sockets_disconnect_length. }
    assert (Hs : sockets w1 !! s
                 = Some {| sk_url := u; readyState := CONNECTING;
                           sk_page := pg; sk_promise := p |}).
    { rewrite Hsk, lookup_app_r by lia. by rewrite Hlen, Nat.sub_diag, Hp'. }
    assert (Hu1 : promises w1 !! p = Some Unsettled).
    { by rewrite Hpr, Hp', lookup_app_r, Nat.sub_diag. }
    split; [done|]. split; [by rewrite Hctl|]. split; [done|]. split; [done|].
    split.
    { unfold connected. rewrite Hctl. cbn. fold s. rewrite Hs. cbn.
      apply andb_false_r. }
    assert (Hw2 : w2 = on_open {| sk_url := u; readyState := CONNECTING;
                                  sk_page := pg; sk_promise := p |}
                         (set_readyState s OPEN w1)).
    { unfold w2. cbn [step]. by rewrite Hs. }
    rewrite Hw2. unfold on_open, do_resolve. split; [|split].
    + unfold connected. cbn [ctl sockets emit]. rewrite ctl_settle, sockets_settle.
      cbn. rewrite Hctl. cbn. fold s. by rewrite list_lookup_alter_eq, Hs.
    + unfold currentPage. cbn [ctl emit]. by rewrite ctl_settle.
    + cbn [promises emit]. by apply promises_settle_unsettled.
  - destruct (connect_refused page pg u m w Hp Hn)
      as (Hp' & Hctl & _ & Hpr & _ & _ & Hsk).
    fold p in Hp'. fold w1 in Hctl, Hpr, Hsk.
    assert (Hws : ws (ctl w1) = None).
    { rewrite Hctl. destruct (ws (ctl w)) eqn:Hw; [by rewrite ctl_disconnect|done]. }
    assert (Hlen : length (sockets w1) = length (sockets w)).
    { rewrite Hsk. destruct (ws (ctl w)); [apply sockets_disconnect_length|done]. }
    split; [done|]. split; [by rewrite Hpr, Hp', lookup_app_r, Nat.sub_diag|].
    split; [done|]. split; [unfold connected; by rewrite Hws, andb_false_r|].
    split; [done|]. by apply Hnone.
Qed.

(** *** Which page [autoConnect] connects to *)

Lemma find_from_spec f items : ∀ i,
  match find_from f i items with
  | inr (Some t) =>
      ∃ skipped rest,
        items = skipped ++ t :: rest ∧
        f t (i + length skipped)%nat = inr true ∧
        ∀ j x, skipped !! j = Some x → f x (i + j)%nat = inr false
  | inr None => ∀ j x, items !! j = Some x → f x (i + j)%nat = inr false
  | inl e =>
      ∃ skipped x rest m,
        items = skipped ++ x :: rest ∧
        f x (i + length skipped)%nat = inl m ∧ e = Message m ∧
        ∀ j y, skipped !! j = Some y → f y (i + j)%nat = inr false
  end.
Proof.
  induction items as [|x items IH]; intros i; cbn [find_from].
  - by intros j x.
  - destruct (f x i) as [m|[]] eqn:Hx.
    + exists [], x, items, m. cbn. rewrite Nat.add_0_r. by repeat split.
    + exists [], items. cbn. rewrite Nat.add_0_r. by repeat split.
    + specialize (IH (S i)).
      destruct (find_from f (S i) items) as [e|[t|]].
      * destruct IH as (skipped & y & rest & m & -> & Hy & -> & Hall).
        exists (x :: skipped), y, rest, m. cbn [length].
        replace (i + S (length skipped))%nat with (S i + length skipped)%nat by lia.
        repeat split; try done.
        intros [|j] z Hz; cbn in Hz.
        -- injection Hz as <-. by rewrite Nat.add_0_r.
        -- replace (i + S j)%nat with (S i + j)%nat by lia. by apply Hall.
      * destruct IH as (skipped & rest & -> & Hy & Hall).
        exists (x :: skipped), rest. cbn [length].
        replace (i + S (length skipped))%nat with (S i + length skipped)%nat by lia.
        repeat split; try done.
        intros [|j] z Hz; cbn in Hz.
        -- injection Hz as <-. by rewrite Nat.add_0_r.
        -- replace (i + S j)%nat with (S i + j)%nat by lia. by apply Hall.
      * intros [|j] z Hz; cbn in Hz.
        -- injection Hz as <-. by rewrite Nat.add_0_r.
        -- replace (i + S j)%nat with (S i + j)%nat by lia. by apply IH.
Qed.

(** X5.  [autoConnect] never gets further than [getPages] when the
    request is never answered, and throws what [http.get] threw when the
    request could not be made.  It throws "没有找到可用页面" when the
    request fails, when the body is no JSON, and when the [length] of
    what was parsed is 0; a [TypeError] when the body is [null], and
    when a filter is given and the body is no array or the filter is no
    function; what the filter threw at the first element on which it
    throws, all elements before being refused; and "没有匹配的页面" when
    the value it picked is falsy or there is none.  Otherwise it goes on
    to [connect] with the value it picked, which is truthy: without a
    filter [pages[0]], with a filter the first element of the array,
    in order, that the filter accepts. *)
Theorem autoConnect_outcome http filter w :
  let answer := http (port (ctl w)) in
  match autoConnect http filter w with
  | AutoPending => answer = NoAnswer
  | AutoConnects target =>
      truthy target = true ∧
      ∃ pages,
        answer = Body pages ∧ length_is_zero pages = Some false ∧
        match filter with
        | NoFilter => element0 pages = Some target
        | NotCallable => False
        | Predicate f =>
            ∃ skipped rest,
              pages = JArray (skipped ++ target :: rest) ∧
              f target (length skipped) = inr true ∧
              ∀ j x, skipped !! j = Some x → f x j = inr false
        end
  | AutoThrows e =>
      (∃ m, answer = GetThrows m ∧ e = Message m) ∨
      (e = Message "没有找到可用页面" ∧
       (answer = RequestError ∨ answer = BadBody ∨
        ∃ pages, answer = Body pages ∧ length_is_zero pages = Some true)) ∨
      (e = TypeError ∧ answer = Body JNull) ∨
      ∃ pages,
        answer = Body pages ∧ length_is_zero pages = Some false ∧
        match filter with
        | NoFilter =>
            e = Message "没有匹配的页面" ∧
            ∀ t, element0 pages = Some t → truthy t = false
        | NotCallable => e = TypeError
        | Predicate f =>
            (e = TypeError ∧ ∀ items, pages ≠ JArray items) ∨
            ∃ skipped rest,
              pages = JArray (skipped ++ rest) ∧
              (∀ j x, skipped !! j = Some x → f x j = inr false) ∧
              match rest with
              | [] => e = Message "没有匹配的页面"
              | x :: _ =>
                  (∃ m, f x (length skipped) = inl m ∧ e = Message m) ∨
                  (f x (length skipped) = inr true ∧ truthy x = false ∧
                   e = Message "没有匹配的页面")
              end
        end
  end.
Proof.
  intros answer. unfold autoConnect, getPages. fold answer.
  destruct answer as [m| | | |pages] eqn:Ha; cbn.
  - left. by exists m.
  - right. left. auto.
  - done.
  - right. left. auto.
  - destruct (length_is_zero pages) as [[]|] eqn:Hz.
    + right. left. split; [done|]. right. right. by exists pages.
    + destruct filter as [| |f]; cbn [pick].
      * destruct (element0 pages) as [t|] eqn:Ht.
        -- destruct (truthy t) eqn:Htt.
           ++ split; [done|]. by exists pages.
           ++ right. right. right. exists pages. split; [done|]. split; [done|].
              split; [done|]. intros t' Ht'. congruence.
        -- right. right. right. exists pages. split; [done|]. split; [done|].
           split; [done|]. intros t Ht'. congruence.
      * right. right. right. by exists pages.
      * destruct pages as [|b|x|n|s|items|props];
          try (right; right; right; eexists; split; [done|]; split; [done|];
               by left).
        pose proof (find_from_spec f items 0) as Hf.
        destruct (find_from f 0 items) as [e|[t|]].
        -- destruct Hf as (skipped & x & rest & m & -> & Hx & -> & Hall).
           right. right. right. eexists. split; [done|]. split; [done|].
           right. exists skipped, (x :: rest). split; [done|]. split; [done|].
           left. by exists m.
        -- destruct Hf as (skipped & rest & -> & Hx & Hall).
           destruct (truthy t) eqn:Htt.
           ++ split; [done|]. eexists. split; [done|]. split; [done|].
              by exists skipped, rest.
           ++ right. right. right. eexists. split; [done|]. split; [done|].
              right. exists skipped, (t :: rest). split; [done|]. split; [done|].
              by right.
        -- right. right. right. eexists. split; [done|]. split; [done|].
           right. exists items, []. by rewrite app_nil_r.
    + right. right. left. split; [done|].
      destruct pages; try done.
Qed.

End Facts.

(** *** Sample executions

    The executions below run against the library [ws_scheme]. *)

#[local] Existing Instance ws_scheme.

Lemma send_while_not_connected_witness :
  connected (fresh 9000) = false ∧
  promises (send "Runtime.evaluate" "{}" 10000 (fresh 9000)).2 !! 0%nat
    = Some (Rejected "CDP 未连接") ∧
  pending (ctl (send "Runtime.evaluate" "{}" 10000 (fresh 9000)).2) = [] ∧
  issued (trace (send "Runtime.evaluate" "{}" 10000 (fresh 9000)).2) = [].
Proof.
  split; [reflexivity|].
  destruct (send_while_not_connected "Runtime.evaluate" "{}" 10000 (fresh 9000))
    as (_ & Hp & Hc & _ & _ & Ht); [reflexivity|].
  split; [exact Hp|]. split; [by rewrite Hc|by rewrite Ht].
Defined.

Lemma correlation_ids_unique_increasing_witness :
  issued (trace (run busy_session (fresh 9000))) = [1; 2; 3; 4; 5] ∧
  NoDup (issued (trace (run busy_session (fresh 9000)))).
Proof.
  split; [reflexivity|].
  apply (correlation_ids_unique_increasing 9000 busy_session).
  vm_compute. discriminate.
Defined.

Lemma deadline_then_late_response_witness :
  let w := run ping_sent (fresh 9000) in
  let w1 := step (TimerFires 0%nat) w in
  let w2 := run [Send "next" "{}" 100] w1 in
  let pong := {| msg_id := Some 1; msg_error := None; msg_result := "pong" |} in
  map_get 1 (pending (ctl w)) = Some {| pc_timer := 0; pc_promise := 1 |} ∧
  promises w !! 1%nat = Some Unsettled ∧
  promises w1 !! 1%nat = Some (Rejected (timeout_message ping_timer)) ∧
  trace w1 = trace w ++ [EffReject 1%nat (timeout_message ping_timer)] ∧
  pending (ctl w1) = map_delete 1 (pending (ctl w)) ∧
  promises w2 !! 1%nat = Some (Rejected (timeout_message ping_timer)) ∧
  map_has 1 (pending (ctl w2)) = false ∧
  step (WsMessage 0%nat (Parsed pong)) w2 = w2.
Proof.
  apply (deadline_then_late_response 9000 ping_sent 0%nat ping_timer
           [Send "next" "{}" 100] 0%nat
           {| msg_id := Some 1; msg_error := None; msg_result := "pong" |});
    [reflexivity|reflexivity|vm_compute; discriminate|reflexivity].
Defined.

Lemma deadline_after_disconnect_witness :
  let w := run [Connect (Some page_a); WsOpen 0%nat] (fresh 9000) in
  let w1 := (send "ping" "{}" 100 w).2 in
  let w2 := disconnect w1 in
  let w3 := step (TimerFires 0%nat) w2 in
  connected w = true ∧
  pending (ctl w1) = [(1, {| pc_timer := 0; pc_promise := 1 |})] ∧
  pending (ctl w2) = [] ∧
  timers w2 !! 0%nat = Some ping_timer ∧
  trace w3 = trace w2 ∧
  promises w3 !! 1%nat = Some Unsettled ∧
  promises (run after_the_deadline w3) !! 1%nat = Some Unsettled ∧
  settlements 1 (trace (run after_the_deadline w3)) = 0%nat.
Proof.
  destruct (deadline_after_disconnect 9000 [Connect (Some page_a); WsOpen 0%nat]
              "ping" "{}" 100 after_the_deadline)
    as (_ & _ & _ & _ & H2 & Ht & _ & _ & _ & Htr & H3 & Hl & Hs);
    [reflexivity|vm_compute; discriminate|].
  split; [reflexivity|]. split; [reflexivity|]. split; [exact H2|].
  split; [exact Ht|]. split; [exact Htr|]. split; [exact H3|].
  split; [exact Hl|exact Hs].
Defined.

(** The same execution, spelled out: the deadline of the call runs out
    after [disconnect()], and the call is still waiting. *)
Example ping_never_times_out :
  let w3 := run (ping_sent ++ [Disconnect; TimerFires 0%nat]) (fresh 9000) in
  promises w3 !! 1%nat = Some Unsettled ∧
  rejections 1 (trace w3) = 0%nat ∧
  pending (ctl w3) = [] ∧ timers w3 = ∅.
Proof. vm_compute. repeat split; reflexivity. Qed.

(** The call of that execution, spelled out: it fails with the timeout
    error and the map is empty again. *)
Example ping_times_out :
  let w1 := run (ping_sent ++ [TimerFires 0%nat]) (fresh 9000) in
  promises w1 !! 1%nat = Some (Rejected "ping 超时 (100ms)") ∧
  pending (ctl w1) = [].
Proof. vm_compute. split; reflexivity. Qed.

(** Two calls are out and the peer closes the socket: both fail with the
    "connection closed" error and the map is empty. *)
Example peer_closes_with_two_calls_out :
  let w' := step (WsClose 0%nat) two_calls_out in
  promises w' !! 1%nat = Some (Rejected "连接已断开") ∧
  promises w' !! 2%nat = Some (Rejected "连接已断开") ∧
  rejections 1 (trace w') = 1%nat ∧ rejections 2 (trace w') = 1%nat ∧
  pending (ctl w') = [] ∧ connected w' = false.
Proof. vm_compute. repeat split; reflexivity. Qed.

(** C1, the [disconnect()] path.  Two calls are out on a connected
    controller; [disconnect()] empties the pending map and closes the
    socket without calling [reject] on either; the socket's [close]
    event then finds the map empty, and so does each call's timer: both
    promises stay unsettled for good. *)
Theorem disconnect_leaves_pending_calls_unsettled :
  let w := two_calls_out in
  let w' := run [Disconnect; WsClose 0%nat; TimerFires 0%nat; TimerFires 1%nat] w in
  connected w = true ∧
  waiters (pending (ctl w)) = [1; 2]%nat ∧
  pending (ctl (disconnect w)) = [] ∧
  trace (disconnect w) = trace w ++ [EffWsClose 0%nat] ∧
  promises w' !! 1%nat = Some Unsettled ∧
  promises w' !! 2%nat = Some Unsettled ∧
  rejections 1 (trace w') = 0%nat ∧
  rejections 2 (trace w') = 0%nat ∧
  timers w' = ∅.
Proof. vm_compute. repeat split; reflexivity. Qed.

(** A connected controller with a call out is asked to connect to a page
    whose address the library refuses: the promise of [connect] is
    rejected at once, and the old connection is gone all the same. *)
Example refused_connect_tears_down :
  let w := run [Connect (Some page_a); WsOpen 0%nat;
                Send "Runtime.evaluate" "{}" 10000] (fresh 9000) in
  let w' := step (Connect (Some page_c)) w in
  connected w = true ∧
  promises w' !! 2%nat
    = Some (Rejected "Invalid URL: localhost:9000/devtools/page/C") ∧
  ws (ctl w') = None ∧ connected w' = false ∧
  _page (ctl w') = None ∧ pending (ctl w') = [] ∧
  length (sockets w') = 1%nat ∧
  promises w' !! 1%nat = Some Unsettled.
Proof. vm_compute. repeat split; reflexivity. Qed.

(** A reconnect that succeeds: page B takes the place of page A once its
    socket has opened. *)
Example reconnect_then_open :
  let w := run [Connect (Some page_a); WsOpen 0%nat] (fresh 9000) in
  let w1 := step (Connect (Some page_b)) w in
  let w2 := step (WsOpen 1%nat) w1 in
  currentPage w = Some page_a ∧
  connected w1 = false ∧ currentPage w1 = None ∧
  connected w2 = true ∧ currentPage w2 = Some page_b ∧
  promises w2 !! 1%nat = Some (Fulfilled "").
Proof. vm_compute. repeat split; reflexivity. Qed.

(** The claim C6 as written fails: a controller connected to page A, one
    call out, is asked to connect to page B and that socket reports an
    error.  The promise of [connect] is rejected with it, and the socket
    held, the page and the pending map are no longer what they were. *)
Lemma connect_failure_mutates_state :
  let w := run [Connect (Some page_a); WsOpen 0%nat;
                Send "Runtime.evaluate" "{}" 10000] (fresh 9000) in
  let w' := run [Connect (Some page_b); WsError 1%nat "ECONNREFUSED"] w in
  promises w' !! (connect (Some page_b) w).1 = Some (Rejected "ECONNREFUSED") ∧
  ws (ctl w) = Some 0%nat ∧ ws (ctl w') = Some 1%nat ∧
  _page (ctl w) = Some page_a ∧ _page (ctl w') = None ∧
  pending (ctl w) = [(1, {| pc_timer := 0; pc_promise := 1 |})] ∧
  pending (ctl w') = [] ∧
  ctl w' ≠ ctl w.
Proof. vm_compute. repeat split; try reflexivity. discriminate. Qed.

Lemma response_settles_its_call_witness :
  let w := run two_calls (fresh 9000) in
  let answer := {| msg_id := Some 2; msg_error := None; msg_result := "ok" |} in
  let e := {| pc_timer := 1; pc_promise := 2 |} in
  let w1 := step (WsMessage 0%nat (Parsed answer)) w in
  let w2 := run [Send "next" "{}" 100] w1 in
  promises w !! 2%nat = Some Unsettled ∧
  promises w1 !! 2%nat = Some (Fulfilled "ok") ∧
  trace w1 = trace w ++ [EffResolve 2 "ok"] ∧
  pending (ctl w1) = map_delete 2 (pending (ctl w)) ∧
  timers w1 = delete 1%nat (timers w) ∧
  (∀ k e', (k, e') ∈ pending (ctl w1) →
     (k, e') ∈ pending (ctl w) ∧ k ≠ 2 ∧
     promises w1 !! pc_promise e' = Some Unsettled) ∧
  promises w2 !! 2%nat = Some (Fulfilled "ok") ∧
  (∀ s' msg', msg_id msg' = Some 2 →
     step (WsMessage s' (Parsed msg')) w2 = w2) ∧
  step (TimerFires 1%nat) w2 = w2.
Proof.
  apply (response_settles_its_call 9000 two_calls 0%nat
           {| sk_url := "ws://localhost:9000/devtools/page/A"; readyState := OPEN;
              sk_page := page_a; sk_promise := 0 |}
           {| msg_id := Some 2; msg_error := None; msg_result := "ok" |} 2
           {| pc_timer := 1; pc_promise := 2 |} [Send "next" "{}" 100]);
    [reflexivity|by left|reflexivity|reflexivity|vm_compute; discriminate].
Defined.

Lemma call_settled_at_most_once_witness :
  let w := run [Connect (Some page_a); WsOpen 0%nat] (fresh 9000) in
  let p := (send "Runtime.evaluate" "{}" 100 w).1 in
  let w' :=
    run [WsMessage 0%nat
           (Parsed {| msg_id := Some 1; msg_error := None; msg_result := "1" |});
         WsMessage 0%nat
           (Parsed {| msg_id := Some 1; msg_error := None; msg_result := "2" |});
         TimerFires 0%nat; Disconnect; WsClose 0%nat]
      (send "Runtime.evaluate" "{}" 100 w).2 in
  (settlements p (trace w') ≤ 1)%nat ∧
  (settlements p (trace w') = 0%nat ↔ promises w' !! p = Some Unsettled).
Proof.
  apply (call_settled_at_most_once 9000 [Connect (Some page_a); WsOpen 0%nat]
           "Runtime.evaluate" "{}" 100).
  vm_compute. discriminate.
Defined.

Lemma close_of_superseded_socket_witness :
  let w := run reconnected (fresh 9000) in
  let w' := step (WsClose 0%nat) w in
  (connected w = true ∧ waiters (pending (ctl w)) = [2%nat]) ∧
  ws (ctl w') = Some 1%nat ∧
  sockets w' !! 1%nat = sockets w !! 1%nat ∧
  connected w' = false ∧
  pending (ctl w') = [] ∧
  (∀ p, p ∈ waiters (pending (ctl w)) →
     promises w' !! p = Some (Rejected "连接已断开")) ∧
  promises (send "Runtime.evaluate" "{}" 10000 w').2
    !! (send "Runtime.evaluate" "{}" 10000 w').1
    = Some (Rejected "CDP 未连接").
Proof.
  split; [by vm_compute|].
  apply (close_of_superseded_socket 9000 reconnected 0%nat
           {| sk_url := "ws://localhost:9000/devtools/page/A"; readyState := CLOSING;
              sk_page := page_a; sk_promise := 0 |} 1%nat);
    [vm_compute; discriminate|reflexivity|done|reflexivity|done].
Defined.

Lemma connected_page_is_current_witness :
  ∃ s sk, ws (ctl (run reconnected (fresh 9000))) = Some s ∧
          sockets (run reconnected (fresh 9000)) !! s = Some sk ∧
          readyState sk = OPEN ∧
          currentPage (run reconnected (fresh 9000)) = Some (sk_page sk).
Proof. apply (connected_page_is_current 9000 reconnected). reflexivity. Defined.

Lemma stays_disconnected_witness :
  let w := run [Connect (Some page_a)] (fresh 9000) in
  let w' := run [WsOpen 0%nat; WsError 0%nat "closed"; WsClose 0%nat] (disconnect w) in
  ws (ctl w') = None ∧
  connected w' = false ∧
  promises (send "Runtime.evaluate" "{}" 10000 w').2
    !! (send "Runtime.evaluate" "{}" 10000 w').1
    = Some (Rejected "CDP 未连接") ∧
  issued (trace (send "Runtime.evaluate" "{}" 10000 w').2) = issued (trace w').
Proof.
  apply (stays_disconnected (run [Connect (Some page_a)] (fresh 9000))
           [WsOpen 0%nat; WsError 0%nat "closed"; WsClose 0%nat]).
  repeat constructor; by intros page.
Defined.

(** [autoConnect] on the sample endpoint: the filter picks page A, which
    is listed second; on a port that is none the error of [http.get]
    comes back; a body that is an empty object has no entry 0, and a
    body [null] has no [length] to read. *)
Example autoConnect_samples :
  autoConnect lists_b_then_a (titled "Antigravity") (fresh 9000)
    = AutoConnects (entry "Antigravity" "ws://localhost:9000/devtools/page/A") ∧
  autoConnect lists_b_then_a NoFilter (fresh 9000)
    = AutoConnects (entry "B" "ws://localhost:9000/devtools/page/B") ∧
  autoConnect lists_b_then_a (titled "C") (fresh 9000)
    = AutoThrows (Message "没有匹配的页面") ∧
  autoConnect lists_b_then_a NoFilter (fresh 9001)
    = AutoThrows (Message "没有找到可用页面") ∧
  autoConnect lists_b_then_a NoFilter (fresh 70000)
    = AutoThrows (Message "Invalid URL") ∧
  autoConnect (λ _, Body (JObject [])) NoFilter (fresh 9000)
    = AutoThrows (Message "没有匹配的页面") ∧
  autoConnect (λ _, Body (JObject [])) (titled "B") (fresh 9000)
    = AutoThrows TypeError ∧
  autoConnect (λ _, Body JNull) NoFilter (fresh 9000) = AutoThrows TypeError.
Proof. vm_compute. repeat split; reflexivity. Qed.
End CDPFacts.


(* ===================================================================== *)
(** ** Properties of the input injector                                   *)
(* ===================================================================== *)

Module InjectorFacts.

Import Injector.
Local Open Scope Z_scope.

(** *** Running a method *)

Lemma bind_Returns {A B} (m : M A) (k : A → M B) w a w1 :
  m w = Some (Returns a, w1) → (m ≫= k) w = k a w1.
Proof. intros H. unfold mbind, M_bind. by rewrite H. Qed.

Lemma bind_Throws {A B} (m : M A) (k : A → M B) w e w1 :
  m w = Some (Throws e, w1) → (m ≫= k) w = Some (Throws e, w1).
Proof. intros H. unfold mbind, M_bind. by rewrite H. Qed.

Lemma bind_inv {A B} (m : M A) (k : A → M B) w out w' :
  (m ≫= k) w = Some (out, w') →
  (∃ e, m w = Some (Throws e, w') ∧ out = Throws e) ∨
  (∃ a w1, m w = Some (Returns a, w1) ∧ k a w1 = Some (out, w')).
Proof.
  unfold mbind, M_bind. destruct (m w) as [[[a|e] w1]|]; [|intros [= <- <-]|done].
  - right. eauto.
  - left. eauto.
Qed.

Lemma strip_app tr1 tr2 : strip (tr1 ++ tr2) = strip tr1 ++ strip tr2.
Proof. unfold strip. apply List.filter_app. Qed.

Lemma ends_ret {A} (a : A) w : ends (mret a) w (Returns a) w [].
Proof. split; [done|by rewrite app_nil_r]. Qed.

Lemma ends_bind {A B} (m : M A) (k : A → M B) w a w1 tr1 out w' tr2 :
  ends m w (Returns a) w1 tr1 →
  ends (k a) w1 out w' tr2 →
  ends (m ≫= k) w out w' (tr1 ++ tr2).
Proof.
  intros [E1 L1] [E2 L2]. split.
  - by rewrite (bind_Returns _ _ _ _ _ E1).
  - by rewrite L2, L1, app_assoc.
Qed.

Lemma ends_bind_throws {A B} (m : M A) (k : A → M B) w e w1 tr1 :
  ends m w (Throws e) w1 tr1 →
  ends (m ≫= k) w (Throws e) w1 tr1.
Proof. intros [E1 L1]. split; [by rewrite (bind_Throws _ _ _ _ _ E1)|done]. Qed.

(** A run has one end. *)
Lemma ends_unique {A} (m : M A) w out1 w1 tr1 out2 w2 tr2 :
  ends m w out1 w1 tr1 → ends m w out2 w2 tr2 →
  out1 = out2 ∧ w1 = w2 ∧ tr1 = tr2.
Proof.
  intros [E1 L1] [E2 L2]. rewrite E1 in E2. injection E2 as <- <-.
  repeat split. rewrite L1 in L2. by apply app_inv_head in L2.
Qed.

Lemma run_to_ret {A} (a : A) w (P : Outcome A → World → list Eff → Prop) :
  P (Returns a) w [] → run_to (mret a) w P.
Proof. intros H. exists (Returns a), w, []. split; [apply ends_ret|done]. Qed.

Lemma run_to_bind {A B} (m : M A) (k : A → M B) w a w1 tr1
    (P : Outcome B → World → list Eff → Prop) :
  ends m w (Returns a) w1 tr1 →
  run_to (k a) w1 (λ out w' tr2, P out w' (tr1 ++ tr2)) →
  run_to (m ≫= k) w P.
Proof.
  intros E1 (out & w' & tr2 & E2 & H). exists out, w', (tr1 ++ tr2).
  split; [by eapply ends_bind|done].
Qed.

Lemma run_to_throws {A B} (m : M A) (k : A → M B) w e w1 tr1
    (P : Outcome B → World → list Eff → Prop) :
  ends m w (Throws e) w1 tr1 →
  P (Throws e) w1 tr1 →
  run_to (m ≫= k) w P.
Proof.
  intros E1 H. exists (Throws e), w1, tr1.
  split; [by apply ends_bind_throws|done].
Qed.

Section Facts.

Variable env : Env.

Lemma sleep_ends ms w :
  ends (_sleep env ms) w (Returns tt)
    {| now := now w + timer_delay ms + lag env (length (log w));
       log := log w ++ [ESleep ms] |} [ESleep ms].
Proof. done. Qed.

Lemma round_trip_ends {A} (oracle : Env → nat → Outcome A) entry w :
  ends (round_trip env oracle entry) w (oracle env (length (log w)))
    {| now := now w + lag env (length (log w));
       log := log w ++ [entry (oracle env (length (log w)))] |}
    [entry (oracle env (length (log w)))].
Proof. done. Qed.

Lemma Date_now_ends w : ends Date_now w (Returns (now w)) w [].
Proof. split; [done|by rewrite app_nil_r]. Qed.

Lemma console_log_ends line w :
  ends (console_log line) w (Returns tt)
    {| now := now w; log := log w ++ [EConsole line] |} [EConsole line].
Proof. done. Qed.

Lemma isBridgeAlive_ends w :
  ∃ b a,
    ends (isBridgeAlive env) w (Returns b)
      {| now := now w + lag env (length (log w)); log := log w ++ [EAlive a] |}
      [EAlive a].
Proof.
  unfold isBridgeAlive, try_catch, round_trip, ends.
  destruct (alive_at env (length (log w))) as [b|e].
  - by exists b, (Returns b).
  - by exists false, (Throws e).
Qed.

Lemma injectBridge_ends w :
  ∃ out w' tr,
    ends (injectBridge env) w out w' tr ∧ strip tr = [] ∧
    (lag_ok env → now w ≤ now w').
Proof.
  unfold injectBridge.
  pose proof (round_trip_ends inject_at EInject w) as E0.
  destruct (inject_at env (length (log w))) as [b|e].
  - destruct b.
    + eexists (Returns true), _, _. split; [|split].
      * eapply ends_bind; [exact E0|].
        eapply ends_bind; [apply console_log_ends|apply ends_ret].
      * done.
      * intros Hl. cbn. use_lags Hl. lia.
    + eexists (Returns false), _, _. split; [|split].
      * eapply ends_bind; [exact E0|].
        eapply ends_bind; [apply console_log_ends|apply ends_ret].
      * done.
      * intros Hl. cbn. use_lags Hl. lia.
  - eexists (Throws e), _, _. split; [|split].
    + eapply ends_bind_throws. exact E0.
    + done.
    + intros Hl. cbn. use_lags Hl. lia.
Qed.

(** The page layer is kept in place without a trace in the stripped
    transcript, and the clock does not go back. *)
Lemma ensureBridge_ends w :
  ∃ out w' tr,
    ends (ensureBridge env) w out w' tr ∧ strip tr = [] ∧
    (lag_ok env → now w ≤ now w').
Proof.
  unfold ensureBridge.
  destruct (isBridgeAlive_ends w) as (b & a & E0).
  destruct b.
  - eexists (Returns tt), _, _. split; [|split].
    + eapply ends_bind; [exact E0|apply ends_ret].
    + done.
    + intros Hl. cbn. use_lags Hl. lia.
  - destruct (injectBridge_ends
                {| now := now w + lag env (length (log w));
                   log := log w ++ [EAlive a] |})
      as (out & w' & tr & E1 & S1 & N1).
    cbn [now] in N1.
    destruct out as [b|e].
    + eexists (Returns tt), _, _. split; [|split].
      * eapply ends_bind; [exact E0|].
        eapply ends_bind; [exact E1|apply ends_ret].
      * by rewrite !strip_app, S1.
      * intros Hl. specialize (N1 Hl). use_lags Hl. lia.
    + eexists (Throws e), _, _. split; [|split].
      * eapply ends_bind; [exact E0|].
        eapply ends_bind_throws. exact E1.
      * by rewrite !strip_app, S1.
      * intros Hl. specialize (N1 Hl). use_lags Hl. lia.
Qed.

Lemma isSendVisible_ends w :
  ∃ out w' tr,
    ends (isSendVisible env) w out w' tr ∧
    (lag_ok env → now w ≤ now w') ∧
    match out with
    | Returns v => strip tr = [EIsSendVisible (Returns v)]
    | Throws e => strip tr = [] ∨ strip tr = [EIsSendVisible (Throws e)]
    end.
Proof.
  destruct (ensureBridge_ends w) as (out0 & w0 & tr0 & E0 & S0 & N0).
  unfold isSendVisible. destruct out0 as [[]|e].
  - pose proof (round_trip_ends visible_at EIsSendVisible w0) as E1.
    eexists _, _, _. split; [|split].
    + eapply ends_bind; [exact E0|exact E1].
    + intros Hl. specialize (N0 Hl). cbn. use_lags Hl. lia.
    + rewrite strip_app, S0. by destruct (visible_at env _); [|right].
  - eexists _, _, _. split; [|split].
    + eapply ends_bind_throws. exact E0.
    + done.
    + by left.
Qed.

(** *** The submit step *)

Lemma attempts_end_nonempty n answers out :
  attempts_end (S n) answers out → answers ≠ [].
Proof.
  destruct 1 as [answers Hlen _|fails r _ _ _|fails e _ _]; try by destruct fails.
  by destruct answers.
Qed.

Lemma attempts_end_cons n a answers out :
  failed a → attempts_end n answers out → attempts_end (S n) (a :: answers) out.
Proof.
  intros Ha. destruct 1 as [answers Hlen Hall|fails r Hlen Hall Hr|fails e Hlen Hall].
  - apply attempts_exhausted; [simpl; lia|by constructor].
  - apply (attempts_succeeded (S n) (a :: fails)); [simpl; lia|by constructor|done].
  - apply (attempts_thrown (S n) (a :: fails)); [simpl; lia|by constructor].
Qed.

(** After an attempt that failed: the sleep, unless it was the last, and
    the attempts that are left. *)
Lemma clickSend_loop_rest retries n attempt a w1 :
  (∀ attempt w, Z.of_nat n = retries - attempt →
     ∃ out w' answers,
       ends (clickSend_loop env n attempt retries) w out w' (attempts_log answers) ∧
       attempts_end n answers out) →
  Z.of_nat (S n) = retries - attempt →
  failed a →
  ∃ out w' answers,
    ends ((if attempt <? retries - 1 then _sleep env 1000 else mret tt);;
          clickSend_loop env n (attempt + 1) retries) w1 out w'
      (match answers with [] => [] | _ => ESleep 1000 :: attempts_log answers end) ∧
    attempts_end (S n) (a :: answers) out.
Proof.
  intros IH Hn Ha. destruct (Z.ltb_spec attempt (retries - 1)) as [Hlt|Hge].
  - destruct (IH (attempt + 1)
                {| now := now w1 + timer_delay 1000 + lag env (length (log w1));
                   log := log w1 ++ [ESleep 1000] |})
      as (out & w' & answers & E3 & Hend); [lia|].
    exists out, w', answers. split; [|by apply attempts_end_cons].
    destruct n as [|n]; [lia|].
    pose proof (attempts_end_nonempty _ _ _ Hend).
    destruct answers as [|a' answers]; [done|].
    change (ESleep 1000 :: attempts_log (a' :: answers))
      with ([ESleep 1000] ++ attempts_log (a' :: answers)).
    eapply ends_bind; [apply sleep_ends|exact E3].
  - destruct (IH (attempt + 1) w1) as (out & w' & answers & E3 & Hend); [lia|].
    assert (n = 0%nat) as -> by lia.
    exists out, w', answers. split; [|by apply attempts_end_cons].
    inversion Hend as [answers' Hlen _|fails r Hlen _ _|fails e Hlen _];
      [|lia|lia].
    destruct answers; [|done]. subst.
    change (@nil Eff) with (@nil Eff ++ attempts_log []).
    eapply ends_bind; [apply ends_ret|exact E3].
Qed.

Lemma clickSend_loop_ends retries n : ∀ attempt w,
  Z.of_nat n = retries - attempt →
  ∃ out w' answers,
    ends (clickSend_loop env n attempt retries) w out w' (attempts_log answers) ∧
    attempts_end n answers out.
Proof.
  induction n as [|n IH]; intros attempt w Hn.
  - exists (Returns click_failure), w, []. split; [apply ends_ret|].
    by apply attempts_exhausted.
  - cbn [clickSend_loop].
    destruct (Z.ltb_spec attempt retries) as [_|?]; [|lia].
    pose proof (round_trip_ends click_at EClickSend w) as E0.
    remember (click_at env (length (log w))) as a eqn:Ea.
    set (w1 := {| now := now w + lag env (length (log w));
                  log := log w ++ [EClickSend a] |}) in *.
    destruct a as [[r|]|e]; [destruct (success r) eqn:Hr| |].
    + exists (Returns r), w1, [Returns (Some r)]. split.
      * change (attempts_log [Returns (Some r)])
          with ([EClickSend (Returns (Some r))] ++ []).
        eapply ends_bind; [exact E0|]. cbn beta iota. rewrite Hr. apply ends_ret.
      * apply (attempts_succeeded (S n) []); [simpl; lia|constructor|done].
    + destruct (clickSend_loop_rest retries n attempt (Returns (Some r)) w1 IH Hn)
        as (out & w' & answers & E1 & Hend); [by exists (Some r)|].
      exists out, w', (Returns (Some r) :: answers). split; [|done].
      change (attempts_log (Returns (Some r) :: answers))
        with ([EClickSend (Returns (Some r))]
              ++ match answers with
                 | [] => []
                 | _ => ESleep 1000 :: attempts_log answers
                 end).
      eapply ends_bind; [exact E0|]. cbn beta iota. rewrite Hr. exact E1.
    + destruct (clickSend_loop_rest retries n attempt (Returns None) w1 IH Hn)
        as (out & w' & answers & E1 & Hend); [by exists None|].
      exists out, w', (Returns None :: answers). split; [|done].
      change (attempts_log (Returns None :: answers))
        with ([EClickSend (Returns None)]
              ++ match answers with
                 | [] => []
                 | _ => ESleep 1000 :: attempts_log answers
                 end).
      eapply ends_bind; [exact E0|]. exact E1.
    + exists (Throws e), w1, [Throws e]. split.
      * apply ends_bind_throws. exact E0.
      * apply (attempts_thrown (S n) []); [simpl; lia|constructor].
Qed.

Lemma strip_attempts_log answers : strip (attempts_log answers) = attempts_log answers.
Proof.
  induction answers as [|a [|a' answers] IH]; [done|done|].
  change (attempts_log (a :: a' :: answers))
    with (EClickSend a :: ESleep 1000 :: attempts_log (a' :: answers)).
  unfold strip in *. simpl List.filter at 1. cbn [is_upkeep negb].
  f_equal. simpl List.filter at 1. cbn [is_upkeep negb]. f_equal. exact IH.
Qed.

Lemma clickSend_ends retries w :
  ∃ out w' tr,
    ends (clickSend env retries) w out w' tr ∧
    ((∃ e, out = Throws e ∧ strip tr = [] ∧
           ensureBridge env w = Some (Throws e, w')) ∨
     (∃ answers,
        strip tr = attempts_log answers ∧
        attempts_end (Z.to_nat retries) answers out)).
Proof.
  unfold clickSend.
  destruct (ensureBridge_ends w) as (out0 & w0 & tr0 & E0 & S0 & _).
  destruct out0 as [[]|e].
  - destruct (Z.le_gt_cases 0 retries) as [Hr|Hr].
    + destruct (clickSend_loop_ends retries (Z.to_nat retries) 0 w0)
        as (out & w' & answers & E1 & Hend); [lia|].
      exists out, w', (tr0 ++ attempts_log answers). split.
      * eapply ends_bind; [exact E0|exact E1].
      * right. exists answers. split; [|done].
        by rewrite strip_app, S0, strip_attempts_log.
    + replace (Z.to_nat retries) with 0%nat by lia.
      exists (Returns click_failure), w0, (tr0 ++ []). split.
      * eapply ends_bind; [exact E0|apply ends_ret].
      * right. exists []. split; [by rewrite strip_app, S0|].
        by apply attempts_exhausted.
  - exists (Throws e), w0, tr0. split.
    + apply ends_bind_throws. exact E0.
    + left. exists e. split; [done|]. split; [done|apply E0].
Qed.

(** *** One iteration of the reply loop *)

Lemma reply_ready_test before b :
  (before <? bt_count b) && negb (bool_decide (bt_text b = ""))
  || negb (bool_decide (bt_text b = "")) = true ↔ reply_ready before b.
Proof.
  unfold reply_ready.
  destruct (Z.ltb_spec before (bt_count b)), (bool_decide_reflect (bt_text b = ""));
    simpl; intuition congruence.
Qed.

(** Every iteration ends, and ends as [tick] says; the clock moves by the
    poll interval at least. *)
Lemma phase2_body_ends start poll before w :
  let elapsed :=
    round_seconds (now w + timer_delay poll + lag env (length (log w)) - start) in
  ∃ out w' tr,
    ends (phase2_body env start poll before) w out w' tr ∧
    (tick poll before elapsed (strip tr) out ∧
     (lag_ok env → now w + timer_delay poll ≤ now w')).
Proof.
  intros elapsed. unfold phase2_body.
  eapply run_to_bind; [apply sleep_ends|].
  eapply run_to_bind; [apply Date_now_ends|]. cbn [now]. fold elapsed.
  set (w0 := {| now := now w + timer_delay poll + lag env (length (log w));
                log := log w ++ [ESleep poll] |}).
  assert (N0 : lag_ok env → now w + timer_delay poll ≤ now w0).
  { intros Hl. cbn. use_lags Hl. lia. }
  destruct (isSendVisible_ends w0) as (o1 & w1 & tr1 & E1 & N1 & S1).
  destruct o1 as [v|e]; cycle 1.
  { eapply run_to_throws; [exact E1|]. split.
    - rewrite !strip_app. destruct S1 as [->| ->]; constructor.
    - intros Hl. specialize (N0 Hl). specialize (N1 Hl). lia. }
  eapply run_to_bind; [exact E1|].
  destruct (truthy v) eqn:Hv; cycle 1.
  { apply run_to_ret. split.
    - rewrite !strip_app, S1. by constructor.
    - intros Hl. specialize (N0 Hl). specialize (N1 Hl). lia. }
  eapply run_to_bind; [apply sleep_ends|].
  set (w2 := {| now := now w1 + timer_delay 1500 + lag env (length (log w1));
                log := log w1 ++ [ESleep 1500] |}).
  assert (N2 : lag_ok env → now w1 ≤ now w2).
  { intros Hl. unfold w2. cbn [now]. use_lags Hl. unfold timer_delay. simpl. lia. }
  destruct (isSendVisible_ends w2) as (o3 & w3 & tr3 & E3 & N3 & S3).
  assert (N03 : lag_ok env → now w + timer_delay poll ≤ now w3).
  { intros Hl. specialize (N0 Hl). specialize (N1 Hl). specialize (N2 Hl).
    specialize (N3 Hl). lia. }
  destruct o3 as [v'|e]; cycle 1.
  { eapply run_to_throws; [exact E3|]. split; [|done].
    rewrite !strip_app, S1. destruct S3 as [->| ->]; by constructor. }
  eapply run_to_bind; [exact E3|].
  destruct (truthy v') eqn:Hv'; cycle 1.
  { apply run_to_ret. split; [|done].
    rewrite !strip_app, S1, S3. by constructor. }
  cbn [negb].
  pose proof (round_trip_ends error_at ECheckError w3) as E4.
  remember (error_at env (length (log w3))) as d eqn:Ed.
  set (w4 := {| now := now w3 + lag env (length (log w3));
                log := log w3 ++ [ECheckError d] |}) in *.
  assert (N04 : lag_ok env → now w + timer_delay poll ≤ now w4).
  { intros Hl. specialize (N03 Hl). unfold w4. cbn [now]. use_lags Hl. lia. }
  destruct d as [d|e]; cycle 1.
  { eapply run_to_throws; [exact E4|]. split; [|done].
    rewrite !strip_app, S1, S3. by constructor. }
  eapply run_to_bind; [exact E4|].
  change (match d with Some d0 => hasError d0 | None => false end)
    with (has_error d).
  destruct (has_error d) eqn:He.
  { apply run_to_ret. split; [|done].
    rewrite !strip_app, S1, S3. by constructor. }
  pose proof (round_trip_ends botText_at EGetLastBotText w4) as E5.
  remember (botText_at env (length (log w4))) as b eqn:Eb.
  set (w5 := {| now := now w4 + lag env (length (log w4));
                log := log w4 ++ [EGetLastBotText b] |}) in *.
  assert (N05 : lag_ok env → now w + timer_delay poll ≤ now w5).
  { intros Hl. specialize (N04 Hl). unfold w5. cbn [now]. use_lags Hl. lia. }
  destruct b as [b|e]; cycle 1.
  { eapply run_to_throws; [exact E5|]. split; [|done].
    rewrite !strip_app, S1, S3. by constructor. }
  eapply run_to_bind; [exact E5|].
  destruct b as [b|]; cycle 1.
  { apply run_to_ret. split; [|done].
    rewrite !strip_app, S1, S3. by constructor. }
  destruct ((before <? bt_count b) && negb (bool_decide (bt_text b = ""))
            || negb (bool_decide (bt_text b = ""))) eqn:Hr.
  - apply reply_ready_test in Hr.
    apply run_to_ret. split; [|done].
    rewrite !strip_app, S1, S3. by constructor.
  - assert (¬ reply_ready before b).
    { intros H%reply_ready_test. congruence. }
    apply run_to_ret. split; [|done].
    rewrite !strip_app, S1, S3. apply tick_no_reply; try done.
    by intros b' [= <-].
Qed.

(** *** The loops of [waitForReply] *)

Lemma ends_eq {A} (m : M A) w out w' out0 w0 tr0 :
  m w = Some (out, w') → ends m w out0 w0 tr0 →
  out = out0 ∧ w' = w0.
Proof. intros E [E0 _]. rewrite E in E0. by injection E0 as <- <-. Qed.

Lemma isSendVisible_grows w out w' :
  isSendVisible env w = Some (out, w') →
  ∃ tr, log w' = log w ++ tr ∧ (lag_ok env → now w ≤ now w').
Proof.
  intros E. destruct (isSendVisible_ends w) as (o & w1 & tr & E1 & N1 & _).
  destruct (ends_eq _ _ _ _ _ _ _ E E1) as [-> ->].
  exists tr. split; [apply E1|done].
Qed.

Lemma phase1_grows fuel start : ∀ w out w',
  phase1 env fuel start w = Some (out, w') →
  ∃ tr, log w' = log w ++ tr ∧ (lag_ok env → now w ≤ now w').
Proof.
  induction fuel as [|fuel IH]; intros w out w' E; [done|].
  cbn [phase1] in E.
  rewrite (bind_Returns _ _ _ _ _ (proj1 (Date_now_ends w))) in E.
  destruct (now w - start <? 5000).
  - apply bind_inv in E as [(e & E & ->)|(v & w1 & E1 & E)].
    + by apply isSendVisible_grows in E.
    + apply isSendVisible_grows in E1 as (tr1 & L1 & N1).
      destruct (truthy v); cbn [negb] in E.
      * rewrite (bind_Returns _ _ _ _ _ (proj1 (sleep_ends 500 w1))) in E.
        apply IH in E as (tr2 & L2 & N2). cbn [log now] in L2, N2.
        exists (tr1 ++ [ESleep 500] ++ tr2). split.
        -- by rewrite L2, L1, <- !app_assoc.
        -- intros Hl. specialize (N1 Hl). specialize (N2 Hl).
           use_lags Hl. unfold timer_delay in N2. simpl in N2. lia.
      * injection E as <- <-. by exists tr1.
  - injection E as <- <-. exists []. by rewrite app_nil_r.
Qed.

(** How the second loop ends: with the result of an iteration that began
    before the deadline, or with none once the deadline has passed. *)
Lemma phase2_inv fuel start timeout poll before : ∀ w out w',
  phase2 env fuel start timeout poll before w = Some (out, w') →
  ∃ tr, log w' = log w ++ tr ∧
  match out with
  | Returns (Some o) =>
      ∃ wi tri tr',
        log wi = log w ++ tri ∧ tr = tri ++ tr' ∧
        now wi - start < timeout ∧
        ends (phase2_body env start poll before) wi (Returns (Some o)) w' tr'
  | Returns None => timeout ≤ now w' - start
  | Throws e => True
  end.
Proof.
  induction fuel as [|fuel IH]; intros w out w' E; [done|].
  cbn [phase2] in E.
  rewrite (bind_Returns _ _ _ _ _ (proj1 (Date_now_ends w))) in E.
  destruct (Z.ltb_spec (now w - start) timeout) as [Hlt|Hge].
  - destruct (phase2_body_ends start poll before w)
      as (o1 & w1 & tr1 & E1 & _ & _).
    pose proof E1 as [E1' L1].
    destruct o1 as [[o|]|e].
    + rewrite (bind_Returns _ _ _ _ _ E1') in E. injection E as <- <-.
      exists tr1. split; [done|].
      exists w, [], tr1. by rewrite app_nil_r.
    + rewrite (bind_Returns _ _ _ _ _ E1') in E.
      apply IH in E as (tr2 & L2 & H). exists (tr1 ++ tr2). split.
      * by rewrite L2, L1, app_assoc.
      * destruct out as [[o|]|e]; [|done|done].
        destruct H as (wi & tri & tr' & Li & -> & Hlt' & Ei).
        exists wi, (tr1 ++ tri), tr'. split; [by rewrite Li, L1, app_assoc|].
        split; [by rewrite app_assoc|done].
    + rewrite (bind_Throws _ _ _ _ _ E1') in E. injection E as <- <-.
      by exists tr1.
  - injection E as <- <-. exists []. split; [by rewrite app_nil_r|done].
Qed.

(** How [waitForReply] comes to return: through the second loop, from the
    world [w2] the first loop leaves, with [start] read in [w0] and the
    count before taken from the first read. *)
Lemma waitForReply_inv fuel timeout poll w o w' :
  waitForReply env fuel timeout poll w = Some (Returns o, w') →
  ∃ w0 tr0 beforeBot w2 tr2,
    let start := now w0 in
    let before := match beforeBot with Some b => bt_count b | None => 0 end in
    ends (ensureBridge env) w (Returns tt) w0 tr0 ∧ strip tr0 = [] ∧
    log w2 = log w ++ tr0 ++ [EGetLastBotText (Returns beforeBot)] ++ tr2 ∧
    (phase2 env fuel start timeout poll before w2 = Some (Returns (Some o), w') ∨
     ∃ w3, phase2 env fuel start timeout poll before w2 = Some (Returns None, w3) ∧
           timed_out env timeout w3 = Some (Returns o, w')).
Proof.
  unfold waitForReply. intros E.
  destruct (ensureBridge_ends w) as (o0 & w0 & tr0 & E0 & S0 & _).
  apply bind_inv in E as [(e & _ & [=])|([] & w0' & E0' & E)].
  destruct (ends_eq _ _ _ _ _ _ _ E0' E0) as [<- <-].
  rewrite (bind_Returns _ _ _ _ _ (proj1 (Date_now_ends w0'))) in E.
  apply bind_inv in E as [(e & _ & [=])|(beforeBot & w1 & E1 & E)].
  injection E1 as E1 <-.
  apply bind_inv in E as [(e & _ & [=])|([] & w2 & E2 & E)].
  apply phase1_grows in E2 as (tr2 & L2 & _). cbn [log] in L2.
  exists w0', tr0, beforeBot, w2, tr2.
  cbn zeta. split; [done|]. split; [done|]. split.
  - rewrite L2, E1. destruct E0 as [_ ->]. by rewrite <- !app_assoc.
  - apply bind_inv in E as [(e & _ & [=])|(r & w3 & E3 & E)].
    destruct r as [o'|].
    + injection E as <- <-. by left.
    + right. by exists w3.
Qed.

(** A result of an iteration is [Completed] or [Failed]. *)
Lemma tick_result poll before elapsed tr o :
  tick poll before elapsed tr (Returns (Some o)) →
  (∃ reply, o = Completed reply elapsed) ∨ (∃ err, o = Failed err elapsed).
Proof. inversion 1; subst; eauto. Qed.

(** *** Completion *)

(** C3.  [waitForReply] returns Completed only on this path: idle, the
    debounce sleep, idle again, no server-side error, and a read of the
    last agent message for which (its count exceeds the count read at
    the start and its text is non-empty) or its text is non-empty; the
    reply is that text.  And in every iteration of the polling loop that
    gets as far as that read, Completed with the text is returned if the
    condition holds, and otherwise nothing is returned, so that polling
    goes on. *)
Theorem completed_exactly_when :
  (∀ fuel timeout poll w reply el w',
     waitForReply env fuel timeout poll w = Some (Returns (Completed reply el), w') →
     ∃ beforeBot tr v v' d b,
       let before := match beforeBot with Some b0 => bt_count b0 | None => 0 end in
       strip (log w') =
         strip (log w) ++ [EGetLastBotText (Returns beforeBot)] ++ tr ++
         [EIsSendVisible (Returns v); ESleep 1500; EIsSendVisible (Returns v');
          ECheckError (Returns d); EGetLastBotText (Returns (Some b))] ∧
       truthy v = true ∧ truthy v' = true ∧ has_error d = false ∧
       ((before < bt_count b ∧ bt_text b ≠ "") ∨ bt_text b ≠ "") ∧
       reply = bt_text b) ∧
  (∀ start poll before w,
     let elapsed :=
       round_seconds (now w + timer_delay poll + lag env (length (log w)) - start) in
     ∃ out w' tr,
       ends (phase2_body env start poll before) w out w' tr ∧
       ∀ v v' d b,
         strip tr = [ESleep poll; EIsSendVisible (Returns v);
                     ESleep 1500; EIsSendVisible (Returns v');
                     ECheckError (Returns d); EGetLastBotText (Returns b)] →
         truthy v = true ∧ truthy v' = true ∧ has_error d = false ∧
         ((∃ b', b = Some b' ∧
                 ((before < bt_count b' ∧ bt_text b' ≠ "") ∨ bt_text b' ≠ "") ∧
                 out = Returns (Some (Completed (bt_text b') elapsed))) ∨
          ((∀ b', b = Some b' →
                  ¬ ((before < bt_count b' ∧ bt_text b' ≠ "") ∨ bt_text b' ≠ "")) ∧
           out = Returns None))).
Proof.
  split.
  - intros fuel timeout poll w reply el w' E.
    apply waitForReply_inv in E
      as (w0 & tr0 & b0 & w2 & tr2 & _ & S0 & L2 & [E|(w3 & _ & E)]).
    + apply phase2_inv in E as (tr & L & wi & tri & tr' & Li & -> & _ & Ei).
      destruct (phase2_body_ends (now w0) poll
                  (match b0 with Some b => bt_count b | None => 0 end) wi)
        as (o1 & w1 & tr1 & E1 & T & _).
      destruct (ends_unique _ _ _ _ _ _ _ _ Ei E1) as (<- & <- & <-).
      inversion T as [| | |v0 v0' d0 b1 Hv Hv' Hd Hb Hs|
                      v0 v0' d0 b1 Hv Hv' Hd Hb Hs| | | | | |]; subst.
      exists b0, (strip tr2 ++ strip tri ++ [ESleep poll]), v0, v0', d0, b1.
      cbn zeta. split; [|done].
      rewrite L, L2, !strip_app, S0, <- Hs. by rewrite <- !app_assoc.
    + unfold timed_out in E.
      apply bind_inv in E as [(e & _ & [=])|(b & w4 & _ & [=])].
  - intros start poll before w elapsed.
    destruct (phase2_body_ends start poll before w) as (out & w' & tr & E & T & _).
    fold elapsed in T. exists out, w', tr. split; [done|].
    intros v v' d b Hs. rewrite Hs in T.
    inversion T as [| | |v0 v0' d0 b0 Hv Hv' Hd Hb|v0 v0' d0 b0 Hv Hv' Hd Hb
                    | | | | | |];
      subst; (split; [done|]); (split; [done|]); (split; [done|]).
    + left. eauto.
    + right. split; [exact Hb|done].
Qed.

(** C4.  Whenever [waitForReply] returns Completed, the last things it
    saw of the idle indicator are: idle, then the sleep of 1500 ms, then
    idle again at the recheck; so Completed is never returned on a
    recheck that found the indicator false.  And in every iteration that
    does not throw, an idle observation is followed by that sleep and a
    recheck, and a recheck that finds the indicator false ends the
    iteration with no result and without reading anything more. *)
Theorem completed_only_after_debounce :
  (∀ fuel timeout poll w reply el w',
     waitForReply env fuel timeout poll w = Some (Returns (Completed reply el), w') →
     ∃ tr v v' d b,
       strip (log w') =
         strip (log w) ++ tr ++
         [EIsSendVisible (Returns v); ESleep 1500; EIsSendVisible (Returns v');
          ECheckError (Returns d); EGetLastBotText (Returns (Some b))] ∧
       truthy v = true ∧ truthy v' = true ∧ reply = bt_text b) ∧
  (∀ start poll before w,
     ∃ out w' tr,
       ends (phase2_body env start poll before) w out w' tr ∧
       ∀ r v rest,
         out = Returns r →
         strip tr = ESleep poll :: EIsSendVisible (Returns v) :: rest →
         truthy v = true →
         ∃ v' rest',
           rest = ESleep 1500 :: EIsSendVisible (Returns v') :: rest' ∧
           (truthy v' = false → rest' = [] ∧ r = None)).
Proof.
  split.
  - intros fuel timeout poll w reply el w' E.
    apply waitForReply_inv in E
      as (w0 & tr0 & b0 & w2 & tr2 & _ & S0 & L2 & [E|(w3 & _ & E)]).
    + apply phase2_inv in E as (tr & L & wi & tri & tr' & Li & -> & _ & Ei).
      destruct (phase2_body_ends (now w0) poll
                  (match b0 with Some b => bt_count b | None => 0 end) wi)
        as (o1 & w1 & tr1 & E1 & T & _).
      destruct (ends_unique _ _ _ _ _ _ _ _ Ei E1) as (<- & <- & <-).
      inversion T as [| | |v0 v0' d0 b1 Hv Hv' Hd Hb Hs|
                      v0 v0' d0 b1 Hv Hv' Hd Hb Hs| | | | | |]; subst.
      exists ([EGetLastBotText (Returns b0)] ++ strip tr2 ++ strip tri
              ++ [ESleep poll]), v0, v0', d0, b1.
      split; [|done].
      rewrite L, L2, !strip_app, S0, <- Hs. by rewrite <- !app_assoc.
    + unfold timed_out in E.
      apply bind_inv in E as [(e & _ & [=])|(b & w4 & _ & [=])].
  - intros start poll before w.
    destruct (phase2_body_ends start poll before w) as (out & w' & tr & E & T & _).
    exists out, w', tr. split; [done|].
    intros r v rest -> Hs Hv. rewrite Hs in T.
    inversion T as [v0 Hv0|v0 v0' Hv0 Hv0'|v0 v0' d0 Hv0 Hv0' Hd|
                    v0 v0' d0 b0 Hv0 Hv0' Hd Hb|v0 v0' d0 b0 Hv0 Hv0' Hd Hb
                    | | | | | |];
      subst; try congruence; eexists _, _; (split; [reflexivity|]);
      intros Hv'; try congruence; done.
Qed.

(** *** The overall timeout *)

(** *** The loops end *)

Lemma timer_delay_pos ms : 1 ≤ timer_delay ms.
Proof.
  unfold timer_delay.
  destruct (Z.leb_spec 1 ms), (Z.leb_spec ms 2147483647); simpl; lia.
Qed.

Lemma phase2_returns start timeout poll before n : ∀ w,
  lag_ok env →
  timeout - (now w - start) ≤ Z.of_nat n * timer_delay poll →
  ∃ out w', phase2 env (S n) start timeout poll before w = Some (out, w').
Proof.
  pose proof (timer_delay_pos poll) as Hd.
  induction n as [|n IH]; intros w Hl Hn; cbn [phase2];
    rewrite (bind_Returns _ _ _ _ _ (proj1 (Date_now_ends w)));
    destruct (Z.ltb_spec (now w - start) timeout) as [Hlt|Hge]; eauto; [lia|].
  destruct (phase2_body_ends start poll before w)
    as (o1 & w1 & tr1 & [E1 _] & _ & N1).
  specialize (N1 Hl).
  destruct o1 as [[o|]|e].
  - rewrite (bind_Returns _ _ _ _ _ E1). eauto.
  - rewrite (bind_Returns _ _ _ _ _ E1). apply IH; [done|]. lia.
  - rewrite (bind_Throws _ _ _ _ _ E1). eauto.
Qed.

Lemma phase1_returns start n : ∀ w,
  lag_ok env →
  5000 - (now w - start) ≤ Z.of_nat n * 500 →
  ∃ out w', phase1 env (S n) start w = Some (out, w').
Proof.
  induction n as [|n IH]; intros w Hl Hn; cbn [phase1];
    rewrite (bind_Returns _ _ _ _ _ (proj1 (Date_now_ends w)));
    destruct (Z.ltb_spec (now w - start) 5000) as [Hlt|Hge]; eauto; [lia|].
  destruct (isSendVisible_ends w) as (o1 & w1 & tr1 & [E1 _] & N1 & _).
  specialize (N1 Hl).
  destruct o1 as [v|e].
  - rewrite (bind_Returns _ _ _ _ _ E1). destruct (truthy v); cbn [negb]; eauto.
    rewrite (bind_Returns _ _ _ _ _ (proj1 (sleep_ends 500 w1))).
    apply IH; [done|]. cbn [now]. use_lags Hl.
    change (timer_delay 500) with 500. lia.
  - rewrite (bind_Throws _ _ _ _ _ E1). eauto.
Qed.

(** [waitForReply] returns or throws: fuel for ten rounds of the first
    loop and for [timeout / pollInterval] rounds of the second is
    enough. *)
Lemma waitForReply_returns n timeout poll w :
  lag_ok env →
  (10 ≤ n)%nat →
  timeout ≤ Z.of_nat n * timer_delay poll →
  ∃ out w', waitForReply env (S n) timeout poll w = Some (out, w').
Proof.
  intros Hl Hn Ht. unfold waitForReply.
  destruct (ensureBridge_ends w) as (o0 & w0 & tr0 & [E0 _] & _ & _).
  destruct o0 as [[]|e]; [|rewrite (bind_Throws _ _ _ _ _ E0); eauto].
  rewrite (bind_Returns _ _ _ _ _ E0).
  rewrite (bind_Returns _ _ _ _ _ (proj1 (Date_now_ends w0))).
  pose proof (round_trip_ends botText_at EGetLastBotText w0) as [E1 _].
  destruct (botText_at env (length (log w0))) as [b0|e];
    [|rewrite (bind_Throws _ _ _ _ _ E1); eauto].
  rewrite (bind_Returns _ _ _ _ _ E1).
  set (w1 := {| now := now w0 + lag env (length (log w0));
                log := log w0 ++ [EGetLastBotText (Returns b0)] |}).
  destruct (phase1_returns (now w0) n w1 Hl) as (o2 & w2 & E2).
  { unfold w1. cbn [now]. use_lags Hl. lia. }
  destruct o2 as [[]|e]; [|rewrite (bind_Throws _ _ _ _ _ E2); eauto].
  rewrite (bind_Returns _ _ _ _ _ E2).
  pose proof (phase1_grows _ _ _ _ _ E2) as (_ & _ & N2). specialize (N2 Hl).
  destruct (phase2_returns (now w0) timeout poll
              (match b0 with Some b => bt_count b | None => 0 end) n w2 Hl)
    as (o3 & w3 & E3).
  { unfold w1 in N2. cbn [now] in N2. use_lags Hl. lia. }
  destruct o3 as [[o|]|e]; [| |rewrite (bind_Throws _ _ _ _ _ E3); eauto].
  - rewrite (bind_Returns _ _ _ _ _ E3). eauto.
  - rewrite (bind_Returns _ _ _ _ _ E3). unfold timed_out.
    pose proof (round_trip_ends botText_at EGetLastBotText w3) as [E4 _].
    destruct (botText_at env (length (log w3))) as [b|e].
    + rewrite (bind_Returns _ _ _ _ _ E4). eauto.
    + rewrite (bind_Throws _ _ _ _ _ E4). eauto.
Qed.

(** *** Waiting for the agent to be idle *)

Lemma waitForIdle_loop_returns start timeout n : ∀ w,
  lag_ok env →
  timeout - (now w - start) ≤ Z.of_nat n * 1000 →
  ∃ out w', waitForIdle_loop env (S n) start timeout w = Some (out, w').
Proof.
  induction n as [|n IH]; intros w Hl Hn; cbn [waitForIdle_loop];
    rewrite (bind_Returns _ _ _ _ _ (proj1 (Date_now_ends w)));
    destruct (Z.ltb_spec (now w - start) timeout) as [Hlt|Hge]; eauto; [lia|].
  destruct (isSendVisible_ends w) as (o1 & w1 & tr1 & [E1 _] & N1 & _).
  specialize (N1 Hl).
  destruct o1 as [v|e].
  - rewrite (bind_Returns _ _ _ _ _ E1). destruct (truthy v); eauto.
    rewrite (bind_Returns _ _ _ _ _ (proj1 (sleep_ends 1000 w1))).
    apply IH; [done|]. cbn [now]. use_lags Hl.
    change (timer_delay 1000) with 1000. lia.
  - rewrite (bind_Throws _ _ _ _ _ E1). eauto.
Qed.

Lemma waitForIdle_returns n timeout w :
  lag_ok env →
  timeout ≤ Z.of_nat n * 1000 →
  ∃ out w', waitForIdle env (S n) timeout w = Some (out, w').
Proof.
  intros Hl Hn. unfold waitForIdle.
  rewrite (bind_Returns _ _ _ _ _ (proj1 (Date_now_ends w))).
  apply waitForIdle_loop_returns; [done|lia].
Qed.

(** What [waitForIdle] returns: success, or the timeout error once the
    timeout has elapsed. *)
Lemma waitForIdle_loop_inv fuel start timeout : ∀ w r w',
  waitForIdle_loop env fuel start timeout w = Some (Returns r, w') →
  (∃ tr, log w' = log w ++ tr) ∧
  (r = {| success := true; text := None; error := None |} ∨
   r = {| success := false; text := None;
          error := Some ("waitForIdle 超时 (" +:+ pretty timeout +:+ "ms)") |} ∧
   timeout ≤ now w' - start).
Proof.
  induction fuel as [|fuel IH]; intros w r w' E; [done|].
  cbn [waitForIdle_loop] in E.
  rewrite (bind_Returns _ _ _ _ _ (proj1 (Date_now_ends w))) in E.
  destruct (Z.ltb_spec (now w - start) timeout) as [Hlt|Hge].
  - apply bind_inv in E as [(e & _ & [=])|(v & w1 & E1 & E)].
    apply isSendVisible_grows in E1 as (tr1 & L1 & _).
    destruct (truthy v).
    + injection E as <- <-. split; [by exists tr1|by left].
    + rewrite (bind_Returns _ _ _ _ _ (proj1 (sleep_ends 1000 w1))) in E.
      apply IH in E as [(tr2 & L2) H]. split; [|done].
      exists (tr1 ++ [ESleep 1000] ++ tr2). cbn [log] in L2.
      by rewrite L2, L1, <- !app_assoc.
  - injection E as <- <-. split; [exists []; by rewrite app_nil_r|].
    right. split; [done|lia].
Qed.

(** *** Composing and sending *)

Lemma focusInput_ends w :
  run_to (focusInput env) w (λ out _ tr,
    match out with
    | Returns f => strip tr = [EFocusInput (Returns f)]
    | Throws _ => True
    end).
Proof.
  unfold focusInput.
  destruct (ensureBridge_ends w) as (o0 & w0 & tr0 & E0 & S0 & _).
  destruct o0 as [[]|e]; [|by eapply run_to_throws; [exact E0|]].
  eapply run_to_bind; [exact E0|].
  pose proof (round_trip_ends focus_at EFocusInput w0) as E1.
  eexists _, _, _. split; [exact E1|]. cbn beta.
  destruct (focus_at env _); [|done]. by rewrite strip_app, S0.
Qed.

Lemma dispatchKeyEvent_ends type key code modifiers w
    (P : Outcome unit → World → list Eff → Prop) :
  (∀ w', P (Returns tt) w' [EKeyEvent type key code modifiers (Returns tt)]) →
  (∀ e w', P (Throws e) w' [EKeyEvent type key code modifiers (Throws e)]) →
  run_to (dispatchKeyEvent env type key code modifiers) w P.
Proof.
  intros HR HT. unfold dispatchKeyEvent.
  pose proof (round_trip_ends input_at (EKeyEvent type key code modifiers) w) as E1.
  eexists _, _, _. split; [exact E1|].
  by destruct (input_at env _) as [[]|e].
Qed.

Lemma key_then {B} type key code modifiers (k : M B) w
    (P : Outcome B → World → list Eff → Prop) :
  (∀ e w' tr, P (Throws e) w' tr) →
  (∀ w1, run_to k w1 (λ out w' tr,
           P out w' ([EKeyEvent type key code modifiers (Returns tt)] ++ tr))) →
  run_to (dispatchKeyEvent env type key code modifiers;; k) w P.
Proof.
  intros HT HK.
  pose proof (round_trip_ends input_at (EKeyEvent type key code modifiers) w) as E.
  unfold dispatchKeyEvent.
  destruct (input_at env (length (log w))) as [[]|e].
  - eapply run_to_bind; [exact E|]. apply HK.
  - eapply run_to_throws; [exact E|]. apply HT.
Qed.

Lemma clearInput_ends w :
  run_to (clearInput env) w (λ out _ tr,
    match out with
    | Returns _ => ∃ f, strip tr = clears f
    | Throws _ => True
    end).
Proof.
  unfold clearInput.
  destruct (focusInput_ends w) as (o0 & w0 & tr0 & E0 & S0).
  destruct o0 as [f|e]; [|by eapply run_to_throws; [exact E0|]].
  eapply run_to_bind; [exact E0|].
  apply key_then; [done|intros w1].
  apply key_then; [done|intros w2].
  apply key_then; [done|intros w3].
  apply dispatchKeyEvent_ends; [|done].
  intros w4. exists f. by rewrite !strip_app, S0.
Qed.

Lemma setText_ends txt w :
  run_to (setText env txt) w (λ out _ tr,
    ∀ r, out = Returns r → success r = true →
    ∃ f1 f2 actual,
      strip tr = types txt f1 f2 actual ∧ succeeded f2 = true ∧
      r = {| success := true; text := actual; error := None |}).
Proof.
  unfold setText.
  destruct (ensureBridge_ends w) as (o0 & w0 & tr0 & E0 & S0 & _).
  destruct o0 as [[]|e]; [|by eapply run_to_throws; [exact E0|]].
  eapply run_to_bind; [exact E0|].
  destruct (clearInput_ends w0) as (o1 & w1 & tr1 & E1 & S1).
  destruct o1 as [[]|e]; [|by eapply run_to_throws; [exact E1|]].
  destruct S1 as [f1 S1].
  eapply run_to_bind; [exact E1|].
  eapply run_to_bind; [apply sleep_ends|].
  match goal with |- run_to _ ?w _ => set (w2 := w) end.
  destruct (focusInput_ends w2) as (o3 & w3 & tr3 & E3 & S3).
  destruct o3 as [f2|e]; [|by eapply run_to_throws; [exact E3|]].
  eapply run_to_bind; [exact E3|].
  destruct (succeeded f2) eqn:Hf; cbn [negb].
  - pose proof (round_trip_ends input_at (EInsertText txt) w3) as E4.
    destruct (input_at env (length (log w3))) as [[]|e];
      [|by eapply run_to_throws; [exact E4|]].
    eapply run_to_bind; [exact E4|].
    eapply run_to_bind; [apply sleep_ends|].
    match goal with |- run_to _ ?w _ => set (w5 := w) end.
    pose proof (round_trip_ends inputText_at EGetInputText w5) as E6.
    destruct (inputText_at env (length (log w5))) as [actual|e];
      [|by eapply run_to_throws; [exact E6|]].
    eapply run_to_bind; [exact E6|].
    apply run_to_ret. intros r [= <-] _.
    exists f1, f2, actual. split; [|done].
    by rewrite !strip_app, S0, S1, S3.
  - apply run_to_ret. by intros r [= <-].
Qed.

Lemma idle_timeout_message :
  "waitForIdle 超时 (" +:+ pretty 120000 +:+ "ms)" = "waitForIdle 超时 (120000ms)".
Proof. vm_compute. reflexivity. Qed.

End Facts.

(** *** The sample pages *)

(** The agent is busy for two looks, then idle for good with a new
    message: Completed, four seconds in. *)
Example reply_after_busy :
  let run := waitForReply replies_hi 11 20000 2000 dawn in
  fst <$> run = Some (Returns (Completed "hi" 4)) ∧
  strip (log (final_world run)) =
    [EGetLastBotText (Returns (Some {| bt_text := "old"; bt_count := 2 |}));
     EIsSendVisible (Returns (Some false));
     ESleep 2000; EIsSendVisible (Returns (Some false));
     ESleep 2000; EIsSendVisible (Returns (Some true));
     ESleep 1500; EIsSendVisible (Returns (Some true));
     ECheckError (Returns (Some {| hasError := false; errorText := None |}));
     EGetLastBotText (Returns (Some {| bt_text := "hi"; bt_count := 3 |}))].
Proof. vm_compute. split; reflexivity. Qed.

(** The button flickers once and an error banner is up when it is back:
    Failed with the banner's text, and no Completed in between. *)
Example flicker_then_error :
  let run := waitForReply flickers_then_fails 11 20000 2000 dawn in
  fst <$> run = Some (Returns (Failed (Some "Error: please try again") 6)) ∧
  strip (log (final_world run)) =
    [EGetLastBotText (Returns (Some {| bt_text := "old"; bt_count := 2 |}));
     EIsSendVisible (Returns (Some false));
     ESleep 2000; EIsSendVisible (Returns (Some true));
     ESleep 1500; EIsSendVisible (Returns (Some false));
     ESleep 2000; EIsSendVisible (Returns (Some true));
     ESleep 1500; EIsSendVisible (Returns (Some true));
     ECheckError (Returns (Some {| hasError := true;
                                   errorText := Some "Error: please try again" |}))].
Proof. vm_compute. split; reflexivity. Qed.

(** The Send button is never found: ten attempts, nine sleeps, nine
    seconds, and the failure object. *)
Example ten_attempts :
  let run := clickSend no_button 10 dawn in
  fst <$> run = Some (Returns click_failure) ∧
  strip (log (final_world run)) =
    attempts_log (replicate 10 (Returns (Some not_found))) ∧
  now (final_world run) = 9000.
Proof. vm_compute. repeat split; reflexivity. Qed.

Lemma completed_exactly_when_witness :
  ∃ beforeBot tr v v' d b,
    let before := match beforeBot with Some b0 => bt_count b0 | None => 0 end in
    strip (log (final_world (waitForReply replies_hi 11 20000 2000 dawn))) =
      strip (log dawn) ++ [EGetLastBotText (Returns beforeBot)] ++ tr ++
      [EIsSendVisible (Returns v); ESleep 1500; EIsSendVisible (Returns v');
       ECheckError (Returns d); EGetLastBotText (Returns (Some b))] ∧
    truthy v = true ∧ truthy v' = true ∧ has_error d = false ∧
    ((before < bt_count b ∧ bt_text b ≠ "") ∨ bt_text b ≠ "") ∧
    "hi" = bt_text b.
Proof.
  apply (proj1 (completed_exactly_when replies_hi) 11%nat 20000 2000 dawn "hi" 4).
  vm_compute. reflexivity.
Defined.

Lemma completed_only_after_debounce_witness :
  ∃ tr v v' d b,
    strip (log (final_world (waitForReply replies_hi 11 20000 2000 dawn))) =
      strip (log dawn) ++ tr ++
      [EIsSendVisible (Returns v); ESleep 1500; EIsSendVisible (Returns v');
       ECheckError (Returns d); EGetLastBotText (Returns (Some b))] ∧
    truthy v = true ∧ truthy v' = true ∧ "hi" = bt_text b.
Proof.
  apply (proj1 (completed_only_after_debounce replies_hi) 11%nat 20000 2000 dawn "hi" 4).
  vm_compute. reflexivity.
Defined.

(** The agent never becomes idle, and the timeout of six seconds runs
    out: TimedOut, with the text that can be read at that time. *)
Example timeout_with_partial_text :
  fst <$> waitForReply never_idle 11 6000 2000 dawn
  = Some (Returns (TimedOut "等待超时 (6000ms)" (Some "thinking"))).
Proof. vm_compute. reflexivity. Qed.

(** An agent that is never idle: [sendText] waits its two minutes, then
    clears the input, inserts the text and tries ten times to click
    Send; what it reports is the failure of the click, not of the wait. *)
Example sendText_on_a_busy_agent :
  let run := sendText never_idle 121 "hello" 300 dawn in
  fst <$> run =
    Some (Returns {| success := false; text := Some "hello";
                     error := Some "多次重试后未找到 Send 按钮" |}) ∧
  now (final_world run) = 120000 + 50 + 100 + 300 + 9000 ∧
  strip (drop 360 (log (final_world run))) =
    types "hello" (Some found) (Some found) (Some "hello") ++ [ESleep 300]
    ++ attempts_log (replicate 10 (Returns (Some not_found))).
Proof. vm_compute. repeat split; reflexivity. Qed.

(** *** The page layer is kept in place *)

Section MoreFacts.

Variable env : Env.

Lemma isBridgeAlive_run w :
  isBridgeAlive env w =
  Some (Returns match alive_at env (length (log w)) with
                | Returns b => b
                | Throws _ => false
                end,
        {| now := now w + lag env (length (log w));
           log := log w ++ [EAlive (alive_at env (length (log w)))] |}).
Proof.
  unfold isBridgeAlive, try_catch, round_trip.
  by destruct (alive_at env (length (log w))).
Qed.

Lemma injectBridge_run w :
  injectBridge env w =
  match inject_at env (length (log w)) with
  | Returns b =>
      Some (Returns b,
            {| now := now w + lag env (length (log w));
               log := log w ++ [EInject (Returns b); EConsole (inject_line b)] |})
  | Throws e =>
      Some (Throws e,
            {| now := now w + lag env (length (log w));
               log := log w ++ [EInject (Throws e)] |})
  end.
Proof.
  unfold injectBridge.
  pose proof (proj1 (round_trip_ends env inject_at EInject w)) as E.
  destruct (inject_at env (length (log w))) as [b|e].
  - rewrite (bind_Returns _ _ _ _ _ E).
    destruct b;
      rewrite (bind_Returns _ _ _ _ _ (proj1 (console_log_ends _ _)));
      unfold mret, M_ret; cbn [log now inject_line]; by rewrite <- app_assoc.
  - by rewrite (bind_Throws _ _ _ _ _ E).
Qed.

(** X8.  [ensureBridge] asks once whether the page layer is alive and
    injects it exactly when the answer is not [true]; a failure of that
    question counts as "not alive" and is never thrown on.  Only a
    failure of the injection itself makes [ensureBridge] throw. *)
Theorem ensureBridge_injects_when_not_alive w :
  let i := length (log w) in
  ∃ out w',
    ensureBridge env w = Some (out, w') ∧
    match alive_at env i with
    | Returns true =>
        out = Returns tt ∧ log w' = log w ++ [EAlive (Returns true)]
    | a =>
        match inject_at env (S i) with
        | Returns b =>
            out = Returns tt ∧
            log w' = log w ++ [EAlive a; EInject (Returns b);
                               EConsole (inject_line b)]
        | Throws e =>
            out = Throws e ∧
            log w' = log w ++ [EAlive a; EInject (Throws e)]
        end
    end.
Proof.
  intros i. unfold ensureBridge.
  rewrite (bind_Returns _ _ _ _ _ (isBridgeAlive_run w)). fold i.
  assert (Hi : ∀ a, length (log w ++ [EAlive a]) = S i).
  { intros a. rewrite length_app. simpl. unfold i. lia. }
  assert (Hinj : ∀ a,
    ∃ out w',
      (injectBridge env;; mret ())
        {| now := now w + lag env i; log := log w ++ [EAlive a] |}
      = Some (out, w') ∧
      match inject_at env (S i) with
      | Returns b =>
          out = Returns tt ∧
          log w' = log w ++ [EAlive a; EInject (Returns b);
                             EConsole (inject_line b)]
      | Throws e =>
          out = Throws e ∧
          log w' = log w ++ [EAlive a; EInject (Throws e)]
      end).
  { intros a.
    pose proof (injectBridge_run
                  {| now := now w + lag env i; log := log w ++ [EAlive a] |}) as E.
    cbn [log now] in E. rewrite Hi in E.
    destruct (inject_at env (S i)) as [b|e].
    - rewrite (bind_Returns _ _ _ _ _ E). eexists _, _. split; [reflexivity|].
      cbn [log]. by rewrite <- app_assoc.
    - rewrite (bind_Throws _ _ _ _ _ E). eexists _, _. split; [reflexivity|].
      cbn [log]. by rewrite <- app_assoc. }
  destruct (alive_at env i) as [[]|e].
  - eexists _, _. split; [reflexivity|]. done.
  - apply Hinj.
  - apply Hinj.
Qed.

(** *** Waiting for the agent to be idle, look by look *)

Lemma isSendVisible_inv w v w1 :
  isSendVisible env w = Some (Returns v, w1) →
  ∃ tr, log w1 = log w ++ tr ∧ strip tr = [EIsSendVisible (Returns v)] ∧
        (lag_ok env → now w ≤ now w1).
Proof.
  intros E. destruct (isSendVisible_ends env w) as (out & w' & tr & E' & N & S).
  destruct (ends_eq _ _ _ _ _ _ _ E E') as [<- <-].
  exists tr. split; [apply E'|]. by split.
Qed.

Lemma waitForIdle_loop_polls fuel start timeout : ∀ w r w',
  waitForIdle_loop env fuel start timeout w = Some (Returns r, w') →
  ∃ vs tr,
    log w' = log w ++ tr ∧
    Forall (λ v, truthy v = false) vs ∧
    (lag_ok env → now w + 1000 * Z.of_nat (length vs) ≤ now w') ∧
    ((r = idle ∧
      ∃ v, truthy v = true ∧
           strip tr = idle_polls vs ++ [EIsSendVisible (Returns v)] ∧
           (lag_ok env →
            now w + 1000 * Z.of_nat (length vs) - start < timeout)) ∨
     (r = idle_timeout timeout ∧
      strip tr = idle_polls vs ∧
      timeout ≤ now w' - start ∧
      (lag_ok env → vs ≠ [] →
       now w + 1000 * (Z.of_nat (length vs) - 1) - start < timeout))).
Proof.
  induction fuel as [|fuel IH]; intros w r w' E; [done|].
  cbn [waitForIdle_loop] in E.
  rewrite (bind_Returns _ _ _ _ _ (proj1 (Date_now_ends w))) in E.
  destruct (Z.ltb_spec (now w - start) timeout) as [Hlt|Hge].
  - apply bind_inv in E as [(e & _ & [=])|(v & w1 & E1 & E)].
    apply isSendVisible_inv in E1 as (tr1 & L1 & S1 & N1).
    destruct (truthy v) eqn:Hv.
    + injection E as <- <-. exists [], tr1. split; [done|].
      split; [constructor|]. split; [intros Hl; specialize (N1 Hl); simpl; lia|].
      left. split; [done|].
      exists v. split; [done|]. split; [done|]. intros _. simpl. lia.
    + rewrite (bind_Returns _ _ _ _ _ (proj1 (sleep_ends env 1000 w1))) in E.
      apply IH in E as (vs & tr2 & L2 & Hvs & N2 & H). cbn [log now] in L2, N2, H.
      change (timer_delay 1000) with 1000 in N2, H.
      exists (v :: vs), (tr1 ++ [ESleep 1000] ++ tr2).
      split; [by rewrite L2, L1, <- !app_assoc|].
      split; [by constructor|].
      split.
      { intros Hl. specialize (N1 Hl). specialize (N2 Hl).
        pose proof (Hl (length (log w1))). cbn [length]. lia. }
      destruct H as [(-> & v' & Hv' & S2 & T2)|(-> & S2 & T2 & T3)].
      * left. split; [done|]. exists v'. split; [done|]. split.
        -- rewrite !strip_app, S1, S2. done.
        -- intros Hl. specialize (N1 Hl). specialize (T2 Hl).
           pose proof (Hl (length (log w1))). cbn [length]. lia.
      * right. split; [done|]. split.
        -- rewrite !strip_app, S1, S2. done.
        -- split; [done|]. intros Hl _. specialize (N1 Hl).
           pose proof (Hl (length (log w1))). cbn [length].
           destruct vs as [|v0 vs]; [simpl; lia|].
           specialize (T3 Hl ltac:(done)). cbn [length] in *. lia.
  - injection E as <- <-. exists [], []. split; [by rewrite app_nil_r|].
    split; [constructor|]. split; [simpl; lia|]. right.
    split; [done|]. split; [done|]. split; [lia|done].
Qed.

(** X9.  [waitForIdle] looks at the Send button, sleeps 1000 ms after
    every look that finds it gone, and returns success at the first look
    that finds it.  It returns the timeout error, carrying [timeout],
    only once [timeout] ms have gone by on the clock.  When no
    suspension point resumes early, [n] looks in vain take at least
    [1000 n] ms and every look starts before the timeout has elapsed:
    there are at most [⌈timeout / 1000⌉] of them, and none at all when
    [timeout] is not positive. *)
Theorem waitForIdle_polls fuel timeout w r w' :
  waitForIdle env fuel timeout w = Some (Returns r, w') →
  ∃ vs tr,
    log w' = log w ++ tr ∧
    Forall (λ v, truthy v = false) vs ∧
    (lag_ok env → 1000 * Z.of_nat (length vs) ≤ now w' - now w) ∧
    ((r = idle ∧
      ∃ v, truthy v = true ∧
           strip tr = idle_polls vs ++ [EIsSendVisible (Returns v)] ∧
           (lag_ok env → 1000 * Z.of_nat (length vs) < timeout)) ∨
     (r = idle_timeout timeout ∧
      strip tr = idle_polls vs ∧
      timeout ≤ now w' - now w ∧
      (lag_ok env → vs ≠ [] → 1000 * (Z.of_nat (length vs) - 1) < timeout))).
Proof.
  intros E. unfold waitForIdle in E.
  rewrite (bind_Returns _ _ _ _ _ (proj1 (Date_now_ends w))) in E.
  apply waitForIdle_loop_polls in E as (vs & tr & L & Hvs & N & H).
  exists vs, tr. split; [done|]. split; [done|].
  split; [intros Hl; specialize (N Hl); lia|].
  destruct H as [(-> & v & Hv & S & T)|(-> & S & T & T')].
  - left. split; [done|]. exists v. split; [done|]. split; [done|].
    intros Hl. specialize (T Hl). lia.
  - right. split; [done|]. split; [done|]. split; [done|].
    intros Hl Hne. specialize (T' Hl Hne). lia.
Qed.

(** *** The waits end *)

Lemma bind_None {A B} (m : M A) (k : A → M B) w :
  m w = None → (m ≫= k) w = None.
Proof. intros E. unfold mbind, M_bind. by rewrite E. Qed.

(** More fuel does not change how a loop ends. *)
Lemma waitForIdle_loop_more_fuel start timeout : ∀ f f' w r,
  (f ≤ f')%nat →
  waitForIdle_loop env f start timeout w = Some r →
  waitForIdle_loop env f' start timeout w = Some r.
Proof.
  induction f as [|f IH]; intros f' w r Hle E; [done|].
  destruct f' as [|f']; [lia|]. cbn [waitForIdle_loop] in *.
  rewrite (bind_Returns _ _ _ _ _ (proj1 (Date_now_ends w))) in E; rewrite (bind_Returns _ _ _ _ _ (proj1 (Date_now_ends w))).
  destruct (now w - start <? timeout); [|done].
  destruct (isSendVisible env w) as [[[v|e] w1]|] eqn:E1.
  - rewrite (bind_Returns _ _ _ _ _ E1) in E; rewrite (bind_Returns _ _ _ _ _ E1). destruct (truthy v); [done|].
    rewrite (bind_Returns _ _ _ _ _ (proj1 (sleep_ends env 1000 w1))) in E; rewrite (bind_Returns _ _ _ _ _ (proj1 (sleep_ends env 1000 w1))).
    apply (IH f'); [lia|done].
  - by rewrite (bind_Throws _ _ _ _ _ E1) in E; rewrite (bind_Throws _ _ _ _ _ E1).
  - by rewrite (bind_None _ _ _ E1) in E.
Qed.

Lemma phase1_more_fuel start : ∀ f f' w r,
  (f ≤ f')%nat →
  phase1 env f start w = Some r → phase1 env f' start w = Some r.
Proof.
  induction f as [|f IH]; intros f' w r Hle E; [done|].
  destruct f' as [|f']; [lia|]. cbn [phase1] in *.
  rewrite (bind_Returns _ _ _ _ _ (proj1 (Date_now_ends w))) in E; rewrite (bind_Returns _ _ _ _ _ (proj1 (Date_now_ends w))).
  destruct (now w - start <? 5000); [|done].
  destruct (isSendVisible env w) as [[[v|e] w1]|] eqn:E1.
  - rewrite (bind_Returns _ _ _ _ _ E1) in E; rewrite (bind_Returns _ _ _ _ _ E1). destruct (negb (truthy v)); [done|].
    rewrite (bind_Returns _ _ _ _ _ (proj1 (sleep_ends env 500 w1))) in E; rewrite (bind_Returns _ _ _ _ _ (proj1 (sleep_ends env 500 w1))).
    apply (IH f'); [lia|done].
  - by rewrite (bind_Throws _ _ _ _ _ E1) in E; rewrite (bind_Throws _ _ _ _ _ E1).
  - by rewrite (bind_None _ _ _ E1) in E.
Qed.

Lemma phase2_more_fuel start timeout poll before : ∀ f f' w r,
  (f ≤ f')%nat →
  phase2 env f start timeout poll before w = Some r →
  phase2 env f' start timeout poll before w = Some r.
Proof.
  induction f as [|f IH]; intros f' w r Hle E; [done|].
  destruct f' as [|f']; [lia|]. cbn [phase2] in *.
  rewrite (bind_Returns _ _ _ _ _ (proj1 (Date_now_ends w))) in E; rewrite (bind_Returns _ _ _ _ _ (proj1 (Date_now_ends w))).
  destruct (now w - start <? timeout); [|done].
  destruct (phase2_body env start poll before w) as [[[[o|]|e] w1]|] eqn:E1.
  - by rewrite (bind_Returns _ _ _ _ _ E1) in E; rewrite (bind_Returns _ _ _ _ _ E1).
  - rewrite (bind_Returns _ _ _ _ _ E1) in E; rewrite (bind_Returns _ _ _ _ _ E1). apply (IH f'); [lia|done].
  - by rewrite (bind_Throws _ _ _ _ _ E1) in E; rewrite (bind_Throws _ _ _ _ _ E1).
  - by rewrite (bind_None _ _ _ E1) in E.
Qed.

Lemma waitForReply_more_fuel timeout poll f f' w r :
  (f ≤ f')%nat →
  waitForReply env f timeout poll w = Some r →
  waitForReply env f' timeout poll w = Some r.
Proof.
  intros Hle E. unfold waitForReply in *.
  destruct (ensureBridge env w) as [[[[]|e] w0]|] eqn:E0;
    [|by rewrite (bind_Throws _ _ _ _ _ E0) in E; rewrite (bind_Throws _ _ _ _ _ E0)
     |by rewrite (bind_None _ _ _ E0) in E].
  rewrite (bind_Returns _ _ _ _ _ E0) in E; rewrite (bind_Returns _ _ _ _ _ E0).
  rewrite (bind_Returns _ _ _ _ _ (proj1 (Date_now_ends w0))) in E; rewrite (bind_Returns _ _ _ _ _ (proj1 (Date_now_ends w0))).
  pose proof (proj1 (round_trip_ends env botText_at EGetLastBotText w0)) as E1.
  destruct (botText_at env (length (log w0))) as [beforeBot|e];
    [|by rewrite (bind_Throws _ _ _ _ _ E1) in E; rewrite (bind_Throws _ _ _ _ _ E1)].
  rewrite (bind_Returns _ _ _ _ _ E1) in E; rewrite (bind_Returns _ _ _ _ _ E1).
  match type of E with context [phase1 env f ?s ≫= _] => set (start := s) in * end.
  match type of E with (_ ≫= _) ?w = _ => set (w1 := w) in * end.
  destruct (phase1 env f start w1) as [[[[]|e] w2]|] eqn:E2;
    [| |by rewrite (bind_None _ _ _ E2) in E].
  - rewrite (bind_Returns _ _ _ _ _ E2) in E.
    rewrite (bind_Returns _ _ _ _ _ (phase1_more_fuel _ _ _ _ _ Hle E2)).
    match type of E with context [phase2 env f _ _ _ ?b] => set (before := b) in * end.
    destruct (phase2 env f start timeout poll before w2) as [[[r2|e] w3]|] eqn:E3;
      [| |by rewrite (bind_None _ _ _ E3) in E].
    + rewrite (bind_Returns _ _ _ _ _ E3) in E.
      by rewrite (bind_Returns _ _ _ _ _ (phase2_more_fuel _ _ _ _ _ _ _ _ Hle E3)).
    + rewrite (bind_Throws _ _ _ _ _ E3) in E.
      by rewrite (bind_Throws _ _ _ _ _ (phase2_more_fuel _ _ _ _ _ _ _ _ Hle E3)).
  - rewrite (bind_Throws _ _ _ _ _ E2) in E.
    by rewrite (bind_Throws _ _ _ _ _ (phase1_more_fuel _ _ _ _ _ Hle E2)).
Qed.

(** X10.  [waitForIdle] ends.  When no suspension point resumes early,
    it returns or throws within [⌈timeout / 1000⌉] passes of its loop:
    with [n] passes allowed, [1000 n >= timeout], the run ends, and it
    ends in the same way however many more passes are allowed. *)
Theorem waitForIdle_ends n timeout w :
  lag_ok env →
  timeout ≤ Z.of_nat n * 1000 →
  ∃ out w',
    ∀ fuel, (n < fuel)%nat → waitForIdle env fuel timeout w = Some (out, w').
Proof.
  intros Hl Hn. destruct (waitForIdle_returns env n timeout w Hl Hn) as (out & w' & E).
  exists out, w'. intros fuel Hf. unfold waitForIdle in *.
  rewrite (bind_Returns _ _ _ _ _ (proj1 (Date_now_ends w))) in *.
  apply (waitForIdle_loop_more_fuel _ _ (S n)); [lia|done].
Qed.

(** X11.  [waitForReply] ends.  When no suspension point resumes early,
    ten passes of its first loop (5000 ms at 500 ms a pass) and
    [⌈timeout / pollInterval⌉] passes of its second are enough, where a
    [pollInterval] outside [1 .. 2^31 - 1] counts as 1 ms: with [n]
    passes allowed for each, the run returns or throws, and it ends in
    the same way however many more passes are allowed. *)
Theorem waitForReply_ends n timeout poll w :
  lag_ok env →
  (10 ≤ n)%nat →
  timeout ≤ Z.of_nat n * timer_delay poll →
  ∃ out w',
    ∀ fuel, (n < fuel)%nat →
      waitForReply env fuel timeout poll w = Some (out, w').
Proof.
  intros Hl Hn Ht.
  destruct (waitForReply_returns env n timeout poll w Hl Hn Ht) as (out & w' & E).
  exists out, w'. intros fuel Hf.
  apply (waitForReply_more_fuel _ _ (S n)); [lia|done].
Qed.

(** *** Setting the text and sending it *)

Lemma setText_run txt w :
  run_to (setText env txt) w (λ out _ tr,
    ∀ r, out = Returns r →
    ∃ f1 f2,
      if succeeded f2 then
        ∃ actual,
          strip tr = types txt f1 f2 actual ∧
          r = {| success := true; text := actual; error := None |}
      else
        strip tr = gives_up f1 f2 ∧
        r = {| success := false; text := None;
               error := Some (or_else (f2 ≫= error) "聚焦失败") |}).
Proof.
  unfold setText.
  destruct (ensureBridge_ends env w) as (o0 & w0 & tr0 & E0 & S0 & _).
  destruct o0 as [[]|e]; [|by eapply run_to_throws; [exact E0|]].
  eapply run_to_bind; [exact E0|].
  destruct (clearInput_ends env w0) as (o1 & w1 & tr1 & E1 & S1).
  destruct o1 as [[]|e]; [|by eapply run_to_throws; [exact E1|]].
  destruct S1 as [f1 S1].
  eapply run_to_bind; [exact E1|].
  eapply run_to_bind; [apply sleep_ends|].
  match goal with |- run_to _ ?w _ => set (w2 := w) end.
  destruct (focusInput_ends env w2) as (o3 & w3 & tr3 & E3 & S3).
  destruct o3 as [f2|e]; [|by eapply run_to_throws; [exact E3|]].
  eapply run_to_bind; [exact E3|].
  destruct (succeeded f2) eqn:Hf; cbn [negb].
  - pose proof (round_trip_ends env input_at (EInsertText txt) w3) as E4.
    destruct (input_at env (length (log w3))) as [[]|e];
      [|by eapply run_to_throws; [exact E4|]].
    eapply run_to_bind; [exact E4|].
    eapply run_to_bind; [apply sleep_ends|].
    match goal with |- run_to _ ?w _ => set (w5 := w) end.
    pose proof (round_trip_ends env inputText_at EGetInputText w5) as E6.
    destruct (inputText_at env (length (log w5))) as [actual|e];
      [|by eapply run_to_throws; [exact E6|]].
    eapply run_to_bind; [exact E6|].
    apply run_to_ret. intros r [= <-].
    exists f1, f2. rewrite Hf. exists actual. split; [|done].
    by rewrite !strip_app, S0, S1, S3.
  - apply run_to_ret. intros r [= <-].
    exists f1, f2. rewrite Hf. split; [|done].
    by rewrite !strip_app, S0, S1, S3.
Qed.

(** X12.  [setText] first clears the input (focus, Ctrl+A, Backspace),
    whatever that first focus answers, sleeps 50 ms and focuses again.
    Only the answer of this second focus decides: when it is not a
    success nothing is inserted and the result is a failure carrying the
    page layer's error, or "聚焦失败" when there is none; when it is a
    success the text is inserted, and after 100 ms the editor's text is
    read back and returned with [success: true], whether or not it is
    the text that was given. *)
Theorem setText_outcome txt w r w' :
  setText env txt w = Some (Returns r, w') →
  ∃ tr f1 f2,
    log w' = log w ++ tr ∧
    if succeeded f2 then
      ∃ actual,
        strip tr = types txt f1 f2 actual ∧
        r = {| success := true; text := actual; error := None |}
    else
      strip tr = gives_up f1 f2 ∧
      r = {| success := false; text := None;
             error := Some (or_else (f2 ≫= error) "聚焦失败") |}.
Proof.
  intros E. destruct (setText_run txt w) as (out & w1 & tr & E1 & H).
  destruct (ends_eq _ _ _ _ _ _ _ E E1) as [<- <-].
  destruct (H r eq_refl) as (f1 & f2 & H').
  exists tr, f1, f2. split; [apply E1|done].
Qed.

(** X13.  What [sendText] returns is decided by [setText] and
    [clickSend] alone, whatever the idle wait before them returned.
    When [setText] fails, its failure is returned as it is and Send is
    never clicked.  Otherwise [sendText] sleeps [delay], clicks Send with
    the default ten attempts and returns the click's [success] and
    [error] together with the text it was given, not the text read back
    from the editor. *)
Theorem sendText_outcome fuel txt delay w res w' :
  sendText env fuel txt delay w = Some (Returns res, w') →
  ∃ r w1 tr f1 f2,
    waitForIdle env fuel 120000 w = Some (Returns r, w1) ∧
    log w' = log w1 ++ tr ∧
    if succeeded f2 then
      ∃ actual answers clicked,
        strip tr = types txt f1 f2 actual ++ [ESleep delay] ++ attempts_log answers ∧
        attempts_end 10 answers (Returns clicked) ∧
        res = {| success := success clicked; text := Some txt;
                 error := error clicked |}
    else
      strip tr = gives_up f1 f2 ∧
      res = {| success := false; text := None;
               error := Some (or_else (f2 ≫= error) "聚焦失败") |}.
Proof.
  intros E. unfold sendText in E.
  apply bind_inv in E as [(e & _ & [=])|(r & w1 & E0 & E)].
  apply bind_inv in E as [(e & _ & [=])|(setResult & w2 & E1 & E)].
  destruct (setText_run txt w1) as (out & w2' & tr1 & E1' & H).
  destruct (ends_eq _ _ _ _ _ _ _ E1 E1') as [<- <-].
  destruct (H setResult eq_refl) as (f1 & f2 & H').
  exists r, w1. destruct (succeeded f2) eqn:Hf.
  - destruct H' as (actual & S1 & ->). cbn [success negb] in E.
    rewrite (bind_Returns _ _ _ _ _ (proj1 (sleep_ends env delay w2))) in E.
    apply bind_inv in E as [(e & _ & [=])|(clicked & w4 & E4 & E)].
    injection E as <- <-.
    match type of E4 with clickSend _ _ ?w = _ => set (w3 := w) in * end.
    destruct (clickSend_ends env 10 w3) as (o4 & w4' & tr4 & E4' & H4).
    destruct (ends_eq _ _ _ _ _ _ _ E4 E4') as [<- <-].
    destruct H4 as [(e & [=] & _)|(answers & S4 & Hend)].
    exists (tr1 ++ [ESleep delay] ++ tr4), f1, f2. rewrite Hf.
    split; [done|]. split.
    + destruct E4' as [_ ->]. unfold w3. cbn [log]. destruct E1' as [_ ->].
      by rewrite <- !app_assoc.
    + exists actual, answers, clicked. split; [|done].
      by rewrite !strip_app, S1, S4.
  - destruct H' as (S1 & ->). cbn [success negb] in E. injection E as <- <-.
    exists tr1, f1, f2. rewrite Hf. split; [done|]. split; [apply E1'|done].
Qed.

End MoreFacts.

(** *** The message counts play no role *)

Section Counts.

Variables e1 e2 : Env.
Hypothesis same : same_but_counts e1 e2.

Lemma alike_refl w : alike w w.
Proof. by split. Qed.

Lemma sim_ret {A} (R : A → A → Prop) a1 a2 :
  R a1 a2 → sim R (mret a1) (mret a2).
Proof. intros H w1 w2 Hw. by split. Qed.

Lemma sim_bind {A B} (R : A → A → Prop) (S : B → B → Prop)
    (m1 m2 : M A) (k1 k2 : A → M B) :
  sim R m1 m2 → (∀ a1 a2, R a1 a2 → sim S (k1 a1) (k2 a2)) →
  sim S (m1 ≫= k1) (m2 ≫= k2).
Proof.
  intros Hm Hk w1 w2 Hw. specialize (Hm w1 w2 Hw).
  unfold mbind, M_bind.
  destruct (m1 w1) as [[[a1|x1] w1']|], (m2 w2) as [[[a2|x2] w2']|]; try done.
  destruct Hm as [Ha Hw']. by apply Hk.
Qed.

Lemma sim_round_trip {A} (R : A → A → Prop)
    (oracle : Env → nat → Outcome A) (entry : Outcome A → Eff) :
  (∀ i, match oracle e1 i, oracle e2 i with
        | Returns a1, Returns a2 => R a1 a2
        | Throws x1, Throws x2 => x1 = x2
        | _, _ => False
        end) →
  sim R (round_trip e1 oracle entry) (round_trip e2 oracle entry).
Proof.
  intros Ho w1 w2 [Hn Hl]. unfold round_trip. rewrite Hl.
  specialize (Ho (length (log w2))).
  assert (alike {| now := now w1 + lag e1 (length (log w2));
                   log := log w1 ++ [entry (oracle e1 (length (log w2)))] |}
                {| now := now w2 + lag e2 (length (log w2));
                   log := log w2 ++ [entry (oracle e2 (length (log w2)))] |}).
  { split; cbn; [by rewrite Hn, (sc_lag _ _ same)|by rewrite !length_app, Hl]. }
  by destruct (oracle e1 _), (oracle e2 _).
Qed.

Lemma sim_round_trip_eq {A} (oracle : Env → nat → Outcome A) entry :
  (∀ i, oracle e1 i = oracle e2 i) →
  sim eq (round_trip e1 oracle entry) (round_trip e2 oracle entry).
Proof.
  intros Ho. apply sim_round_trip. intros i. rewrite Ho.
  by destruct (oracle e2 i).
Qed.

Lemma sim_sleep ms : sim eq (_sleep e1 ms) (_sleep e2 ms).
Proof.
  intros w1 w2 [Hn Hl]. unfold _sleep. split; [done|].
  split; cbn; [by rewrite Hn, Hl, (sc_lag _ _ same)|by rewrite !length_app, Hl].
Qed.

Lemma sim_Date_now : sim eq Date_now Date_now.
Proof. intros w1 w2 [Hn Hl]. by split. Qed.

Lemma sim_console_log line : sim eq (console_log line) (console_log line).
Proof.
  intros w1 w2 [Hn Hl]. unfold console_log. split; [done|].
  split; cbn; [done|by rewrite !length_app, Hl].
Qed.

Lemma sim_ensureBridge : sim eq (ensureBridge e1) (ensureBridge e2).
Proof.
  unfold ensureBridge. apply (sim_bind eq).
  - intros w1 w2 Hw. unfold isBridgeAlive, try_catch.
    pose proof (sim_round_trip_eq alive_at EAlive (sc_alive _ _ same) w1 w2 Hw) as H.
    destruct (round_trip e1 alive_at EAlive w1) as [[[a1|x1] w1']|],
             (round_trip e2 alive_at EAlive w2) as [[[a2|x2] w2']|]; try done.
    destruct H as [_ H]. by split.
  - intros a ? <-. destruct a; [by apply sim_ret|].
    apply (sim_bind eq); [|intros; by apply sim_ret].
    unfold injectBridge. apply (sim_bind eq).
    + apply sim_round_trip_eq, (sc_inject _ _ same).
    + intros b ? <-. apply (sim_bind eq); [|intros; by apply sim_ret].
      destruct b; apply sim_console_log.
Qed.

Lemma sim_isSendVisible : sim eq (isSendVisible e1) (isSendVisible e2).
Proof.
  unfold isSendVisible. apply (sim_bind eq); [apply sim_ensureBridge|].
  intros _ _ _. apply sim_round_trip_eq, (sc_visible _ _ same).
Qed.

Lemma sim_botText :
  sim (λ x y, bt_text <$> x = bt_text <$> y)
    (round_trip e1 botText_at EGetLastBotText)
    (round_trip e2 botText_at EGetLastBotText).
Proof. apply sim_round_trip. apply (sc_botText _ _ same). Qed.

Lemma sim_phase1 fuel start : sim eq (phase1 e1 fuel start) (phase1 e2 fuel start).
Proof.
  induction fuel as [|fuel IH]; [by intros w1 w2 Hw|].
  cbn [phase1]. apply (sim_bind eq); [apply sim_Date_now|].
  intros t ? <-. destruct (t - start <? 5000); [|by apply sim_ret].
  apply (sim_bind eq); [apply sim_isSendVisible|].
  intros v ? <-. destruct (negb (truthy v)); [by apply sim_ret|].
  apply (sim_bind eq); [apply sim_sleep|]. intros _ _ _. apply IH.
Qed.

Lemma sim_phase2_body start poll before1 before2 :
  sim eq (phase2_body e1 start poll before1) (phase2_body e2 start poll before2).
Proof.
  unfold phase2_body. apply (sim_bind eq); [apply sim_sleep|]. intros _ _ _.
  apply (sim_bind eq); [apply sim_Date_now|]. intros t ? <-.
  apply (sim_bind eq); [apply sim_isSendVisible|]. intros v ? <-.
  destruct (truthy v); [|by apply sim_ret].
  apply (sim_bind eq); [apply sim_sleep|]. intros _ _ _.
  apply (sim_bind eq); [apply sim_isSendVisible|]. intros v' ? <-.
  destruct (negb (truthy v')); [by apply sim_ret|].
  apply (sim_bind eq); [apply sim_round_trip_eq, (sc_error _ _ same)|].
  intros d ? <-. destruct (match d with Some d0 => hasError d0 | None => false end);
    [by apply sim_ret|].
  apply (sim_bind _ _ _ _ _ _ sim_botText).
  intros [b1|] [b2|] Hb; try discriminate Hb; [|by apply sim_ret].
  injection Hb as Hb. rewrite Hb.
  destruct (bool_decide (bt_text b2 = "")); cbn [negb];
    rewrite ?andb_false_r, ?andb_true_r, ?orb_false_r, ?orb_true_r;
    by apply sim_ret.
Qed.

Lemma sim_phase2 fuel start timeout poll before1 before2 :
  sim eq (phase2 e1 fuel start timeout poll before1)
         (phase2 e2 fuel start timeout poll before2).
Proof.
  induction fuel as [|fuel IH]; [by intros w1 w2 Hw|].
  cbn [phase2]. apply (sim_bind eq); [apply sim_Date_now|].
  intros t ? <-. destruct (t - start <? timeout); [|by apply sim_ret].
  apply (sim_bind eq); [apply sim_phase2_body|].
  intros r ? <-. destruct r; [by apply sim_ret|apply IH].
Qed.

Lemma sim_waitForReply fuel timeout poll :
  sim eq (waitForReply e1 fuel timeout poll) (waitForReply e2 fuel timeout poll).
Proof.
  unfold waitForReply. apply (sim_bind eq); [apply sim_ensureBridge|].
  intros _ _ _. apply (sim_bind eq); [apply sim_Date_now|]. intros start ? <-.
  apply (sim_bind _ _ _ _ _ _ sim_botText). intros b1 b2 _.
  apply (sim_bind eq); [apply sim_phase1|]. intros _ _ _.
  apply (sim_bind eq); [apply sim_phase2|]. intros r ? <-.
  destruct r; [by apply sim_ret|].
  unfold timed_out. apply (sim_bind _ _ _ _ _ _ sim_botText).
  intros [l1|] [l2|] Hl; try discriminate Hl; [|by apply sim_ret].
  injection Hl as Hl. rewrite Hl. by apply sim_ret.
Qed.

(** X14.  What [waitForReply] returns depends on the texts the page
    reports, never on its message counts.  The count taken before the
    wait (the baseline) and the counts read afterwards can be anything:
    on two pages that answer alike but for these counts, [waitForReply]
    ends in the same way, with the same outcome or the same exception,
    at the same time.  A reply is whatever text the last bot message
    shows once the agent is idle, new or not. *)
Theorem reply_ignores_counts fuel timeout poll w :
  match waitForReply e1 fuel timeout poll w,
        waitForReply e2 fuel timeout poll w with
  | Some (out1, w1), Some (out2, w2) => out1 = out2 ∧ now w1 = now w2
  | None, None => True
  | _, _ => False
  end.
Proof.
  pose proof (sim_waitForReply fuel timeout poll w w (alike_refl w)) as H.
  destruct (waitForReply e1 fuel timeout poll w) as [[[o1|x1] w1]|],
           (waitForReply e2 fuel timeout poll w) as [[[o2|x2] w2]|]; try done.
  - destruct H as [-> [Hn _]]. done.
  - destruct H as [-> [Hn _]]. done.
Qed.

End Counts.

Lemma with_counts_same n env : same_but_counts env (with_counts n env).
Proof.
  split; try done. intros i. cbn.
  by destruct (botText_at env i) as [[b|]|e].
Qed.

Lemma waitForIdle_polls_witness :
  let run := waitForIdle busy_thrice 121 120000 dawn in
  ∃ vs tr,
    log (final_world run) = log dawn ++ tr ∧
    Forall (λ v, truthy v = false) vs ∧
    (lag_ok busy_thrice →
     1000 * Z.of_nat (length vs) ≤ now (final_world run) - now dawn) ∧
    ((idle = idle ∧
      ∃ v, truthy v = true ∧
           strip tr = idle_polls vs ++ [EIsSendVisible (Returns v)] ∧
           (lag_ok busy_thrice → 1000 * Z.of_nat (length vs) < 120000)) ∨
     (idle = idle_timeout 120000 ∧
      strip tr = idle_polls vs ∧
      120000 ≤ now (final_world run) - now dawn ∧
      (lag_ok busy_thrice →
       vs ≠ [] → 1000 * (Z.of_nat (length vs) - 1) < 120000))).
Proof.
  apply (waitForIdle_polls busy_thrice 121 120000 dawn idle).
  vm_compute. reflexivity.
Defined.


Lemma setText_outcome_witness :
  let run := setText no_editor "hello" dawn in
  ∃ tr f1 f2,
    log (final_world run) = log dawn ++ tr ∧
    if succeeded f2 then
      ∃ actual,
        strip tr = types "hello" f1 f2 actual ∧
        no_lexical = {| success := true; text := actual; error := None |}
    else
      strip tr = gives_up f1 f2 ∧
      no_lexical
      = {| success := false; text := None;
           error := Some (or_else (f2 ≫= error) "聚焦失败") |}.
Proof.
  apply (setText_outcome no_editor "hello" dawn no_lexical).
  vm_compute. reflexivity.
Defined.

Lemma sendText_outcome_witness :
  let run := sendText no_editor 121 "hello" 300 dawn in
  ∃ r w1 tr f1 f2,
    waitForIdle no_editor 121 120000 dawn = Some (Returns r, w1) ∧
    log (final_world run) = log w1 ++ tr ∧
    if succeeded f2 then
      ∃ actual answers clicked,
        strip tr = types "hello" f1 f2 actual ++ [ESleep 300] ++ attempts_log answers ∧
        attempts_end 10 answers (Returns clicked) ∧
        no_lexical = {| success := success clicked; text := Some "hello";
                            error := error clicked |}
    else
      strip tr = gives_up f1 f2 ∧
      no_lexical
      = {| success := false; text := None;
           error := Some (or_else (f2 ≫= error) "聚焦失败") |}.
Proof.
  apply (sendText_outcome no_editor 121 "hello" 300 dawn no_lexical).
  vm_compute. reflexivity.
Defined.


Lemma reply_ignores_counts_witness :
  match waitForReply replies_hi 11 20000 2000 dawn,
        waitForReply (with_counts 0 replies_hi) 11 20000 2000 dawn with
  | Some (out1, w1), Some (out2, w2) => out1 = out2 ∧ now w1 = now w2
  | None, None => True
  | _, _ => False
  end.
Proof.
  apply (reply_ignores_counts replies_hi (with_counts 0 replies_hi)).
  apply with_counts_same.
Defined.

(** With every count at zero the reply is found all the same. *)
Example reply_without_counts :
  fst <$> waitForReply (with_counts 0 replies_hi) 11 20000 2000 dawn
  = Some (Returns (Completed "hi" 4)).
Proof. by vm_compute. Qed.


Lemma waitForIdle_ends_witness :
  ∃ out w',
    ∀ fuel, (6 < fuel)%nat → waitForIdle never_idle fuel 6000 dawn = Some (out, w').
Proof.
  apply (waitForIdle_ends never_idle 6 6000 dawn).
  - by intros i.
  - vm_compute. discriminate.
Defined.

Lemma waitForReply_ends_witness :
  ∃ out w',
    ∀ fuel, (10 < fuel)%nat →
      waitForReply never_idle fuel 6000 2000 dawn = Some (out, w').
Proof.
  apply (waitForReply_ends never_idle 10 6000 2000 dawn).
  - by intros i.
  - apply le_n.
  - vm_compute. discriminate.
Defined.

(** *** The transcript records what the page answered *)

Section Sound.

Variable env : Env.

Lemma honest_nil n : honest env n [].
Proof. by intros j x. Qed.

Lemma honest_app n tr1 tr2 :
  honest env n tr1 → honest env (n + length tr1) tr2 → honest env n (tr1 ++ tr2).
Proof.
  intros H1 H2 j x [Hj|[Hlen Hj]]%lookup_app_Some; [by apply H1|].
  specialize (H2 _ _ Hj).
  by replace (n + j)%nat with (n + length tr1 + (j - length tr1))%nat by lia.
Qed.

Lemma honest_singleton n x : told env n x → honest env n [x].
Proof.
  intros H j y [-> ->]%list_lookup_singleton_Some. by rewrite Nat.add_0_r.
Qed.

Lemma sound_ret {A} (a : A) : sound env (mret a).
Proof.
  intros w out w' [= <- <-]. exists []. rewrite app_nil_r.
  split; [done|]. split; [apply honest_nil|done].
Qed.

Lemma sound_bind {A B} (m : M A) (k : A → M B) :
  sound env m → (∀ a, sound env (k a)) → sound env (m ≫= k).
Proof.
  intros Hm Hk w out w' E.
  apply bind_inv in E as [(e & E & ->)|(a & w1 & E1 & E)].
  - apply Hm in E as (tr & L & Hh & Ht). exists tr. split; [done|]. split; [done|].
    intros e' [= <-]. by apply Ht.
  - apply Hm in E1 as (tr1 & L1 & Hh1 & _).
    apply Hk in E as (tr2 & L2 & Hh2 & Ht2).
    exists (tr1 ++ tr2). split; [by rewrite L2, L1, app_assoc|]. split.
    + apply honest_app; [done|]. by rewrite <- length_app, <- L1.
    + intros e He. destruct (Ht2 e He) as (tr0 & x & -> & Hx).
      exists (tr1 ++ tr0), x. by rewrite app_assoc.
Qed.

Lemma sound_round_trip {A} (oracle : Env → nat → Outcome A) entry :
  (∀ i, told env i (entry (oracle env i))) →
  (∀ e, thrown (entry (Throws e)) = Some e) →
  sound env (round_trip env oracle entry).
Proof.
  intros Ht He w out w' [= <- <-]. exists [entry (oracle env (length (log w)))].
  split; [done|]. split; [apply honest_singleton, Ht|].
  intros e ->. exists [], (entry (Throws e)). by split.
Qed.

Lemma sound_sleep ms : sound env (_sleep env ms).
Proof.
  intros w out w' [= <- <-]. exists [ESleep ms].
  split; [done|]. split; [by apply honest_singleton|done].
Qed.

Lemma sound_Date_now : sound env Date_now.
Proof.
  intros w out w' [= <- <-]. exists []. rewrite app_nil_r.
  split; [done|]. split; [apply honest_nil|done].
Qed.

Lemma sound_console_log line : sound env (console_log line).
Proof.
  intros w out w' [= <- <-]. exists [EConsole line].
  split; [done|]. split; [by apply honest_singleton|done].
Qed.

Lemma sound_out_of_fuel {A} : sound env (@out_of_fuel A).
Proof. by intros w out w'. Qed.

Lemma sound_isBridgeAlive : sound env (isBridgeAlive env).
Proof.
  intros w out w'. unfold isBridgeAlive, try_catch, round_trip.
  destruct (alive_at env (length (log w))) as [b|e] eqn:Ea; intros [= <- <-].
  - exists [EAlive (Returns b)]. split; [done|].
    split; [by apply honest_singleton|done].
  - exists [EAlive (Throws e)]. split; [done|].
    split; [by apply honest_singleton|done].
Qed.

(** Takes a method apart along its binds. *)
Ltac sound_tac :=
  repeat first
    [ apply sound_ret
    | apply sound_sleep
    | apply sound_Date_now
    | apply sound_console_log
    | apply sound_out_of_fuel
    | apply sound_isBridgeAlive
    | apply sound_round_trip; [by intros i|done]
    | assumption
    | apply sound_bind; [|intros ?]
    | match goal with |- sound _ (if ?b then _ else _) => destruct b end
    | match goal with |- sound _ (match ?x with _ => _ end) => destruct x end ].

Lemma sound_injectBridge : sound env (injectBridge env).
Proof. unfold injectBridge. sound_tac. Qed.

Lemma sound_ensureBridge : sound env (ensureBridge env).
Proof.
  pose proof sound_injectBridge. unfold ensureBridge. sound_tac.
Qed.

Lemma sound_focusInput : sound env (focusInput env).
Proof. pose proof sound_ensureBridge. unfold focusInput. sound_tac. Qed.

Lemma sound_clearInput : sound env (clearInput env).
Proof.
  pose proof sound_focusInput. unfold clearInput, dispatchKeyEvent. sound_tac.
Qed.

Lemma sound_setText txt : sound env (setText env txt).
Proof.
  pose proof sound_ensureBridge. pose proof sound_clearInput.
  pose proof sound_focusInput. unfold setText. sound_tac.
Qed.

Lemma sound_clickSend_loop fuel : ∀ attempt retries,
  sound env (clickSend_loop env fuel attempt retries).
Proof.
  induction fuel as [|fuel IH]; intros attempt retries; cbn [clickSend_loop].
  - sound_tac.
  - pose proof (IH (attempt + 1) retries). sound_tac.
Qed.

Lemma sound_clickSend retries : sound env (clickSend env retries).
Proof.
  pose proof sound_ensureBridge.
  pose proof (sound_clickSend_loop (Z.to_nat retries) 0 retries).
  unfold clickSend. sound_tac.
Qed.

Lemma sound_isSendVisible : sound env (isSendVisible env).
Proof. pose proof sound_ensureBridge. unfold isSendVisible. sound_tac. Qed.

Lemma sound_waitForIdle_loop fuel start timeout :
  sound env (waitForIdle_loop env fuel start timeout).
Proof.
  pose proof sound_isSendVisible.
  induction fuel as [|fuel IH]; cbn [waitForIdle_loop]; sound_tac.
Qed.

Lemma sound_waitForIdle fuel timeout : sound env (waitForIdle env fuel timeout).
Proof.
  unfold waitForIdle. apply sound_bind; [apply sound_Date_now|].
  intros start. apply sound_waitForIdle_loop.
Qed.

Lemma sound_sendText fuel txt delay : sound env (sendText env fuel txt delay).
Proof.
  pose proof (sound_waitForIdle fuel 120000). pose proof (sound_setText txt).
  pose proof (sound_clickSend 10). unfold sendText. sound_tac.
Qed.

(** What [sendText] does once its idle wait is over. *)
Lemma sound_sendText_rest txt delay :
  sound env
    (setResult ← setText env txt;
     if negb (success setResult) then mret setResult
     else
       _sleep env delay;;
       sendResult ← clickSend env 10;
       mret {| success := success sendResult; text := Some txt;
               error := error sendResult |}).
Proof.
  pose proof (sound_setText txt). pose proof (sound_clickSend 10). sound_tac.
Qed.

(** *** The submit step, attempt by attempt *)

(** C5.  [clickSend(retries)] always ends.  Every answer in its
    transcript is what the page answered at that point.  Leaving aside
    the upkeep of the page layer, the transcript is a run of attempts,
    at most [retries] of them, with one sleep of 1000 ms between two
    consecutive attempts and none after the last.  It returns success
    only with the answer of the first attempt that reports success,
    which is then the last thing it did; it returns the failure object
    only when exactly [retries] attempts were made and every one of them
    failed.  It throws only what the connection threw: before the first
    attempt when the page layer could not be put in place, or at the
    attempt whose round trip failed, all attempts before having
    failed. *)
Theorem clickSend_attempts retries w :
  ∃ out w' tr answers,
    ends (clickSend env retries) w out w' tr ∧
    honest env (length (log w)) tr ∧
    strip tr = attempts_log answers ∧
    (length answers ≤ Z.to_nat retries)%nat ∧
    match out with
    | Returns r =>
        (success r = true ∧
         ∃ fails, answers = fails ++ [Returns (Some r)] ∧ Forall failed fails) ∨
        (r = click_failure ∧
         length answers = Z.to_nat retries ∧ Forall failed answers)
    | Throws e =>
        (answers = [] ∧ ensureBridge env w = Some (Throws e, w')) ∨
        ∃ fails, answers = fails ++ [Throws e] ∧ Forall failed fails
    end.
Proof.
  destruct (clickSend_ends env retries w)
    as (out & w' & tr & E & H).
  assert (Hh : honest env (length (log w)) tr).
  { destruct (sound_clickSend retries w out w' (proj1 E)) as (tr' & L & Hh & _).
    destruct E as [_ L']. rewrite L' in L. by apply app_inv_head in L as ->. }
  destruct H as [(e & -> & Hs & He)|(answers & Hs & Hend)].
  - exists (Throws e), w', tr, [].
    split; [done|]. split; [done|]. split; [done|]. split; [simpl; lia|by left].
  - exists out, w', tr, answers. split; [done|]. split; [done|]. split; [done|].
    destruct Hend as [answers Hlen Hall|fails r Hlen Hall Hr|fails e Hlen Hall].
    + split; [lia|]. by right.
    + split; [rewrite length_app; simpl; lia|]. left. eauto.
    + split; [rewrite length_app; simpl; lia|]. right. eauto.
Qed.

(** *** Composing and sending after a failed idle wait *)

(** C10.  When the idle wait of [sendText] comes back with a failure,
    which it does only after its 120 000 ms have gone by and with the
    timeout error, [sendText] does not stop there: it goes on from where
    the wait ended and ends.  What it adds to the transcript is what the
    page answered.  When it returns, it has cleared the input, slept
    50 ms and focused again; if that focus failed it returns the focus
    failure (not the failure of the wait) and has done nothing more; if
    it succeeded it has inserted the text, read it back, slept [delay]
    and tried to click Send up to ten times, and returns what the click
    gave together with the text.  When it throws, the last thing it did
    is a round trip that failed with that exception. *)
Theorem sendText_discards_idle_wait fuel txt delay w r w1 :
  waitForIdle env fuel 120000 w = Some (Returns r, w1) →
  success r = false →
  (r = {| success := false; text := None;
          error := Some "waitForIdle 超时 (120000ms)" |} ∧
   120000 ≤ now w1 - now w) ∧
  ∃ out w2 tr,
    sendText env fuel txt delay w = Some (out, w2) ∧
    log w2 = log w1 ++ tr ∧
    honest env (length (log w1)) tr ∧
    match out with
    | Returns res =>
        ∃ f1 f2,
          if succeeded f2 then
            ∃ actual answers clicked,
              strip tr = types txt f1 f2 actual ++ [ESleep delay]
                         ++ attempts_log answers ∧
              attempts_end 10 answers (Returns clicked) ∧
              res = {| success := success clicked; text := Some txt;
                       error := error clicked |}
          else
            strip tr = gives_up f1 f2 ∧
            res = {| success := false; text := None;
                     error := Some (or_else (f2 ≫= error) "聚焦失败") |}
    | Throws e => ends_thrown e tr
    end.
Proof.
  intros E Hr.
  assert (Hsend : ∀ k : OpResult → M OpResult,
            (waitForIdle env fuel 120000 ≫= k) w = k r w1).
  { intros k. by apply bind_Returns. }
  split.
  { unfold waitForIdle in E.
    rewrite (bind_Returns _ _ _ _ _ (proj1 (Date_now_ends w))) in E.
    apply waitForIdle_loop_inv in E as [_ [->|[-> Ht]]]; [done|].
    by rewrite idle_timeout_message. }
  unfold sendText. rewrite Hsend.
  assert (Hgo : ∀ out w2 tr,
    ends (setResult ← setText env txt;
          if negb (success setResult) then mret setResult
          else
            _sleep env delay;;
            sendResult ← clickSend env 10;
            mret {| success := success sendResult; text := Some txt;
                    error := error sendResult |}) w1 out w2 tr →
    honest env (length (log w1)) tr ∧ ∀ e, out = Throws e → ends_thrown e tr).
  { intros out w2 tr [E' L].
    destruct (sound_sendText_rest txt delay w1 out w2 E') as (tr' & L' & Hh & Ht).
    rewrite L in L'. by apply app_inv_head in L' as <-. }
  destruct (setText_run env txt w1) as (o1 & w2 & tr1 & E1 & S1).
  destruct o1 as [setResult|e]; cycle 1.
  { assert (Hends : ends (setResult ← setText env txt;
          if negb (success setResult) then mret setResult
          else
            _sleep env delay;;
            sendResult ← clickSend env 10;
            mret {| success := success sendResult; text := Some txt;
                    error := error sendResult |}) w1 (Throws e) w2 tr1).
    { split; [|apply E1]. by rewrite (bind_Throws _ _ _ _ _ (proj1 E1)). }
    destruct (Hgo _ _ _ Hends) as [Hh Ht].
    exists (Throws e), w2, tr1. split; [apply Hends|]. split; [apply E1|].
    split; [done|by apply Ht]. }
  destruct (S1 setResult eq_refl) as (f1 & f2 & H').
  destruct (succeeded f2) eqn:Hf.
  - destruct H' as (actual & St & ->).
    set (w3 := {| now := now w2 + timer_delay delay + lag env (length (log w2));
                  log := log w2 ++ [ESleep delay] |}).
    destruct (clickSend_ends env 10 w3) as (o4 & w4 & tr4 & E4 & H4).
    assert (L4 : log w4 = log w1 ++ tr1 ++ [ESleep delay] ++ tr4).
    { destruct E4 as [_ ->]. unfold w3. cbn [log]. destruct E1 as [_ ->].
      by rewrite <- !app_assoc. }
    destruct o4 as [clicked|e].
    + assert (Hends : ends (setResult ← setText env txt;
          if negb (success setResult) then mret setResult
          else
            _sleep env delay;;
            sendResult ← clickSend env 10;
            mret {| success := success sendResult; text := Some txt;
                    error := error sendResult |}) w1
          (Returns {| success := success clicked; text := Some txt;
                      error := error clicked |}) w4
          (tr1 ++ [ESleep delay] ++ tr4)).
      { split; [|done]. rewrite (bind_Returns _ _ _ _ _ (proj1 E1)).
        cbn [success negb].
        rewrite (bind_Returns _ _ _ _ _ (proj1 (sleep_ends env delay w2))).
        fold w3. by rewrite (bind_Returns _ _ _ _ _ (proj1 E4)). }
      destruct (Hgo _ _ _ Hends) as [Hh _].
      eexists _, w4, _. split; [apply Hends|]. split; [done|]. split; [done|].
      destruct H4 as [(e & [=] & _)|(answers & S4 & Hend)].
      exists f1, f2. rewrite Hf. exists actual, answers, clicked.
      split; [|done]. by rewrite !strip_app, St, S4.
    + assert (Hends : ends (setResult ← setText env txt;
          if negb (success setResult) then mret setResult
          else
            _sleep env delay;;
            sendResult ← clickSend env 10;
            mret {| success := success sendResult; text := Some txt;
                    error := error sendResult |}) w1 (Throws e) w4
          (tr1 ++ [ESleep delay] ++ tr4)).
      { split; [|done]. rewrite (bind_Returns _ _ _ _ _ (proj1 E1)).
        cbn [success negb].
        rewrite (bind_Returns _ _ _ _ _ (proj1 (sleep_ends env delay w2))).
        fold w3. by rewrite (bind_Throws _ _ _ _ _ (proj1 E4)). }
      destruct (Hgo _ _ _ Hends) as [Hh Ht].
      exists (Throws e), w4, (tr1 ++ [ESleep delay] ++ tr4).
      split; [apply Hends|]. split; [done|]. split; [done|by apply Ht].
  - destruct H' as (St & ->).
    assert (Hends : ends (setResult ← setText env txt;
          if negb (success setResult) then mret setResult
          else
            _sleep env delay;;
            sendResult ← clickSend env 10;
            mret {| success := success sendResult; text := Some txt;
                    error := error sendResult |}) w1
          (Returns {| success := false; text := None;
                      error := Some (or_else (f2 ≫= error) "聚焦失败") |}) w2 tr1).
    { split; [|apply E1]. by rewrite (bind_Returns _ _ _ _ _ (proj1 E1)). }
    destruct (Hgo _ _ _ Hends) as [Hh _].
    eexists _, w2, tr1. split; [apply Hends|]. split; [apply E1|].
    split; [done|]. exists f1, f2. by rewrite Hf.
Qed.

(** *** The overall timeout *)

(** [waitForReply] is its two loops and then, when they gave nothing,
    the two lines after them. *)
Lemma waitForReply_split fuel timeout poll w :
  waitForReply env fuel timeout poll w =
    (r ← waitForReply_loops env fuel timeout poll;
     match r with
     | Some o => mret o
     | None => timed_out env timeout
     end) w.
Proof.
  unfold waitForReply, waitForReply_loops, mbind, M_bind.
  destruct (ensureBridge env w) as [[[[]|e] w0]|]; [|done|done].
  cbn [Date_now round_trip].
  destruct (botText_at env (length (log w0))) as [b0|e]; [|done].
  match goal with |- context [phase1 env fuel ?s ?w] =>
    destruct (phase1 env fuel s w) as [[[[]|e] w2]|] end; [|done|done].
  match goal with |- context [phase2 env fuel ?s ?t ?p ?b ?w] =>
    destruct (phase2 env fuel s t p b w) as [[[r|e] w3]|] end; done.
Qed.

(** How the two loops come to give something: through the second loop,
    with [start] read once the page layer is in place. *)
Lemma waitForReply_loops_inv fuel timeout poll w r w3 :
  waitForReply_loops env fuel timeout poll w = Some (Returns r, w3) →
  ∃ w0 tr0 before w2,
    ends (ensureBridge env) w (Returns tt) w0 tr0 ∧
    phase2 env fuel (now w0) timeout poll before w2 = Some (Returns r, w3).
Proof.
  unfold waitForReply_loops. intros E.
  destruct (ensureBridge_ends env w) as (o0 & w0 & tr0 & E0 & _ & _).
  apply bind_inv in E as [(e & _ & [=])|([] & w0' & E0' & E)].
  destruct (ends_eq _ _ _ _ _ _ _ E0' E0) as [<- <-].
  rewrite (bind_Returns _ _ _ _ _ (proj1 (Date_now_ends w0'))) in E.
  apply bind_inv in E as [(e & _ & [=])|(beforeBot & w1 & E1 & E)].
  apply bind_inv in E as [(e & _ & [=])|([] & w2 & E2 & E)].
  by exists w0', tr0, (match beforeBot with Some b => bt_count b | None => 0 end), w2.
Qed.

(** C7, amended.  Whenever [waitForReply] returns something that is
    neither Completed nor Failed, its second loop has ended without a
    result, which it does only once the overall timeout has elapsed
    (counted from the start that was read after the page layer was put in
    place); the last thing done is one more read of the agent's last
    message, and the result is TimedOut with the timeout error and that
    message's text, or null when the text is empty or nothing could be
    read.  And whenever the second loop ends without a result, the
    timeout has elapsed and that one more read decides: when it answers,
    [waitForReply] returns that TimedOut; when it throws,
    [waitForReply] throws what it threw and returns nothing. *)
Theorem timed_out_with_best_effort_reply :
  (∀ fuel timeout poll w o w',
     waitForReply env fuel timeout poll w = Some (Returns o, w') →
     (∀ reply el, o ≠ Completed reply el) →
     (∀ err el, o ≠ Failed err el) →
     ∃ last w0 tr0 w3,
       o = timeout_result timeout last ∧
       ends (ensureBridge env) w (Returns tt) w0 tr0 ∧
       waitForReply_loops env fuel timeout poll w = Some (Returns None, w3) ∧
       timeout ≤ now w3 - now w0 ∧
       botText_at env (length (log w3)) = Returns last ∧
       w' = {| now := now w3 + lag env (length (log w3));
               log := log w3 ++ [EGetLastBotText (Returns last)] |}) ∧
  (∀ fuel timeout poll w w3,
     waitForReply_loops env fuel timeout poll w = Some (Returns None, w3) →
     (∃ w0 tr0,
        ends (ensureBridge env) w (Returns tt) w0 tr0 ∧
        timeout ≤ now w3 - now w0) ∧
     let answer := botText_at env (length (log w3)) in
     waitForReply env fuel timeout poll w =
       Some (match answer with
             | Returns last => Returns (timeout_result timeout last)
             | Throws e => Throws e
             end,
             {| now := now w3 + lag env (length (log w3));
                log := log w3 ++ [EGetLastBotText answer] |})).
Proof.
  assert (Hloop : ∀ fuel timeout poll w w3,
    waitForReply_loops env fuel timeout poll w = Some (Returns None, w3) →
    ∃ w0 tr0,
      ends (ensureBridge env) w (Returns tt) w0 tr0 ∧
      timeout ≤ now w3 - now w0).
  { intros fuel timeout poll w w3 E.
    apply waitForReply_loops_inv in E as (w0 & tr0 & before & w2 & E0 & E2).
    apply phase2_inv in E2 as (tr & _ & Ht). by exists w0, tr0. }
  assert (Hlast : ∀ fuel timeout poll w w3,
    waitForReply_loops env fuel timeout poll w = Some (Returns None, w3) →
    waitForReply env fuel timeout poll w =
      Some (match botText_at env (length (log w3)) with
            | Returns last => Returns (timeout_result timeout last)
            | Throws e => Throws e
            end,
            {| now := now w3 + lag env (length (log w3));
               log := log w3
                      ++ [EGetLastBotText (botText_at env (length (log w3)))] |})).
  { intros fuel timeout poll w w3 E. rewrite waitForReply_split.
    rewrite (bind_Returns _ _ _ _ _ E). unfold timed_out, mbind, M_bind, round_trip.
    by destruct (botText_at env (length (log w3))) as [last|e]. }
  split.
  - intros fuel timeout poll w o w' E Hc Hf.
    pose proof E as E'. rewrite waitForReply_split in E'.
    apply bind_inv in E' as [(e & _ & [=])|(r & w3 & E3 & E')].
    destruct r as [o'|].
    + exfalso. injection E' as -> <-.
      apply waitForReply_loops_inv in E3 as (w0 & tr0 & before & w2 & E0 & E2).
      apply phase2_inv in E2 as (tr & _ & wi & tri & tr' & _ & _ & _ & Ei).
      destruct (phase2_body_ends env (now w0) poll before wi)
        as (o1 & w1 & tr1 & E1' & T & _).
      destruct (ends_unique _ _ _ _ _ _ _ _ Ei E1') as (<- & <- & <-).
      apply tick_result in T as [[reply ->]|[err ->]];
        [by eelim Hc|by eelim Hf].
    + destruct (Hloop _ _ _ _ _ E3) as (w0 & tr0 & E0 & Ht).
      rewrite (Hlast _ _ _ _ _ E3) in E.
      destruct (botText_at env (length (log w3))) as [last|e] eqn:Hb; [|done].
      injection E as <- <-.
      by exists last, w0, tr0, w3.
  - intros fuel timeout poll w w3 E. split; [by eapply Hloop|by apply Hlast].
Qed.

End Sound.

(** *** The sample pages, after the timeout *)

Lemma timed_out_with_best_effort_reply_witness :
  ∃ last w0 tr0 w3,
    timeout_result 6000 (Some {| bt_text := "thinking"; bt_count := 3 |})
      = timeout_result 6000 last ∧
    ends (ensureBridge never_idle) dawn (Returns tt) w0 tr0 ∧
    waitForReply_loops never_idle 11 6000 2000 dawn = Some (Returns None, w3) ∧
    6000 ≤ now w3 - now w0 ∧
    botText_at never_idle (length (log w3)) = Returns last ∧
    final_world (waitForReply never_idle 11 6000 2000 dawn)
      = {| now := now w3 + lag never_idle (length (log w3));
           log := log w3 ++ [EGetLastBotText (Returns last)] |}.
Proof.
  apply (proj1 (timed_out_with_best_effort_reply never_idle) 11%nat 6000 2000 dawn
           (timeout_result 6000 (Some {| bt_text := "thinking"; bt_count := 3 |}))
           (final_world (waitForReply never_idle 11 6000 2000 dawn)));
    [vm_compute; reflexivity|discriminate|discriminate].
Defined.

(** The claim C7 as written fails: the agent is never idle, the timeout
    of six seconds runs out without Completed or Failed, and the
    connection is gone by then; the one more read throws, and so does
    [waitForReply], where the claim has it return TimedOut. *)
Lemma timeout_then_read_throws :
  (∃ w3,
     waitForReply_loops (gone_from 2) 11 6000 2000 dawn = Some (Returns None, w3) ∧
     6000 ≤ now w3 - now dawn) ∧
  fst <$> waitForReply (gone_from 2) 11 6000 2000 dawn = Some (Throws "CDP 未连接") ∧
  ∀ o w', waitForReply (gone_from 2) 11 6000 2000 dawn ≠ Some (Returns o, w').
Proof.
  split; [|split].
  - eexists. split; [vm_compute; reflexivity|]. vm_compute. discriminate.
  - vm_compute. reflexivity.
  - intros o w'. vm_compute. discriminate.
Qed.

(** *** The sample pages, after a failed idle wait *)

Lemma sendText_discards_idle_wait_witness :
  let w1 := final_world (waitForIdle busy_but_clickable 121 120000 dawn) in
  ({| success := false; text := None;
      error := Some "waitForIdle 超时 (120000ms)" |}
   = {| success := false; text := None;
        error := Some "waitForIdle 超时 (120000ms)" |} ∧
   120000 ≤ now w1 - now dawn) ∧
  ∃ out w2 tr,
    sendText busy_but_clickable 121 "hello" 300 dawn = Some (out, w2) ∧
    log w2 = log w1 ++ tr ∧
    honest busy_but_clickable (length (log w1)) tr ∧
    match out with
    | Returns res =>
        ∃ f1 f2,
          if succeeded f2 then
            ∃ actual answers clicked,
              strip tr = types "hello" f1 f2 actual ++ [ESleep 300]
                         ++ attempts_log answers ∧
              attempts_end 10 answers (Returns clicked) ∧
              res = {| success := success clicked; text := Some "hello";
                       error := error clicked |}
          else
            strip tr = gives_up f1 f2 ∧
            res = {| success := false; text := None;
                     error := Some (or_else (f2 ≫= error) "聚焦失败") |}
    | Throws e => ends_thrown e tr
    end.
Proof.
  apply (sendText_discards_idle_wait busy_but_clickable 121 "hello" 300 dawn
           {| success := false; text := None;
              error := Some "waitForIdle 超时 (120000ms)" |}
           (final_world (waitForIdle busy_but_clickable 121 120000 dawn)));
    [vm_compute; reflexivity|reflexivity].
Defined.

(** The same run, spelled out: after two minutes of waiting in vain the
    text is set and Send is clicked at the first attempt; what comes
    back is the success of the click. *)
Example sendText_after_a_failed_wait :
  let run := sendText busy_but_clickable 121 "hello" 300 dawn in
  fst <$> waitForIdle busy_but_clickable 121 120000 dawn
    = Some (Returns {| success := false; text := None;
                       error := Some "waitForIdle 超时 (120000ms)" |}) ∧
  fst <$> run =
    Some (Returns {| success := true; text := Some "hello"; error := None |}) ∧
  now (final_world run) = 120000 + 50 + 100 + 300 ∧
  strip (drop 360 (log (final_world run))) =
    types "hello" (Some found) (Some found) (Some "hello") ++ [ESleep 300]
    ++ attempts_log [Returns (Some found)].
Proof. vm_compute. repeat split; reflexivity. Qed.

End InjectorFacts.

(* ===================================================================== *)
(** ** Properties of the page layer                                       *)
(* ===================================================================== *)

Module BridgeFacts.

Import Injector Bridge.
Local Open Scope Z_scope.

(** *** Searching a string *)

Lemma starts_with_spec pat s :
  starts_with pat s = true ↔ ∃ after, s = pat ++ after.
Proof.
  revert s. induction pat as [|p pat IH]; intros s; simpl.
  - split; [by exists s|done].
  - destruct s as [|c s]; [split; [done|by intros [? ?]]|].
    rewrite andb_true_iff, N.eqb_eq, IH. split.
    + intros [-> [after ->]]. by exists after.
    + intros [after [= -> ->]]. split; [done|by exists after].
Qed.

Lemma index_from_spec pat s i :
  0 ≤ i →
  (index_from pat s i = -1 ∧ ¬ occurs_in pat s) ∨
  (i ≤ index_from pat s i ∧ occurs_in pat s).
Proof.
  revert i. induction s as [|c s IH]; intros i Hi; simpl.
  - destruct (starts_with pat []) eqn:Hs.
    + right. split; [lia|]. apply starts_with_spec in Hs as [after Hs].
      by exists [], after.
    + left. split; [done|]. intros (before & after & Hs').
      symmetry in Hs'. apply app_eq_nil in Hs' as [-> [-> ->]%app_eq_nil].
      done.
  - destruct (starts_with pat (c :: s)) eqn:Hs.
    + right. split; [lia|]. apply starts_with_spec in Hs as [after Hs].
      by exists [], after.
    + destruct (IH (i + 1)) as [[-> Hn]|[Hle Ho]]; [lia| |].
      * left. split; [done|]. intros ([|c' before] & after & Hs').
        -- assert (starts_with pat (c :: s) = true); [|congruence].
           apply starts_with_spec. by exists after.
        -- injection Hs' as -> ->. apply Hn. by exists before, after.
      * right. split; [lia|]. destruct Ho as (before & after & ->).
        by exists (c :: before), after.
Qed.

(** [s.indexOf(pat) !== -1] says that [pat] occurs in [s]. *)
Lemma indexOf_found pat s :
  negb (indexOf pat s =? -1) = true ↔ occurs_in pat s.
Proof.
  unfold indexOf. rewrite negb_true_iff, Z.eqb_neq.
  destruct (index_from_spec pat s 0) as [[-> Hn]|[Hle Ho]]; [done| |].
  - split; [done|by intros ?%Hn].
  - split; [done|lia].
Qed.

Lemma says_send_spec b :
  says_send b = true ↔ occurs_in (lit "Send") (trim (btn_textContent b)).
Proof.
  unfold says_send. rewrite orb_true_iff, indexOf_found, bool_decide_eq_true.
  split; [|by right]. intros [->|?]; [|done]. by exists [], [].
Qed.

Lemma exceeds_spec x k :
  exceeds x k = true ↔ QArith_base.Qlt (QArith_base.Qmake k 1) x.
Proof.
  unfold exceeds. rewrite negb_true_iff, <- not_true_iff_false,
    QArith_base.Qle_bool_iff.
  split; [apply QArith_base.Qnot_le_lt|apply QArith_base.Qlt_not_le].
Qed.

(** *** The Send button *)

Lemma clickSend_loop_spec btns : ∀ i,
  match clickSend_loop btns i with
  | Some k =>
      isSendVisible_loop btns = true ∧
      ∃ j b, k = (i + j)%nat ∧ btns !! j = Some b ∧ send_shown b = true ∧
             ∀ j' b', (j' < j)%nat → btns !! j' = Some b' → send_shown b' = false
  | None =>
      isSendVisible_loop btns = false ∧ Forall (λ b, send_shown b = false) btns
  end.
Proof.
  induction btns as [|b btns IH]; intros i; simpl; [by split|].
  assert (Hrest : send_shown b = false →
    match clickSend_loop btns (S i) with
    | Some k =>
        isSendVisible_loop btns = true ∧
        ∃ j b0, k = (i + j)%nat ∧ (b :: btns) !! j = Some b0 ∧
                send_shown b0 = true ∧
                ∀ j' b', (j' < j)%nat → (b :: btns) !! j' = Some b' →
                         send_shown b' = false
    | None =>
        isSendVisible_loop btns = false ∧
        Forall (λ b, send_shown b = false) (b :: btns)
    end).
  { intros Hb. specialize (IH (S i)).
    destruct (clickSend_loop btns (S i)) as [k|].
    - destruct IH as (Hv & j & b0 & -> & Hj & Hs & Hmin). split; [done|].
      exists (S j), b0. split; [lia|]. split; [done|]. split; [done|].
      intros [|j'] b' Hlt; simpl; [by intros [= <-]|].
      apply Hmin. lia.
    - destruct IH as [Hv Hall]. split; [done|]. by constructor. }
  unfold send_shown in Hrest.
  destruct (says_send b) eqn:Hsays; [|by apply Hrest].
  destruct (has_box b) eqn:Hbox; [|by apply Hrest].
  split; [done|]. exists 0%nat, b. split; [lia|]. split; [done|].
  split; [unfold send_shown; by rewrite Hsays, Hbox|]. intros j' b' Hlt. lia.
Qed.

(** X15.  On the same document, [clickSend] of the page layer succeeds
    exactly when [isSendVisible] answers true.  The button clicked is the
    first one, in document order, whose trimmed text contains "Send" and
    whose box has positive width and height; when there is none nothing
    is clicked, and the error tells a missing panel from a missing
    button. *)
Theorem clickSend_clicks_what_isSendVisible_sees panel :
  success (clickSend panel).1 = isSendVisible panel ∧
  (∀ b, send_shown b = true ↔
        occurs_in (lit "Send") (trim (btn_textContent b)) ∧
        QArith_base.Qlt (QArith_base.Qmake 0 1) (width (btn_rect b)) ∧
        QArith_base.Qlt (QArith_base.Qmake 0 1) (height (btn_rect b))) ∧
  match panel with
  | None =>
      clickSend panel =
        ({| success := false; text := None; error := Some "未找到面板" |}, None)
  | Some btns =>
      match (clickSend panel).2 with
      | Some i =>
          (clickSend panel).1 = {| success := true; text := None; error := None |} ∧
          ∃ b, btns !! i = Some b ∧ send_shown b = true ∧
               ∀ j b', (j < i)%nat → btns !! j = Some b' → send_shown b' = false
      | None =>
          (clickSend panel).1 =
            {| success := false; text := None; error := Some "未找到 Send 按钮" |} ∧
          Forall (λ b, send_shown b = false) btns
      end
  end.
Proof.
  split; [|split].
  - destruct panel as [btns|]; [|done]. simpl.
    pose proof (clickSend_loop_spec btns 0) as H.
    destruct (clickSend_loop btns 0); simpl; by destruct H as [-> _].
  - intros b. unfold send_shown, has_box.
    by rewrite !andb_true_iff, says_send_spec, !exceeds_spec.
  - destruct panel as [btns|]; [|done]. simpl.
    pose proof (clickSend_loop_spec btns 0) as H.
    destruct (clickSend_loop btns 0) as [k|]; simpl.
    + destruct H as (_ & j & b & -> & Hj & Hs & Hmin). split; [done|].
      by exists b.
    + by destruct H.
Qed.

(** *** The error banner *)

Lemma banner_test t :
  (Z.of_nat (length t) <? 200)
  && negb (indexOf (lit "Error") t =? -1)
  && negb (indexOf (lit "try again") t =? -1) = true ↔ banner t.
Proof.
  unfold banner. rewrite !andb_true_iff, !indexOf_found, Z.ltb_lt.
  split; intros [[? ?] ?] || intros (? & ? & ?); repeat split; try done; lia.
Qed.

Lemma checkError_loop_spec divs :
  match checkError_loop divs with
  | (true, Some t) =>
      ∃ before d after,
        divs = before ++ d :: after ∧ t = trim (textContent d) ∧ banner t ∧
        Forall (λ d', ¬ banner (trim (textContent d'))) before
  | (false, None) => Forall (λ d', ¬ banner (trim (textContent d'))) divs
  | _ => False
  end.
Proof.
  induction divs as [|d divs IH]; simpl; [done|].
  destruct (_ && _ && _) eqn:Hb.
  - apply banner_test in Hb. by exists [], d, divs.
  - assert (Hn : ¬ banner (trim (textContent d))).
    { intros Hn%banner_test. congruence. }
    destruct (checkError_loop divs) as [[] [t|]]; try done.
    + destruct IH as (before & d' & after & -> & -> & Hbn & Hall).
      exists (d :: before), d', after. split; [done|]. split; [done|].
      split; [done|]. by constructor.
    + by constructor.
Qed.

(** X16.  [checkError] reports an error exactly when some [div] of the
    conversation has a trimmed text of fewer than 200 code units in which
    both "Error" and "try again" occur; the text it reports is the
    trimmed text of the first such [div] in document order.  Without a
    conversation element, or without such a [div], it reports none and
    gives no text. *)
Theorem checkError_reports_first_banner conv :
  match checkError conv with
  | (true, Some t) =>
      ∃ divs before d after,
        conv = Some divs ∧ divs = before ++ d :: after ∧
        t = trim (textContent d) ∧ banner t ∧
        Forall (λ d', ¬ banner (trim (textContent d'))) before
  | (false, None) =>
      conv = None ∨
      ∃ divs, conv = Some divs ∧
              Forall (λ d', ¬ banner (trim (textContent d'))) divs
  | _ => False
  end.
Proof.
  destruct conv as [divs|]; simpl; [|by left].
  pose proof (checkError_loop_spec divs) as H.
  destruct (checkError_loop divs) as [[] [t|]]; try done.
  - destruct H as (before & d & after & H). by exists divs, before, d, after.
  - right. by exists divs.
Qed.

(** *** Messages *)

Lemma last_cons_default {A} (l : list A) : ∀ x d,
  List.last (x :: l) d = List.last l x.
Proof.
  induction l as [|y l IH]; intros x d; [done|].
  change (List.last (x :: y :: l) d) with (List.last (y :: l) d).
  by rewrite !IH.
Qed.

Lemma getLastBotText_fold botEls : ∀ lastBot count,
  0 ≤ count →
  count + Z.of_nat (length botEls) ≤ 2 ^ 53 →
  fold_left
    (λ '(lastBot, count) el,
       if exceeds (height (rect_of el)) 10
       then (bot_text el, CDP.js_incr count)
       else (lastBot, count))
    botEls (lastBot, count)
  = (List.last (bot_text <$> List.filter tall botEls) lastBot,
     count + Z.of_nat (length (List.filter tall botEls))).
Proof.
  induction botEls as [|el botEls IH]; intros lastBot count Hc Hn; simpl.
  - f_equal. lia.
  - cbn [length] in Hn.
    change (exceeds (height (rect_of el)) 10) with (tall el).
    destruct (tall el) eqn:Ht.
    + assert (CDP.js_incr count = count + 1) as ->.
      { unfold CDP.js_incr. destruct (Z.ltb_spec count (2 ^ 53)); lia. }
      rewrite IH by lia. cbn [fmap list_fmap length]. f_equal; [|lia].
      by rewrite last_cons_default.
    + apply IH; lia.
Qed.

Lemma getMessages_fold {A} (keep : A → bool) (mk : A → Message) els : ∀ results,
  fold_left (λ results el, if keep el then results ++ [mk el] else results)
    els results
  = results ++ (mk <$> List.filter keep els).
Proof.
  induction els as [|el els IH]; intros results; simpl.
  - by rewrite app_nil_r.
  - destruct (keep el); rewrite IH; [|done]. by rewrite <- app_assoc.
Qed.

Lemma filter_fmap_const {A B} (f : A → B) (p : B → bool) (b : bool) l :
  (∀ x, p (f x) = b) →
  List.filter p (f <$> l) = if b then f <$> l else [].
Proof.
  intros Hp. induction l as [|x l IH]; [by destruct b|].
  cbn. rewrite Hp, IH. by destruct b.
Qed.

(** X17.  [getLastBotText] and [getMessages] agree on the bot messages of
    a document: [count] is the number of bot entries [getMessages] lists,
    and [text] is the text of the last of them, or the empty string when
    there is none.  [getMessages] lists every user message before every
    bot message, whatever their order in the conversation, each group in
    document order. *)
Theorem getLastBotText_agrees_with_getMessages userEls botEls :
  Z.of_nat (length botEls) ≤ 2 ^ 53 →
  let msgs := getMessages userEls botEls in
  let bots := List.filter is_bot msgs in
  getLastBotText botEls
    = (List.last (m_text <$> bots) [], Z.of_nat (length bots)) ∧
  ∃ users,
    msgs = users ++ bots ∧
    Forall (λ m, m_type m = user) users ∧
    Forall (λ m, m_type m = bot) bots ∧
    m_text <$> users
      = textContent <$> List.filter (λ el, exceeds (height (rect_of el)) 5) userEls ∧
    m_text <$> bots = bot_text <$> List.filter tall botEls.
Proof.
  intros Hn msgs bots.
  set (users := (λ el, {| m_type := user; m_text := textContent el |})
                <$> List.filter (λ el, exceeds (height (rect_of el)) 5) userEls).
  set (bs := (λ el, {| m_type := bot; m_text := bot_text el |})
             <$> List.filter tall botEls).
  assert (Hmsgs : msgs = users ++ bs).
  { unfold msgs, getMessages.
    rewrite (getMessages_fold (λ el, exceeds (height (rect_of el)) 5)
               (λ el, {| m_type := user; m_text := textContent el |})).
    by rewrite (getMessages_fold (λ el, exceeds (height (rect_of el)) 10)
                  (λ el, {| m_type := bot; m_text := bot_text el |})). }
  assert (Hu : List.filter is_bot users = []).
  { unfold users. by rewrite (filter_fmap_const _ _ false). }
  assert (Hb : List.filter is_bot bs = bs).
  { unfold bs. by rewrite (filter_fmap_const _ _ true). }
  assert (Hbots : bots = bs).
  { unfold bots. by rewrite Hmsgs, List.filter_app, Hu, Hb. }
  assert (Htexts : m_text <$> bs = bot_text <$> List.filter tall botEls).
  { unfold bs. rewrite <- list_fmap_compose. done. }
  split.
  - unfold getLastBotText. rewrite getLastBotText_fold by lia.
    rewrite Hbots, Htexts. f_equal. unfold bs. by rewrite length_fmap.
  - exists users. rewrite Hbots. split; [done|]. split; [|split; [|split]].
    + unfold users. apply Forall_fmap, Forall_true. done.
    + unfold bs. apply Forall_fmap, Forall_true. done.
    + unfold users. by rewrite <- list_fmap_compose.
    + done.
Qed.

Lemma getLastBotText_agrees_with_getMessages_witness :
  let msgs := getMessages sample_users sample_bots in
  let bots := List.filter is_bot msgs in
  getLastBotText sample_bots
    = (List.last (m_text <$> bots) [], Z.of_nat (length bots)) ∧
  ∃ users,
    msgs = users ++ bots ∧
    Forall (λ m, m_type m = user) users ∧
    Forall (λ m, m_type m = bot) bots ∧
    m_text <$> users
      = textContent <$> List.filter (λ el, exceeds (height (rect_of el)) 5)
                          sample_users ∧
    m_text <$> bots = bot_text <$> List.filter tall sample_bots.
Proof.
  apply (getLastBotText_agrees_with_getMessages sample_users sample_bots).
  vm_compute. discriminate.
Defined.

(** The sample document: the second reply is the last one, without the
    text of its style sheet and trimmed. *)
Example sample_document :
  getLastBotText sample_bots = (lit "second", 2) ∧
  isSendVisible (Some sample_panel) = true ∧
  (clickSend (Some sample_panel)).2 = Some 2%nat ∧
  checkError (Some sample_divs) = (true, Some (lit "Error: please try again")).
Proof. by vm_compute. Qed.

End BridgeFacts.

(* ===================================================================== *)
(** ** Properties of the server                                           *)
(* ===================================================================== *)

Module ServerFacts.

Import Injector InjectorFacts Server.
Local Open Scope Z_scope.

Section Facts.

Context {Ms Dg Ev : Type}.
Variable env : Env.

Lemma returns_only_ret {A} (a : A) (Q : A → Prop) :
  Q a → returns_only (mret a) Q.
Proof. intros H w a' w' [= <- _]. done. Qed.

Lemma returns_only_bind {A B} (m : M A) (k : A → M B) (Q : B → Prop) :
  (∀ a, returns_only (k a) Q) → returns_only (m ≫= k) Q.
Proof.
  intros H w b w' E.
  apply bind_inv in E as [(e & _ & [=])|(a & w1 & _ & E)].
  by apply (H a w1 b w').
Qed.

Lemma returns_only_bind_with {A B} (m : M A) (k : A → M B)
    (P : A → Prop) (Q : B → Prop) :
  returns_only m P → (∀ a, P a → returns_only (k a) Q) →
  returns_only (m ≫= k) Q.
Proof.
  intros Hm H w b w' E.
  apply bind_inv in E as [(e & _ & [=])|(a & w1 & E1 & E)].
  apply (H a (Hm _ _ _ E1) w1 b w' E).
Qed.

Lemma routed_json (data : Payload Ms Dg Ev) code :
  code ∈ [200; 400; 404] → routed (_json data code).
Proof. intros H. by exists data, code. Qed.

Ltac routes_tac :=
  repeat first
    [ apply returns_only_ret
    | apply returns_only_bind; intros ?
    | match goal with
      | |- returns_only (if ?b then _ else _) _ => destruct b
      | |- returns_only (match ?x with _ => _ end) _ => destruct x
      end ].

Lemma post_routes_routed (b : Backend Ms Dg Ev) url req :
  returns_only (post_routes env b url req)
    (λ o, ∀ r, o = Some r → routed r).
Proof.
  unfold post_routes. routes_tac; intros r [= <-];
    apply routed_json; set_solver.
Qed.

Lemma routes_routed (b : Backend Ms Dg Ev) cdp n url req :
  returns_only (routes env b cdp n url req) routed.
Proof.
  unfold routes.
  repeat match goal with
  | |- returns_only (if ?b then _ else _) _ =>
      destruct b; [routes_tac; apply routed_json; set_solver|]
  end.
  apply (returns_only_bind_with _ _ (λ o, ∀ r, o = Some r → routed r)).
  - destruct (bool_decide _); [apply post_routes_routed|].
    by apply returns_only_ret.
  - intros [r|] H; apply returns_only_ret; [by apply H|].
    apply routed_json. set_solver.
Qed.

Lemma cors_json (data : Payload Ms Dg Ev) code h :
  h ∈ cors → h ∈ headers (_json data code).
Proof. intros H. unfold _json. cbn [headers]. apply elem_of_app. by left. Qed.

(** X18.  [_handleHttp] answers every request and lets no exception
    out.  Every response carries the three CORS headers.  An [OPTIONS]
    request is answered with 204 and no body, without a call to the
    injector or the controller.  Any other request is answered with what
    its route made, with status 200, 400 or 404; and when a call made by
    the route throws, the message is written to the console and the
    response is [{ success: false, error: message }] with status 500. *)
Theorem handleHttp_always_answers (b : Backend Ms Dg Ev) cdp n req w out w' :
  _handleHttp env b cdp n req w = Some (out, w') →
  ∃ r,
    out = Returns r ∧
    (∀ h, h ∈ cors → h ∈ headers r) ∧
    if bool_decide (req_method req = "OPTIONS") then
      w' = w ∧ statusCode r = 204 ∧ body r = None
    else
      let url := before_query (req_url req) in
      match routes env b cdp n url req w with
      | Some (Returns r0, w1) =>
          r = r0 ∧ w' = w1 ∧
          ∃ data code, r = _json data code ∧ code ∈ [200; 400; 404]
      | Some (Throws e, w1) =>
          r = _json (PError (Some e)) 500 ∧
          w' = {| now := now w1;
                  log := log w1
                         ++ [EConsole ("[Server] HTTP 错误 (" +:+ url +:+ "): " +:+ e)] |}
      | None => False
      end.
Proof.
  unfold _handleHttp. intros E.
  destruct (bool_decide (req_method req = "OPTIONS")).
  - injection E as <- <-. eexists. split; [done|]. by split.
  - unfold try_catch_with in E.
    pose proof (routes_routed b cdp n (before_query (req_url req)) req w) as Hr.
    destruct (routes env b cdp n (before_query (req_url req)) req w)
      as [[[r0|e] w1]|] eqn:Er; [| |done].
    + injection E as <- <-. exists r0. split; [done|].
      destruct (Hr _ _ eq_refl) as (data & code & -> & Hc).
      split; [|split; [done|split; [done|by exists data, code]]].
      apply cors_json.
    + rewrite (bind_Returns _ _ _ _ _ (proj1 (console_log_ends _ w1))) in E.
      injection E as <- <-. eexists. split; [done|]. split; [|done].
      apply cors_json.
Qed.

(** *** What reaches the injector *)

Lemma bind_ext {A B} (m1 m2 : M A) (k1 k2 : A → M B) w :
  m1 w = m2 w → (∀ a w', k1 a w' = k2 a w') →
  (m1 ≫= k1) w = (m2 ≫= k2) w.
Proof.
  intros Hm Hk. unfold mbind, M_bind. rewrite Hm.
  destruct (m2 w) as [[[a|e] w']|]; auto.
Qed.

Lemma given_Some v : given v = true → ∃ s, v = Some s ∧ s ≠ "".
Proof.
  destruct v as [s|]; [|done]. simpl. intros H%negb_true_iff.
  exists s. split; [done|]. by apply bool_decide_eq_false in H.
Qed.

Lemma post_routes_ext (b1 b2 : Backend Ms Dg Ev) url req w :
  same_on_valid_input b1 b2 →
  post_routes env b1 url req w = post_routes env b2 url req w.
Proof.
  intros H. unfold post_routes.
  repeat match goal with
  | |- (if ?c then _ else _) _ = (if ?c then _ else _) _ => destruct c
  end; [| | | | |done].
  - apply bind_ext; [done|]. intros text w1.
    destruct (given text) eqn:Hg; [|done]. cbn [negb].
    apply given_Some in Hg as (s & -> & Hs).
    apply bind_ext; [done|]. intros delay w2.
    apply bind_ext; [by apply (sv_sendText _ _ H)|]. intros sendResult w3.
    destruct (negb (success sendResult)); [done|].
    apply bind_ext; [done|]. intros _ w4.
    apply bind_ext; [done|]. intros timeout w5.
    apply bind_ext; [apply (sv_waitForReply _ _ H)|done].
  - apply bind_ext; [done|]. intros text w1.
    destruct (negb (given text) && negb (bool_decide (text = Some ""))) eqn:Hc;
      [done|].
    destruct text as [s|]; [|done].
    apply bind_ext; [apply (sv_setText _ _ H)|done].
  - apply bind_ext; [apply (sv_pressEnter _ _ H)|done].
  - apply bind_ext; [done|]. intros expression w1.
    destruct (given expression) eqn:Hg; [|done]. cbn [negb].
    apply given_Some in Hg as (s & -> & Hs).
    apply bind_ext; [done|]. intros timeout w2.
    apply bind_ext; [by apply (sv_evaluate _ _ H)|done].
  - apply bind_ext; [done|]. intros timeout w1.
    apply bind_ext; [apply (sv_waitForReply _ _ H)|done].
Qed.

Lemma strict_same (b : Backend Ms Dg Ev) : same_on_valid_input b (strict b).
Proof.
  split; try done.
  - intros s d w Hs. cbn. by rewrite bool_decide_false.
  - intros s t w Hs. cbn. by rewrite bool_decide_false.
Qed.

(** X19.  The HTTP routes check their input before they call anything:
    [sendText] is only ever called with a text that is there and not
    empty, [evaluate] with an expression that is there and not empty, and
    [setText] with a text that is there, empty or not.  So two backends
    that differ only in what they do on other input give the same
    response, and leave the same world, on every request. *)
Theorem http_calls_with_checked_input (b1 b2 : Backend Ms Dg Ev) cdp n req w :
  same_on_valid_input b1 b2 →
  _handleHttp env b1 cdp n req w = _handleHttp env b2 cdp n req w.
Proof.
  intros H. unfold _handleHttp.
  destruct (bool_decide (req_method req = "OPTIONS")); [done|].
  unfold try_catch_with.
  assert (Hr : routes env b1 cdp n (before_query (req_url req)) req w
             = routes env b2 cdp n (before_query (req_url req)) req w);
    [|by rewrite Hr].
  unfold routes.
  repeat match goal with
  | |- (if ?c then _ else _) _ = (if ?c then _ else _) _ => destruct c
  end; [done| | | |].
  - apply bind_ext; [apply (sv_getMessages _ _ H)|done].
  - apply bind_ext; [apply (sv_getLastBotReply _ _ H)|done].
  - apply bind_ext; [apply (sv_diagnose _ _ H)|done].
  - apply bind_ext; [|done].
    destruct (bool_decide (req_method req = "POST")); [|done].
    by apply post_routes_ext.
Qed.

(** *** Frames of a client *)

(** X20.  What [_handleWsMessage] does with a frame.  A frame that is no
    JSON is answered with "无效的 JSON" and no [id].  A frame that is the
    JSON [null] makes the handler throw before its [try]: nothing is
    sent and the exception leaves the handler.  Every other frame gets
    exactly one reply, which carries the frame's [id]: what the action
    made, or [{ success: false, error }] with the message of what was
    thrown.  A reply is sent only if the client's socket is open when it
    is made. *)
Theorem handleWsMessage_outcome (b : Backend Ms Dg Ev) cdp open_at raw w out w' :
  _handleWsMessage env b cdp open_at raw w = Some (out, w') →
  match raw with
  | FrameNotJson =>
      w' = w ∧
      out = Returns (_wsReply (open_at (length (log w)))
                       {| rp_payload := PError (Some "无效的 JSON");
                          rp_id := None |})
  | FrameNull => w' = w ∧ out = Throws null_destructure
  | FrameValue frame =>
      ∃ payload,
        out = Returns (_wsReply (open_at (length (log w')))
                         {| rp_payload := payload; rp_id := Some (fr_id frame) |}) ∧
        match dispatch env b cdp frame w with
        | Some (Returns (inl p), w1) => payload = p ∧ w' = w1
        | Some (Returns (inr d), w1) => payload = POk d ∧ w' = w1
        | Some (Throws e, w1) => payload = PError (Some e) ∧ w' = w1
        | None => False
        end
  end.
Proof.
  unfold _handleWsMessage. destruct raw as [| |frame]; intros E.
  - by injection E as <- <-.
  - by injection E as <- <-.
  - unfold try_catch_with in E.
    destruct (dispatch env b cdp frame w) as [[[[p|d]|e] w1]|] eqn:Ed.
    + rewrite (bind_Returns _ _ _ _ _ Ed) in E. injection E as <- <-.
      by exists p.
    + rewrite (bind_Returns _ _ _ _ _ Ed) in E. injection E as <- <-.
      by exists (POk d).
    + rewrite (bind_Throws _ _ _ _ _ Ed) in E. injection E as <- <-.
      by exists (PError (Some e)).
    + unfold mbind, M_bind in E. by rewrite Ed in E.
Qed.

End Facts.

Lemma handleHttp_always_answers_witness :
  let req := post "/api/setText?x=1" (says "hello") in
  let run := _handleHttp no_editor (sample_backend no_editor) (CDP.fresh 9000) 0 req dawn in
  ∃ r : Response (list string) (list string) string,
    Returns (_json (POk (DResult no_lexical)) 200) = Returns r ∧
    (∀ h, h ∈ cors → h ∈ headers r) ∧
    if bool_decide (req_method req = "OPTIONS") then
      final_world run = dawn ∧ statusCode r = 204 ∧ body r = None
    else
      let url := before_query (req_url req) in
      match routes no_editor (sample_backend no_editor) (CDP.fresh 9000) 0 url req dawn with
      | Some (Returns r0, w1) =>
          r = r0 ∧ final_world run = w1 ∧
          ∃ data code, r = _json data code ∧ code ∈ [200; 400; 404]
      | Some (Throws e, w1) =>
          r = _json (PError (Some e)) 500 ∧
          final_world run
          = {| now := now w1;
               log := log w1
                      ++ [EConsole ("[Server] HTTP 错误 (" +:+ url +:+ "): " +:+ e)] |}
      | None => False
      end.
Proof.
  apply (handleHttp_always_answers no_editor (sample_backend no_editor)
           (CDP.fresh 9000) 0%nat (post "/api/setText?x=1" (says "hello")) dawn).
  vm_compute. reflexivity.
Defined.

Lemma handleWsMessage_outcome_witness :
  let frame := {| fr_action := Some "lastReply"; fr_id := Some "7";
                  fr_fields := no_fields |} in
  let run := _handleWsMessage calm (sample_backend calm) (CDP.fresh 9000)
               (λ _, true) (FrameValue frame) dawn in
  ∃ payload,
    Returns (Some {| rp_payload := POk (DLastReply (Some "old"));
                     rp_id := Some (Some "7") |})
    = Returns (_wsReply ((λ _, true) (length (log (final_world run))))
                 {| rp_payload := payload; rp_id := Some (fr_id frame) |}) ∧
    match dispatch calm (sample_backend calm) (CDP.fresh 9000) frame dawn with
    | Some (Returns (inl p), w1) => payload = p ∧ final_world run = w1
    | Some (Returns (inr d), w1) => payload = POk d ∧ final_world run = w1
    | Some (Throws e, w1) => payload = PError (Some e) ∧ final_world run = w1
    | None => False
    end.
Proof.
  apply (handleWsMessage_outcome calm (sample_backend calm) (CDP.fresh 9000)
           (λ _, true)
           (FrameValue {| fr_action := Some "lastReply"; fr_id := Some "7";
                          fr_fields := no_fields |}) dawn).
  vm_compute. reflexivity.
Defined.

Lemma http_calls_with_checked_input_witness :
  _handleHttp calm (sample_backend calm) (CDP.fresh 9000) 0
    (post "/api/send" (says "")) dawn
  = _handleHttp calm (strict (sample_backend calm)) (CDP.fresh 9000) 0
      (post "/api/send" (says "")) dawn.
Proof.
  apply (http_calls_with_checked_input calm (sample_backend calm)
           (strict (sample_backend calm))).
  apply strict_same.
Defined.

End ServerFacts.

(* ===================================================================== *)
(** ** Properties of the entry point                                      *)
(* ===================================================================== *)

Module MainFacts.

Import Bridge Main.
Local Open Scope Z_scope.

(** *** The command line *)

Lemma help_is_no_port arg :
  is_help arg = true → is_cdp_port arg = false ∧ is_server_port arg = false.
Proof.
  unfold is_help. rewrite orb_true_iff, !bool_decide_eq_true.
  by intros [-> | ->].
Qed.

Lemma cdp_is_no_server arg : is_cdp_port arg = true → is_server_port arg = false.
Proof.
  unfold is_cdp_port, is_server_port.
  intros [after ->]%BridgeFacts.starts_with_spec. done.
Qed.

Lemma parseArgs_loop_spec args : ∀ config,
  match parseArgs_loop args config with
  | HelpThenExit code =>
      code = 0 ∧
      ∃ before arg after,
        args = before ++ arg :: after ∧ is_help arg = true ∧
        Forall (λ a, is_help a = false) before
  | Configured result =>
      Forall (λ a, is_help a = false) args ∧
      cdpPort result
        = List.last (flag_value <$> List.filter is_cdp_port args) (cdpPort config) ∧
      serverPort result
        = List.last (flag_value <$> List.filter is_server_port args)
            (serverPort config)
  end.
Proof.
  induction args as [|arg args IH]; intros config; simpl; [by split|].
  destruct (is_cdp_port arg) eqn:Hc; [|destruct (is_server_port arg) eqn:Hs;
    [|destruct (is_help arg) eqn:Hh]].
  - assert (Hh : is_help arg = false).
    { destruct (is_help arg) eqn:Hh; [|done].
      apply help_is_no_port in Hh as [? _]. congruence. }
    rewrite (cdp_is_no_server _ Hc).
    specialize (IH {| cdpPort := parseInt (split_eq_1 arg);
                      serverPort := serverPort config |}).
    destruct (parseArgs_loop args _) as [result|code].
    + destruct IH as (Hall & Hp & Hq). split; [by constructor|].
      split; [|done]. cbn [fmap list_fmap].
      by rewrite BridgeFacts.last_cons_default.
    + destruct IH as (-> & before & a & after & -> & Ha & Hall). split; [done|].
      exists (arg :: before), a, after. split; [done|]. split; [done|].
      by constructor.
  - assert (Hh : is_help arg = false).
    { destruct (is_help arg) eqn:Hh; [|done].
      apply help_is_no_port in Hh as [_ ?]. congruence. }
    specialize (IH {| cdpPort := cdpPort config;
                      serverPort := parseInt (split_eq_1 arg) |}).
    destruct (parseArgs_loop args _) as [result|code].
    + destruct IH as (Hall & Hp & Hq). split; [by constructor|].
      split; [done|]. cbn [fmap list_fmap].
      by rewrite BridgeFacts.last_cons_default.
    + destruct IH as (-> & before & a & after & -> & Ha & Hall). split; [done|].
      exists (arg :: before), a, after. split; [done|]. split; [done|].
      by constructor.
  - split; [done|]. by exists [], arg, args.
  - specialize (IH config).
    destruct (parseArgs_loop args config) as [result|code].
    + destruct IH as (Hall & Hp & Hq). split; [by constructor|]. done.
    + destruct IH as (-> & before & a & after & -> & Ha & Hall). split; [done|].
      exists (arg :: before), a, after. split; [done|]. split; [done|].
      by constructor.
Qed.

(** X21.  [parseArgs] reads the arguments after the first two in order.
    It leaves with the help text and exit code 0 exactly when one of them
    is [--help] or [-h].  Otherwise each port is what [parseInt] makes of
    the text between the first and the second [=] of the last flag given
    for it, and the default (9000, 9999) when there is none; every other
    argument is ignored, and nothing checks that the value is a number:
    a flag without digits sets the port to [NaN]. *)
Theorem parseArgs_outcome argv :
  let args := drop 2 argv in
  match parseArgs argv with
  | HelpThenExit code =>
      code = 0 ∧
      ∃ before arg after,
        args = before ++ arg :: after ∧ is_help arg = true ∧
        Forall (λ a, is_help a = false) before
  | Configured config =>
      Forall (λ a, is_help a = false) args ∧
      cdpPort config
        = List.last (flag_value <$> List.filter is_cdp_port args) (Int 9000) ∧
      serverPort config
        = List.last (flag_value <$> List.filter is_server_port args) (Int 9999)
  end.
Proof.
  intros args. unfold parseArgs. fold args.
  apply (parseArgs_loop_spec args {| cdpPort := Int 9000; serverPort := Int 9999 |}).
Qed.

(** A command line with a port given twice, a port without digits and
    an argument that is no flag. *)
Example parseArgs_sample :
  parseArgs (argv ["--cdp-port=9222"; "--server-port="; "--cdp-port= 9333=x"; "-v"])
  = Configured {| cdpPort := Int 9333; serverPort := NaN |}.
Proof. by vm_compute. Qed.

(** *** Connecting at start-up *)

Lemma connect_loop_spec answer_at : ∀ fuel i,
  0 ≤ i → i + Z.of_nat fuel = 5 →
  ∃ connected steps,
    connect_loop fuel i false answer_at = Some (connected, steps) ∧
    ∃ n : nat,
      (n ≤ fuel)%nat ∧
      (∀ k : nat, (k < n)%nat → answer_at (i + Z.of_nat k) ≠ None) ∧
      ((connected = true ∧ (n < fuel)%nat ∧
        answer_at (i + Z.of_nat n) = None ∧
        steps = failed_passes i n answer_at
                ++ (attempt (i + Z.of_nat n) None).1) ∨
       (connected = false ∧ n = fuel ∧
        steps = failed_passes i n answer_at)).
Proof.
  induction fuel as [|fuel IH]; intros i Hi Hf.
  - exists false, []. assert (i = 5) as -> by lia. split; [done|].
    exists 0%nat. split; [done|]. split; [lia|]. by right.
  - cbn [connect_loop].
    destruct (Z.ltb_spec i 5) as [Hlt|]; [|lia]. cbn [andb negb].
    destruct (answer_at i) as [message|] eqn:Ha.
    + cbn [attempt orb]. destruct (IH (i + 1)) as (c & steps & E & n & Hn & Hall & H);
        [lia..|].
      rewrite E. eexists c, _. split; [reflexivity|].
      exists (S n). split; [lia|]. split.
      { intros [|k] Hk; [rewrite Z.add_0_r; congruence|].
        replace (i + Z.of_nat (S k)) with (i + 1 + Z.of_nat k) by lia.
        apply Hall. lia. }
      replace (i + Z.of_nat (S n)) with (i + 1 + Z.of_nat n) by lia.
      cbn [failed_passes]. rewrite Ha. cbn [default attempt fst].
      destruct H as [(-> & Hlt' & Hnone & ->)|(-> & -> & ->)].
      * left. split; [done|]. split; [lia|]. split; [done|].
        by rewrite <- !app_assoc.
      * right. by rewrite <- !app_assoc.
    + cbn [attempt orb].
      assert (E : connect_loop fuel (i + 1) true answer_at = Some (true, [])).
      { destruct fuel; cbn [connect_loop]; by rewrite andb_false_r. }
      rewrite E. eexists true, _. split; [reflexivity|].
      exists 0%nat. split; [lia|]. split; [lia|]. left.
      rewrite Z.add_0_r. split; [done|]. split; [lia|]. split; [done|].
      cbn [failed_passes attempt fst]. by rewrite app_nil_r.
Qed.

(** X22.  At start-up [main] calls [autoConnect] at most five times.  It
    logs the retry and waits 2000 ms before every call but the first,
    logs every failure, and stops at the first call that succeeds.  It
    gives up, with the error line and [process.exit(1)], exactly when
    five calls in a row have failed. *)
Theorem connect_phase_outcome answer_at :
  ∃ steps n,
    connect_phase 5 answer_at = Some steps ∧
    (n ≤ 5)%nat ∧
    (∀ k : nat, (k < n)%nat → answer_at (Z.of_nat k) ≠ None) ∧
    (((n < 5)%nat ∧
      answer_at (Z.of_nat n) = None ∧
      steps = failed_passes 0 n answer_at ++ (attempt (Z.of_nat n) None).1) ∨
     (n = 5%nat ∧
      steps = failed_passes 0 5 answer_at
              ++ [Error "[Main] 无法连接到 Antigravity"; Exit 1])).
Proof.
  destruct (connect_loop_spec answer_at 5 0) as (c & steps & E & n & Hn & Hall & H);
    [lia..|].
  unfold connect_phase. rewrite E.
  destruct H as [(-> & Hlt & Hnone & ->)|(-> & -> & ->)]; cbn [negb].
  - eexists _, n. split; [reflexivity|]. split; [done|]. split; [done|]. by left.
  - eexists _, 5%nat. split; [reflexivity|]. split; [done|]. split; [done|].
    by right.
Qed.

(** The page is there at the third call. *)
Example connects_at_third_call :
  connect_phase 5 third_time =
  Some [AutoConnect (Some "没有找到可用页面");
        Error "[Main] 连接失败: 没有找到可用页面";
        Log "[Main] 第 1 次重试..."; Wait 2000;
        AutoConnect (Some "没有找到可用页面");
        Error "[Main] 连接失败: 没有找到可用页面";
        Log "[Main] 第 2 次重试..."; Wait 2000;
        AutoConnect None].
Proof. by vm_compute. Qed.

End MainFacts.
